(** * TIAZip exporter (Atari 2600): a shallow embedding and its properties

    The development follows [src/engine/export/atari2600Export.cpp] (the
    TIAZip part: code emitter, span compressor, control-flow rewriter,
    validator) and [huffman.cpp] / [huffman.h] (bitstream and Huffman tree
    construction).

    Conventions.
    - An [AlphaCode] is a 64-bit word, carried as a [Z].
    - [size_t] indices are [nat]; [std::vector] is [list], read with the
      total lookup [!!!] and written with [<[i:=x]>]; a read the source
      does not guard is noted where it can leave the vector.
    - [std::map<size_t,size_t>] is an association list kept sorted by key,
      because the source iterates it in key order.
    - [assert] and [while (true)] are made explicit by the result type
      [res]: [Abort] is a failed assertion, [Timeout] is exhausted fuel. *)

From Stdlib Require Import ZArith Lia Bool.
From stdpp Require Import base list sorting gmap.

Local Open Scope Z_scope.

(** ** AlphaCode words *)

Module Code.

Abbreviation AlphaCode := Z.

(** [enum CODE_TYPE] *)
Inductive CODE_TYPE :=
  | STOP | WRITE_DELTA | PAUSE | SUSTAIN | JUMP | BRANCH_POINT | SKIP
  | TAKE_DATA_JUMP | TAKE_TRACK_JUMP | RETURN_LAST | RETURN_FF | RETURN_NOOP.

Definition tag (t : CODE_TYPE) : Z :=
  match t with
  | STOP => 0 | WRITE_DELTA => 1 | PAUSE => 2 | SUSTAIN => 3 | JUMP => 4
  | BRANCH_POINT => 5 | SKIP => 6 | TAKE_DATA_JUMP => 7
  | TAKE_TRACK_JUMP => 8 | RETURN_LAST => 9 | RETURN_FF => 10
  | RETURN_NOOP => 11
  end.

(** [enum CHANGE_STATE] *)
Inductive CHANGE_STATE := NOOP | CHANGE.

Definition change (c : CHANGE_STATE) : Z :=
  match c with NOOP => 0 | CHANGE => 1 end.

(** Truncation to 64 bits, the width of [AlphaCode]. *)
Definition u64 (z : Z) : Z := z mod 2 ^ 64.

Definition CODE_WRITE_DELTA (cc : CHANGE_STATE) (cx : Z) (fc : CHANGE_STATE)
    (fx : Z) (vc : CHANGE_STATE) (vx : Z) (duration : Z) : AlphaCode :=
  Z.lor (Z.lor (Z.lor (Z.lor (Z.lor (Z.lor (Z.lor
    (Z.shiftl (tag WRITE_DELTA) 56)
    (Z.shiftl (change cc) 48))
    (Z.shiftl cx 40))
    (Z.shiftl (change fc) 32))
    (Z.shiftl fx 24))
    (Z.shiftl (change vc) 16))
    (Z.shiftl vx 8))
    duration.

Definition CODE_PAUSE (duration : Z) : AlphaCode :=
  Z.lor (Z.shiftl (tag PAUSE) 56) duration.

Definition CODE_SUSTAIN (duration : Z) : AlphaCode :=
  Z.lor (Z.shiftl (tag SUSTAIN) 56) duration.

Definition CODE_STOP : AlphaCode := Z.shiftl (tag STOP) 56.
Definition CODE_BRANCH_POINT : AlphaCode :=
  Z.lor (Z.shiftl (tag BRANCH_POINT) 56) 0.
Definition CODE_SKIP : AlphaCode := Z.lor (Z.shiftl (tag SKIP) 56) 0.
Definition CODE_TAKE_DATA_JUMP : AlphaCode := Z.shiftl (tag TAKE_DATA_JUMP) 56.
Definition CODE_TAKE_TRACK_JUMP : AlphaCode :=
  Z.shiftl (tag TAKE_TRACK_JUMP) 56.
Definition CODE_RETURN_LAST : AlphaCode := Z.shiftl (tag RETURN_LAST) 56.
Definition CODE_RETURN_FF : AlphaCode := Z.shiftl (tag RETURN_FF) 56.
Definition CODE_RETURN_NOOP : AlphaCode := Z.shiftl (tag RETURN_NOOP) 56.

(** [subsong] and [channel] are [int]s converted to [AlphaCode] before the
    shift; [address] is a [size_t]. *)
Definition CODE_JUMP (subsong channel : Z) (address : nat) : AlphaCode :=
  Z.lor (Z.lor (Z.lor
    (u64 (Z.shiftl (tag JUMP) 56))
    (u64 (Z.shiftl (u64 subsong) 48)))
    (u64 (Z.shiftl (u64 channel) 40)))
    (Z.of_nat address).

Definition GET_CODE_JUMP_ADDRESS (c : AlphaCode) : nat :=
  Z.to_nat (Z.land c 0x1fff).

(** The source casts [code >> 56] to the enum; the embedding keeps the
    integer and compares it with [tag]. *)
Definition GET_CODE_TYPE (code : AlphaCode) : Z := Z.shiftr code 56.

Definition is_type (t : CODE_TYPE) (c : AlphaCode) : bool :=
  GET_CODE_TYPE c =? tag t.

End Code.

Import Code.

(** ** The code emitter, [encodeChannelStateCodes] *)

Module Emitter.

(** Modelled from the spec: [ChannelState] is declared in [registerDump.h],
    which is not among the sources; the data model gives it as three 8-bit
    registers (control, frequency, volume), read in the source as
    [registers[0]], [registers[1]] and [registers[2]]. *)
Record ChannelState := mkChannelState {
  control : Z;
  frequency : Z;
  volume : Z
}.

Definition is_u8 (z : Z) : Prop := 0 <= z < 256.

Definition wf_state (s : ChannelState) : Prop :=
  is_u8 (control s) /\ is_u8 (frequency s) /\ is_u8 (volume s).

Definition changed (a b : Z) : CHANGE_STATE :=
  if a =? b then NOOP else CHANGE.

Definition is_change (c : CHANGE_STATE) : bool :=
  match c with NOOP => false | CHANGE => true end.

(** The trailing [while (framecount > 0)] loop.  Every iteration lowers
    [framecount] by at least one, so [Z.to_nat framecount] rounds are
    enough; [sustain_loop_done] below shows nothing is left over. *)
Fixpoint sustain_loop (fuel : nat) (framecount : Z) (out : list AlphaCode)
    (codesWritten : nat) : Z * list AlphaCode * nat :=
  match fuel with
  | O => (framecount, out, codesWritten)
  | S fuel' =>
      if 0 <? framecount then
        let dx := if 16 <? framecount then 16 else framecount in
        sustain_loop fuel' (framecount - dx) (out ++ [CODE_SUSTAIN dx])
                     (S codesWritten)
      else (framecount, out, codesWritten)
  end.

(** The leading opcode, if any: the [if (audvx == 0) ... else if ...]. *)
Definition leading (next last : ChannelState) : list AlphaCode :=
  let audcx := control next in
  let cc := changed audcx (control last) in
  let audfx := frequency next in
  let fc := changed audfx (frequency last) in
  let audvx := volume next in
  let vc := changed audvx (volume last) in
  let audvx :=
    if audvx =? volume last + 1 then 0x10
    else if volume last =? audvx + 1 then 0xf0
    else audvx in
  let dx := 1 in
  let fc := if is_change cc then CHANGE else fc in
  let vc := if is_change cc then CHANGE else vc in
  if audvx =? 0 then [CODE_PAUSE dx]
  else if 0 <? change cc + change fc + change vc then
    [CODE_WRITE_DELTA
       cc (if is_change cc then audcx else 0)
       fc (if is_change fc then audfx else 0)
       vc (if is_change vc then audvx else 0)
       dx]
  else [].

(** The parameter [duration] is a [const char].  The argument of a call
    is converted to [char], whose values are -128..127 where [char] is
    signed and 0..255 where it is not; the conversion keeps the value
    modulo 256.  [char_of char_signed n] is what the parameter holds for
    an argument of value [n]. *)
Definition char_of (char_signed : bool) (n : Z) : Z :=
  if char_signed then (n + 128) mod 256 - 128 else n mod 256.

(** The body of the function, for the value [duration] that the
    [const char] parameter holds. *)
Definition encodeChannelStateCodes (next : ChannelState) (duration : Z)
    (last : ChannelState) (out : list AlphaCode) : nat * list AlphaCode :=
  let framecount := if 0 <? duration then duration else 1 in
  let dx := 1 in
  let framecount := framecount - dx in
  let lead := leading next last in
  let '(_, out', codesWritten) :=
    sustain_loop (Z.to_nat framecount) framecount (out ++ lead)
                 (length lead) in
  (codesWritten, out').

(** The codes one call appends. *)
Definition emitted (next : ChannelState) (duration : Z) (last : ChannelState)
    : list AlphaCode :=
  snd (encodeChannelStateCodes next duration last []).

(** The codes appended by a call [encodeChannelStateCodes(next, n, last,
    out)] whose second argument has the value [n]. *)
Definition encode_call (char_signed : bool) (next : ChannelState) (n : Z)
    (last : ChannelState) : list AlphaCode :=
  emitted next (char_of char_signed n) last.

(** What the residual becomes: full [SUSTAIN(16)]s, then the remainder. *)
Definition sustains (framecount : Z) : list AlphaCode :=
  if 0 <? framecount then
    replicate (Z.to_nat (framecount / 16)) (CODE_SUSTAIN 16)
    ++ (if 0 <? framecount mod 16 then [CODE_SUSTAIN (framecount mod 16)]
        else [])
  else [].

Definition residual (duration : Z) : Z :=
  (if 0 <? duration then duration else 1) - 1.

(** Durations carried by [sustains]. *)
Definition sustain_durations (fc : Z) : list Z :=
  if 0 <? fc then
    replicate (Z.to_nat (fc / 16)) 16
    ++ (if 0 <? fc mod 16 then [fc mod 16] else [])
  else [].

(** The interval of scenario S2: 128 frames of (c=4, f=10, v=8) entered from
    the all-zero initial state. *)
Definition tone : ChannelState := mkChannelState 4 10 8.
Definition silent : ChannelState := mkChannelState 0 0 0.

End Emitter.

(** ** Outcomes of code with assertions and unbounded loops *)

Inductive res (A : Type) : Type :=
  | Ok (a : A)      (* ran to completion *)
  | Abort           (* an [assert] failed *)
  | Undefined       (* the C++ standard gives the operation no meaning *)
  | Timeout.        (* the fuel of the embedding ran out *)
Arguments Ok {A} a.
Arguments Abort {A}.
Arguments Undefined {A}.
Arguments Timeout {A}.

#[global] Instance res_bind : MBind res := fun A B f r =>
  match r with
  | Ok a => f a
  | Abort => Abort
  | Undefined => Undefined
  | Timeout => Timeout
  end.

#[global] Instance res_ret : MRet res := fun A a => Ok a.

(** ** The bit stream of [huffman.h] / [huffman.cpp] *)

Module Bits.

(** [buffer] holds 64-bit words.  The constructor leaves it uninitialised,
    so its content is a field like any other. *)
Record Bitstream := mkBitstream {
  buffer : list Z;
  capacity : nat;
  pos : nat;
  endPos : nat
}.

Definition word (bs : Bitstream) (address : nat) : Z :=
  buffer bs !!! address.

(** [unsigned char Bitstream::readByte()]: the byte returned and the stream
    with its cursor moved.  Shifts of [uint64_t] wrap at 64 bits, the
    result is narrowed to [unsigned char]. *)
Definition readByte (bs : Bitstream) : Z * Bitstream :=
  let s := (pos bs mod 64)%nat in
  let address := (pos bs / 64)%nat in
  let pos' := (pos bs + 8)%nat in
  let next := (pos' / 64)%nat in
  let result := Z.land (Z.shiftr (word bs address) (Z.of_nat s)) 0xff in
  let result :=
    if (address <? next)%nat then
      let s := (8 - pos' mod 64)%nat in
      Z.lor result
        (Z.land (u64 (Z.shiftl (word bs address) (Z.of_nat s))) 0xff)
    else result in
  (result,
   mkBitstream (buffer bs) (capacity bs) pos' (endPos bs)).

(** [uint64_t mask = 1 << s;] shifts the [int] constant [1].  For [s < 31]
    the value is [2^s]; for [s = 31] the [int] result is [INT_MIN], which
    converts to a word with bits 31..63 set; for [s >= 32] the shift count
    reaches the width of [int] and the expression has no defined value. *)
Definition int_mask (s : nat) : res Z :=
  if (s <? 31)%nat then Ok (2 ^ Z.of_nat s)
  else if (s =? 31)%nat then Ok 0xFFFFFFFF80000000
  else Undefined.

(** [void Bitstream::writeBit(bool bit)] *)
Definition writeBit (bit : bool) (bs : Bitstream) : res Bitstream :=
  if negb (pos bs <? capacity bs)%nat then Abort else
  let s := (pos bs mod 64)%nat in
  let address := (pos bs / 64)%nat in
  mask ← int_mask s;
  let w := word bs address in
  let w' := if bit then Z.lor w mask
            else Z.land w (u64 (Z.lnot mask)) in
  let pos' := S (pos bs) in
  Ok (mkBitstream (<[address := w']> (buffer bs)) (capacity bs) pos'
        (if (endPos bs <? pos')%nat then pos' else endPos bs)).



(** The bit at stream position [k]: bit [k mod 64] of word [k / 64]. *)
Definition stream_bit (bs : Bitstream) (k : nat) : bool :=
  Z.testbit (word bs (k / 64)) (Z.of_nat (k mod 64)).

(** The eight bits from position [p] on, the first one least significant. *)
Definition byte_at (bs : Bitstream) (p : nat) : Z :=
  foldr (fun k acc => Z.b2z (stream_bit bs (p + k)) + 2 * acc) 0
        (seq 0 8).


(** The buffer has a word for every position below the capacity. *)
Definition wf_stream (bs : Bitstream) : Prop :=
  (capacity bs <= 64 * length (buffer bs))%nat.

(** A stream whose read of the byte at bit 60 straddles words 0 and 1. *)
Definition straddle : Bitstream := mkBitstream [0xF; 0] 128 60 128.

(** An empty stream of one word. *)
Definition fresh : Bitstream := mkBitstream [0] 64 0 0.


End Bits.

(** ** Huffman tree construction, [buildHuffmanTree] *)

Module Huffman.

(** [struct HuffmanTree]: a leaf owns a code and a weight, an inner node
    owns two children; its code is 0, its weight the sum of the children's
    weights and its depth one more than the deeper child's.

    The field [parent] is NULL in a leaf as it is constructed, and is set
    in a node when it becomes the child of another.  The two-argument
    constructor does not initialise it: until an inner node becomes a
    child its [parent] holds what the allocation left there.  As with the
    buffer of a [Bitstream], that content is a field like any other:
    [stray] tells that it is not NULL.  Once a node is a child its
    [parent] is the node above it, whatever [stray] was. *)
Inductive HuffmanTree :=
  | Leaf (code : AlphaCode) (weight : nat)
  | Node (left right : HuffmanTree) (stray : bool).

Definition code (t : HuffmanTree) : AlphaCode :=
  match t with Leaf c _ => c | Node _ _ _ => 0 end.

Fixpoint weight (t : HuffmanTree) : nat :=
  match t with
  | Leaf _ w => w
  | Node l r _ => (weight l + weight r)%nat
  end.

Fixpoint depth (t : HuffmanTree) : nat :=
  match t with
  | Leaf _ _ => O
  | Node l r _ =>
      S (if (depth r <? depth l)%nat then depth l else depth r)
  end.

(** [t->parent == NULL], for a tree that is not the child of another. *)
Definition parent_null (t : HuffmanTree) : bool :=
  match t with
  | Leaf _ _ => true
  | Node _ _ stray => negb stray
  end.

(** [CompareHuffmanTreeWeights::operator()] *)
Definition compare_weights (a b : HuffmanTree) : bool :=
  if negb (weight a =? weight b)%nat then (weight b <? weight a)%nat
  else code a <? code b.

(** A [std::priority_queue] with that comparison is kept as the list of
    its elements; [top()] followed by [pop()] gives an element and the
    elements left, or nothing for an empty queue. *)
Abbreviation queue :=
  (list HuffmanTree -> option (HuffmanTree * list HuffmanTree)).

(** What the library promises of [top()] and [pop()]: the element taken is
    one that the comparison puts below no other, and the others stay.
    Which one it is among elements the comparison does not tell apart is
    the library's choice. *)
Definition queue_order (pop : queue) : Prop :=
  forall heap,
    match pop heap with
    | None => heap = []
    | Some (x, rest) =>
        heap ≡ₚ x :: rest /\
        Forall (fun y => compare_weights x y = false) rest
    end.

(** One such queue, used where an example is run: among the elements the
    comparison does not tell apart it takes the one nearest the head.  The
    examples [two_codes] and [three_codes] below never have two such
    elements on the heap, so every queue takes the same elements there. *)
Fixpoint extract_top (heap : list HuffmanTree)
    : option (HuffmanTree * list HuffmanTree) :=
  match heap with
  | [] => None
  | x :: heap' =>
      match extract_top heap' with
      | None => Some (x, [])
      | Some (y, rest) =>
          if compare_weights x y then Some (y, x :: rest)
          else Some (x, heap')
      end
  end.

Abbreviation frequencies := (list (AlphaCode * nat)).

(** The first loop: codes seen once go to the literal bucket, the others
    get a leaf. *)
Fixpoint load (frequencyMap : frequencies) (heap : list HuffmanTree)
    (literal_weight : nat) : list HuffmanTree * nat :=
  match frequencyMap with
  | [] => (heap, literal_weight)
  | (c, n) :: rest =>
      if (n =? 1)%nat then load rest heap (literal_weight + 1)%nat
      else load rest (Leaf c n :: heap) literal_weight
  end.

Section Queue.

(** The queue of the run, and what the inner nodes find in their
    [parent] when they are allocated: [stray_of k] for the inner node
    made after [k] others. *)
Variable pop : queue.
Variable stray_of : nat -> bool.

(** [while (heap.size() > limit)]: every round pops one element. *)
Fixpoint cull (fuel : nat) (limit : nat) (heap : list HuffmanTree)
    (literal_weight : nat) : res (list HuffmanTree * nat) :=
  if (limit <? length heap)%nat then
    match fuel with
    | O => Timeout
    | S fuel' =>
        match pop heap with
        | None => Undefined
        | Some (node, heap') =>
            cull fuel' limit heap' (literal_weight + weight node)%nat
        end
    end
  else Ok (heap, literal_weight).

(** [while (heap.size() > 1)]: every round replaces two elements by one,
    [made] inner nodes having been made before.  The constructor of the
    new node runs [assert(left->parent == NULL)], sets [left->parent], and
    does the same for [right]. *)
Fixpoint merge (fuel : nat) (made : nat) (heap : list HuffmanTree)
    : res (list HuffmanTree) :=
  if (1 <? length heap)%nat then
    match fuel with
    | O => Timeout
    | S fuel' =>
        match pop heap with
        | None => Undefined
        | Some (l, heap') =>
            match pop heap' with
            | None => Undefined
            | Some (r, heap'') =>
                if negb (parent_null l) then Abort
                else if negb (parent_null r) then Abort
                else merge fuel' (S made)
                           (Node l r (stray_of made) :: heap'')
            end
        end
    end
  else Ok heap.

(** [HuffmanTree *buildHuffmanTree(frequencyMap, limit, literal)].  The
    final [heap.top()] of an empty queue has no defined value. *)
Definition buildHuffmanTree (frequencyMap : frequencies) (limit : nat)
    (literal : AlphaCode) : res HuffmanTree :=
  let '(heap, literal_weight) := load frequencyMap [] O in
  '(heap, literal_weight) ← cull (length heap) limit heap literal_weight;
  let heap :=
    if (0 <? literal_weight)%nat then Leaf literal literal_weight :: heap
    else heap in
  heap ← merge (length heap) O heap;
  match pop heap with
  | None => Undefined
  | Some (t, _) => Ok t
  end.

End Queue.

(** The leaves of a tree, as (code, weight) pairs. *)
Fixpoint leaves (t : HuffmanTree) : frequencies :=
  match t with
  | Leaf c w => [(c, w)]
  | Node l r _ => leaves l ++ leaves r
  end.

Definition total (fm : frequencies) : nat :=
  foldr (fun p acc => (snd p + acc)%nat) O fm.

(** Codes seen more than once (or, degenerately, never). *)
Definition repeated (fm : frequencies) : frequencies :=
  filter (fun p => snd p <> 1%nat) fm.

Definition once (fm : frequencies) : frequencies :=
  filter (fun p => snd p = 1%nat) fm.

Definition leaf_of (p : AlphaCode * nat) : HuffmanTree := Leaf (fst p) (snd p).

Definition heap_leaves (heap : list HuffmanTree) : frequencies :=
  heap ≫= leaves.

Definition heap_weight (heap : list HuffmanTree) : nat :=
  foldr (fun t acc => (weight t + acc)%nat) O heap.

(** The inner nodes that become the child of another when a heap of [h]
    elements is merged: all but the last one made.  [strays] tells whether
    one of them finds a [parent] that is not NULL. *)
Definition strays (stray_of : nat -> bool) (h : nat) : bool :=
  existsb stray_of (seq 0 (h - 2)).

(** Allocations that leave NULL in every [parent]. *)
Definition clean : nat -> bool := fun _ => false.

(** Allocations of which the first leaves something else. *)
Definition dirty : nat -> bool := fun k => (k =? 0)%nat.

(** Two codes, one of them seen once; far below any limit. *)
Definition two_codes : frequencies := [(5, 1%nat); (7, 3%nat)].

(** Three codes seen more than once. *)
Definition three_codes : frequencies :=
  [(5, 2%nat); (7, 3%nat); (9, 4%nat)].

End Huffman.

(** ** The span compressor and control-flow rewriter, [compressCodeSequence],
       and the validator, [validateCodeSequence] *)

Module Zip.

Local Open Scope nat_scope.

Abbreviation AlphaChar := Z.

(** [struct Span]; the field [length] is called [span_length] here. *)
Record Span := mkSpan {
  span_subsong : Z;
  span_channel : Z;
  span_start : nat;
  span_length : nat
}.

(** One [std::map<size_t, size_t>]: (successor, count) pairs in increasing
    order of successor. *)
Abbreviation table := (list (nat * nat)).

(** [m[k]++] on such a map. *)
Fixpoint bump (k : nat) (m : table) : table :=
  match m with
  | [] => [(k, 1)]
  | (k', c) :: m' =>
      if k <? k' then (k, 1) :: m
      else if k =? k' then (k', S c) :: m'
      else (k', c) :: bump k m'
  end.

(** [branchFrequencyMap[a][b]++] *)
Definition bump_at (a b : nat) (bfm : list table) : list table :=
  alter (bump b) a bfm.

Record ParseState := mkParse {
  ps_i : nat;
  copyMap : list nat;
  branchFrequencyMap : list table;
  spans : list Span;
  currentSpan : Span
}.

(** The inner loop of the back-reference case,
    [for (j = nextSpan.start; j < nextSpanEnd; j++, i++)], with [count]
    rounds left. *)
Fixpoint copy_span (count : nat) (j i : nat) (copyMap : list nat)
    (bfm : list table) : nat * list nat * list table :=
  match count with
  | O => (i, copyMap, bfm)
  | S count' =>
      let nextCodeAddr := copyMap !!! j in
      let copyMap := <[i := nextCodeAddr]> copyMap in
      let bfm :=
        if 0 <? i then
          let lastCodeAddr := copyMap !!! (i - 1) in
          bump_at lastCodeAddr nextCodeAddr bfm
        else bfm in
      copy_span count' (S j) (S i) copyMap bfm
  end.

Definition span_grow (s : Span) : Span :=
  mkSpan (span_subsong s) (span_channel s) (span_start s)
         (S (span_length s)).

Definition push_span (s : Span) (l : list Span) : list Span :=
  if 0 <? span_length s then l ++ [s] else l.

Section Compressor.

(** The suffix tree ([suffixTree.h], [createSuffixTree], [find_prior]) and
    the alphabet index ([createAlphabet]) are not among the sources.  The
    compressor is given the index as a function from codes to characters
    and [find_prior] as a function from a position and the character
    sequence to the start and length it leaves in [nextSpan]. *)
Variable index : AlphaCode -> AlphaChar.
Variable find_prior : nat -> list AlphaChar -> nat * nat.

Variable subsong channel : Z.
Variable codeSequence : list AlphaCode.

Definition alphaSequence : list AlphaChar := index <$> codeSequence.

(** The body of the greedy loop
    [for (size_t i = 0; i < alphaSequence.size(); )]. *)
Definition parse_step (st : ParseState) : ParseState :=
  let i := ps_i st in
  let '(s, l) := find_prior i alphaSequence in
  let nextSpan := mkSpan subsong channel s l in
  if 3 <? span_length nextSpan then
    let spans := push_span (currentSpan st) (spans st) in
    let spans := spans ++ [nextSpan] in
    let '(i', copyMap, bfm) :=
      copy_span (span_length nextSpan) (span_start nextSpan) i
                (copyMap st) (branchFrequencyMap st) in
    mkParse i' copyMap bfm spans (mkSpan subsong channel i' 0)
  else
    let bfm :=
      if 0 <? i then
        let lastCodeAddr := copyMap st !!! (i - 1) in
        bump_at lastCodeAddr i (branchFrequencyMap st)
      else branchFrequencyMap st in
    mkParse (S i) (<[i := i]> (copyMap st)) bfm (spans st)
            (span_grow (currentSpan st)).

(** [k] rounds of the loop, or fewer if it ends before. *)
Fixpoint parse_loop (k : nat) (st : ParseState) : ParseState :=
  match k with
  | O => st
  | S k' =>
      if ps_i st <? length alphaSequence then parse_loop k' (parse_step st)
      else st
  end.

Definition parse_init : ParseState :=
  let n := length alphaSequence in
  mkParse 0 (replicate n 0) (replicate n []) []
          (mkSpan subsong channel 0 0).

(** The whole parse.  Every round moves [i] forward, so [n] rounds are
    enough ([parse_completes] below); the last pending literal span is
    pushed at the end. *)
Definition parse : res ParseState :=
  let st := parse_loop (length alphaSequence) parse_init in
  if ps_i st <? length alphaSequence then Timeout
  else Ok (mkParse (ps_i st) (copyMap st) (branchFrequencyMap st)
                   (push_span (currentSpan st) (spans st))
                   (currentSpan st)).

(** The scan of one branch table in the "prune" loop. *)
Definition skip_index (branchFrequencies : table) (nextIndex : nat)
    (skipIndex : nat) : nat :=
  snd (foldl (fun acc x =>
                if negb (fst x =? nextIndex) && (fst acc <? snd x)
                then (snd x, fst x) else acc)
             (0, skipIndex) branchFrequencies).

(** [skipMap].  For the last [i] the source reads [copyMap[i + 1]] past the
    end of the vector; the total lookup gives 0 there.  That entry is never
    used. *)
Definition make_skipMap (copyMap : list nat) (bfm : list table) : list nat :=
  imap (fun i t => skip_index t (i + 1) (copyMap !!! (i + 1))) bfm.

Record EmitState := mkEmit {
  es_end : nat;
  labels : list nat;
  compressedCodeSequence : list AlphaCode;
  spanSequence : list AlphaCode
}.

Section Emit.

Variable copyMap : list nat.
Variable bfm : list table.
Variable skipMap : list nat.

(** The body of [for (size_t i = span.start; i < spanEnd; i++)].  The
    boolean tells whether the loop was left by [break]. *)
Definition emit_body (i : nat) (repeatSpan : bool) (st : EmitState)
    : res (bool * EmitState) :=
  let leftmostCodeAddr := copyMap !!! es_end st in
  let c := codeSequence !!! i in
  if negb repeatSpan && (c =? CODE_STOP)%Z then
    Ok (true,
        mkEmit (es_end st)
               (<[i := length (compressedCodeSequence st)]> (labels st))
               (compressedCodeSequence st ++ [CODE_BRANCH_POINT])
               (spanSequence st ++ [CODE_STOP]))
  else
    let labels :=
      if negb repeatSpan
      then <[i := length (compressedCodeSequence st)]> (labels st)
      else labels st in
    let data :=
      if negb repeatSpan then compressedCodeSequence st ++ [c]
      else compressedCodeSequence st in
    let end' := S (es_end st) in
    if negb (end' <? length copyMap) then Abort else
    let nextCodeAddress := copyMap !!! end' in
    let branchTable := bfm !!! leftmostCodeAddr in
    if (nextCodeAddress =? leftmostCodeAddr + 1)
       && (length branchTable <? 2)
    then Ok (false, mkEmit end' labels data (spanSequence st))
    else
      let skipCodeAddress := skipMap !!! leftmostCodeAddr in
      let data :=
        if negb repeatSpan then
          data ++ [if length branchTable <? 2 then CODE_TAKE_DATA_JUMP
                   else CODE_BRANCH_POINT;
                   CODE_JUMP subsong channel skipCodeAddress]
        else data in
      let span :=
        if 1 <? length branchTable then
          if nextCodeAddress =? skipCodeAddress then
            spanSequence st ++ [CODE_TAKE_DATA_JUMP]
          else if nextCodeAddress =? leftmostCodeAddr + 1 then
            spanSequence st ++ [CODE_SKIP]
          else
            spanSequence st
              ++ [CODE_TAKE_TRACK_JUMP;
                  CODE_JUMP subsong channel nextCodeAddress]
        else spanSequence st in
      Ok (false, mkEmit end' labels data span).

(** The traversal of one span, [count] positions left. *)
Fixpoint emit_span (count : nat) (i : nat) (repeatSpan : bool)
    (st : EmitState) : res EmitState :=
  match count with
  | O => Ok st
  | S count' =>
      '(stop, st') ← emit_body i repeatSpan st;
      if stop : bool then Ok st' else emit_span count' (S i) repeatSpan st'
  end.

(** [for (auto &span: spans)] *)
Fixpoint emit_spans (spans : list Span) (st : EmitState) : res EmitState :=
  match spans with
  | [] => Ok st
  | span :: rest =>
      let repeatSpan := span_start span <? es_end st in
      st' ← emit_span (span_length span) (span_start span) repeatSpan st;
      emit_spans rest st'
  end.

End Emit.

(** "rewrite jump addresses": positions become offsets in the data stream. *)
Definition relabel (labels : list nat) (c : AlphaCode) : AlphaCode :=
  if is_type JUMP c
  then CODE_JUMP subsong channel (labels !!! GET_CODE_JUMP_ADDRESS c)
  else c.

Fixpoint relabel_span (labels : list nat) (s : list AlphaCode)
    : res (list AlphaCode) :=
  match s with
  | [] => Ok []
  | c :: rest =>
      if is_type JUMP c then
        rest' ← relabel_span labels rest;
        Ok (CODE_JUMP subsong channel (labels !!! GET_CODE_JUMP_ADDRESS c)
            :: rest')
      else if is_type WRITE_DELTA c then Abort
      else rest' ← relabel_span labels rest; Ok (c :: rest')
  end.

(** The registers of the decoder, as the last pass and the validator keep
    them. *)
Record Regs := mkRegs {
  maxOffset : nat;
  returnAddress : nat;
  nextReadAddress : nat;
  nextSpanAddress : nat
}.

Definition jump_from (r : Regs) (ret target : nat) (nsa : nat) : Regs :=
  mkRegs (if maxOffset r <=? ret then ret else maxOffset r) ret target nsa.

(** "rewrite jumps as returns where possible": the [while (true)] loop,
    which replays the two streams and patches the span stream. *)
Fixpoint returns_loop (fuel : nat) (data : list AlphaCode) (r : Regs)
    (span : list AlphaCode) : res (list AlphaCode) :=
  match fuel with
  | O => Timeout
  | S fuel' =>
      if negb (nextReadAddress r <? length data) then Abort else
      let c := data !!! nextReadAddress r in
      let nra := S (nextReadAddress r) in
      if (c =? CODE_TAKE_DATA_JUMP)%Z then
        match data !! nra with
        | None => Undefined
        | Some c =>
            returns_loop fuel' data
              (jump_from r (S nra) (GET_CODE_JUMP_ADDRESS c)
                         (nextSpanAddress r))
              span
        end
      else if negb (c =? CODE_BRANCH_POINT)%Z then
        returns_loop fuel' data
          (mkRegs (maxOffset r) (returnAddress r) nra (nextSpanAddress r))
          span
      else
        if negb (nextSpanAddress r <? length span) then Abort else
        let s := span !!! nextSpanAddress r in
        let nsa := S (nextSpanAddress r) in
        if (s =? CODE_STOP)%Z then Ok span
        else if (s =? CODE_SKIP)%Z then
          returns_loop fuel' data
            (mkRegs (maxOffset r) (returnAddress r) (S nra) nsa) span
        else if (s =? CODE_TAKE_DATA_JUMP)%Z then
          match data !! nra with
          | None => Undefined
          | Some c =>
              returns_loop fuel' data
                (jump_from r (S nra) (GET_CODE_JUMP_ADDRESS c) nsa) span
          end
        else if (s =? CODE_RETURN_FF)%Z then
          returns_loop fuel' data
            (mkRegs (maxOffset r) (returnAddress r) (maxOffset r) (S nsa))
            span
        else if (s =? CODE_RETURN_LAST)%Z then
          returns_loop fuel' data
            (mkRegs (maxOffset r) (returnAddress r) (returnAddress r)
                    (S nsa))
            span
        else if (s =? CODE_TAKE_TRACK_JUMP)%Z then
          match span !! nsa with
          | None => Undefined
          | Some s =>
              if negb (is_type JUMP s) then Abort else
              let jumpAddress := GET_CODE_JUMP_ADDRESS s in
              if jumpAddress =? returnAddress r then
                returns_loop fuel' data
                  (mkRegs (maxOffset r) (returnAddress r) jumpAddress
                          (S nsa))
                  (<[nsa := CODE_RETURN_NOOP]>
                     (<[nsa - 1 := CODE_RETURN_LAST]> span))
              else if jumpAddress =? maxOffset r then
                returns_loop fuel' data
                  (mkRegs (maxOffset r) (returnAddress r) jumpAddress
                          (S nsa))
                  (<[nsa := CODE_RETURN_NOOP]>
                     (<[nsa - 1 := CODE_RETURN_FF]> span))
              else
                returns_loop fuel' data
                  (jump_from r (S nra) jumpAddress (S nsa)) span
          end
        else Abort
  end.

Definition regs_init : Regs := mkRegs 0 0 0 0.

(** [compressCodeSequence]: the data stream and the span stream.  [fuel]
    bounds the rounds of the last loop. *)
Definition compressCodeSequence (fuel : nat)
    : res (list AlphaCode * list AlphaCode) :=
  st ← parse;
  let copyMap := copyMap st in
  let bfm := branchFrequencyMap st in
  let skipMap := make_skipMap copyMap bfm in
  es ← emit_spans copyMap bfm skipMap (spans st)
       (mkEmit 0 (replicate (length alphaSequence) 0) [] []);
  let data := relabel (labels es) <$> compressedCodeSequence es in
  span ← relabel_span (labels es) (spanSequence es);
  span ← returns_loop fuel data regs_init span;
  Ok (data, span).

(** [validateCodeSequence]: the [while (true)] loop; [compareAddress] is
    carried next to the registers.  A mismatch is [assert(false)]. *)
Fixpoint validate_loop (fuel : nat) (data span : list AlphaCode)
    (r : Regs) (compareAddress : nat) : res nat :=
  match fuel with
  | O => Timeout
  | S fuel' =>
      match data !! nextReadAddress r with
      | None => Undefined
      | Some c =>
          if (c =? CODE_TAKE_DATA_JUMP)%Z then
            let nra := S (nextReadAddress r) in
            match data !! nra with
            | None => Undefined
            | Some c =>
                if negb (is_type JUMP c) then Abort else
                validate_loop fuel' data span
                  (jump_from r (S nra) (GET_CODE_JUMP_ADDRESS c)
                             (nextSpanAddress r))
                  compareAddress
            end
          else if is_type BRANCH_POINT c then
            let nra := S (nextReadAddress r) in
            if negb (nextSpanAddress r <? length span) then Abort else
            let s := span !!! nextSpanAddress r in
            let it := S (nextSpanAddress r) in
            if (s =? CODE_STOP)%Z then
              match codeSequence !! compareAddress with
              | None => Undefined
              | Some x =>
                  if negb (x =? CODE_STOP)%Z then Abort
                  else if negb (it =? length span) then Abort
                  else Ok (S compareAddress)
              end
            else if (s =? CODE_SKIP)%Z then
              validate_loop fuel' data span
                (mkRegs (maxOffset r) (returnAddress r) (S nra) it)
                compareAddress
            else if (s =? CODE_TAKE_DATA_JUMP)%Z then
              match data !! nra with
              | None => Undefined
              | Some c =>
                  if negb (is_type JUMP c) then Abort else
                  validate_loop fuel' data span
                    (jump_from r (S nra) (GET_CODE_JUMP_ADDRESS c) it)
                    compareAddress
              end
            else if (s =? CODE_RETURN_FF)%Z then
              validate_loop fuel' data span
                (mkRegs (maxOffset r) (returnAddress r) (maxOffset r)
                        (S it))
                compareAddress
            else if (s =? CODE_RETURN_LAST)%Z then
              validate_loop fuel' data span
                (mkRegs (maxOffset r) (returnAddress r) (returnAddress r)
                        (S it))
                compareAddress
            else if (s =? CODE_TAKE_TRACK_JUMP)%Z then
              match span !! it with
              | None => Undefined
              | Some s =>
                  validate_loop fuel' data span
                    (jump_from r (S nra) (GET_CODE_JUMP_ADDRESS s) (S it))
                    compareAddress
              end
            else Abort
          else
            match codeSequence !! compareAddress with
            | None => Undefined
            | Some x =>
                if negb (c =? x)%Z then Abort else
                validate_loop fuel' data span
                  (mkRegs (maxOffset r) (returnAddress r)
                          (S (nextReadAddress r)) (nextSpanAddress r))
                  (S compareAddress)
            end
      end
  end.

(** The validator succeeds when the loop ends on STOP and the final
    [assert(compareAddress == codeSequence.size())] holds. *)
Definition validateCodeSequence (fuel : nat) (data span : list AlphaCode)
    : res unit :=
  compareAddress ← validate_loop fuel data span regs_init 0;
  if compareAddress =? length codeSequence then Ok () else Abort.

End Compressor.

End Zip.

(** ** The query of the suffix tree *)

Module Suffix.
Import Zip.

Local Open Scope nat_scope.

(** Length of the longest common prefix. *)
Fixpoint match_length (a b : list AlphaChar) : nat :=
  match a, b with
  | x :: a', y :: b' => if (x =? y)%Z then S (match_length a' b') else O
  | _, _ => O
  end.

(** Candidates [j], [j+1], ... ([count] of them) against the target; [s] is
    the sequence from [j] on.  A later candidate replaces the best only if
    it is strictly longer. *)
Fixpoint scan (count : nat) (j : nat) (s target : list AlphaChar)
    (best : nat * nat) : nat * nat :=
  match count with
  | O => best
  | S count' =>
      let l := match_length s target in
      let best := if snd best <? l then (j, l) else best in
      scan count' (S j) (tail s) target best
  end.

(** Modelled from the spec: [SuffixTree::find_prior] is not among the
    sources.  The spec gives its contract: the longest prefix of
    [seq[i..]] that also begins at some position [j < i], with length 0 if
    there is none.  Here the earliest such [j] is taken. *)
Definition find_prior (i : nat) (seq : list AlphaChar) : nat * nat :=
  scan i 0 seq (drop i seq) (0, 0).

(** Modelled from the spec: [createAlphabet] is not among the sources; it
    numbers the distinct codes.  Any injective numbering serves; this one
    takes the code itself. *)
Definition index (c : AlphaCode) : AlphaChar := c.

End Suffix.

(** ** Notions used to state the properties of the compressor *)

Module ZipSpec.
Import Zip.

Local Open Scope nat_scope.

(** A branch table as [bump] builds it: keys strictly increasing, every
    count positive. *)
Definition wf_table (t : table) : Prop :=
  StronglySorted lt (fst <$> t) /\ Forall (fun x => 0 < snd x) t.

(** The contract of [find_prior] as far as the compressor relies on it: a
    span longer than 3 starts before [i], fits in the sequence and repeats
    the characters at [i]. *)
Definition sound_prior (find_prior : nat -> list AlphaChar -> nat * nat)
    (seq : list AlphaChar) : Prop :=
  forall i s l,
    i < length seq -> find_prior i seq = (s, l) -> 3 < l ->
    s < i /\ i + l <= length seq /\
    forall k, k < l -> seq !! (s + k) = seq !! (i + k).

(** The codes [encodeChannelStateCodes] produces. *)
Definition regular (c : AlphaCode) : Prop :=
  GET_CODE_TYPE c = tag WRITE_DELTA \/ GET_CODE_TYPE c = tag PAUSE \/
  GET_CODE_TYPE c = tag SUSTAIN.

(** A code sequence as [writeTrackDataTIAZip] builds it: regular codes and
    one final STOP. *)
Definition well_formed (codeSequence : list AlphaCode) : Prop :=
  exists body, codeSequence = body ++ [CODE_STOP] /\ Forall regular body.

(** The [repeatSpan] flag of every position, as the traversal of the spans
    computes it: [end > span.start], with [end] the number of positions
    traversed before the span. *)
Fixpoint span_flags (e : nat) (spans : list Span) : list bool :=
  match spans with
  | [] => []
  | sp :: rest =>
      replicate (span_length sp) (span_start sp <? e)
      ++ span_flags (e + span_length sp) rest
  end.

(** Position [p] was parsed as part of a literal span. *)
Definition literal_at (spans : list Span) (p : nat) : Prop :=
  span_flags 0 spans !! p = Some false.

(** The spans from position [e] on cover the positions up to [e']; a span
    that starts at the current position holds literal positions, a span
    that starts earlier holds copies. *)
Fixpoint cover (copyMap : list nat) (e : nat) (spans : list Span)
    (e' : nat) : Prop :=
  match spans with
  | [] => e = e'
  | sp :: rest =>
      ((span_start sp = e /\
        forall p, e <= p < e + span_length sp -> copyMap !!! p = p) \/
       (span_start sp < e /\
        forall p, e <= p < e + span_length sp -> copyMap !!! p < p)) /\
      cover copyMap (e + span_length sp) rest e'
  end.

(** The state of the scan after some entries: [m] bounds the counts of the
    candidates seen, and when it is positive [s] is the first candidate
    that reaches it. *)
Definition scanned (next dflt : nat) (seen : table) (acc : nat * nat)
    : Prop :=
  (forall k c, (k, c) ∈ seen -> k <> next -> c <= fst acc) /\
  (fst acc = 0 -> snd acc = dflt) /\
  (0 < fst acc ->
     (snd acc, fst acc) ∈ seen /\ snd acc <> next /\
     forall k c, (k, c) ∈ seen -> k <> next -> c = fst acc -> snd acc <= k).

Section Invariants.

Variable seq : list AlphaChar.

(** What holds of the positions below [i] once they are parsed: a copy map
    entry points to an earlier literal position with the same character,
    and every transition taken is in the table of its source. *)
Record good (i : nat) (cm : list nat) (bfm : list table) : Prop := {
  good_cm_len : length cm = length seq;
  good_bfm_len : length bfm = length seq;
  good_cm : forall p, p < i ->
    cm !!! p <= p /\ cm !!! (cm !!! p) = cm !!! p /\
    seq !! (cm !!! p) = seq !! p;
  good_wf : forall L, wf_table (bfm !!! L);
  good_succ : forall p, S p < i ->
    cm !!! (S p) ∈ (fst <$> (bfm !!! (cm !!! p)))
}.

(** The invariant of the greedy loop. *)
Record parse_inv (st : ParseState) : Prop := {
  inv_good : good (ps_i st) (copyMap st) (branchFrequencyMap st);
  inv_le : ps_i st <= length seq;
  inv_cur :
    span_start (currentSpan st) + span_length (currentSpan st) = ps_i st;
  inv_cover :
    cover (copyMap st) 0 (spans st) (span_start (currentSpan st));
  inv_lit : forall p,
    span_start (currentSpan st) <= p < ps_i st -> copyMap st !!! p = p
}.

End Invariants.

Arguments good_cm_len {seq i cm bfm}.
Arguments good_bfm_len {seq i cm bfm}.
Arguments good_cm {seq i cm bfm}.
Arguments good_wf {seq i cm bfm}.
Arguments good_succ {seq i cm bfm}.
Arguments inv_good {seq st}.
Arguments inv_le {seq st}.
Arguments inv_cur {seq st}.
Arguments inv_cover {seq st}.
Arguments inv_lit {seq st}.

Section Streams.

Variable subsong channel : Z.
Variable codeSequence : list AlphaCode.
Variable copyMap : list nat.
Variable bfm : list table.
Variable skipMap : list nat.

(** What the traversal appends to the data stream at position [e] (other
    than the final STOP): nothing for a copy; for a literal its code and,
    unless it simply falls through, a TAKE_DATA_JUMP or BRANCH_POINT with
    the jump to [skipMap]. *)
Definition body_data (e : nat) : list AlphaCode :=
  let L := copyMap !!! e in
  if L =? e then
    codeSequence !!! e ::
    (if (copyMap !!! S e =? L + 1) && (length (bfm !!! L) <? 2) then []
     else [if length (bfm !!! L) <? 2 then CODE_TAKE_DATA_JUMP
           else CODE_BRANCH_POINT;
           CODE_JUMP subsong channel (skipMap !!! L)])
  else [].

(** What it appends to the span stream at position [e]. *)
Definition body_span (e : nat) : list AlphaCode :=
  let L := copyMap !!! e in
  let N := copyMap !!! S e in
  if (N =? L + 1) && (length (bfm !!! L) <? 2) then []
  else if 1 <? length (bfm !!! L) then
    if N =? skipMap !!! L then [CODE_TAKE_DATA_JUMP]
    else if N =? L + 1 then [CODE_SKIP]
    else [CODE_TAKE_TRACK_JUMP; CODE_JUMP subsong channel N]
  else [].

Definition data_upto (e : nat) : list AlphaCode := seq 0 e ≫= body_data.
Definition span_upto (e : nat) : list AlphaCode := seq 0 e ≫= body_span.

(** The state of the traversal before position [e]. *)
Record emit_ok (e : nat) (st : EmitState) : Prop := {
  eo_end : es_end st = e;
  eo_data : compressedCodeSequence st = data_upto e;
  eo_span : spanSequence st = span_upto e;
  eo_len : length (labels st) = length copyMap;
  eo_labels : forall p, p < e -> copyMap !!! p = p ->
    labels st !!! p = length (data_upto p)
}.

(** The state of the traversal once the final STOP is written. *)
Record emit_done (st : EmitState) : Prop := {
  ed_data :
    compressedCodeSequence st
    = data_upto (length copyMap - 1) ++ [CODE_BRANCH_POINT];
  ed_span :
    spanSequence st = span_upto (length copyMap - 1) ++ [CODE_STOP];
  ed_len : length (labels st) = length copyMap;
  ed_labels : forall p, p < length copyMap -> copyMap !!! p = p ->
    labels st !!! p = length (data_upto p)
}.

End Streams.

(** The registers after a code that is not a control code. *)
Definition advance (r : Regs) : Regs :=
  mkRegs (maxOffset r) (returnAddress r) (S (nextReadAddress r))
         (nextSpanAddress r).

Section Replay.

Variable codeSequence : list AlphaCode.
Variable D S0 : list AlphaCode.

(** [A e] is the address in the data stream of the code of position [e];
    [sigma e] is the number of entries of the span stream consumed before
    position [e]. *)
Variable A sigma : nat -> nat.

(** How the decoder gets from position [e] to position [e + 1]. *)
Inductive link (e : nat) : Prop :=
  | link_fall :
      A (S e) = A e + 1 -> sigma (S e) = sigma e -> link e
  | link_goto (j : AlphaCode) :
      D !! (A e + 1) = Some CODE_TAKE_DATA_JUMP ->
      D !! (A e + 2) = Some j ->
      is_type JUMP j = true -> GET_CODE_JUMP_ADDRESS j = A (S e) ->
      sigma (S e) = sigma e -> link e
  | link_take (j : AlphaCode) :
      D !! (A e + 1) = Some CODE_BRANCH_POINT ->
      S0 !! sigma e = Some CODE_TAKE_DATA_JUMP ->
      D !! (A e + 2) = Some j ->
      is_type JUMP j = true -> GET_CODE_JUMP_ADDRESS j = A (S e) ->
      sigma (S e) = S (sigma e) -> link e
  | link_skip :
      D !! (A e + 1) = Some CODE_BRANCH_POINT ->
      S0 !! sigma e = Some CODE_SKIP ->
      A (S e) = A e + 3 ->
      sigma (S e) = S (sigma e) -> link e
  | link_track (j : AlphaCode) :
      D !! (A e + 1) = Some CODE_BRANCH_POINT ->
      S0 !! sigma e = Some CODE_TAKE_TRACK_JUMP ->
      S0 !! S (sigma e) = Some j ->
      is_type JUMP j = true -> GET_CODE_JUMP_ADDRESS j = A (S e) ->
      sigma (S e) = S (S (sigma e)) -> link e.

(** The two streams as the decoder needs them: every position but the last
    holds its code at its address and is linked to the next, the last is
    the BRANCH_POINT whose decision is STOP. *)
Record layout : Prop := {
  lay_start : A 0 = 0 /\ sigma 0 = 0;
  lay_code : forall e, S e < length codeSequence ->
    exists c, codeSequence !! e = Some c /\ D !! A e = Some c /\
              c <> CODE_TAKE_DATA_JUMP /\ is_type BRANCH_POINT c = false;
  lay_link : forall e, S e < length codeSequence -> link e;
  lay_stop : forall e, S e = length codeSequence ->
    codeSequence !! e = Some CODE_STOP /\
    D !! A e = Some CODE_BRANCH_POINT /\
    S0 !! sigma e = Some CODE_STOP /\
    length S0 = S (sigma e)
}.

End Replay.

(** Modelled from the spec: the decoder state machine, with the registers
    and the control flow [validateCodeSequence] gives it; every code that
    is not a control code is played, and the STOP decision ends the
    replay with the STOP code.  [fuel] bounds the rounds. *)
Fixpoint replay_loop (fuel : nat) (data span : list AlphaCode) (r : Regs)
    : res (list AlphaCode) :=
  match fuel with
  | O => Timeout
  | S fuel' =>
      match data !! nextReadAddress r with
      | None => Undefined
      | Some c =>
          if (c =? CODE_TAKE_DATA_JUMP)%Z then
            let nra := S (nextReadAddress r) in
            match data !! nra with
            | None => Undefined
            | Some c =>
                if negb (is_type JUMP c) then Abort else
                replay_loop fuel' data span
                  (jump_from r (S nra) (GET_CODE_JUMP_ADDRESS c)
                             (nextSpanAddress r))
            end
          else if is_type BRANCH_POINT c then
            let nra := S (nextReadAddress r) in
            if negb (nextSpanAddress r <? length span) then Abort else
            let s := span !!! nextSpanAddress r in
            let it := S (nextSpanAddress r) in
            if (s =? CODE_STOP)%Z then
              if negb (it =? length span) then Abort else Ok [CODE_STOP]
            else if (s =? CODE_SKIP)%Z then
              replay_loop fuel' data span
                (mkRegs (maxOffset r) (returnAddress r) (S nra) it)
            else if (s =? CODE_TAKE_DATA_JUMP)%Z then
              match data !! nra with
              | None => Undefined
              | Some c =>
                  if negb (is_type JUMP c) then Abort else
                  replay_loop fuel' data span
                    (jump_from r (S nra) (GET_CODE_JUMP_ADDRESS c) it)
              end
            else if (s =? CODE_RETURN_FF)%Z then
              replay_loop fuel' data span
                (mkRegs (maxOffset r) (returnAddress r) (maxOffset r)
                        (S it))
            else if (s =? CODE_RETURN_LAST)%Z then
              replay_loop fuel' data span
                (mkRegs (maxOffset r) (returnAddress r) (returnAddress r)
                        (S it))
            else if (s =? CODE_TAKE_TRACK_JUMP)%Z then
              match span !! it with
              | None => Undefined
              | Some s =>
                  replay_loop fuel' data span
                    (jump_from r (S nra) (GET_CODE_JUMP_ADDRESS s) (S it))
              end
            else Abort
          else
            out ← replay_loop fuel' data span
                    (mkRegs (maxOffset r) (returnAddress r)
                            (S (nextReadAddress r)) (nextSpanAddress r));
            Ok (c :: out)
      end
  end.

Definition replay (fuel : nat) (data span : list AlphaCode)
    : res (list AlphaCode) :=
  replay_loop fuel data span regs_init.


(** The ten codes of the example: 1 2 3 4 5 1 2 3 4 STOP. *)
Definition motif : list AlphaCode :=
  (CODE_SUSTAIN <$> [1; 2; 3; 4; 5; 1; 2; 3; 4]%Z) ++ [CODE_STOP].

(** The length of the data stream [compressCodeSequence] builds, before
    its last pass. *)
Definition data_size (index : AlphaCode -> AlphaChar)
    (find_prior : nat -> list AlphaChar -> nat * nat) (subsong channel : Z)
    (codeSequence : list AlphaCode) : nat :=
  match parse index find_prior subsong channel codeSequence with
  | Ok st =>
      match emit_spans subsong channel codeSequence (copyMap st)
              (branchFrequencyMap st)
              (make_skipMap (copyMap st) (branchFrequencyMap st))
              (spans st)
              (mkEmit 0 (replicate (length (alphaSequence index codeSequence))
                                   0) [] []) with
      | Ok es => length (compressedCodeSequence es)
      | _ => 0
      end
  | _ => 0
  end.

(** The index tells the codes of the sequence apart. *)
Definition index_injective (index : AlphaCode -> AlphaChar)
    (codeSequence : list AlphaCode) : Prop :=
  forall a b, a ∈ codeSequence -> b ∈ codeSequence ->
    index a = index b -> a = b.


End ZipSpec.

(** ** A sequence beyond the range of a jump *)

Module Far.
Import Code Zip ZipSpec.

Local Open Scope nat_scope.

(** The number of addresses a JUMP code can name: [GET_CODE_JUMP_ADDRESS]
    keeps the bits of [0x1fff]. *)
Definition jump_range : nat := Z.to_nat 8192.

Section Shape.

Variable subsong channel : Z.

(** [K] codes are parsed, then four more, then the same four again, then
    STOP.  [far_literal j] is the state of the parse after [j] positions,
    none of them a copy. *)
Variable K : nat.

Record far_literal (j : nat) (st : ParseState) : Prop := {
  fl_i : ps_i st = j;
  fl_cm_len : length (copyMap st) = K + 9;
  fl_bfm_len : length (branchFrequencyMap st) = K + 9;
  fl_lit : forall p, p < j -> copyMap st !!! p = p;
  fl_chain : forall e, S e < j -> branchFrequencyMap st !!! e = [(S e, 1)];
  fl_rest : forall e, j <= S e -> e < K + 9 ->
    branchFrequencyMap st !!! e = [];
  fl_spans : spans st = [];
  fl_cur : currentSpan st = mkSpan subsong channel 0 j
}.

(** The two maps after [t] of the four copied positions. *)
Record far_tables (t : nat) (cm : list nat) (bfm : list table) : Prop := {
  ft_cm_len : length cm = K + 9;
  ft_bfm_len : length bfm = K + 9;
  ft_lit : forall p, p < K + 4 -> cm !!! p = p;
  ft_copy : forall u, u < t -> cm !!! (K + 4 + u) = K + u;
  ft_chain : forall e, e < K + 3 ->
    bfm !!! e = [(S e, if decide (K <= e /\ e + 2 <= K + t) then 2 else 1)];
  ft_fork : bfm !!! (K + 3) = if decide (t = 0) then [] else [(K, 1)];
  ft_rest : forall e, K + 3 < e -> e < K + 9 -> bfm !!! e = []
}.

(** The result of the parse: position [K + 3] is followed once by the
    copy of position [K] and once by the STOP at [K + 8]. *)
Record far_parsed (st : ParseState) : Prop := {
  fp_cm_len : length (copyMap st) = K + 9;
  fp_bfm_len : length (branchFrequencyMap st) = K + 9;
  fp_lit : forall p, p < K + 4 -> copyMap st !!! p = p;
  fp_copy : forall u, u < 4 -> copyMap st !!! (K + 4 + u) = K + u;
  fp_last : copyMap st !!! (K + 8) = K + 8;
  fp_chain : forall e, e < K + 3 ->
    exists c, branchFrequencyMap st !!! e = [(S e, c)];
  fp_fork : branchFrequencyMap st !!! (K + 3) = [(K, 1); (K + 8, 1)];
  fp_spans :
    spans st = [mkSpan subsong channel 0 (K + 4);
                mkSpan subsong channel K 4;
                mkSpan subsong channel (K + 8) 1]
}.

(** The two streams [compressCodeSequence] builds for it when [K] is
    [jump_range]: the jump back to position [K] has become a jump to the
    start, and the jump to the STOP at [K + 8] a jump to address 8. *)
Definition far_data (codeSequence : list AlphaCode) : list AlphaCode :=
  take (K + 4) codeSequence
  ++ [CODE_BRANCH_POINT; CODE_JUMP subsong channel 0; CODE_BRANCH_POINT].

Definition far_span : list AlphaCode :=
  [CODE_TAKE_DATA_JUMP; CODE_TAKE_TRACK_JUMP; CODE_JUMP subsong channel 8;
   CODE_STOP].

End Shape.

(** An instance: 8192 different WRITE_DELTA codes (control, frequency and
    volume count through their 16 * 32 * 16 values), then four SUSTAIN
    codes twice, then STOP. *)
Definition tone (k : nat) : AlphaCode :=
  let k := Z.of_nat k in
  CODE_WRITE_DELTA CHANGE (k mod 16) CHANGE ((k / 16) mod 32)
                   CHANGE (k / 512) 1.

Definition far_input : list AlphaCode :=
  (tone <$> seq 0 jump_range)
  ++ (CODE_SUSTAIN <$> [1; 2; 3; 4; 1; 2; 3; 4]%Z) ++ [CODE_STOP].

(** The answers of the longest-match query on [far_input]: the second
    group of four SUSTAIN codes matches the first, and nothing else has an
    earlier match. *)
Definition far_prior (i : nat) (seq : list AlphaChar) : nat * nat :=
  if i =? jump_range + 4 then (jump_range, 4) else (0, 0).

End Far.

(** ** The fields of a code word *)

Module Words.
Import Code.

Local Open Scope Z_scope.

(** [const AlphaCode CODE_WRITE_DELTA_MASK] and the eight abstract
    WRITE_DELTA codes, as the source spells them. *)
Definition CODE_WRITE_DELTA_MASK : AlphaCode := 0xffff00ff00ff0000.
Definition CODE_WRITE_DELTA_000 : AlphaCode := 0x0100000000000000.
Definition CODE_WRITE_DELTA_001 : AlphaCode := 0x0100000000010000.
Definition CODE_WRITE_DELTA_010 : AlphaCode := 0x0100000100000000.
Definition CODE_WRITE_DELTA_011 : AlphaCode := 0x0100000100010000.
Definition CODE_WRITE_DELTA_100 : AlphaCode := 0x0101000000000000.
Definition CODE_WRITE_DELTA_101 : AlphaCode := 0x0101000000010000.
Definition CODE_WRITE_DELTA_110 : AlphaCode := 0x0101000100000000.
Definition CODE_WRITE_DELTA_111 : AlphaCode := 0x0101000100010000.
Definition CODE_PAUSE_0 : AlphaCode := Z.shiftl (tag PAUSE) 56.
Definition CODE_SUSTAIN_0 : AlphaCode := Z.shiftl (tag SUSTAIN) 56.

(** The abstract code that goes with three change flags. *)
Definition abstract_code (cc fc vc : CHANGE_STATE) : AlphaCode :=
  match cc, fc, vc with
  | NOOP, NOOP, NOOP => CODE_WRITE_DELTA_000
  | NOOP, NOOP, CHANGE => CODE_WRITE_DELTA_001
  | NOOP, CHANGE, NOOP => CODE_WRITE_DELTA_010
  | NOOP, CHANGE, CHANGE => CODE_WRITE_DELTA_011
  | CHANGE, NOOP, NOOP => CODE_WRITE_DELTA_100
  | CHANGE, NOOP, CHANGE => CODE_WRITE_DELTA_101
  | CHANGE, CHANGE, NOOP => CODE_WRITE_DELTA_110
  | CHANGE, CHANGE, CHANGE => CODE_WRITE_DELTA_111
  end.

Definition GET_CODE_WRITE_DELTA_MASKED (c : AlphaCode) : AlphaCode :=
  Z.land c CODE_WRITE_DELTA_MASK.

(** The change flags are read as [(c >> k) & 0xff] and cast to the enum;
    the embedding keeps the integer, to be compared with [change]. *)
Definition GET_CODE_WRITE_CC (c : AlphaCode) : Z :=
  Z.land (Z.shiftr c 48) 0xff.
Definition GET_CODE_WRITE_CX (c : AlphaCode) : Z :=
  Z.land (Z.shiftr c 40) 0xff.
Definition GET_CODE_WRITE_FC (c : AlphaCode) : Z :=
  Z.land (Z.shiftr c 32) 0xff.
Definition GET_CODE_WRITE_FX (c : AlphaCode) : Z :=
  Z.land (Z.shiftr c 24) 0xff.
Definition GET_CODE_WRITE_VC (c : AlphaCode) : Z :=
  Z.land (Z.shiftr c 16) 0xff.
Definition GET_CODE_WRITE_VX (c : AlphaCode) : Z :=
  Z.land (Z.shiftr c 8) 0xff.
Definition GET_CODE_WRITE_DURATION (c : AlphaCode) : Z := Z.land c 0xff.
Definition GET_CODE_SUBSONG (c : AlphaCode) : Z :=
  Z.land (Z.shiftr c 48) 0xff.
Definition GET_CODE_CHANNEL (c : AlphaCode) : Z :=
  Z.land (Z.shiftr c 40) 0xff.

(** The frames a list of codes lasts, by their duration bytes. *)
Definition total_duration (l : list AlphaCode) : Z :=
  foldr (fun c acc => GET_CODE_WRITE_DURATION c + acc) 0 l.

End Words.


(** ** The code index of a Huffman tree, [HuffmanTree::buildIndex] *)

Module HuffmanIndex.
Import Code Huffman.

(** [std::map<AlphaCode, std::vector<bool>>] *)
Abbreviation code_index := (gmap Z (list bool)).

(** [n->writePath(index[n->code])]: [index[...]] makes an empty vector for
    a code that has none, and [writePath] appends to it.  [writePath]
    follows the [parent] pointers from the node up, until it stands on a
    node whose [parent] is NULL, and writes for every step whether the
    node left was a left child.  Below the root every [parent] was set by
    the constructor of the node above, so up to the root these bits are
    the [path] that [buildIndex_loop] keeps with the node. *)
Definition writePath_into (path : list bool) (c : AlphaCode)
    (index : code_index) : code_index :=
  <[c := default [] (index !! c) ++ path]> index.

(** The loop of [buildIndex].  The vector used as a stack has its back at
    the head of the list; every node on it comes with the bits
    [writePath] writes on its way up to the root, the step nearest the
    node first.  A node of the two-argument constructor has both children,
    so both are pushed, the left one first.

    [rooted] tells whether the [parent] of the root is NULL.  At the root
    [writePath] tests [current->parent != NULL]: when the root is an inner
    node that found something else in its uninitialised [parent], the walk
    goes on through that pointer, to a place that holds no node. *)
Fixpoint buildIndex_loop (fuel : nat) (rooted : bool)
    (stack : list (HuffmanTree * list bool)) (index : code_index)
    : res code_index :=
  match fuel with
  | O => Timeout
  | S fuel' =>
      match stack with
      | [] => Ok index
      | (Leaf c _, path) :: stack' =>
          if rooted
          then buildIndex_loop fuel' rooted stack'
                 (writePath_into path c index)
          else Undefined
      | (Node l r _, path) :: stack' =>
          buildIndex_loop fuel' rooted
            ((r, false :: path) :: (l, true :: path) :: stack') index
      end
  end.

(** The number of nodes of a tree. *)
Fixpoint nodes (t : HuffmanTree) : nat :=
  match t with
  | Leaf _ _ => 1
  | Node l r _ => S (nodes l + nodes r)
  end.

(** [root->buildIndex(index)] on an empty [index]: one round per node, and
    one more to see the empty stack. *)
Definition buildIndex (t : HuffmanTree) : res code_index :=
  buildIndex_loop (S (nodes t)) (parent_null t) [(t, [])] ∅.

(** The leaves of a tree in the order [buildIndex] meets them, each with
    the bits written for it: the step nearest the leaf first, the step
    below the root last. *)
Fixpoint paths (t : HuffmanTree) (path : list bool)
    : list (AlphaCode * list bool) :=
  match t with
  | Leaf c _ => [(c, path)]
  | Node l r _ => paths r (false :: path) ++ paths l (true :: path)
  end.

(** The bits of all leaves that carry the code [c], in that order. *)
Definition bits_of (c : AlphaCode) (ps : list (AlphaCode * list bool))
    : list bool :=
  concat (snd <$> filter (fun p => fst p = c) ps).

(** One leaf written into the index, and the leaves still to come from a
    stack, with the number of rounds they take. *)
Definition write_entry (index : code_index) (p : AlphaCode * list bool)
    : code_index :=
  writePath_into (snd p) (fst p) index.

Definition stack_paths (stack : list (HuffmanTree * list bool))
    : list (AlphaCode * list bool) :=
  stack ≫= (fun x => paths (fst x) (snd x)).

Definition stack_nodes (stack : list (HuffmanTree * list bool)) : nat :=
  foldr (fun x acc => (nodes (fst x) + acc)%nat) O stack.

(** [HuffmanTree::decode]: the walk from the root to a leaf, a set bit
    going left.  The walk sees the bitstream only through the values its
    calls of [readBit] return; [bits k] stands for the value returned by
    the call that is made when [k] calls have been made before, and the
    result comes with the number of calls made.  What [Bitstream::readBit]
    returns for a given buffer is not part of this embedding: [bits] is
    any sequence of values, and nothing here takes it from a stream. *)
Fixpoint decode (t : HuffmanTree) (bits : nat -> bool) (n : nat)
    : AlphaCode * nat :=
  match t with
  | Leaf c _ => (c, n)
  | Node l r _ =>
      if bits n then decode l bits (S n) else decode r bits (S n)
  end.

(** The bits of a code vector in the order its users write them: the
    exporter's loops [for (int i = bitvec.size(); --i >= 0; )] go from the
    last element to the first. *)
Definition written (p : list bool) (k : nat) : bool :=
  default false (rev p !! k).

(** The tree of two leaves that [buildHuffmanTree] makes of [two_codes]
    when the root finds NULL in its [parent], and its index. *)
Definition two_leaves : HuffmanTree := Node (Leaf 99 1) (Leaf 7 3) false.

Definition two_index : code_index := <[99 := [true]]> (<[7 := [false]]> ∅).

(** The codes at the leaves. *)
Definition leaf_codes (t : HuffmanTree) : list AlphaCode :=
  fst <$> leaves t.

End HuffmanIndex.

(** ** The bit stream as the exporter uses it *)

Module Stream.
Import Code Bits Huffman HuffmanIndex.

(** [void seek(size_t index)] *)
Definition seek (index : nat) (bs : Bitstream) : Bitstream :=
  mkBitstream (buffer bs) (capacity bs) index (endPos bs).

(** [bool hasBits() const] *)
Definition hasBits (bs : Bitstream) : bool := (pos bs <? endPos bs)%nat.

(** [size_t bytesUsed() const] *)
Definition bytesUsed (bs : Bitstream) : nat :=
  if (0 <? endPos bs mod 8)%nat then (endPos bs / 8 + 1)%nat
  else (endPos bs / 8)%nat.

(** Calls of [writeBit], one for every element, the first element first. *)
Fixpoint writeBit_each (bits : list bool) (bs : Bitstream)
    : res Bitstream :=
  match bits with
  | [] => Ok bs
  | b :: bits' => bs' ← writeBit b bs; writeBit_each bits' bs'
  end.

(** The exporter's loop over an entry of a code index,
    [for (int i = bitvec.size(); --i >= 0; ) dataStream->writeBit(bitvec[i]);] *)
Definition write_code (bitvec : list bool) (bs : Bitstream)
    : res Bitstream :=
  writeBit_each (rev bitvec) bs.

(** The exporter's loop that lists a stream,
    [while (stream->hasBits()) { uc = stream->readByte(); ... bytesWritten++; }];
    [out] are the bytes handed to the writer so far, in order. *)
Fixpoint dump_loop (fuel : nat) (bs : Bitstream) (out : list Z)
    : res (list Z * Bitstream) :=
  match fuel with
  | O => Timeout
  | S fuel' =>
      if hasBits bs then
        let '(uc, bs') := readByte bs in
        dump_loop fuel' bs' (out ++ [uc])
      else Ok (out, bs)
  end.

(** [stream->seek(0)] and the loop; every round moves the cursor by 8, so
    [endPos] rounds and one more test are enough. *)
Definition dump (bs : Bitstream) : res (list Z * Bitstream) :=
  dump_loop (S (endPos bs)) (seek 0 bs) [].

(** The value of eight bits, the first one least significant. *)
Definition byte_of (bits : list bool) : Z :=
  foldr (fun b acc => Z.b2z b + 2 * acc) 0 bits.

(** A stream of one word with its cursor on bit 31. *)
Definition at31 : Bitstream := mkBitstream [0] 64 31 31.

End Stream.

(** ** From channel states to a code sequence *)

Module Track.
Import Code Emitter.

Local Open Scope Z_scope.

(** The interval repeats the state before it, with the volume on: the
    case in which [encodeChannelStateCodes] writes no leading code. *)
Definition held (next last : ChannelState) : bool :=
  (control next =? control last) && (frequency next =? frequency last)
  && (volume next =? volume last) && negb (volume next =? 0).

(** Modelled from the spec: [ChannelStateInterval] is declared in
    [registerDump.h], which is not among the sources; an interval is a
    state and the number of frames it lasts. *)
Record Interval := mkInterval {
  state : ChannelState;
  duration : Z
}.

(** The loop "convert to AlphaCode" of [writeTrackDataTIAZip]:
    [for (auto& n: dumpSequence.intervals)] with [last] and the growing
    [codeSequence]. *)
Fixpoint encode_intervals (intervals : list Interval) (last : ChannelState)
    (codeSequence : list AlphaCode) : list AlphaCode :=
  match intervals with
  | [] => codeSequence
  | n :: rest =>
      let codeSequence :=
        snd (encodeChannelStateCodes (state n) (duration n) last
               codeSequence) in
      encode_intervals rest (state n) codeSequence
  end.

(** The code sequence of one channel: the intervals, then
    [codeSequence.emplace_back(CODE_STOP)]. *)
Definition track_codes (initialState : ChannelState)
    (intervals : list Interval) : list AlphaCode :=
  encode_intervals intervals initialState [] ++ [CODE_STOP].

(** The frames of an interval as the emitter counts them. *)
Definition frames (duration : Z) : Z := if 0 <? duration then duration else 1.

(** The codes of the intervals, one interval after the other. *)
Fixpoint interval_codes (intervals : list Interval) (last : ChannelState)
    : list AlphaCode :=
  match intervals with
  | [] => []
  | n :: rest =>
      emitted (state n) (duration n) last ++ interval_codes rest (state n)
  end.

(** The frames of all intervals, and the number of intervals that repeat
    the state before them with the volume on. *)
Fixpoint interval_frames_sum (intervals : list Interval) : Z :=
  match intervals with
  | [] => 0
  | n :: rest => frames (duration n) + interval_frames_sum rest
  end.

Fixpoint held_intervals (intervals : list Interval) (last : ChannelState)
    : Z :=
  match intervals with
  | [] => 0
  | n :: rest =>
      (if held (state n) last then 1 else 0)
      + held_intervals rest (state n)
  end.

(** A short track: a tone, held, then silence. *)
Definition jingle : list Interval :=
  [mkInterval tone 16; mkInterval tone 5; mkInterval silent 3].

End Track.

(** ** The jump table of [encodeBitstreamDynamic] *)

Module JumpMap.
Import Code Huffman.

Local Open Scope nat_scope.

(** [std::map<AlphaCode, size_t> jumpMap] *)
Abbreviation jump_index := (gmap Z nat).

(** The first loop over [jumpFrequencyMap]: jumps seen once are left out,
    the others go to the heap. *)
Fixpoint load_jumps (jumpFrequencyMap : frequencies)
    (jumpHeap : list (AlphaCode * nat)) : list (AlphaCode * nat) :=
  match jumpFrequencyMap with
  | [] => jumpHeap
  | x :: rest =>
      if (snd x =? 1) then load_jumps rest jumpHeap
      else load_jumps rest (x :: jumpHeap)
  end.

Section Heap.

(** The order of [jumpHeap] is [CompareFrequencies], which is not among
    the sources.  [extract] stands for [top()] followed by [pop()] on the
    queue, kept as the list of its elements: the element taken and the
    elements left, or nothing for an empty queue. *)
Variable extract :
  list (AlphaCode * nat) -> option ((AlphaCode * nat) * list (AlphaCode * nat)).

(** [while (!jumpHeap.empty())] *)
Fixpoint jump_loop (fuel : nat) (jumpHeap : list (AlphaCode * nat))
    (jumpMap : jump_index) : res jump_index :=
  match fuel with
  | O => Timeout
  | S fuel' =>
      match extract jumpHeap with
      | None => Ok jumpMap
      | Some (node, jumpHeap) =>
          if snd node <=? 1 then jump_loop fuel' jumpHeap jumpMap
          else
            let index := length jumpHeap in
            if 31 <? index then jump_loop fuel' jumpHeap jumpMap
            else jump_loop fuel' jumpHeap (<[fst node := index]> jumpMap)
      end
  end.

(** The two loops; every round takes one element off the heap. *)
Definition build_jumpMap (jumpFrequencyMap : frequencies) : res jump_index :=
  let jumpHeap := load_jumps jumpFrequencyMap [] in
  jump_loop (S (length jumpHeap)) jumpHeap ∅.

End Heap.

(** What is asked of [extract]: it takes one element out of a queue that
    has any. *)
Definition takes_one
    (extract : list (AlphaCode * nat)
               -> option ((AlphaCode * nat) * list (AlphaCode * nat)))
    : Prop :=
  forall l,
    match extract l with
    | None => l = []
    | Some (x, r) => l ≡ₚ x :: r
    end.

(** A queue that hands out its elements in the order of the list. *)
Definition take_head (l : list (AlphaCode * nat))
    : option ((AlphaCode * nat) * list (AlphaCode * nat)) :=
  match l with
  | [] => None
  | x :: r => Some (x, r)
  end.

End JumpMap.

(** ** The byte format, [encodeChannelState] *)

Module Bytes.
Import Code Emitter Track.

Local Open Scope Z_scope.

(** Narrowing to [unsigned char]. *)
Definition u8 (z : Z) : Z := z mod 256.

(** [int cc = audcx != last.registers[0];] *)
Definition differs (a b : Z) : Z := if a =? b then 0 else 1.

(** The step that takes frames off [framecount],
    [if (framecount > n) { dmod = top; framecount -= n; }
     else { dmod = framecount - 1; framecount = 0; }],
    with [n] 32 and [top] 31 for a pause or a sustain, 2 and 1 for a
    write: the new [dmod] and the new [framecount]. *)
Definition take_frames (n top framecount : Z) : Z * Z :=
  if n <? framecount then (top, framecount - n)
  else (u8 (framecount - 1), 0).

(** The bytes of the [if (audvx == 0 && delta != 0) ... else if ...] and
    the frames left after them. *)
Definition leading_bytes (next last : ChannelState) (framecount : Z)
    : list Z * Z :=
  let audcx := control next in
  let cc := differs audcx (control last) in
  let audfx := frequency next in
  let fc := differs audfx (frequency last) in
  let audvx := volume next in
  let vc := differs audvx (volume last) in
  let delta := cc + fc + vc in
  if (audvx =? 0) && negb (delta =? 0) then
    let '(dmod, framecount) := take_frames 32 31 framecount in
    let rx := if 0 <? dmod then u8 (Z.shiftl dmod 3) else 0x01 in
    ([rx], framecount)
  else if delta =? 1 then
    let '(dmod, framecount) := take_frames 2 1 framecount in
    let rx :=
      if 0 <? fc then
        u8 (Z.lor (Z.lor (Z.shiftl audfx 3) (Z.shiftl dmod 2)) 0x03)
      else if 0 <? cc then
        u8 (Z.lor (Z.lor (Z.shiftl audcx 4) (Z.shiftl dmod 3)) 0x05)
      else
        u8 (Z.lor (Z.lor (Z.shiftl audvx 4) (Z.shiftl dmod 3)) 0x01) in
    ([rx], framecount)
  else if 1 <? delta then
    let '(dmod, framecount) := take_frames 2 1 framecount in
    let fdx := u8 (Z.lor (Z.lor (Z.shiftl audfx 3) (Z.shiftl dmod 2)) 0x02) in
    let cvx := u8 (Z.shiftl audcx 4 + audvx) in
    ([fdx; cvx], framecount)
  else ([], framecount).

(** [int delta = (cc + fc + vc);] *)
Definition delta (next last : ChannelState) : Z :=
  differs (control next) (control last)
  + differs (frequency next) (frequency last)
  + differs (volume next) (volume last).

(** The trailing [while (framecount > 0)] loop; every round lowers
    [framecount] by at least one. *)
Fixpoint sustain_bytes (fuel : nat) (framecount : Z) (out : list Z)
    : Z * list Z :=
  match fuel with
  | O => (framecount, out)
  | S fuel' =>
      if 0 <? framecount then
        let '(dmod, framecount) := take_frames 32 31 framecount in
        let sx := u8 (Z.lor (Z.shiftl dmod 3) 0x04) in
        sustain_bytes fuel' framecount (out ++ [sx])
      else (framecount, out)
  end.

(** [int encodeChannelState(next, duration, last, encodeRemainder, out)]:
    the value returned and [out] after the call.  [duration] is the value
    of the [const char] parameter. *)
Definition encodeChannelState (next : ChannelState) (duration : Z)
    (last : ChannelState) (encodeRemainder : bool) (out : list Z)
    : Z * list Z :=
  let framecount := if 0 <? duration then duration else 1 in
  let '(lead, framecount) := leading_bytes next last framecount in
  let out := out ++ lead in
  if (0 <? delta next last) && negb encodeRemainder then (framecount, out)
  else
    let '(_, out) := sustain_bytes (Z.to_nat framecount) framecount out in
    (0, out).

(** What the loop of [writeTrackDataTIAComp] keeps as [last] after an
    interval: [if (0 == n.state.registers[2]) last.registers[2] = 0;
    else last = n.state;] *)
Definition next_last (n last : ChannelState) : ChannelState :=
  if volume n =? 0 then mkChannelState (control last) (frequency last) 0
  else n.

(** The loop over the intervals of a track in [writeTrackDataTIAComp]:
    [codeSeq] is cleared, filled by [encodeChannelState] with
    [encodeRemainder] set, and written out, interval by interval. *)
Fixpoint comp_intervals (intervals : list Interval) (last : ChannelState)
    : list Z :=
  match intervals with
  | [] => []
  | n :: rest =>
      snd (encodeChannelState (state n) (duration n) last true [])
      ++ comp_intervals rest (next_last (state n) last)
  end.

(** The bytes of a track: the intervals from [initialState] on, then the
    [byte 0] that ends it. *)
Definition comp_track (initialState : ChannelState)
    (intervals : list Interval) : list Z :=
  comp_intervals intervals initialState ++ [0].

(** The frames a sustain byte stands for, [dmod + 1]. *)
Definition sustain_frames (sx : Z) : Z := Z.shiftr sx 3 + 1.

(** The registers of the sound chip: 4 bits of control, 5 of frequency,
    4 of volume. *)
Definition tia_state (s : ChannelState) : Prop :=
  0 <= control s < 16 /\ 0 <= frequency s < 32 /\ 0 <= volume s < 16.

End Bytes.

(** ** The title graphics, [getFontIndex] and [writeTextGraphics] *)

Module Font.
Import Code Bytes.

Local Open Scope Z_scope.

(** [int getFontIndex(const char c)], on the value of the character. *)
Definition getFontIndex (c : Z) : Z :=
  if (48 <=? c) && (c <=? 57) then c - 48
  else if (c =? 32) || (c =? 0) then 10
  else if c =? 46 then 12
  else if c =? 60 then 13
  else if c =? 62 then 14
  else if (97 <=? c) && (c <=? 122) then 15 + c - 97
  else if (65 <=? c) && (c <=? 90) then 15 + c - 65
  else 11.

(** [unsigned char FONT_DATA[41][6]] *)
Definition FONT_DATA : list (list Z) := [
  [0x00; 0x04; 0x0a; 0x0a; 0x0a; 0x04];  (* SYMBOL_ZERO *)
  [0x00; 0x0e; 0x04; 0x04; 0x04; 0x0c];  (* SYMBOL_ONE *)
  [0x00; 0x0e; 0x08; 0x06; 0x02; 0x0c];  (* SYMBOL_TWO *)
  [0x00; 0x0c; 0x02; 0x06; 0x02; 0x0c];  (* SYMBOL_THREE *)
  [0x00; 0x02; 0x02; 0x0e; 0x0a; 0x0a];  (* SYMBOL_FOUR *)
  [0x00; 0x0c; 0x02; 0x0c; 0x08; 0x06];  (* SYMBOL_FIVE *)
  [0x00; 0x06; 0x0a; 0x0c; 0x08; 0x06];  (* SYMBOL_SIX *)
  [0x00; 0x08; 0x08; 0x04; 0x02; 0x0e];  (* SYMBOL_SEVEN *)
  [0x00; 0x06; 0x0a; 0x0e; 0x0a; 0x0c];  (* SYMBOL_EIGHT *)
  [0x00; 0x02; 0x02; 0x0e; 0x0a; 0x0c];  (* SYMBOL_NINE *)
  [0x00; 0x00; 0x00; 0x00; 0x00; 0x00];  (* SYMBOL_SPACE *)
  [0x00; 0x0e; 0x00; 0x00; 0x00; 0x00];  (* SYMBOL_UNDERSCORE *)
  [0x00; 0x04; 0x00; 0x00; 0x00; 0x00];  (* SYMBOL_DOT *)
  [0x00; 0x02; 0x04; 0x08; 0x04; 0x02];  (* SYMBOL_LT *)
  [0x00; 0x08; 0x04; 0x02; 0x04; 0x08];  (* SYMBOL_GT *)
  [0x00; 0x0a; 0x0a; 0x0e; 0x0a; 0x0e];  (* SYMBOL_A *)
  [0x00; 0x0e; 0x0a; 0x0c; 0x0a; 0x0e];  (* SYMBOL_B *)
  [0x00; 0x0e; 0x08; 0x08; 0x08; 0x0e];  (* SYMBOL_C *)
  [0x00; 0x0c; 0x0a; 0x0a; 0x0a; 0x0c];  (* SYMBOL_D *)
  [0x00; 0x0e; 0x08; 0x0c; 0x08; 0x0e];  (* SYMBOL_E *)
  [0x00; 0x08; 0x08; 0x0c; 0x08; 0x0e];  (* SYMBOL_F *)
  [0x00; 0x0e; 0x0a; 0x08; 0x08; 0x0e];  (* SYMBOL_G *)
  [0x00; 0x0a; 0x0a; 0x0e; 0x0a; 0x0a];  (* SYMBOL_H *)
  [0x00; 0x04; 0x04; 0x04; 0x04; 0x04];  (* SYMBOL_I *)
  [0x00; 0x0e; 0x0a; 0x02; 0x02; 0x02];  (* SYMBOL_J *)
  [0x00; 0x0a; 0x0a; 0x0c; 0x0a; 0x0a];  (* SYMBOL_K *)
  [0x00; 0x0e; 0x08; 0x08; 0x08; 0x08];  (* SYMBOL_L *)
  [0x00; 0x0a; 0x0a; 0x0e; 0x0e; 0x0e];  (* SYMBOL_M *)
  [0x00; 0x0a; 0x0a; 0x0a; 0x0a; 0x0e];  (* SYMBOL_N *)
  [0x00; 0x0e; 0x0a; 0x0a; 0x0a; 0x0e];  (* SYMBOL_O *)
  [0x00; 0x08; 0x08; 0x0e; 0x0a; 0x0e];  (* SYMBOL_P *)
  [0x00; 0x06; 0x08; 0x0a; 0x0a; 0x0e];  (* SYMBOL_Q *)
  [0x00; 0x0a; 0x0a; 0x0c; 0x0a; 0x0e];  (* SYMBOL_R *)
  [0x00; 0x0e; 0x02; 0x0e; 0x08; 0x0e];  (* SYMBOL_S *)
  [0x00; 0x04; 0x04; 0x04; 0x04; 0x0e];  (* SYMBOL_T *)
  [0x00; 0x0e; 0x0a; 0x0a; 0x0a; 0x0a];  (* SYMBOL_U *)
  [0x00; 0x04; 0x04; 0x0e; 0x0a; 0x0a];  (* SYMBOL_V *)
  [0x00; 0x0e; 0x0e; 0x0e; 0x0a; 0x0a];  (* SYMBOL_W *)
  [0x00; 0x0a; 0x0e; 0x04; 0x0e; 0x0a];  (* SYMBOL_X *)
  [0x00; 0x04; 0x04; 0x0e; 0x0a; 0x0a];  (* SYMBOL_Y *)
  [0x00; 0x0e; 0x08; 0x04; 0x02; 0x0e]  (* SYMBOL_Z *)
].

(** [FONT_DATA[ai][i]]; an index outside the array has no defined value. *)
Definition font (ai i : Z) : res Z :=
  if (0 <=? ai) && (0 <=? i) then
    match FONT_DATA !! Z.to_nat ai with
    | Some row =>
        match row !! Z.to_nat i with
        | Some x => Ok x
        | None => Undefined
        end
    | None => Undefined
    end
  else Undefined.

(** The body of [for (int i = 0; i < 6; i++)]: the bytes of one line,
    [(FONT_DATA[ai][i] << 4) + FONT_DATA[bi][i]] narrowed to
    [unsigned char]. *)
Fixpoint glyph_bytes (ai bi : Z) (rows : list Z) : res (list Z) :=
  match rows with
  | [] => Ok []
  | i :: rows' =>
      a ← font ai i;
      b ← font bi i;
      rest ← glyph_bytes ai bi rows';
      Ok (u8 (Z.shiftl a 4 + b) :: rest)
  end.

(** [*value++] on a string given by its characters before the
    terminating 0; reading behind the terminator has no defined value. *)
Definition char_at (value : list Z) (p : nat) : res Z :=
  match (value ++ [0]) !! p with
  | Some c => Ok c
  | None => Undefined
  end.

(** [char ax = 0; if (!end) { ax = *value++; if (0 == ax) end = true; }]:
    the character, the cursor and [end]. *)
Definition next_char (value : list Z) (p : nat) (end_ : bool)
    : res (Z * nat * bool) :=
  if end_ then Ok (0, p, end_)
  else c ← char_at value p; Ok (c, S p, c =? 0).

(** The loop [while (len < 6 || !end)].  What goes to the writer is kept
    as the list of lines, each the number in its label
    [TITLE_GRAPHICS_<len>] and its bytes; [bytesWritten] grows by one
    with every byte. *)
Fixpoint text_loop (fuel : nat) (value : list Z) (p : nat) (end_ : bool)
    (len : nat) (out : list (nat * list Z)) (bytesWritten : nat)
    : res (list (nat * list Z) * nat * nat) :=
  match fuel with
  | O => Timeout
  | S fuel' =>
      if (len <? 6)%nat || negb end_ then
        let label := len in
        let len := S len in
        '(ax, p, end_) ← next_char value p end_;
        '(bx, p, end_) ← next_char value p end_;
        let ai := getFontIndex ax in
        let bi := getFontIndex bx in
        bytes ← glyph_bytes ai bi [0; 1; 2; 3; 4; 5];
        text_loop fuel' value p end_ len (out ++ [(label, bytes)])
                  (bytesWritten + length bytes)%nat
      else Ok (out, len, bytesWritten)
  end.

(** [size_t writeTextGraphics(w, value)]: the lines written, the value of
    [TITLE_LENGTH] and the number of bytes returned.  Every round but the
    last five reads a character, so the length and seven rounds are
    enough. *)
Definition writeTextGraphics (value : list Z)
    : res (list (nat * list Z) * nat * nat) :=
  text_loop (length value + 7) value 0 false 0 [] 0.

(** The character at a place of the string, 0 from the terminator on. *)
Definition char_or_0 (value : list Z) (p : nat) : Z := nth p value 0.

(** The title used in the examples, [Hi.]. *)
Definition title : list Z := [72; 105; 46].

End Font.

(** ** Reading the branch tables *)

Module Counts.
Import Zip.

Local Open Scope nat_scope.

(** The count a table holds for a successor, 0 when it has none. *)
Fixpoint count_of (t : table) (k : nat) : nat :=
  match t with
  | [] => 0
  | (k', c) :: t' => if k' =? k then c else count_of t' k
  end.

(** The number of places before [i] where a position mapped to [L] is
    followed by a position mapped to [k]. *)
Definition transitions (i : nat) (copyMap : list nat) (L k : nat) : nat :=
  length (filter (fun p => copyMap !!! p = L /\ copyMap !!! S p = k)
                 (seq 0 (i - 1))).

(** The tables count the transitions below [i]. *)
Definition counted (i : nat) (copyMap : list nat) (bfm : list table)
    : Prop :=
  forall L k, count_of (bfm !!! L) k = transitions i copyMap L k.

End Counts.

(** * Properties *)

(** ** Opcode tags *)

Module CodeFacts.

Lemma shiftr_lor_small (a b : Z) :
  0 <= b < 2 ^ 56 ->
  Z.shiftr (Z.lor (Z.shiftl a 56) b) 56 = a.
Proof.
  intros Hb.
  rewrite Z.shiftr_lor, Z.shiftr_shiftl_l, Z.sub_diag, Z.shiftl_0_r by lia.
  rewrite (Z.shiftr_div_pow2 b) by lia.
  rewrite Z.div_small by lia.
  apply Z.lor_0_r.
Qed.

(** An OR of non-negative numbers below [2^n] stays below [2^n]. *)
Lemma lor_bound (n a b : Z) :
  0 <= n -> 0 <= a < 2 ^ n -> 0 <= b < 2 ^ n -> 0 <= Z.lor a b < 2 ^ n.
Proof.
  intros Hn Ha Hb.
  assert (Hnn : 0 <= Z.lor a b) by (apply Z.lor_nonneg; lia).
  split; [done|].
  destruct (Z.eq_dec (Z.lor a b) 0) as [->|Hne]; [lia|].
  assert (Hpos : 0 < n).
  { destruct (Z.eq_dec n 0) as [->|]; [|lia]. change (2 ^ 0) with 1 in *.
    replace a with 0 in Hne by lia. replace b with 0 in Hne by lia. done. }
  - apply Z.log2_lt_pow2; [lia|].
    rewrite Z.log2_lor by lia.
    apply Z.max_lub_lt.
    + destruct (Z.eq_dec a 0) as [->|]; [simpl; lia|].
      apply Z.log2_lt_pow2; lia.
    + destruct (Z.eq_dec b 0) as [->|]; [simpl; lia|].
      apply Z.log2_lt_pow2; lia.
Qed.

Lemma shiftl_bound (x k n : Z) :
  0 <= k -> 0 <= x < 2 ^ 8 -> k + 8 <= n -> 0 <= Z.shiftl x k < 2 ^ n.
Proof.
  intros Hk Hx Hn. rewrite Z.shiftl_mul_pow2 by lia. split; [nia|].
  apply Z.lt_le_trans with (2 ^ 8 * 2 ^ k); [nia|].
  rewrite <- Z.pow_add_r by lia. apply Z.pow_le_mono_r; lia.
Qed.

Lemma change_u8 (c : CHANGE_STATE) : 0 <= change c < 2 ^ 8.
Proof. destruct c; simpl; lia. Qed.

Lemma type_WRITE_DELTA cc cx fc fx vc vx d :
  0 <= cx < 256 -> 0 <= fx < 256 -> 0 <= vx < 256 -> 0 <= d < 256 ->
  GET_CODE_TYPE (CODE_WRITE_DELTA cc cx fc fx vc vx d) = tag WRITE_DELTA.
Proof.
  intros Hc Hf Hv Hd. unfold GET_CODE_TYPE, CODE_WRITE_DELTA.
  pose proof (change_u8 cc). pose proof (change_u8 fc).
  pose proof (change_u8 vc).
  rewrite <- !Z.lor_assoc.
  apply shiftr_lor_small.
  repeat (apply lor_bound; [lia| |]);
    try (apply shiftl_bound; lia); lia.
Qed.

Lemma type_PAUSE d : 0 <= d < 256 -> GET_CODE_TYPE (CODE_PAUSE d) = tag PAUSE.
Proof. intros. apply shiftr_lor_small. lia. Qed.

Lemma type_SUSTAIN d :
  0 <= d < 256 -> GET_CODE_TYPE (CODE_SUSTAIN d) = tag SUSTAIN.
Proof. intros. apply shiftr_lor_small. lia. Qed.

End CodeFacts.

(** ** The code emitter *)

Module EmitterFacts.
Import Emitter CodeFacts.

Lemma sustains_step (fc : Z) :
  16 < fc -> sustains fc = CODE_SUSTAIN 16 :: sustains (fc - 16).
Proof.
  intros H. unfold sustains.
  destruct (Z.ltb_spec 0 fc); [|lia].
  destruct (Z.ltb_spec 0 (fc - 16)); [|lia].
  assert (Hd : fc / 16 = (fc - 16) / 16 + 1).
  { replace fc with ((fc - 16) + 1 * 16) at 1 by lia.
    rewrite Z.div_add by lia. done. }
  assert (Hm : fc mod 16 = (fc - 16) mod 16).
  { replace fc with ((fc - 16) + 1 * 16) at 1 by lia.
    rewrite Z.mod_add by lia. done. }
  rewrite Hd, Hm.
  rewrite Z2Nat.inj_add by (try apply Z.div_pos; lia).
  rewrite Nat.add_comm. reflexivity.
Qed.

Lemma sustains_last (fc : Z) :
  0 < fc <= 16 -> sustains fc = [CODE_SUSTAIN fc].
Proof.
  intros H. unfold sustains.
  destruct (Z.ltb_spec 0 fc); [|lia].
  destruct (Z.eq_dec fc 16) as [->|Hne]; [reflexivity|].
  rewrite Z.div_small, Z.mod_small by lia.
  destruct (Z.ltb_spec 0 fc); [reflexivity|lia].
Qed.

(** The loop runs to completion on the fuel it is given and appends exactly
    [sustains framecount]. *)
Lemma sustain_loop_done (fuel : nat) :
  forall (fc : Z) (out : list AlphaCode) (cw : nat),
    (Z.to_nat fc <= fuel)%nat ->
    exists fc',
      fc' <= 0 /\
      sustain_loop fuel fc out cw
      = (fc', out ++ sustains fc, (cw + length (sustains fc))%nat).
Proof.
  induction fuel as [|fuel IH]; intros fc out cw Hf; simpl.
  - exists fc. split; [lia|]. unfold sustains.
    destruct (Z.ltb_spec 0 fc); [lia|]. rewrite app_nil_r, Nat.add_0_r. done.
  - destruct (Z.ltb_spec 0 fc) as [Hpos|Hneg].
    + destruct (Z.ltb_spec 16 fc) as [Hbig|Hsmall].
      * destruct (IH (fc - 16) (out ++ [CODE_SUSTAIN 16]) (S cw))
          as (fc' & Hle & ->); [lia|].
        exists fc'. split; [done|].
        rewrite (sustains_step fc) by lia. rewrite <- app_assoc. simpl.
        do 2 f_equal. lia.
      * destruct (IH (fc - fc) (out ++ [CODE_SUSTAIN fc]) (S cw))
          as (fc' & Hle & ->); [lia|].
        exists fc'. split; [done|].
        rewrite (sustains_last fc) by lia. rewrite Z.sub_diag.
        unfold sustains at 1 2. simpl. rewrite app_nil_r.
        do 2 f_equal. lia.
    + exists fc. split; [lia|]. unfold sustains.
      destruct (Z.ltb_spec 0 fc); [lia|]. rewrite app_nil_r, Nat.add_0_r. done.
Qed.

Lemma residual_nonneg (duration : Z) : 0 <= residual duration.
Proof. unfold residual. destruct (Z.ltb_spec 0 duration); lia. Qed.

(** One call appends the leading opcode and then the sustains of the
    residual; the count returned is the number of codes appended. *)
Lemma encode_shape (next last : ChannelState) (duration : Z)
    (out : list AlphaCode) :
  encodeChannelStateCodes next duration last out
  = (length (leading next last ++ sustains (residual duration)),
     out ++ leading next last ++ sustains (residual duration)).
Proof.
  unfold encodeChannelStateCodes. fold (residual duration).
  destruct (sustain_loop_done (Z.to_nat (residual duration))
              (residual duration) (out ++ leading next last)
              (length (leading next last)))
    as (fc' & _ & ->); [lia|].
  rewrite length_app, <- app_assoc. done.
Qed.

Lemma emitted_shape (next last : ChannelState) (duration : Z) :
  emitted next duration last
  = leading next last ++ sustains (residual duration).
Proof. unfold emitted. rewrite encode_shape. done. Qed.

Lemma sustains_durations (fc : Z) :
  sustains fc = map CODE_SUSTAIN (sustain_durations fc).
Proof.
  unfold sustains, sustain_durations.
  destruct (0 <? fc); [|done].
  rewrite map_app, fmap_replicate. destruct (0 <? fc mod 16); done.
Qed.

Lemma durations_bounded (fc : Z) :
  Forall (fun d => 1 <= d <= 16) (sustain_durations fc).
Proof.
  unfold sustain_durations. destruct (0 <? fc); [|constructor].
  apply Forall_app. split.
  - apply Forall_replicate. lia.
  - destruct (Z.ltb_spec 0 (fc mod 16)); [|constructor].
    constructor; [|constructor].
    pose proof (Z.mod_pos_bound fc 16). lia.
Qed.

Lemma sum_replicate (n : nat) (x : Z) :
  foldr Z.add 0 (replicate n x) = Z.of_nat n * x.
Proof. induction n as [|n IH]; simpl; [lia|]. rewrite IH. lia. Qed.

Lemma durations_sum (fc : Z) :
  0 <= fc -> foldr Z.add 0 (sustain_durations fc) = fc.
Proof.
  intros Hfc. unfold sustain_durations.
  destruct (Z.ltb_spec 0 fc); [|simpl; lia].
  rewrite foldr_app.
  assert (Hq : 0 <= fc / 16) by (apply Z.div_pos; lia).
  pose proof (Z.mod_pos_bound fc 16 ltac:(lia)) as Hr.
  pose proof (Z.div_mod fc 16 ltac:(lia)) as Hdm.
  destruct (Z.ltb_spec 0 (fc mod 16)); simpl.
  - rewrite Z.add_0_r.
    assert (Hgen : forall n x a,
      foldr Z.add a (replicate n x) = Z.of_nat n * x + a).
    { induction n as [|n IH]; intros; simpl; [lia|]. rewrite IH. lia. }
    rewrite Hgen, Z2Nat.id by lia. lia.
  - rewrite sum_replicate, Z2Nat.id by lia. lia.
Qed.

(** C2 (as amended).  Whatever the argument of a call and whether [char]
    is signed or not, the residual after the leading opcode is emitted as
    SUSTAIN codes whose durations lie between 1 and 16 and add up to the
    residual of what the [const char] parameter holds.  The constant tone
    (c=4, f=10, v=8) entered from silence gives, for 127 frames, one
    WRITE_DELTA of duration 1, seven SUSTAIN(16) and one SUSTAIN(14).  For
    128 frames it gives one WRITE_DELTA of duration 1, seven SUSTAIN(16)
    and one SUSTAIN(15) where [char] is unsigned; where [char] is signed
    the parameter holds -128, the frame count is forced to 1, and the
    WRITE_DELTA is all that is emitted. *)
Theorem sustain_cap_16 (char_signed : bool) (next last : ChannelState)
    (n : Z) :
  (exists ds : list Z,
     encode_call char_signed next n last
       = leading next last ++ map CODE_SUSTAIN ds /\
     Forall (fun d => 1 <= d <= 16) ds /\
     foldr Z.add 0 ds = residual (char_of char_signed n)) /\
  encode_call char_signed tone 127 silent
    = CODE_WRITE_DELTA CHANGE 4 CHANGE 10 CHANGE 8 1
      :: replicate 7 (CODE_SUSTAIN 16) ++ [CODE_SUSTAIN 14] /\
  encode_call false tone 128 silent
    = CODE_WRITE_DELTA CHANGE 4 CHANGE 10 CHANGE 8 1
      :: replicate 7 (CODE_SUSTAIN 16) ++ [CODE_SUSTAIN 15] /\
  encode_call true tone 128 silent
    = [CODE_WRITE_DELTA CHANGE 4 CHANGE 10 CHANGE 8 1].
Proof.
  split; [|split; [|split]].
  - exists (sustain_durations (residual (char_of char_signed n))).
    unfold encode_call. rewrite emitted_shape, sustains_durations.
    split; [done|]. split; [apply durations_bounded|].
    apply durations_sum, residual_nonneg.
  - unfold encode_call. rewrite emitted_shape.
    destruct char_signed; reflexivity.
  - unfold encode_call. rewrite emitted_shape. reflexivity.
  - unfold encode_call. rewrite emitted_shape. reflexivity.
Qed.

(** C2 as stated fails: the 128-frame tone does not yield four SUSTAIN(32),
    neither where [char] is unsigned nor where it is signed. *)
Lemma sustain_cap_32_counterexample :
  encode_call false tone 128 silent
    <> CODE_WRITE_DELTA CHANGE 4 CHANGE 10 CHANGE 8 1
       :: replicate 4 (CODE_SUSTAIN 32)
  /\ encode_call true tone 128 silent
    <> CODE_WRITE_DELTA CHANGE 4 CHANGE 10 CHANGE 8 1
       :: replicate 4 (CODE_SUSTAIN 32).
Proof. split; vm_compute; discriminate. Qed.

(** C3 (as amended).  When the target volume is 0 and the previous volume
    is not 1, the leading opcode is PAUSE(1) and only SUSTAINs follow. *)
Theorem pause_leads_when_silent (next last : ChannelState) (duration : Z) :
  volume next = 0 -> volume last <> 1 -> 0 <= volume last ->
  emitted next duration last
    = CODE_PAUSE 1
      :: map CODE_SUSTAIN (sustain_durations (residual duration)).
Proof.
  intros Hv Hl Hl0. rewrite emitted_shape, sustains_durations.
  unfold leading. rewrite Hv.
  destruct (Z.eqb_spec 0 (volume last + 1)); [lia|].
  destruct (Z.eqb_spec (volume last) (0 + 1)); [lia|].
  reflexivity.
Qed.

Lemma pause_leads_when_silent_witness :
  emitted silent 3 tone = [CODE_PAUSE 1; CODE_SUSTAIN 2].
Proof.
  apply (pause_leads_when_silent silent tone 3); simpl; lia.
Defined.

(** C3 as stated fails: stepping from volume 1 down to volume 0 is encoded
    as a WRITE_DELTA carrying the decrement sentinel, not as a PAUSE. *)
Lemma pause_leads_counterexample :
  emitted (mkChannelState 0 0 0) 1 (mkChannelState 0 0 1)
    = [CODE_WRITE_DELTA NOOP 0 NOOP 0 CHANGE 0xf0 1]
  /\ ~ (forall next last duration,
          volume next = 0 ->
          exists rest, emitted next duration last = CODE_PAUSE 1 :: rest).
Proof.
  split; [reflexivity|].
  intros H.
  destruct (H (mkChannelState 0 0 0) (mkChannelState 0 0 1) 1 eq_refl)
    as [rest Hrest].
  vm_compute in Hrest. discriminate.
Qed.

(** C6.  A code of type PAUSE is emitted only for an interval whose target
    volume register is zero. *)
Theorem pause_implies_zero_volume (next last : ChannelState) (duration : Z)
    (c : AlphaCode) :
  wf_state next ->
  c ∈ emitted next duration last ->
  GET_CODE_TYPE c = tag PAUSE ->
  volume next = 0.
Proof.
  intros (Hc & Hf & Hv) Hin Hty. unfold is_u8 in *.
  rewrite emitted_shape, sustains_durations in Hin.
  apply elem_of_app in Hin as [Hin|Hin].
  - unfold leading in Hin.
    destruct (Z.eqb_spec (volume next) (volume last + 1)) as [Hup|Hnup].
    + simpl in Hin.
      destruct (0 <? _) in Hin; [|by apply elem_of_nil in Hin].
      apply list_elem_of_singleton in Hin. subst c.
      rewrite type_WRITE_DELTA in Hty;
        repeat match goal with |- context [if ?b then _ else _] =>
                 destruct b end; (discriminate || lia).
    + destruct (Z.eqb_spec (volume last) (volume next + 1)) as [Hdn|Hndn].
      * simpl in Hin.
        destruct (0 <? _) in Hin; [|by apply elem_of_nil in Hin].
        apply list_elem_of_singleton in Hin. subst c.
        rewrite type_WRITE_DELTA in Hty;
          repeat match goal with |- context [if ?b then _ else _] =>
                   destruct b end; (discriminate || lia).
      * destruct (Z.eqb_spec (volume next) 0) as [Hz|Hnz]; [done|].
        destruct (0 <? _) in Hin; [|by apply elem_of_nil in Hin].
        apply list_elem_of_singleton in Hin. subst c.
        rewrite type_WRITE_DELTA in Hty;
          repeat match goal with |- context [if ?b then _ else _] =>
                   destruct b end; (discriminate || lia).
  - apply list_elem_of_fmap in Hin as (d & -> & Hd).
    pose proof (durations_bounded (residual duration)) as Hb.
    rewrite Forall_forall in Hb. specialize (Hb d Hd).
    rewrite type_SUSTAIN in Hty by lia. discriminate.
Qed.

Lemma pause_implies_zero_volume_witness :
  volume silent = 0.
Proof.
  apply (pause_implies_zero_volume silent tone 3 (CODE_PAUSE 1)).
  - unfold wf_state, is_u8; simpl; lia.
  - vm_compute. apply list_elem_of_here.
  - reflexivity.
Defined.

End EmitterFacts.

(** ** The bit stream *)

Module BitsFacts.
Import Bits.

Local Open Scope nat_scope.

Lemma within_word (p k : nat) :
  p mod 64 + k < 64 ->
  (p + k) / 64 = p / 64 /\ (p + k) mod 64 = p mod 64 + k.
Proof.
  intros H. pose proof (Nat.div_mod_eq p 64) as Hp.
  assert (Hs : p + k = 64 * (p / 64) + (p mod 64 + k)) by lia.
  split.
  - symmetry. apply (Nat.div_unique _ _ _ (p mod 64 + k)); lia.
  - symmetry. apply (Nat.mod_unique _ _ (p / 64)); lia.
Qed.

Local Open Scope Z_scope.

(** The low [n] bits of a word from bit [a] on, spelled out bit by bit. *)
Lemma low_bits (n : nat) :
  forall (y : Z) (a : nat),
    foldr (fun k acc => Z.b2z (Z.testbit y (Z.of_nat k)) + 2 * acc) 0
          (seq a n)
    = (y / 2 ^ Z.of_nat a) mod 2 ^ Z.of_nat n.
Proof.
  induction n as [|n IH]; intros y a.
  - simpl. rewrite Z.mod_1_r. done.
  - cbn [seq foldr]. rewrite IH.
    replace (Z.of_nat (S n)) with (1 + Z.of_nat n) by lia.
    rewrite Z.pow_add_r, Z.pow_1_r by lia.
    rewrite Z.rem_mul_r by lia.
    replace (Z.of_nat (S a)) with (Z.of_nat a + 1) by lia.
    rewrite Z.pow_add_r, Z.pow_1_r by lia.
    rewrite <- Z.div_div by lia.
    f_equal.
    rewrite <- Z.shiftr_div_pow2 by lia.
    rewrite <- (Z.add_0_l (Z.of_nat a)) at 1.
    rewrite <- Z.shiftr_spec by lia.
    rewrite Z.bit0_odd, Zmod_odd.
    destruct (Z.odd _); done.
Qed.

Lemma foldr_ext_elem {A B : Type} (f g : A -> B -> B) (b : B) (l : list A) :
  (forall x acc, x ∈ l -> f x acc = g x acc) ->
  foldr f b l = foldr g b l.
Proof.
  induction l as [|x l IH]; intros H; simpl; [done|].
  rewrite IH by (intros; apply H; by apply list_elem_of_further).
  apply H, list_elem_of_here.
Qed.

(** Where the eight bits lie in one word, [readByte] returns them and moves
    the cursor by 8. *)
Lemma readByte_within (bs : Bitstream) :
  (pos bs mod 64 + 8 <= 64)%nat ->
  readByte bs
  = (byte_at bs (pos bs),
     mkBitstream (buffer bs) (capacity bs) (pos bs + 8) (endPos bs)).
Proof.
  intros Hs. unfold readByte. f_equal.
  set (w := word bs (pos bs / 64)).
  assert (Hlow : Z.land (Z.shiftr w (Z.of_nat (pos bs mod 64))) 0xff
                 = byte_at bs (pos bs)).
  { change 0xff with (Z.ones 8). rewrite Z.land_ones by lia.
    rewrite <- (Z.div_1_r (Z.shiftr _ _)).
    change 1 with (2 ^ Z.of_nat 0) at 1. change 8 with (Z.of_nat 8).
    rewrite <- low_bits. unfold byte_at.
    apply foldr_ext_elem. intros k acc Hk.
    apply elem_of_seq in Hk.
    destruct (within_word (pos bs) k) as [Hd Hm]; [lia|].
    unfold stream_bit. rewrite Hd, Hm. fold w.
    rewrite Z.shiftr_spec by lia. do 3 f_equal. lia. }
  rewrite Hlow.
  destruct (Nat.ltb_spec (pos bs / 64) ((pos bs + 8) / 64)) as [Hc|Hc];
    [|done].
  assert (Hz : ((pos bs + 8) mod 64 = 0)%nat).
  { destruct (Nat.eq_dec (pos bs mod 64 + 8)%nat 64%nat) as [He|Hne].
    - pose proof (Nat.div_mod_eq (pos bs) 64%nat).
      symmetry. apply (Nat.mod_unique _ _ (S (pos bs / 64)%nat)); lia.
    - destruct (within_word (pos bs) 8%nat) as [Hd _]; lia. }
  rewrite Hz. change (Z.of_nat (8 - 0)) with 8.
  replace (Z.land (u64 (Z.shiftl w 8)) 255) with 0; [apply Z.lor_0_r|].
  symmetry. apply Z.bits_inj'. intros n Hn.
  rewrite Z.land_spec, Z.bits_0.
  destruct (Z.ltb_spec n 8).
  - unfold u64. rewrite Z.mod_pow2_bits_low by lia.
    rewrite Z.shiftl_spec_low by lia. done.
  - change 255 with (Z.ones 8). rewrite Z.ones_spec_high by lia.
    apply andb_false_r.
Qed.

(** C9, evaluated where it fails.  For the stream [straddle] (word 0 is
    [0xF], word 1 is [0], cursor at bit 60) the eight bits at the cursor are
    all zero, yet [readByte] returns [0xF0]: across a word boundary it takes
    the high bits from the current word again instead of the next one.  The
    cursor still moves by 8. *)
Theorem readByte_straddle_wrong :
  byte_at straddle (pos straddle) = 0 /\
  fst (readByte straddle) = 0xF0 /\
  pos (snd (readByte straddle)) = (pos straddle + 8)%nat.
Proof. repeat split; reflexivity. Qed.




Lemma pos_split (j : nat) :
  j = (64 * (j / 64) + j mod 64)%nat /\ (j mod 64 < 64)%nat.
Proof.
  split; [apply Nat.div_mod_eq|]. apply Nat.mod_upper_bound. lia.
Qed.

(** One [writeBit] on a position whose mask is well defined. *)
Lemma writeBit_spec (bit : bool) (bs : Bitstream) :
  (pos bs < capacity bs)%nat -> (pos bs mod 64 < 31)%nat -> wf_stream bs ->
  exists bs',
    writeBit bit bs = Ok bs' /\
    pos bs' = S (pos bs) /\
    capacity bs' = capacity bs /\
    length (buffer bs') = length (buffer bs) /\
    endPos bs' = Nat.max (endPos bs) (S (pos bs)) /\
    forall j, stream_bit bs' j
              = if (j =? pos bs)%nat then bit else stream_bit bs j.
Proof.
  intros Hcap Hs Hwf. unfold writeBit.
  destruct (Nat.ltb_spec (pos bs) (capacity bs)) as [_|]; [|lia].
  unfold int_mask.
  destruct (Nat.ltb_spec (pos bs mod 64)%nat 31%nat) as [_|]; [|lia].
  cbn [negb mbind res_bind].
  eexists. split; [reflexivity|]. cbn [pos capacity buffer endPos].
  split; [done|]. split; [done|]. split; [apply length_insert|].
  split.
  { destruct (Nat.ltb_spec (endPos bs) (S (pos bs))); lia. }
  intros j. unfold stream_bit, word. cbn [buffer].
  destruct (pos_split j) as [Hj Hjm]. destruct (pos_split (pos bs)) as [Hp _].
  unfold wf_stream in Hwf.
  destruct (Nat.eq_dec (j / 64)%nat (pos bs / 64)%nat) as [Ha|Ha].
  - rewrite Ha, list_lookup_total_insert_eq by lia.
    destruct (Nat.eq_dec (j mod 64)%nat (pos bs mod 64)%nat) as [Hm|Hm].
    + replace (j =? pos bs)%nat with true
        by (symmetry; apply Nat.eqb_eq; lia).
      rewrite Hm. destruct bit.
      * rewrite Z.lor_spec, Z.pow2_bits_true by lia. apply orb_true_r.
      * rewrite Z.land_spec. unfold u64.
        rewrite Z.mod_pow2_bits_low by lia.
        rewrite Z.lnot_spec, Z.pow2_bits_true by lia. apply andb_false_r.
    + replace (j =? pos bs)%nat with false
        by (symmetry; apply Nat.eqb_neq; lia).
      destruct bit.
      * rewrite Z.lor_spec, Z.pow2_bits_false by lia. apply orb_false_r.
      * rewrite Z.land_spec. unfold u64.
        rewrite Z.mod_pow2_bits_low by lia.
        rewrite Z.lnot_spec, Z.pow2_bits_false by lia. apply andb_true_r.
  - rewrite list_lookup_total_insert_ne by done.
    replace (j =? pos bs)%nat with false; [done|].
    symmetry. apply Nat.eqb_neq. intros ->. done.
Qed.





End BitsFacts.

(** ** Huffman tree construction *)

Module HuffmanFacts.
Import Huffman.

Local Open Scope nat_scope.

Lemma extract_top_perm (heap : list HuffmanTree) :
  forall x rest, extract_top heap = Some (x, rest) -> heap ≡ₚ x :: rest.
Proof.
  induction heap as [|y heap IH]; intros x rest H; simpl in H; [done|].
  destruct (extract_top heap) as [[z r]|] eqn:E.
  - specialize (IH z r eq_refl).
    destruct (compare_weights y z); simplify_eq.
    + rewrite IH. apply perm_swap.
    + done.
  - simplify_eq. destruct heap; [done|]. simpl in E.
    destruct (extract_top heap) as [[? ?]|]; [destruct (compare_weights _ _)|];
      done.
Qed.

Lemma extract_top_cons (x : HuffmanTree) (heap : list HuffmanTree) :
  exists y rest, extract_top (x :: heap) = Some (y, rest).
Proof.
  simpl. destruct (extract_top heap) as [[z r]|]; [|by eauto].
  destruct (compare_weights x z); eauto.
Qed.

(** The comparison is a strict order that leaves no cycle. *)
Lemma compare_asym (a b : HuffmanTree) :
  compare_weights a b = true -> compare_weights b a = false.
Proof.
  unfold compare_weights.
  destruct (Nat.eqb_spec (weight a) (weight b)) as [E|E],
    (Nat.eqb_spec (weight b) (weight a)) as [E'|E']; cbn [negb];
    rewrite ?Z.ltb_lt, ?Nat.ltb_lt, ?Z.ltb_ge, ?Nat.ltb_ge; lia.
Qed.

Lemma compare_through (a b c : HuffmanTree) :
  compare_weights a b = false -> compare_weights b c = false ->
  compare_weights a c = false.
Proof.
  unfold compare_weights.
  destruct (Nat.eqb_spec (weight a) (weight b)),
    (Nat.eqb_spec (weight b) (weight c)),
    (Nat.eqb_spec (weight a) (weight c)); cbn [negb];
    rewrite ?Z.ltb_ge, ?Nat.ltb_ge; lia.
Qed.

(** [extract_top] is a queue in the order of the comparison. *)
Lemma extract_top_order : queue_order extract_top.
Proof.
  intros heap. induction heap as [|x heap IH]; [done|].
  cbn [extract_top]. destruct (extract_top heap) as [[y rest]|] eqn:E.
  - destruct IH as [Hp Hall].
    destruct (compare_weights x y) eqn:Hc.
    + split; [rewrite Hp; apply perm_swap|].
      apply Forall_cons_2; [by apply compare_asym|done].
    + split; [done|]. rewrite Hp. apply Forall_cons_2; [done|].
      eapply Forall_impl; [exact Hall|]. intros z Hz.
      by apply (compare_through x y z).
  - subst heap. split; [done|apply Forall_nil_2].
Qed.

Lemma total_app (a b : frequencies) : total (a ++ b) = total a + total b.
Proof. induction a as [|p a IH]; simpl; [done|]. rewrite IH. lia. Qed.

Lemma total_perm (a b : frequencies) : a ≡ₚ b -> total a = total b.
Proof. induction 1; simpl; lia. Qed.

Lemma heap_weight_perm (a b : list HuffmanTree) :
  a ≡ₚ b -> heap_weight a = heap_weight b.
Proof. induction 1; simpl; lia. Qed.

Lemma heap_weight_leaves (fm : frequencies) :
  heap_weight (leaf_of <$> fm) = total fm.
Proof. induction fm as [|[c n] fm IH]; csimpl; [done|]. rewrite IH. done. Qed.

Lemma heap_leaves_leaves (fm : frequencies) :
  heap_leaves (leaf_of <$> fm) = fm.
Proof.
  unfold heap_leaves. induction fm as [|[c n] fm IH]; [done|].
  rewrite fmap_cons, bind_cons, IH. done.
Qed.

Lemma total_once (fm : frequencies) : total (once fm) = length (once fm).
Proof.
  unfold once. induction fm as [|[c n] fm IH]; [done|].
  rewrite filter_cons. destruct (decide _) as [Hn|Hn]; simpl in *; [|done].
  rewrite IH, Hn. done.
Qed.

Lemma split_once (fm : frequencies) : fm ≡ₚ repeated fm ++ once fm.
Proof.
  unfold repeated, once. induction fm as [|[c n] fm IH]; [done|].
  rewrite !filter_cons. simpl.
  destruct (decide (n <> 1)), (decide (n = 1)); try lia.
  - simpl. by f_equiv.
  - rewrite <- Permutation_middle. by f_equiv.
Qed.

(** The first loop puts a leaf on the heap for every repeated code and
    counts the others. *)
Lemma load_spec (fm : frequencies) :
  forall heap lw,
    exists heap',
      load fm heap lw = (heap', lw + length (once fm)) /\
      heap' ≡ₚ (leaf_of <$> repeated fm) ++ heap.
Proof.
  unfold repeated, once.
  induction fm as [|[c n] fm IH]; intros heap lw; simpl.
  - exists heap. rewrite Nat.add_0_r. done.
  - rewrite !filter_cons. simpl.
    destruct (Nat.eqb_spec n 1) as [Hn|Hn].
    + destruct (decide (n <> 1)), (decide (n = 1)); try lia.
      destruct (IH heap (lw + 1)) as (h & -> & Hp).
      exists h. split; [|done]. simpl. f_equal. lia.
    + destruct (decide (n <> 1)), (decide (n = 1)); try lia.
      destruct (IH (Leaf c n :: heap) lw) as (h & -> & Hp).
      exists h. split; [done|]. rewrite Hp. simpl.
      rewrite <- Permutation_middle. done.
Qed.


Lemma leaves_weight (t : HuffmanTree) : total (leaves t) = weight t.
Proof.
  induction t as [c w|l IHl r IHr s]; cbn [leaves weight].
  - simpl. lia.
  - rewrite total_app. lia.
Qed.

Lemma depth_leaves (t : HuffmanTree) : depth t < length (leaves t).
Proof.
  induction t as [c w|l IHl r IHr s]; cbn [leaves depth].
  - simpl. lia.
  - rewrite length_app. destruct (Nat.ltb_spec (depth r) (depth l)); lia.
Qed.

Lemma leaves_not_nil (t : HuffmanTree) : leaves t <> [].
Proof.
  intros E. pose proof (depth_leaves t) as H. rewrite E in H. simpl in H. lia.
Qed.

Lemma total_split (fm : frequencies) :
  total fm = total (repeated fm) + length (once fm).
Proof.
  rewrite (total_perm _ _ (split_once fm)), total_app, total_once. done.
Qed.

Lemma leaf_of_parent (fm : frequencies) :
  Forall (fun t => parent_null t = true) (leaf_of <$> fm).
Proof. induction fm as [|p fm IH]; csimpl; by constructor. Qed.

Lemma strays_spec (stray_of : nat -> bool) (h : nat) :
  strays stray_of h = false
  <-> forall j, j < h - 2 -> stray_of j = false.
Proof.
  unfold strays. split.
  - intros H j Hj.
    destruct (stray_of j) eqn:E; [|done].
    assert (Ht : existsb stray_of (seq 0 (h - 2)) = true).
    { apply existsb_exists. exists j. split; [|done].
      apply in_seq. lia. }
    congruence.
  - intros H. destruct (existsb stray_of (seq 0 (h - 2))) eqn:E; [|done].
    apply existsb_exists in E as (j & Hj & Hs). apply in_seq in Hj.
    rewrite H in Hs by lia. done.
Qed.

Section Queue.

Variable pop : queue.
Variable stray_of : nat -> bool.
Hypothesis pop_order : queue_order pop.

Lemma pop_perm (heap : list HuffmanTree) (x : HuffmanTree)
    (rest : list HuffmanTree) :
  pop heap = Some (x, rest) -> heap ≡ₚ x :: rest.
Proof. intros E. pose proof (pop_order heap) as H. rewrite E in H. tauto. Qed.

Lemma pop_cons (x : HuffmanTree) (heap : list HuffmanTree) :
  exists y rest, pop (x :: heap) = Some (y, rest).
Proof.
  pose proof (pop_order (x :: heap)) as H.
  destruct (pop (x :: heap)) as [[y rest]|]; [by eauto|done].
Qed.

Lemma pop_single (t : HuffmanTree) : pop [t] = Some (t, []).
Proof.
  destruct (pop_cons t []) as (y & rest & E). rewrite E.
  apply pop_perm in E. apply Permutation_length_1_inv in E.
  by injection E as <- <-.
Qed.

Lemma pop_nil : pop [] = None.
Proof.
  pose proof (pop_order []) as H. destruct (pop []) as [[y rest]|]; [|done].
  destruct H as [H _]. by apply Permutation_nil_cons in H.
Qed.

(** The second loop stops with at most [limit] elements and moves the
    weight of what it popped to the literal bucket; it pops nothing unless
    the heap was over the limit. *)
Lemma cull_spec (limit : nat) (fuel : nat) :
  forall heap lw,
    length heap <= fuel ->
    exists heap' popped,
      cull pop fuel limit heap lw = Ok (heap', lw + heap_weight popped) /\
      heap ≡ₚ heap' ++ popped /\
      length heap' = Nat.min limit (length heap).
Proof.
  induction fuel as [|fuel IH]; intros heap lw Hf.
  - destruct heap; [|simpl in Hf; lia].
    exists [], []. simpl. destruct limit; simpl; rewrite Nat.add_0_r;
      repeat split; (done || lia).
  - cbn [cull]. destruct (Nat.ltb_spec limit (length heap)) as [Hlt|Hge].
    + destruct heap as [|x heap]; [simpl in Hlt; lia|].
      destruct (pop_cons x heap) as (y & rest & E). rewrite E.
      pose proof (pop_perm _ _ _ E) as Hp.
      assert (Hlen : length (x :: heap) = S (length rest)).
      { rewrite Hp. done. }
      destruct (IH rest (lw + weight y)) as (h' & popped & -> & Hp' & Hl).
      { simpl in *. lia. }
      exists h', (y :: popped). split.
      { simpl. do 2 f_equal. lia. }
      split.
      { rewrite Hp, Hp'. apply Permutation_middle. }
      lia.
    + exists heap, []. rewrite app_nil_r. simpl. rewrite Nat.add_0_r.
      repeat split; (done || lia).
Qed.

(** The last loop on a heap of two or more: it ends in one tree with the
    leaves of the heap, unless an element that has to become a child has
    a [parent] that is not NULL; then the assertion of the constructor
    stops it. *)
Lemma merge_spec (fuel : nat) :
  forall made heap,
    length heap <= fuel -> 2 <= length heap ->
    let fine :=
      Forall (fun t => parent_null t = true) heap /\
      forall j, made <= j < made + (length heap - 2) -> stray_of j = false in
    (~ fine /\ merge pop stray_of fuel made heap = Abort) \/
    (fine /\
     exists t,
       merge pop stray_of fuel made heap = Ok [t] /\
       leaves t ≡ₚ heap_leaves heap /\
       parent_null t = negb (stray_of (made + length heap - 2))).
Proof.
  induction fuel as [|fuel IH]; intros made heap Hf H2; [lia|].
  cbv zeta. cbn [merge].
  destruct (Nat.ltb_spec 1 (length heap)) as [_|]; [|lia].
  destruct heap as [|x0 heap0]; [simpl in H2; lia|].
  destruct (pop_cons x0 heap0) as (l & h1 & E1). rewrite E1.
  pose proof (pop_perm _ _ _ E1) as P1.
  destruct h1 as [|x1 h1'].
  { apply Permutation_length in P1. simpl in *. lia. }
  destruct (pop_cons x1 h1') as (r & h2 & E2). rewrite E2.
  pose proof (pop_perm _ _ _ E2) as P2.
  set (heap := x0 :: heap0) in *.
  assert (Hp : heap ≡ₚ l :: r :: h2) by (by rewrite P1, P2).
  assert (Hlen : length heap = S (S (length h2))) by (by rewrite Hp).
  assert (Hlv : heap_leaves heap
                ≡ₚ (leaves l ++ leaves r) ++ heap_leaves h2).
  { unfold heap_leaves. rewrite Hp, !bind_cons. by rewrite <- app_assoc. }
  destruct (parent_null l) eqn:El; cbn [negb].
  2:{ left. split; [|done]. intros [HF _]. rewrite Hp in HF.
      apply Forall_cons in HF as [HF _]. congruence. }
  destruct (parent_null r) eqn:Er; cbn [negb].
  2:{ left. split; [|done]. intros [HF _]. rewrite Hp in HF.
      apply Forall_cons in HF as [_ HF].
      apply Forall_cons in HF as [HF _]. congruence. }
  set (N := Node l r (stray_of made)).
  destruct h2 as [|x2 h2'].
  - right. split.
    + split.
      * rewrite Hp. by repeat constructor.
      * intros j Hj. rewrite Hlen in Hj. simpl in Hj. lia.
    + exists N. split.
      { destruct fuel; reflexivity. }
      split.
      { rewrite Hlv. unfold heap_leaves. simpl. by rewrite app_nil_r. }
      rewrite Hlen. cbn [length parent_null N]. f_equal. f_equal. lia.
  - destruct (IH (S made) (N :: x2 :: h2'))
      as [[Hn E]|[[HF Hj] (t & E & Hl & Hpn)]].
    { simpl in *. lia. }
    { simpl. lia. }
    + left. split; [|done]. intros [HF Hj]. apply Hn. split.
      * apply Forall_cons_2.
        { cbn [parent_null N]. rewrite Hj; [done|]. rewrite Hlen. simpl. lia. }
        rewrite Hp in HF. apply Forall_cons in HF as [_ HF].
        by apply Forall_cons in HF as [_ HF].
      * intros j Hj'. apply Hj. rewrite Hlen. simpl in *. lia.
    + right. split.
      * split.
        { rewrite Hp. apply Forall_cons_2; [done|].
          apply Forall_cons_2; [done|].
          by apply Forall_cons in HF as [_ HF]. }
        intros j Hj'. destruct (decide (j = made)) as [->|Hne].
        { apply Forall_cons in HF as [HF _]. cbn [parent_null N] in HF.
          by destruct (stray_of made). }
        apply Hj. rewrite Hlen in Hj'. simpl in *. lia.
      * exists t. split; [done|]. split.
        { rewrite Hl, Hlv. unfold heap_leaves. rewrite bind_cons. done. }
        rewrite Hpn, Hlen. simpl. do 2 f_equal. lia.
Qed.

(** What the three loops and the last [top()] come to: [kept] are the
    repeated codes that stay on the heap, [rest] those popped for the
    limit, [h] the number of leaves made. *)
Lemma build_outcome (fm : frequencies) (limit : nat) (literal : AlphaCode) :
  exists kept rest,
    repeated fm ≡ₚ kept ++ rest /\
    length kept = Nat.min limit (length (repeated fm)) /\
    let lw := length (once fm) + total rest in
    let lit := if 0 <? lw then [(literal, lw)] else [] in
    let h := length (kept ++ lit) in
    match buildHuffmanTree pop stray_of fm limit literal with
    | Ok t =>
        h <> 0 /\ strays stray_of h = false /\
        leaves t ≡ₚ kept ++ lit /\
        parent_null t = (if h <? 2 then true else negb (stray_of (h - 2)))
    | Abort => strays stray_of h = true
    | Undefined => h = 0
    | Timeout => False
    end.
Proof.
  unfold buildHuffmanTree.
  destruct (load_spec fm [] 0) as (h0 & -> & P0). rewrite app_nil_r in P0.
  destruct (cull_spec limit (length h0) h0 (0 + length (once fm)))
    as (h1 & popped & -> & P1 & L1); [done|].
  cbn [mbind res_bind].
  rewrite P0 in P1. symmetry in P1.
  apply Permutation_map_inv in P1 as (l' & E' & P').
  symmetry in E'. apply fmap_app_inv in E' as (kept & rest & -> & -> & ->).
  exists kept, rest. split; [done|]. split.
  { rewrite length_fmap in L1. rewrite L1.
    apply Permutation_length in P0. rewrite length_fmap in P0. by rewrite P0. }
  rewrite heap_weight_leaves. cbn [Nat.add].
  set (lw := length (once fm) + total rest). cbv zeta.
  set (lit := if 0 <? lw then [(literal, lw)] else []).
  set (heap2 := if 0 <? lw then Leaf literal lw :: (leaf_of <$> kept)
                else leaf_of <$> kept).
  assert (Hh2 : heap2 ≡ₚ leaf_of <$> (kept ++ lit)).
  { unfold heap2, lit. destruct (0 <? lw).
    - rewrite fmap_app. cbn. apply Permutation_cons_append.
    - by rewrite app_nil_r. }
  assert (Hlen : length heap2 = length (kept ++ lit)).
  { by rewrite Hh2, length_fmap. }
  assert (Hleaves : heap_leaves heap2 ≡ₚ kept ++ lit).
  { unfold heap_leaves. rewrite Hh2. apply reflexive_eq.
    apply heap_leaves_leaves. }
  assert (Hnull : Forall (fun t => parent_null t = true) heap2).
  { rewrite Hh2. apply leaf_of_parent. }
  rewrite <- Hlen.
  destruct (decide (2 <= length heap2)) as [H2|H2].
  - destruct (merge_spec (length heap2) 0 heap2)
      as [[Hn ->]|[[_ Hj] (t & -> & Hl & Hpn)]]; [done|done| |].
    + cbn [mbind res_bind].
      destruct (strays stray_of (length heap2)) eqn:Es; [done|].
      destruct Hn. split; [done|]. intros j Hj.
      apply (proj1 (strays_spec _ _) Es). lia.
    + cbn [mbind res_bind]. rewrite pop_single.
      split; [lia|]. split.
      { apply strays_spec. intros j Hj'. apply Hj. lia. }
      split; [by rewrite Hl|].
      destruct (Nat.ltb_spec (length heap2) 2); [lia|].
      rewrite Hpn. do 2 f_equal.
  - assert (Hm : merge pop stray_of (length heap2) 0 heap2 = Ok heap2).
    { destruct (length heap2) as [|[|n]] eqn:El; [| |lia].
      - destruct heap2; [reflexivity|done].
      - destruct heap2 as [|t [|? ?]]; [done|reflexivity|done]. }
    rewrite Hm. cbn [mbind res_bind].
    destruct heap2 as [|t [|? ?]]; [| |simpl in H2; lia].
    + rewrite pop_nil. done.
    + rewrite pop_single. split; [done|]. split; [done|].
      split.
      { rewrite <- Hleaves. unfold heap_leaves. rewrite bind_cons.
        simpl. by rewrite app_nil_r. }
      apply Forall_cons in Hnull as [Hn _]. done.
Qed.

End Queue.

(** C8 (as amended).  For a frequency map with some weight in it,
    [buildHuffmanTree] makes leaves for at most [limit] codes of the map
    with their own weights (none of them seen exactly once) and, when the
    remaining codes weigh anything, one literal leaf whose weight is the
    sum of the weights of exactly those remaining codes.  A code is among
    the remaining ones only if it was seen exactly once or if more than
    [limit] codes were seen otherwise.  The tree with these leaves is
    returned whenever there are at most two of them, and whichever element
    the queue hands out among equals; with more leaves it is returned
    unless an inner node that becomes a child finds in its [parent], which
    the constructor has not initialised, something else than NULL: then
    the assertion of the constructor stops the construction. *)
Theorem build_leaves (pop : queue) (stray_of : nat -> bool)
    (fm : frequencies) (limit : nat) (literal : AlphaCode) :
  queue_order pop ->
  0 < total fm ->
  exists kept culled,
    fm ≡ₚ kept ++ culled /\
    length kept <= limit /\
    (forall p, p ∈ kept -> snd p <> 1) /\
    (forall p, p ∈ culled -> snd p = 1 \/ limit < length (repeated fm)) /\
    let made :=
      kept ++ (if 0 <? total culled then [(literal, total culled)] else []) in
    if strays stray_of (length made)
    then buildHuffmanTree pop stray_of fm limit literal = Abort
    else exists t,
           buildHuffmanTree pop stray_of fm limit literal = Ok t /\
           leaves t ≡ₚ made.
Proof.
  intros Hpop Hpos.
  destruct (build_outcome pop stray_of Hpop fm limit literal)
    as (kept & rest & Hp & Hl & Hout).
  set (culled := rest ++ once fm).
  assert (Hlw : length (once fm) + total rest = total culled).
  { unfold culled. rewrite total_app, total_once. lia. }
  rewrite Hlw in Hout. cbv zeta in Hout.
  assert (Hfm : fm ≡ₚ kept ++ culled).
  { unfold culled. rewrite app_assoc, <- Hp. apply split_once. }
  exists kept, culled. split; [done|]. split; [lia|].
  split.
  { intros p Hin.
    assert (Hr : p ∈ repeated fm) by (rewrite Hp; apply elem_of_app; by left).
    unfold repeated in Hr. apply list_elem_of_filter in Hr. tauto. }
  split.
  { intros p Hin. unfold culled in Hin. apply elem_of_app in Hin as [Hin|Hin].
    - right. apply Permutation_length in Hp. rewrite length_app in Hp.
      destruct rest; [by apply elem_of_nil in Hin|]. simpl in Hp. lia.
    - left. unfold once in Hin. apply list_elem_of_filter in Hin. tauto. }
  cbv zeta.
  set (made := kept ++ (if 0 <? total culled
                        then [(literal, total culled)] else [])) in *.
  assert (Hne : length made <> 0).
  { unfold made. rewrite length_app.
    destruct (Nat.ltb_spec 0 (total culled)); simpl; [lia|].
    apply total_perm in Hfm. rewrite total_app in Hfm.
    destruct kept; simpl in *; lia. }
  destruct (buildHuffmanTree pop stray_of fm limit literal) as [t| | |].
  - destruct Hout as (_ & -> & Hlv & _). by exists t.
  - by rewrite Hout.
  - done.
  - done.
Qed.

Lemma build_leaves_witness :
  exists kept culled,
    two_codes ≡ₚ kept ++ culled /\
    length kept <= 128 /\
    (forall p, p ∈ kept -> snd p <> 1) /\
    (forall p, p ∈ culled -> snd p = 1 \/ 128 < length (repeated two_codes)) /\
    let made :=
      kept ++ (if 0 <? total culled then [(99%Z, total culled)] else []) in
    if strays dirty (length made)
    then buildHuffmanTree extract_top dirty two_codes 128 99%Z = Abort
    else exists t,
           buildHuffmanTree extract_top dirty two_codes 128 99%Z = Ok t /\
           leaves t ≡ₚ made.
Proof.
  apply (build_leaves extract_top dirty two_codes 128 99%Z).
  - exact extract_top_order.
  - simpl. lia.
Defined.

(** C8 as stated fails: with two codes and a limit of 128 the code seen
    once has no leaf of its own; its weight sits in the literal leaf. *)
Lemma build_leaves_counterexample :
  length two_codes <= 128 /\
  buildHuffmanTree extract_top clean two_codes 128 99%Z
    = Ok (Node (Leaf 99%Z 1) (Leaf 7%Z 3) false) /\
  ~ (5%Z, 1) ∈ leaves (Node (Leaf 99%Z 1) (Leaf 7%Z 3) false).
Proof.
  split; [simpl; lia|]. split; [reflexivity|].
  simpl. rewrite !elem_of_cons. intros [H|[H|H]];
    [discriminate..|by apply elem_of_nil in H].
Qed.

End HuffmanFacts.

(** ** Branch tables and the skip map *)

Module TableFacts.
Import Zip ZipSpec.

Local Open Scope nat_scope.

Lemma bump_keys (k : nat) (t : table) :
  forall x, x ∈ (fst <$> bump k t) <-> x = k \/ x ∈ (fst <$> t).
Proof.
  induction t as [|[k' c] t IH]; intros x; simpl.
  - rewrite list_elem_of_singleton, elem_of_nil. tauto.
  - destruct (Nat.ltb_spec k k').
    + rewrite fmap_cons, elem_of_cons. simpl. done.
    + destruct (Nat.eqb_spec k k') as [->|Hne].
      * rewrite !fmap_cons, !elem_of_cons. simpl. tauto.
      * rewrite !fmap_cons, !elem_of_cons, IH. simpl. tauto.
Qed.

Lemma bump_wf (k : nat) (t : table) : wf_table t -> wf_table (bump k t).
Proof.
  intros [Hs Hp]. induction t as [|[k' c] t IH]; simpl.
  - split; repeat constructor.
  - apply StronglySorted_inv in Hs as [Hs Hlt].
    apply Forall_cons in Hp as [Hc Hp]. simpl in *.
    destruct (Nat.ltb_spec k k').
    + split.
      * rewrite fmap_cons. constructor; [by constructor|].
        simpl. constructor; [done|].
        eapply Forall_impl; [exact Hlt|]. simpl. lia.
      * constructor; [simpl; lia|]. by constructor.
    + destruct (Nat.eqb_spec k k') as [->|Hne].
      * split; [by constructor|]. constructor; [simpl; lia|done].
      * destruct (IH Hs Hp) as [Hs' Hp']. split.
        -- rewrite fmap_cons. constructor; [done|].
           apply Forall_forall. intros x Hx. simpl.
           apply bump_keys in Hx as [->|Hx]; [lia|].
           rewrite Forall_forall in Hlt. by apply Hlt.
        -- by constructor.
Qed.

Lemma bump_has (k : nat) (t : table) : k ∈ (fst <$> bump k t).
Proof. apply bump_keys. by left. Qed.

Lemma bump_keeps (k x : nat) (t : table) :
  x ∈ (fst <$> t) -> x ∈ (fst <$> bump k t).
Proof. intros. apply bump_keys. by right. Qed.

Lemma wf_nil : wf_table [].
Proof. split; constructor. Qed.

(** A table of fewer than two entries that holds [k] is just [k]. *)
Lemma small_table (t : table) (k : nat) :
  wf_table t -> length t < 2 -> k ∈ (fst <$> t) ->
  exists c, t = [(k, c)] /\ 0 < c.
Proof.
  intros [_ Hp] Hl Hk. destruct t as [|[k' c] [|? ?]]; simpl in *; try lia.
  - by apply elem_of_nil in Hk.
  - apply list_elem_of_singleton in Hk as ->. exists c. split; [done|].
    by apply Forall_cons in Hp as [? _].
Qed.


Lemma sorted_before (l : list nat) (k : nat) (ks : list nat) :
  StronglySorted lt (l ++ k :: ks) -> forall k', k' ∈ l -> k' < k.
Proof.
  induction l as [|a l IH]; intros Hs k' Hk'; simpl in *.
  - by apply elem_of_nil in Hk'.
  - apply StronglySorted_inv in Hs as [Hs Hall].
    apply elem_of_cons in Hk' as [->|Hk'].
    + rewrite Forall_forall in Hall. apply Hall.
      apply elem_of_app. right. apply list_elem_of_here.
    + by apply IH.
Qed.

Lemma scan_invariant (next dflt : nat) (t : table) :
  forall seen acc,
    StronglySorted lt (fst <$> (seen ++ t)) ->
    scanned next dflt seen acc ->
    scanned next dflt (seen ++ t)
      (foldl (fun acc x =>
                if negb (fst x =? next) && (fst acc <? snd x)
                then (snd x, fst x) else acc) acc t).
Proof.
  induction t as [|[k c] t IH]; intros seen [m s] Hs Hinv.
  - rewrite app_nil_r. done.
  - cbn [foldl]. replace (seen ++ (k, c) :: t) with ((seen ++ [(k, c)]) ++ t)
      in * by (rewrite <- app_assoc; done).
    apply IH; [done|].
    destruct Hinv as (Hmax & Hzero & Hbest). simpl in *.
    assert (Hlt : forall k' c', (k', c') ∈ seen -> k' < k).
    { intros k' c' Hin. rewrite <- app_assoc, fmap_app in Hs.
      apply (sorted_before (fst <$> seen) k (fst <$> t)); [done|].
      apply list_elem_of_fmap. exists (k', c'). done. }
    destruct (Nat.eqb_spec k next) as [->|Hkn]; simpl.
    + unfold scanned; simpl; split; [|split].
      * intros k' c' Hin Hne. apply elem_of_app in Hin as [Hin|Hin];
          [by eapply Hmax|].
        apply list_elem_of_singleton in Hin. simplify_eq.
      * done.
      * intros Hm. destruct (Hbest Hm) as (Hin & Hne & Hfirst).
        split; [apply elem_of_app; by left|]. split; [done|].
        intros k' c' Hin' Hne' ->.
        apply elem_of_app in Hin' as [Hin'|Hin']; [by eapply Hfirst|].
        apply list_elem_of_singleton in Hin'. simplify_eq.
    + destruct (Nat.ltb_spec m c) as [Hmc|Hmc]; simpl.
      * unfold scanned; simpl; split; [|split].
        -- intros k' c' Hin Hne. apply elem_of_app in Hin as [Hin|Hin].
           ++ specialize (Hmax _ _ Hin Hne). lia.
           ++ apply list_elem_of_singleton in Hin. simplify_eq. lia.
        -- lia.
        -- intros _. split; [apply elem_of_app; right; apply list_elem_of_here|].
           split; [done|]. intros k' c' Hin Hne ->.
           apply elem_of_app in Hin as [Hin|Hin].
           ++ specialize (Hmax _ _ Hin Hne). lia.
           ++ apply list_elem_of_singleton in Hin. simplify_eq. lia.
      * unfold scanned; simpl; split; [|split].
        -- intros k' c' Hin Hne. apply elem_of_app in Hin as [Hin|Hin];
             [by eapply Hmax|].
           apply list_elem_of_singleton in Hin. simplify_eq. lia.
        -- done.
        -- intros Hm. destruct (Hbest Hm) as (Hin & Hne & Hfirst).
           split; [apply elem_of_app; by left|]. split; [done|].
           intros k' c' Hin' Hne' ->.
           apply elem_of_app in Hin' as [Hin'|Hin']; [by eapply Hfirst|].
           apply list_elem_of_singleton in Hin'. simplify_eq.
           specialize (Hlt _ _ Hin). lia.
Qed.

(** What [skip_index] returns on a well-formed table. *)
Lemma skip_index_spec (t : table) (next dflt : nat) :
  wf_table t ->
  ((forall k c, (k, c) ∈ t -> k = next) -> skip_index t next dflt = dflt) /\
  ((exists k c, (k, c) ∈ t /\ k <> next) ->
   skip_index t next dflt <> next /\
   exists c, (skip_index t next dflt, c) ∈ t /\
     forall k' c', (k', c') ∈ t -> k' <> next ->
       c' < c \/ (c' = c /\ skip_index t next dflt <= k')).
Proof.
  intros [Hs Hp]. unfold skip_index.
  pose proof (scan_invariant next dflt t [] (0, dflt)) as H.
  simpl in H. specialize (H Hs).
  destruct H as (Hmax & Hzero & Hbest).
  { split; [|split]; simpl.
    - intros ? ? Hin. by apply elem_of_nil in Hin.
    - done.
    - lia. }
  set (r := foldl _ _ t) in *. split.
  - intros Hall. apply Hzero.
    destruct (Nat.eq_dec (fst r) 0) as [|Hne]; [done|].
    destruct Hbest as (Hin & Hnn & _); [lia|].
    destruct (Hnn (Hall _ _ Hin)).
  - intros (k & c & Hin & Hne).
    assert (Hc : 0 < c).
    { rewrite Forall_forall in Hp. apply (Hp _ Hin). }
    pose proof (Hmax _ _ Hin Hne) as Hkc.
    destruct Hbest as (Hin' & Hnn & Hfirst); [lia|].
    split; [done|]. exists (fst r). split; [by destruct r|].
    intros k' c' Hin'' Hne'. pose proof (Hmax _ _ Hin'' Hne').
    destruct (Nat.eq_dec c' (fst r)) as [->|]; [|lia].
    right. split; [done|]. by eapply Hfirst.
Qed.

Lemma skip_index_single (k c next dflt : nat) :
  k <> next -> 0 < c -> skip_index [(k, c)] next dflt = k.
Proof.
  intros Hk Hc. unfold skip_index. simpl.
  destruct (Nat.eqb_spec k next); [done|].
  destruct (Nat.ltb_spec 0 c); [done|lia].
Qed.

Lemma make_skipMap_lookup (cm : list nat) (bfm : list table) (i : nat) :
  i < length bfm ->
  make_skipMap cm bfm !!! i
  = skip_index (bfm !!! i) (i + 1) (cm !!! (i + 1)).
Proof.
  intros Hi. unfold make_skipMap.
  apply list_lookup_total_correct.
  rewrite list_lookup_imap.
  destruct (lookup_lt_is_Some_2 bfm i Hi) as [t Ht].
  rewrite Ht. simpl. f_equal.
  by rewrite (list_lookup_total_correct _ _ _ Ht).
Qed.

End TableFacts.

(** ** Jump words *)

Module JumpFacts.
Import CodeFacts.

Local Open Scope Z_scope.


Lemma u64_small (z : Z) : 0 <= z < 2 ^ 64 -> u64 z = z.
Proof. intros. unfold u64. apply Z.mod_small. done. Qed.

Lemma shiftl_small (x k : Z) :
  0 <= k -> 0 <= x < 256 -> k + 8 <= 64 -> 0 <= Z.shiftl x k < 2 ^ 64.
Proof. intros. apply shiftl_bound; lia. Qed.

(** With sub-song and channel in a byte each, the fields of a jump word do
    not overlap. *)
Lemma CODE_JUMP_fields (subsong channel : Z) (address : nat) :
  0 <= subsong < 256 -> 0 <= channel < 256 ->
  CODE_JUMP subsong channel address
  = Z.lor (Z.shiftl (Z.lor (Z.lor (Z.shiftl (tag JUMP) 16)
                                  (Z.shiftl subsong 8)) channel) 40)
          (Z.of_nat address).
Proof.
  intros Hs Hc. unfold CODE_JUMP.
  rewrite (u64_small subsong), (u64_small channel) by lia.
  rewrite (u64_small (Z.shiftl (tag JUMP) 56))
    by (vm_compute; split; [discriminate|reflexivity]).
  rewrite (u64_small (Z.shiftl subsong 48)) by (apply shiftl_small; lia).
  rewrite (u64_small (Z.shiftl channel 40)) by (apply shiftl_small; lia).
  f_equal. rewrite !Z.shiftl_lor. rewrite !Z.shiftl_shiftl by lia. done.
Qed.

Lemma jump_address (subsong channel : Z) (address : nat) :
  0 <= subsong < 256 -> 0 <= channel < 256 -> Z.of_nat address < 8192 ->
  GET_CODE_JUMP_ADDRESS (CODE_JUMP subsong channel address) = address.
Proof.
  intros Hs Hc Ha. unfold GET_CODE_JUMP_ADDRESS.
  rewrite CODE_JUMP_fields by done.
  rewrite Z.land_lor_distr_l.
  change 8191 with (Z.ones 13). rewrite !Z.land_ones by lia.
  rewrite Z.shiftl_mul_pow2 by lia.
  replace (2 ^ 40) with (2 ^ 27 * 2 ^ 13) by done.
  rewrite Z.mul_assoc, Z.mod_mul by done.
  rewrite Z.mod_small by (change (2 ^ 13) with 8192; lia).
  rewrite Z.lor_0_l. apply Nat2Z.id.
Qed.

(** Whatever the address, only its low 13 bits are read back. *)
Lemma jump_address_low (subsong channel : Z) (address : nat) :
  0 <= subsong < 256 -> 0 <= channel < 256 ->
  GET_CODE_JUMP_ADDRESS (CODE_JUMP subsong channel address)
  = Z.to_nat (Z.of_nat address mod 8192).
Proof.
  intros Hs Hc. unfold GET_CODE_JUMP_ADDRESS.
  rewrite CODE_JUMP_fields by done.
  rewrite Z.land_lor_distr_l.
  change 8191 with (Z.ones 13). rewrite !Z.land_ones by lia.
  rewrite Z.shiftl_mul_pow2 by lia.
  replace (2 ^ 40) with (2 ^ 27 * 2 ^ 13) by done.
  rewrite Z.mul_assoc, Z.mod_mul by done.
  rewrite Z.lor_0_l. done.
Qed.

Lemma jump_type_wide (subsong channel : Z) (address : nat) :
  0 <= subsong < 256 -> 0 <= channel < 256 -> Z.of_nat address < 2 ^ 56 ->
  GET_CODE_TYPE (CODE_JUMP subsong channel address) = tag JUMP.
Proof.
  intros Hs Hc Ha. unfold GET_CODE_TYPE.
  rewrite CODE_JUMP_fields by done.
  rewrite Z.shiftr_lor.
  rewrite (Z.shiftr_div_pow2 (Z.of_nat address)) by lia.
  rewrite (Z.div_small (Z.of_nat address)) by lia.
  rewrite Z.lor_0_r.
  rewrite Z.shiftr_shiftl_r by lia. change (56 - 40) with 16.
  rewrite !Z.shiftr_lor.
  rewrite Z.shiftr_shiftl_l by lia. change (16 - 16) with 0.
  rewrite (Z.shiftr_div_pow2 channel), (Z.div_small channel) by lia.
  rewrite Z.shiftr_shiftl_r by lia. change (16 - 8) with 8.
  rewrite (Z.shiftr_div_pow2 subsong), (Z.div_small subsong) by lia.
  reflexivity.
Qed.

Lemma jump_type (subsong channel : Z) (address : nat) :
  0 <= subsong < 256 -> 0 <= channel < 256 -> Z.of_nat address <= 8192 ->
  GET_CODE_TYPE (CODE_JUMP subsong channel address) = tag JUMP.
Proof.
  intros Hs Hc Ha. apply jump_type_wide; [done|done|].
  eapply Z.le_lt_trans; [exact Ha|done].
Qed.

Lemma type_neq (c d : AlphaCode) :
  GET_CODE_TYPE c <> GET_CODE_TYPE d -> c <> d.
Proof. congruence. Qed.

End JumpFacts.

(** ** The greedy parse *)

Module ParseFacts.
Import Zip ZipSpec TableFacts.

Local Open Scope nat_scope.

Lemma bump_at_lookup (a b : nat) (bfm : list table) (L : nat) :
  bump_at a b bfm !!! L
  = if decide (a = L /\ a < length bfm) then bump b (bfm !!! a)
    else bfm !!! L.
Proof.
  unfold bump_at. destruct (decide (a = L /\ a < length bfm)) as [[-> Hl]|Hn].
  - by apply list_lookup_total_alter_eq.
  - destruct (decide (a = L)) as [->|Hne].
    + rewrite !list_lookup_total_alt.
      rewrite list_lookup_alter_eq.
      rewrite (lookup_ge_None_2 bfm L) by lia. done.
    + by apply list_lookup_total_alter_ne.
Qed.

Lemma bump_at_length (a b : nat) (bfm : list table) :
  length (bump_at a b bfm) = length bfm.
Proof. apply length_alter. Qed.

Lemma bump_at_wf (a b : nat) (bfm : list table) :
  (forall L, wf_table (bfm !!! L)) ->
  forall L, wf_table (bump_at a b bfm !!! L).
Proof.
  intros H L. rewrite bump_at_lookup. destruct (decide _); [|done].
  by apply bump_wf.
Qed.

Lemma bump_at_keeps (a b : nat) (bfm : list table) (L x : nat) :
  x ∈ (fst <$> (bfm !!! L)) -> x ∈ (fst <$> (bump_at a b bfm !!! L)).
Proof.
  intros H. rewrite bump_at_lookup. destruct (decide _) as [[-> _]|]; [|done].
  by apply bump_keeps.
Qed.

Lemma bump_at_has (a b : nat) (bfm : list table) :
  a < length bfm -> b ∈ (fst <$> (bump_at a b bfm !!! a)).
Proof.
  intros H. rewrite bump_at_lookup. destruct (decide _) as [|Hn]; [|lia].
  apply bump_has.
Qed.

Lemma cover_le (cm : list nat) (sps : list Span) :
  forall e e', cover cm e sps e' -> e <= e'.
Proof.
  induction sps as [|sp sps IH]; intros e e' H; simpl in H; [lia|].
  destruct H as [_ H]. apply IH in H. lia.
Qed.

Lemma cover_frame (cm cm' : list nat) (sps : list Span) :
  forall e e',
    (forall p, p < e' -> cm' !!! p = cm !!! p) ->
    cover cm e sps e' -> cover cm' e sps e'.
Proof.
  induction sps as [|sp sps IH]; intros e e' Hfr H; simpl in *; [done|].
  destruct H as [Hk H]. pose proof (cover_le _ _ _ _ H) as Hle.
  split; [|by apply IH].
  destruct Hk as [[Hs Hl]|[Hs Hl]]; [left|right]; (split; [done|]);
    intros p Hp; rewrite Hfr by lia; by apply Hl.
Qed.

Lemma cover_app (cm : list nat) (a b : list Span) :
  forall e m e', cover cm e a m -> cover cm m b e' -> cover cm e (a ++ b) e'.
Proof.
  induction a as [|sp a IH]; intros e m e' Ha Hb; simpl in *.
  - by subst.
  - destruct Ha as [Hk Ha]. split; [done|]. by eapply IH.
Qed.

(** The flags computed from the spans tell copies from literals. *)
Lemma cover_flags (cm : list nat) (sps : list Span) :
  forall e e',
    cover cm e sps e' ->
    forall p, e <= p < e' ->
      exists b, span_flags e sps !! (p - e) = Some b /\
                if b : bool then cm !!! p < p else cm !!! p = p.
Proof.
  induction sps as [|sp sps IH]; intros e e' H p Hp; simpl in *; [lia|].
  destruct H as [Hk H].
  destruct (decide (p < e + span_length sp)) as [Hin|Hout].
  - exists (span_start sp <? e).
    rewrite lookup_app_l by (rewrite length_replicate; lia).
    split; [apply lookup_replicate_2; lia|].
    destruct Hk as [[Hs Hl]|[Hs Hl]].
    + destruct (Nat.ltb_spec (span_start sp) e); [lia|]. apply Hl. lia.
    + destruct (Nat.ltb_spec (span_start sp) e); [|lia]. apply Hl. lia.
  - destruct (IH _ _ H p) as (b & Hb & Hc); [lia|].
    exists b. split; [|done].
    rewrite lookup_app_r by (rewrite length_replicate; lia).
    rewrite length_replicate. rewrite <- Hb. f_equal. lia.
Qed.

Lemma replicate_lookup_total {A} `{!Inhabited A} (m : nat) (x : A) (i : nat) :
  x = inhabitant -> replicate m x !!! i = x.
Proof.
  intros Hx. destruct (decide (i < m)).
  - by apply lookup_total_replicate_2.
  - rewrite list_lookup_total_alt, (lookup_ge_None_2 _ i); [done|].
    rewrite length_replicate. lia.
Qed.

Section Parse.

Variable index : AlphaCode -> AlphaChar.
Variable find_prior : nat -> list AlphaChar -> nat * nat.
Variable subsong channel : Z.
Variable codeSequence : list AlphaCode.

Let seq := alphaSequence index codeSequence.
Let n := length seq.
Let good := ZipSpec.good seq.
Let parse_inv := ZipSpec.parse_inv seq.

(** Writing [v] at position [i] and counting the transition into it. *)
Lemma good_step (i : nat) (cm : list nat) (bfm : list table) (v : nat) :
  good i cm bfm -> i < n ->
  (v = i \/ (v < i /\ cm !!! v = v)) ->
  seq !! v = seq !! i ->
  good (S i) (<[i := v]> cm)
       (if 0 <? i then bump_at (cm !!! (i - 1)) v bfm else bfm).
Proof.
  intros [Hcl Hbl Hcm Hwf Hsucc] Hi Hv Hseq.
  assert (Heq : forall p, p < i -> <[i := v]> cm !!! p = cm !!! p).
  { intros p Hp. apply list_lookup_total_insert_ne. lia. }
  assert (Hat : <[i := v]> cm !!! i = v).
  { apply list_lookup_total_insert_eq. lia. }
  split.
  - by rewrite length_insert.
  - destruct (0 <? i); [by rewrite bump_at_length|done].
  - intros p Hp. destruct (decide (p = i)) as [->|Hne].
    + rewrite Hat. destruct Hv as [->|[Hlt Hfix]].
      * rewrite Hat. done.
      * rewrite Heq by done. split; [lia|]. done.
    + assert (Hp' : p < i) by lia.
      rewrite (Heq p Hp'). destruct (Hcm p Hp') as (Hle & Hfix & Hs).
      rewrite Heq by lia. done.
  - destruct (0 <? i); [by apply bump_at_wf|done].
  - intros p Hp. destruct (decide (S p = i)) as [<-|Hne].
    + rewrite Hat, Heq by lia. simpl. rewrite Nat.sub_0_r.
      apply bump_at_has. destruct (Hcm p) as (Hle & _); lia.
    + rewrite !Heq by lia.
      destruct (0 <? i); [apply bump_at_keeps|]; apply Hsucc; lia.
Qed.

(** The inner loop of a back reference: [count] copies. *)
Lemma copy_span_good (count : nat) :
  forall j i cm bfm,
    good i cm bfm -> j < i -> i + count <= n ->
    (forall k, k < count -> seq !! (j + k) = seq !! (i + k)) ->
    exists cm' bfm',
      copy_span count j i cm bfm = (i + count, cm', bfm') /\
      good (i + count) cm' bfm' /\
      (forall p, p < i -> cm' !!! p = cm !!! p) /\
      (forall p, i <= p < i + count -> cm' !!! p < p).
Proof.
  induction count as [|count IH]; intros j i cm bfm Hg Hj Hn Hm.
  - exists cm, bfm. rewrite Nat.add_0_r.
    split; [done|]. split; [done|]. split; [done|]. intros; lia.
  - cbn [copy_span].
    assert (Hgj := good_cm Hg j Hj). destruct Hgj as (Hle & Hfix & Hs).
    set (v := cm !!! j) in *.
    assert (Hstep : good (S i) (<[i := v]> cm)
              (if 0 <? i then bump_at (cm !!! (i - 1)) v bfm else bfm)).
    { apply good_step; [done|lia|right; split; [lia|done]|].
      rewrite Hs. specialize (Hm 0). rewrite !Nat.add_0_r in Hm.
      apply Hm. lia. }
    assert (Hprev : <[i := v]> cm !!! (i - 1) = cm !!! (i - 1) \/ i = 0).
    { destruct i; [by right|left].
      apply list_lookup_total_insert_ne. lia. }
    assert (Hb : (if 0 <? i
                  then bump_at (<[i := v]> cm !!! (i - 1)) v bfm else bfm)
                 = (if 0 <? i then bump_at (cm !!! (i - 1)) v bfm else bfm)).
    { destruct Hprev as [->| ->]; done. }
    rewrite Hb.
    destruct (IH (S j) (S i) _ _ Hstep) as (cm' & bfm' & -> & Hg' & Hfr & Hcp).
    { lia. } { lia. }
    { intros k Hk. replace (S j + k) with (j + S k) by lia.
      replace (S i + k) with (i + S k) by lia. apply Hm. lia. }
    exists cm', bfm'. replace (S i + count) with (i + S count) in * by lia.
    split; [done|]. split; [done|]. split.
    + intros p Hp. rewrite Hfr by lia.
      apply list_lookup_total_insert_ne. lia.
    + intros p Hp. destruct (decide (p = i)) as [->|Hne].
      * rewrite Hfr by lia.
        rewrite list_lookup_total_insert_eq by (rewrite (good_cm_len Hg); lia).
        lia.
      * apply Hcp. lia.
Qed.

Lemma parse_init_inv :
  parse_inv (parse_init index subsong channel codeSequence).
Proof.
  unfold parse_init. fold seq. fold n.
  split; simpl; try done; try lia.
  split; simpl.
  - apply length_replicate.
  - apply length_replicate.
  - lia.
  - intros L. rewrite replicate_lookup_total by done. apply wf_nil.
  - lia.
Qed.

(** The pending literal span, pushed, covers its own positions. *)
Lemma cover_pending (st : ParseState) :
  parse_inv st ->
  cover (copyMap st) 0 (push_span (currentSpan st) (spans st)) (ps_i st).
Proof.
  intros [Hg Hle Hcur Hcov Hlit]. unfold push_span.
  destruct (Nat.ltb_spec 0 (span_length (currentSpan st))).
  - eapply cover_app; [exact Hcov|]. simpl. split; [|lia].
    left. split; [done|]. intros p Hp. apply Hlit. lia.
  - replace (ps_i st) with (span_start (currentSpan st)) by lia. done.
Qed.

Hypothesis Hsound : sound_prior find_prior seq.

Lemma parse_step_inv (st : ParseState) :
  parse_inv st -> ps_i st < n ->
  parse_inv (parse_step index find_prior subsong channel codeSequence st)
  /\ ps_i st
     < ps_i (parse_step index find_prior subsong channel codeSequence st).
Proof.
  intros Hinv Hi. pose proof Hinv as [Hg Hle Hcur Hcov Hlit].
  unfold parse_step. fold seq.
  destruct (find_prior (ps_i st) seq) as [s l] eqn:Hfp. simpl.
  destruct (Nat.ltb_spec 3 l) as [Hl|Hl].
  - destruct (Hsound _ _ _ Hi Hfp Hl) as (Hs & Hfit & Hmatch).
    destruct (copy_span_good l s (ps_i st) _ _ Hg Hs Hfit Hmatch)
      as (cm' & bfm' & -> & Hg' & Hfr & Hcp).
    split; [|simpl; lia]. split; simpl; try done; try lia.
    eapply cover_app.
    + eapply cover_frame; [|apply (cover_pending st Hinv)].
      intros p Hp. by apply Hfr.
    + simpl. split; [|done]. right. split; [done|]. done.
  - split; [|simpl; lia]. split; simpl.
    + replace (if 0 <? ps_i st
               then bump_at (copyMap st !!! (ps_i st - 1)) (ps_i st)
                      (branchFrequencyMap st)
               else branchFrequencyMap st)
        with (if 0 <? ps_i st
              then bump_at (copyMap st !!! (ps_i st - 1)) (ps_i st)
                     (branchFrequencyMap st)
              else branchFrequencyMap st) by done.
      apply good_step; [done|done|by left|done].
    + lia.
    + lia.
    + eapply cover_frame; [|exact Hcov].
      intros p Hp. apply list_lookup_total_insert_ne. lia.
    + intros p Hp. destruct (decide (p = ps_i st)) as [->|Hne].
      * apply list_lookup_total_insert_eq.
        rewrite (good_cm_len Hg). done.
      * rewrite list_lookup_total_insert_ne by lia. apply Hlit. lia.
Qed.

Lemma parse_loop_inv (k : nat) :
  forall st, parse_inv st ->
    parse_inv (parse_loop index find_prior subsong channel codeSequence k st).
Proof.
  induction k as [|k IH]; intros st Hinv; simpl; [done|].
  fold seq. fold n. destruct (Nat.ltb_spec (ps_i st) n); [|done].
  apply IH. by apply parse_step_inv.
Qed.

(** Every round moves forward, so [n] rounds reach the end. *)
Lemma parse_loop_progress (k : nat) :
  forall st, parse_inv st -> n <= ps_i st + k ->
    ps_i (parse_loop index find_prior subsong channel codeSequence k st) = n.
Proof.
  induction k as [|k IH]; intros st Hinv Hk; simpl.
  - pose proof (inv_le Hinv). lia.
  - fold seq. fold n. destruct (Nat.ltb_spec (ps_i st) n) as [Hlt|Hge].
    + destruct (parse_step_inv st Hinv Hlt) as [Hinv' Hadv].
      apply IH; [done|lia].
    + pose proof (inv_le Hinv). lia.
Qed.

(** The parse returns, and its result covers the whole sequence. *)
Lemma parse_completes :
  exists st,
    parse index find_prior subsong channel codeSequence = Ok st /\
    good n (copyMap st) (branchFrequencyMap st) /\
    cover (copyMap st) 0 (spans st) n.
Proof.
  unfold parse. fold seq. fold n.
  set (st := parse_loop _ _ _ _ _ n _).
  assert (Hinv : parse_inv st) by apply parse_loop_inv, parse_init_inv.
  assert (Hn : ps_i st = n).
  { apply parse_loop_progress; [apply parse_init_inv|simpl; lia]. }
  rewrite Hn. destruct (Nat.ltb_spec n n); [lia|].
  eexists. split; [done|]. simpl. split.
  - rewrite <- Hn. apply Hinv.
  - rewrite <- Hn. by apply cover_pending.
Qed.

End Parse.

End ParseFacts.

(** ** The suffix query, the copy map and the skip map *)

Module SuffixFacts.
Import Zip ZipSpec Suffix.

Local Open Scope nat_scope.

Lemma match_length_spec (a : list AlphaChar) :
  forall b,
    match_length a b <= length b /\
    forall k, k < match_length a b -> a !! k = b !! k.
Proof.
  induction a as [|x a IH]; intros [|y b]; simpl; try (split; [lia|]; lia).
  destruct (Z.eqb_spec x y) as [->|]; [|split; [lia|]; lia].
  destruct (IH b) as [Hl Hm]. split; [lia|].
  intros [|k] Hk; simpl; [done|]. apply Hm. lia.
Qed.

Lemma tail_drop {A} (l : list A) : forall j, tail (drop j l) = drop (S j) l.
Proof.
  induction l as [|x l IH]; intros [|j]; simpl; try done.
Qed.

Lemma scan_sound (seq : list AlphaChar) (i : nat) (count : nat) :
  forall j best,
    j + count = i ->
    (snd best = 0 \/
     (fst best < i /\ i + snd best <= length seq /\
      forall k, k < snd best -> seq !! (fst best + k) = seq !! (i + k))) ->
    let r := scan count j (drop j seq) (drop i seq) best in
    snd r = 0 \/
    (fst r < i /\ i + snd r <= length seq /\
     forall k, k < snd r -> seq !! (fst r + k) = seq !! (i + k)).
Proof.
  induction count as [|count IH]; intros j best Hj Hbest; simpl; [done|].
  rewrite tail_drop.
  apply IH; [lia|].
  destruct (match_length_spec (drop j seq) (drop i seq)) as [Hl Hm].
  rewrite length_drop in Hl.
  destruct (Nat.ltb_spec (snd best) (match_length (drop j seq) (drop i seq)))
    as [Hlt|Hge]; [|done].
  right. simpl. split; [lia|]. split.
  { destruct (decide (i <= length seq)); lia. }
  intros k Hk. specialize (Hm k Hk). rewrite !lookup_drop in Hm. done.
Qed.

(** The modelled query meets the contract the compressor relies on. *)
Lemma find_prior_sound (seq : list AlphaChar) : sound_prior find_prior seq.
Proof.
  intros i s l Hi Hfp Hl. unfold find_prior in Hfp.
  pose proof (scan_sound seq i i 0 (0, 0) ltac:(lia) ltac:(by left)) as H.
  simpl in H. rewrite drop_0 in H. rewrite Hfp in H. simpl in H.
  destruct H as [|H]; [lia|done].
Qed.

End SuffixFacts.

Module ParseClaims.
Import Zip ZipSpec TableFacts ParseFacts.

Local Open Scope nat_scope.

Section Unconditional.

Variable index : AlphaCode -> AlphaChar.
Variable find_prior : nat -> list AlphaChar -> nat * nat.
Variable subsong channel : Z.
Variable codeSequence : list AlphaCode.

Let seq := alphaSequence index codeSequence.

(** Whatever the query returns, the tables stay well formed and keep their
    number. *)
Lemma copy_span_tables (count : nat) :
  forall j i cm bfm,
    (forall L, wf_table (bfm !!! L)) ->
    forall L,
      wf_table ((copy_span count j i cm bfm).2 !!! L) /\
      length (copy_span count j i cm bfm).2 = length bfm.
Proof.
  induction count as [|count IH]; intros j i cm bfm Hwf L; simpl; [done|].
  destruct (0 <? i).
  - destruct (IH (S j) (S i) (<[i := cm !!! j]> cm)
                 (bump_at (<[i := cm !!! j]> cm !!! (i - 1)) (cm !!! j) bfm)
                 (bump_at_wf _ _ _ Hwf) L) as [H1 H2].
    split; [done|]. by rewrite H2, bump_at_length.
  - by apply IH.
Qed.

Lemma parse_step_tables (st : ParseState) :
  (forall L, wf_table (branchFrequencyMap st !!! L)) ->
  let st' := parse_step index find_prior subsong channel codeSequence st in
  (forall L, wf_table (branchFrequencyMap st' !!! L)) /\
  length (branchFrequencyMap st') = length (branchFrequencyMap st).
Proof.
  intros Hwf. unfold parse_step.
  destruct (find_prior _ _) as [s l]. simpl.
  destruct (3 <? l).
  - pose proof (copy_span_tables l s (ps_i st) (copyMap st) _ Hwf) as H.
    destruct (copy_span l s (ps_i st) (copyMap st) (branchFrequencyMap st))
      as [[i' cm'] bfm']. simpl in *.
    split; [intros L; apply H|]. apply (H 0).
  - simpl. destruct (0 <? ps_i st); [|done].
    split; [by apply bump_at_wf|apply bump_at_length].
Qed.

Lemma parse_loop_tables (k : nat) :
  forall st,
    (forall L, wf_table (branchFrequencyMap st !!! L)) ->
    let st' := parse_loop index find_prior subsong channel codeSequence k st
    in
    (forall L, wf_table (branchFrequencyMap st' !!! L)) /\
    length (branchFrequencyMap st') = length (branchFrequencyMap st).
Proof.
  induction k as [|k IH]; intros st Hwf; simpl; [done|].
  destruct (ps_i st <? _); [|done].
  destruct (parse_step_tables st Hwf) as [H1 H2].
  destruct (IH _ H1) as [H3 H4]. split; [done|]. by rewrite H4.
Qed.

Lemma parse_tables (st : ParseState) :
  parse index find_prior subsong channel codeSequence = Ok st ->
  (forall L, wf_table (branchFrequencyMap st !!! L)) /\
  length (branchFrequencyMap st) = length codeSequence.
Proof.
  unfold parse. destruct (_ <? _); [done|]. intros [= <-]. simpl.
  destruct (parse_loop_tables (length (alphaSequence index codeSequence))
              (parse_init index subsong channel codeSequence)) as [H1 H2].
  { intros L. simpl. rewrite replicate_lookup_total by done. apply wf_nil. }
  split; [done|]. rewrite H2. simpl.
  rewrite length_replicate. unfold alphaSequence. apply length_fmap.
Qed.

(** C4 (as amended).  For a position [src] that has a successor,
    [skipMap[src]] is [copyMap[src + 1]] when the table of [src] holds no
    successor other than [src + 1]; otherwise it is a successor of the table
    other than [src + 1] whose count no other such successor exceeds, the
    one of lowest index among those of equal count. *)
Theorem skipMap_best_successor (st : ParseState) (src : nat) :
  parse index find_prior subsong channel codeSequence = Ok st ->
  S src < length codeSequence ->
  let t := branchFrequencyMap st !!! src in
  let sk := make_skipMap (copyMap st) (branchFrequencyMap st) !!! src in
  ((forall k c, (k, c) ∈ t -> k = S src) -> sk = copyMap st !!! S src) /\
  ((exists k c, (k, c) ∈ t /\ k <> S src) ->
   sk <> S src /\
   exists c, (sk, c) ∈ t /\
     forall k' c', (k', c') ∈ t -> k' <> S src ->
       c' < c \/ (c' = c /\ sk <= k')).
Proof.
  intros Hp Hsrc t sk. destruct (parse_tables st Hp) as [Hwf Hlen].
  unfold sk. rewrite make_skipMap_lookup by lia.
  rewrite Nat.add_1_r. apply skip_index_spec. apply Hwf.
Qed.

End Unconditional.

Lemma skipMap_best_successor_witness :
  exists st,
    parse Suffix.index Suffix.find_prior 0 0 motif = Ok st /\
    make_skipMap (copyMap st) (branchFrequencyMap st) !!! 3 = 9.
Proof.
  eexists. split; [vm_compute; reflexivity|].
  match goal with |- make_skipMap (copyMap ?s) _ !!! _ = _ =>
    destruct (skipMap_best_successor Suffix.index Suffix.find_prior 0 0
                motif s 3 eq_refl ltac:(simpl; lia)) as [_ H] end.
  destruct H as (Hne & c & Hin & Hbest).
  { exists 9, 1. split; [vm_compute|lia].
    apply list_elem_of_further, list_elem_of_here. }
  vm_compute. reflexivity.
Defined.

(** C4 as stated fails: in the parse of 1 2 3 4 5 1 2 3 4 STOP the table of
    position 4 has a single entry, yet [skipMap[4]] is 0, not 5. *)
Lemma skipMap_neighbor_counterexample :
  exists st,
    parse Suffix.index Suffix.find_prior 0 0 motif = Ok st /\
    branchFrequencyMap st !!! 4 = [(0, 1)] /\
    make_skipMap (copyMap st) (branchFrequencyMap st) !!! 4 = 0 /\
    make_skipMap (copyMap st) (branchFrequencyMap st) !!! 4 <> 4 + 1.
Proof.
  eexists. split; [vm_compute; reflexivity|].
  split; [reflexivity|]. split; [reflexivity|]. vm_compute. lia.
Qed.

Section Sound.

Variable index : AlphaCode -> AlphaChar.
Variable find_prior : nat -> list AlphaChar -> nat * nat.
Variable subsong channel : Z.
Variable codeSequence : list AlphaCode.

(** C7.  After any number of rounds of the greedy parse, every position [p]
    parsed so far has [copyMap[p] <= p], and [copyMap[p] = p] exactly when
    [p] lies in a literal span (one the traversal does not flag as a
    repeat). *)
Theorem copyMap_literal (k p : nat) :
  sound_prior find_prior (alphaSequence index codeSequence) ->
  let st := parse_loop index find_prior subsong channel codeSequence k
              (parse_init index subsong channel codeSequence) in
  p < ps_i st ->
  copyMap st !!! p <= p /\
  (copyMap st !!! p = p
   <-> literal_at (push_span (currentSpan st) (spans st)) p).
Proof.
  intros Hsound st Hp.
  assert (Hinv : parse_inv (alphaSequence index codeSequence) st).
  { apply parse_loop_inv; [done|]. apply parse_init_inv. }
  destruct (good_cm (inv_good Hinv) p Hp) as (Hle & _).
  split; [done|].
  destruct (cover_flags _ _ _ _ (cover_pending _ _ _ Hinv) p ltac:(lia))
    as (b & Hb & Hc).
  rewrite Nat.sub_0_r in Hb. unfold literal_at. rewrite Hb.
  destruct b; split; intros H; (done || lia || by simplify_eq).
Qed.

End Sound.

Lemma copyMap_literal_witness :
  let st := parse_loop Suffix.index Suffix.find_prior 0 0 motif 6
              (parse_init Suffix.index 0 0 motif) in
  copyMap st !!! 7 <= 7 /\
  (copyMap st !!! 7 = 7
   <-> literal_at (push_span (currentSpan st) (spans st)) 7).
Proof.
  apply (copyMap_literal Suffix.index Suffix.find_prior 0 0 motif 6 7).
  - apply SuffixFacts.find_prior_sound.
  - vm_compute. lia.
Defined.

End ParseClaims.

(** ** The control-flow rewriter: one position *)

Module EmitFacts.
Import Zip ZipSpec TableFacts ParseFacts.

Local Open Scope nat_scope.



End EmitFacts.

(** ** The control-flow rewriter: the two streams *)

Module StreamFacts.
Import Zip ZipSpec TableFacts ParseFacts.

Local Open Scope nat_scope.

Lemma bind_seq_S {A} (f : nat -> list A) (e : nat) :
  (seq 0 (S e) ≫= f) = (seq 0 e ≫= f) ++ f e.
Proof.
  rewrite seq_S, bind_app. simpl. by rewrite app_nil_r.
Qed.

Lemma bind_seq_split {A} (f : nat -> list A) (e m : nat) :
  e < m ->
  exists rest, (seq 0 m ≫= f) = (seq 0 e ≫= f) ++ f e ++ rest.
Proof.
  intros H. induction m as [|m IH]; [lia|].
  destruct (decide (e = m)) as [->|Hne].
  - exists []. rewrite bind_seq_S, app_nil_r. done.
  - destruct IH as [rest Hr]; [lia|].
    exists (rest ++ f m). rewrite bind_seq_S, Hr, <- !app_assoc. done.
Qed.

Lemma bind_seq_length_mono {A} (f : nat -> list A) (e m : nat) :
  e <= m -> length (seq 0 e ≫= f) <= length (seq 0 m ≫= f).
Proof.
  intros H. induction m as [|m IH].
  - replace e with 0 by lia. done.
  - destruct (decide (e = S m)) as [->|]; [done|].
    rewrite bind_seq_S, length_app. specialize (IH ltac:(lia)). lia.
Qed.

Section Traversal.

Variable subsong channel : Z.
Variable codeSequence : list AlphaCode.
Variable cm : list nat.
Variable bfm : list table.
Variable skipMap : list nat.

Let emit_ok := ZipSpec.emit_ok subsong channel codeSequence cm bfm skipMap.
Let emit_done :=
  ZipSpec.emit_done subsong channel codeSequence cm bfm skipMap.
Let data_upto := ZipSpec.data_upto subsong channel codeSequence cm bfm skipMap.
Let span_upto := ZipSpec.span_upto subsong channel cm bfm skipMap.
Let body_data := ZipSpec.body_data subsong channel codeSequence cm bfm skipMap.
Let body_span := ZipSpec.body_span subsong channel cm bfm skipMap.

Lemma data_upto_S (e : nat) : data_upto (S e) = data_upto e ++ body_data e.
Proof. apply bind_seq_S. Qed.

Lemma span_upto_S (e : nat) : span_upto (S e) = span_upto e ++ body_span e.
Proof. apply bind_seq_S. Qed.

(** One position that is not the final STOP. *)
Lemma emit_body_step (e i : nat) (rep : bool) (st : EmitState) :
  emit_ok e st -> S e < length cm ->
  (rep = false ->
   i = e /\ cm !!! e = e /\ codeSequence !!! e <> CODE_STOP) ->
  (rep = true -> cm !!! e <> e) ->
  exists st',
    emit_body subsong channel codeSequence cm bfm skipMap i rep st
    = Ok (false, st') /\
    emit_ok (S e) st'.
Proof.
  intros [Hend Hdata Hspan Hlen Hlab] Hn Hlit Hcopy.
  unfold emit_body. rewrite Hend.
  destruct (Nat.ltb_spec (S e) (length cm)) as [_|]; [|lia].
  cbn [negb].
  destruct rep; cbn [negb andb].
  - specialize (Hcopy eq_refl).
    assert (Hbd : body_data e = []).
    { unfold body_data, ZipSpec.body_data.
      destruct (Nat.eqb_spec (cm !!! e) e); [done|done]. }
    assert (Hbs : forall s, s = body_span e ->
              emit_ok (S e)
                (mkEmit (S e) (labels st) (compressedCodeSequence st)
                        (spanSequence st ++ s))).
    { intros s ->. split; simpl.
      - done.
      - by rewrite data_upto_S, Hbd, app_nil_r.
      - by rewrite span_upto_S, Hspan.
      - done.
      - intros p Hp Hpl. apply Hlab; [|done].
        destruct (decide (p = e)) as [->|]; [done|lia]. }
    unfold body_span, ZipSpec.body_span in Hbs.
    destruct ((cm !!! S e =? cm !!! e + 1) && (length (bfm !!! (cm !!! e)) <? 2)).
    + eexists. split; [reflexivity|].
      specialize (Hbs [] eq_refl). by rewrite app_nil_r in Hbs.
    + eexists. split; [reflexivity|].
      destruct (1 <? length (bfm !!! (cm !!! e))).
      * destruct (cm !!! S e =? skipMap !!! (cm !!! e)); [by apply Hbs|].
        destruct (cm !!! S e =? cm !!! e + 1); by apply Hbs.
      * specialize (Hbs [] eq_refl). by rewrite app_nil_r in Hbs.
  - destruct (Hlit eq_refl) as (-> & Hfix & Hstop).
    destruct (Z.eqb_spec (codeSequence !!! e) CODE_STOP) as [|_]; [done|].
    assert (Hgen : forall d s,
              codeSequence !!! e :: d = body_data e -> s = body_span e ->
              emit_ok (S e)
                (mkEmit (S e)
                   (<[e := length (compressedCodeSequence st)]> (labels st))
                   ((compressedCodeSequence st ++ [codeSequence !!! e]) ++ d)
                   (spanSequence st ++ s))).
    { intros d s Hd ->. split; simpl.
      - done.
      - rewrite data_upto_S, <- Hd, Hdata, <- app_assoc. done.
      - by rewrite span_upto_S, Hspan.
      - by rewrite length_insert.
      - intros p Hp Hpl. destruct (decide (p = e)) as [->|Hne].
        + rewrite list_lookup_total_insert_eq by lia. by rewrite Hdata.
        + rewrite list_lookup_total_insert_ne by done. apply Hlab; [lia|done]. }
    unfold body_data, body_span, ZipSpec.body_data, ZipSpec.body_span in Hgen.
    rewrite Hfix in *. rewrite Nat.eqb_refl in Hgen.
    destruct ((cm !!! S e =? e + 1) && (length (bfm !!! e) <? 2)).
    + eexists. split; [reflexivity|].
      specialize (Hgen [] [] eq_refl eq_refl).
      by rewrite !app_nil_r in Hgen.
    + eexists. split; [reflexivity|].
      destruct (1 <? length (bfm !!! e)).
      * destruct (cm !!! S e =? skipMap !!! e); [by apply Hgen|].
        destruct (cm !!! S e =? e + 1); by apply Hgen.
      * specialize (Hgen _ [] eq_refl eq_refl).
        by rewrite (app_nil_r (spanSequence st)) in Hgen.
Qed.

(** The final STOP. *)
Lemma emit_body_final (e : nat) (st : EmitState) :
  emit_ok e st -> S e = length cm -> cm !!! e = e ->
  codeSequence !!! e = CODE_STOP ->
  exists st',
    emit_body subsong channel codeSequence cm bfm skipMap e false st
    = Ok (true, st') /\
    emit_done st'.
Proof.
  intros [Hend Hdata Hspan Hlen Hlab] Hn Hfix Hstop.
  unfold emit_body. cbv zeta. rewrite Hstop. cbn [negb andb].
  change (CODE_STOP =? CODE_STOP)%Z with true. cbv iota.
  eexists. split; [reflexivity|].
  assert (Hm : length cm - 1 = e) by lia.
  split; simpl; rewrite ?Hm.
  - by rewrite Hdata.
  - by rewrite Hspan.
  - by rewrite length_insert.
  - intros p Hp Hpl. destruct (decide (p = e)) as [->|Hne].
    + rewrite list_lookup_total_insert_eq by lia. by rewrite Hdata.
    + rewrite list_lookup_total_insert_ne by done. apply Hlab; [lia|done].
Qed.

Hypothesis Hstops : forall p, S p < length cm -> cm !!! p = p ->
  codeSequence !!! p <> CODE_STOP.
Hypothesis Hlast : forall p, S p = length cm ->
  cm !!! p = p /\ codeSequence !!! p = CODE_STOP.

(** The traversal of one span. *)
Lemma emit_span_run (count : nat) :
  forall e i rep st,
    emit_ok e st -> e + count <= length cm ->
    (rep = false -> i = e /\ forall p, e <= p < e + count -> cm !!! p = p) ->
    (rep = true -> forall p, e <= p < e + count -> cm !!! p < p) ->
    exists st',
      emit_span subsong channel codeSequence cm bfm skipMap count i rep st
      = Ok st' /\
      (e + count < length cm -> emit_ok (e + count) st') /\
      (e + count = length cm -> 0 < count -> emit_done st').
Proof.
  induction count as [|count IH]; intros e i rep st Hok Hle Hlit Hcopy.
  - exists st. rewrite Nat.add_0_r. split; [done|]. split; [done|lia].
  - cbn [emit_span].
    destruct (decide (S e < length cm)) as [Hlt|Hge].
    + destruct (emit_body_step e i rep st Hok Hlt) as (st1 & -> & Hok1).
      { intros ->. destruct (Hlit eq_refl) as [-> Hl].
        split; [done|]. split; [apply Hl; lia|].
        apply Hstops; [done|apply Hl; lia]. }
      { intros ->. specialize (Hcopy eq_refl e). lia. }
      cbn [mbind res_bind].
      destruct (IH (S e) (S i) rep st1 Hok1) as (st' & -> & H1 & H2).
      { lia. }
      { intros ->. destruct (Hlit eq_refl) as [-> Hl].
        split; [done|]. intros p Hp. apply Hl. lia. }
      { intros -> p Hp. apply (Hcopy eq_refl). lia. }
      exists st'. split; [done|].
      replace (e + S count) with (S e + count) by lia. split; [done|].
      intros Heq _. apply H2; [done|]. lia.
    + assert (He : S e = length cm) by lia.
      assert (count = 0) as -> by lia.
      destruct (Hlast e He) as [Hfix Hstop].
      destruct rep.
      { specialize (Hcopy eq_refl e). lia. }
      destruct (Hlit eq_refl) as [-> _].
      destruct (emit_body_final e st Hok He Hfix Hstop) as (st' & -> & Hd).
      cbn [mbind res_bind]. exists st'. split; [done|]. split; [lia|done].
Qed.

(** Spans that cover nothing more leave the state alone. *)
Lemma emit_spans_nothing (sps : list Span) :
  forall e st,
    cover cm e sps e ->
    emit_spans subsong channel codeSequence cm bfm skipMap sps st = Ok st.
Proof.
  induction sps as [|sp sps IH]; intros e st Hc; simpl; [done|].
  destruct Hc as [_ Hc]. pose proof (cover_le _ _ _ _ Hc) as Hle.
  assert (Hz : span_length sp = 0) by lia. rewrite Hz in *.
  cbn [emit_span mbind res_bind]. rewrite Nat.add_0_r in Hc. by eapply IH.
Qed.

(** The traversal of all spans writes both streams in full. *)
Lemma emit_spans_all (sps : list Span) :
  forall e st,
    cover cm e sps (length cm) -> emit_ok e st -> e < length cm ->
    exists st',
      emit_spans subsong channel codeSequence cm bfm skipMap sps st = Ok st'
      /\ emit_done st'.
Proof.
  induction sps as [|sp sps IH]; intros e st Hc Hok He; simpl in Hc; [lia|].
  destruct Hc as [Hk Hc]. pose proof (cover_le _ _ _ _ Hc) as Hle.
  cbn [emit_spans]. rewrite (ZipSpec.eo_end _ _ _ _ _ _ _ _ Hok).
  destruct (emit_span_run (span_length sp) e (span_start sp)
              (span_start sp <? e) st Hok Hle) as (st1 & -> & H1 & H2).
  { intros Hr. apply Nat.ltb_ge in Hr.
    destruct Hk as [[Hs Hl]|[Hs _]]; [|lia]. done. }
  { intros Hr. apply Nat.ltb_lt in Hr.
    destruct Hk as [[Hs _]|[_ Hl]]; [lia|]. done. }
  cbn [mbind res_bind].
  destruct (decide (e + span_length sp < length cm)) as [Hlt|Hge].
  - eapply IH; [exact Hc|by apply H1|lia].
  - assert (Heq : e + span_length sp = length cm) by lia.
    rewrite Heq in Hc.
    rewrite (emit_spans_nothing sps _ st1 Hc).
    exists st1. split; [done|]. apply H2; [done|lia].
Qed.

End Traversal.

End StreamFacts.

(** ** The last pass and the validator, step by step *)

Module ReplayFacts.
Import Zip ZipSpec.

Local Open Scope nat_scope.

(** Comparisons between the opcode constants. *)
Ltac eval_consts :=
  repeat match goal with
  | |- context [(?a =? ?b)%Z] =>
      let v := eval vm_compute in (a =? b)%Z in
      match v with
      | true => change (a =? b)%Z with true
      | false => change (a =? b)%Z with false
      end
  | |- context [is_type ?t ?c] =>
      let v := eval vm_compute in (is_type t c) in
      match v with
      | true => change (is_type t c) with true
      | false => change (is_type t c) with false
      end
  end.

Ltac in_range H :=
  let Hlt := fresh "Hlt" in
  pose proof (lookup_lt_Some _ _ _ H) as Hlt;
  match type of Hlt with
  | ?i < ?n => destruct (Nat.ltb_spec i n); [|lia]
  end;
  cbn [negb]; rewrite ?(list_lookup_total_correct _ _ _ H).

Section Steps.

Variable codeSequence : list AlphaCode.
Variable D : list AlphaCode.

(** *** One round of the last pass *)

Lemma returns_plain (f : nat) (r : Regs) (sp : list AlphaCode)
    (c : AlphaCode) :
  D !! nextReadAddress r = Some c ->
  c <> CODE_TAKE_DATA_JUMP -> c <> CODE_BRANCH_POINT ->
  returns_loop (S f) D r sp = returns_loop f D (advance r) sp.
Proof.
  intros Hc H1 H2. cbn [returns_loop]. in_range Hc.
  destruct (Z.eqb_spec c CODE_TAKE_DATA_JUMP); [done|].
  destruct (Z.eqb_spec c CODE_BRANCH_POINT); [done|]. done.
Qed.

Lemma returns_goto (f : nat) (r : Regs) (sp : list AlphaCode)
    (j : AlphaCode) :
  D !! nextReadAddress r = Some CODE_TAKE_DATA_JUMP ->
  D !! S (nextReadAddress r) = Some j ->
  returns_loop (S f) D r sp
  = returns_loop f D
      (jump_from r (S (S (nextReadAddress r))) (GET_CODE_JUMP_ADDRESS j)
                 (nextSpanAddress r)) sp.
Proof.
  intros Hc Hj. cbn [returns_loop]. in_range Hc. eval_consts. cbv iota.
  rewrite Hj. done.
Qed.

Lemma returns_stop (f : nat) (r : Regs) (sp : list AlphaCode) :
  D !! nextReadAddress r = Some CODE_BRANCH_POINT ->
  sp !! nextSpanAddress r = Some CODE_STOP ->
  returns_loop (S f) D r sp = Ok sp.
Proof.
  intros Hc Hs. cbn [returns_loop]. in_range Hc. eval_consts. cbv iota.
  cbn [negb]. in_range Hs. eval_consts. done.
Qed.

Lemma returns_skip (f : nat) (r : Regs) (sp : list AlphaCode) :
  D !! nextReadAddress r = Some CODE_BRANCH_POINT ->
  sp !! nextSpanAddress r = Some CODE_SKIP ->
  returns_loop (S f) D r sp
  = returns_loop f D
      (mkRegs (maxOffset r) (returnAddress r) (S (S (nextReadAddress r)))
              (S (nextSpanAddress r))) sp.
Proof.
  intros Hc Hs. cbn [returns_loop]. in_range Hc. eval_consts. cbv iota.
  cbn [negb]. in_range Hs. eval_consts. done.
Qed.

Lemma returns_take (f : nat) (r : Regs) (sp : list AlphaCode)
    (j : AlphaCode) :
  D !! nextReadAddress r = Some CODE_BRANCH_POINT ->
  sp !! nextSpanAddress r = Some CODE_TAKE_DATA_JUMP ->
  D !! S (nextReadAddress r) = Some j ->
  returns_loop (S f) D r sp
  = returns_loop f D
      (jump_from r (S (S (nextReadAddress r))) (GET_CODE_JUMP_ADDRESS j)
                 (S (nextSpanAddress r))) sp.
Proof.
  intros Hc Hs Hj. cbn [returns_loop]. in_range Hc. eval_consts. cbv iota.
  cbn [negb]. in_range Hs. eval_consts. cbv iota. rewrite Hj. done.
Qed.

Lemma returns_track (f : nat) (r : Regs) (sp : list AlphaCode)
    (j : AlphaCode) :
  D !! nextReadAddress r = Some CODE_BRANCH_POINT ->
  sp !! nextSpanAddress r = Some CODE_TAKE_TRACK_JUMP ->
  sp !! S (nextSpanAddress r) = Some j ->
  is_type JUMP j = true ->
  returns_loop (S f) D r sp
  = if GET_CODE_JUMP_ADDRESS j =? returnAddress r then
      returns_loop f D
        (mkRegs (maxOffset r) (returnAddress r) (GET_CODE_JUMP_ADDRESS j)
                (S (S (nextSpanAddress r))))
        (<[S (nextSpanAddress r) := CODE_RETURN_NOOP]>
           (<[nextSpanAddress r := CODE_RETURN_LAST]> sp))
    else if GET_CODE_JUMP_ADDRESS j =? maxOffset r then
      returns_loop f D
        (mkRegs (maxOffset r) (returnAddress r) (GET_CODE_JUMP_ADDRESS j)
                (S (S (nextSpanAddress r))))
        (<[S (nextSpanAddress r) := CODE_RETURN_NOOP]>
           (<[nextSpanAddress r := CODE_RETURN_FF]> sp))
    else
      returns_loop f D
        (jump_from r (S (S (nextReadAddress r))) (GET_CODE_JUMP_ADDRESS j)
                   (S (S (nextSpanAddress r)))) sp.
Proof.
  intros Hc Hs Hj Hty. cbn [returns_loop]. in_range Hc. eval_consts.
  cbv iota. cbn [negb]. in_range Hs. eval_consts. cbv iota.
  rewrite Hj, Hty. cbn [negb]. rewrite Nat.sub_succ, Nat.sub_0_r. done.
Qed.

(** *** One round of the validator *)

Lemma validate_plain (f : nat) (sp : list AlphaCode) (r : Regs)
    (cmp : nat) (c : AlphaCode) :
  D !! nextReadAddress r = Some c ->
  c <> CODE_TAKE_DATA_JUMP -> is_type BRANCH_POINT c = false ->
  codeSequence !! cmp = Some c ->
  validate_loop codeSequence (S f) D sp r cmp
  = validate_loop codeSequence f D sp (advance r) (S cmp).
Proof.
  intros Hc H1 H2 Hx. cbn [validate_loop]. rewrite Hc.
  destruct (Z.eqb_spec c CODE_TAKE_DATA_JUMP); [done|].
  rewrite H2, Hx, Z.eqb_refl. done.
Qed.

Lemma validate_goto (f : nat) (sp : list AlphaCode) (r : Regs)
    (cmp : nat) (j : AlphaCode) :
  D !! nextReadAddress r = Some CODE_TAKE_DATA_JUMP ->
  D !! S (nextReadAddress r) = Some j ->
  is_type JUMP j = true ->
  validate_loop codeSequence (S f) D sp r cmp
  = validate_loop codeSequence f D sp
      (jump_from r (S (S (nextReadAddress r))) (GET_CODE_JUMP_ADDRESS j)
                 (nextSpanAddress r)) cmp.
Proof.
  intros Hc Hj Hty. cbn [validate_loop]. rewrite Hc. eval_consts. cbv iota.
  rewrite Hj, Hty. done.
Qed.

Lemma validate_stop (f : nat) (sp : list AlphaCode) (r : Regs)
    (cmp : nat) :
  D !! nextReadAddress r = Some CODE_BRANCH_POINT ->
  sp !! nextSpanAddress r = Some CODE_STOP ->
  codeSequence !! cmp = Some CODE_STOP ->
  length sp = S (nextSpanAddress r) ->
  validate_loop codeSequence (S f) D sp r cmp = Ok (S cmp).
Proof.
  intros Hc Hs Hx Hl. cbn [validate_loop]. rewrite Hc. eval_consts.
  cbv iota. in_range Hs. eval_consts. cbv iota. rewrite Hx. eval_consts.
  cbn [negb]. rewrite Hl, Nat.eqb_refl. done.
Qed.

Lemma validate_skip (f : nat) (sp : list AlphaCode) (r : Regs)
    (cmp : nat) :
  D !! nextReadAddress r = Some CODE_BRANCH_POINT ->
  sp !! nextSpanAddress r = Some CODE_SKIP ->
  validate_loop codeSequence (S f) D sp r cmp
  = validate_loop codeSequence f D sp
      (mkRegs (maxOffset r) (returnAddress r) (S (S (nextReadAddress r)))
              (S (nextSpanAddress r))) cmp.
Proof.
  intros Hc Hs. cbn [validate_loop]. rewrite Hc. eval_consts.
  cbv iota. in_range Hs. eval_consts. done.
Qed.

Lemma validate_take (f : nat) (sp : list AlphaCode) (r : Regs)
    (cmp : nat) (j : AlphaCode) :
  D !! nextReadAddress r = Some CODE_BRANCH_POINT ->
  sp !! nextSpanAddress r = Some CODE_TAKE_DATA_JUMP ->
  D !! S (nextReadAddress r) = Some j ->
  is_type JUMP j = true ->
  validate_loop codeSequence (S f) D sp r cmp
  = validate_loop codeSequence f D sp
      (jump_from r (S (S (nextReadAddress r))) (GET_CODE_JUMP_ADDRESS j)
                 (S (nextSpanAddress r))) cmp.
Proof.
  intros Hc Hs Hj Hty. cbn [validate_loop]. rewrite Hc. eval_consts.
  cbv iota. in_range Hs. eval_consts. cbv iota. rewrite Hj, Hty. done.
Qed.

Lemma validate_return_ff (f : nat) (sp : list AlphaCode) (r : Regs)
    (cmp : nat) :
  D !! nextReadAddress r = Some CODE_BRANCH_POINT ->
  sp !! nextSpanAddress r = Some CODE_RETURN_FF ->
  validate_loop codeSequence (S f) D sp r cmp
  = validate_loop codeSequence f D sp
      (mkRegs (maxOffset r) (returnAddress r) (maxOffset r)
              (S (S (nextSpanAddress r)))) cmp.
Proof.
  intros Hc Hs. cbn [validate_loop]. rewrite Hc. eval_consts.
  cbv iota. in_range Hs. eval_consts. done.
Qed.

Lemma validate_return_last (f : nat) (sp : list AlphaCode) (r : Regs)
    (cmp : nat) :
  D !! nextReadAddress r = Some CODE_BRANCH_POINT ->
  sp !! nextSpanAddress r = Some CODE_RETURN_LAST ->
  validate_loop codeSequence (S f) D sp r cmp
  = validate_loop codeSequence f D sp
      (mkRegs (maxOffset r) (returnAddress r) (returnAddress r)
              (S (S (nextSpanAddress r)))) cmp.
Proof.
  intros Hc Hs. cbn [validate_loop]. rewrite Hc. eval_consts.
  cbv iota. in_range Hs. eval_consts. done.
Qed.

Lemma validate_track (f : nat) (sp : list AlphaCode) (r : Regs)
    (cmp : nat) (j : AlphaCode) :
  D !! nextReadAddress r = Some CODE_BRANCH_POINT ->
  sp !! nextSpanAddress r = Some CODE_TAKE_TRACK_JUMP ->
  sp !! S (nextSpanAddress r) = Some j ->
  validate_loop codeSequence (S f) D sp r cmp
  = validate_loop codeSequence f D sp
      (jump_from r (S (S (nextReadAddress r))) (GET_CODE_JUMP_ADDRESS j)
                 (S (S (nextSpanAddress r)))) cmp.
Proof.
  intros Hc Hs Hj. cbn [validate_loop]. rewrite Hc. eval_consts.
  cbv iota. in_range Hs. eval_consts. cbv iota. rewrite Hj. done.
Qed.

End Steps.

Section Lockstep.

Variable codeSequence : list AlphaCode.
Variable D S0 : list AlphaCode.
Variable A sigma : nat -> nat.

Hypothesis Hlay : layout codeSequence D S0 A sigma.

Lemma plain_not_branch (c : AlphaCode) :
  is_type BRANCH_POINT c = false -> c <> CODE_BRANCH_POINT.
Proof. intros H ->. vm_compute in H. discriminate. Qed.

(** From position [e] on, the last pass runs to its STOP, and the validator
    run on the span stream it leaves, from the same registers, accepts.
    [k] is the number of positions still ahead. *)
Lemma lockstep (k : nat) :
  forall e r sp fuel fuel',
    e + k + 1 = length codeSequence ->
    nextReadAddress r = A e -> nextSpanAddress r = sigma e ->
    length sp = length S0 ->
    (forall i, sigma e <= i -> sp !! i = S0 !! i) ->
    2 * k + 1 <= fuel -> 2 * k + 1 <= fuel' ->
    exists sp',
      returns_loop fuel D r sp = Ok sp' /\
      length sp' = length S0 /\
      (forall i, i < sigma e -> sp' !! i = sp !! i) /\
      validate_loop codeSequence fuel' D sp' r e
      = Ok (length codeSequence).
Proof.
  induction k as [|k IH]; intros e r sp fuel fuel' He HA Hs Hlen Hagree Hf Hf'.
  - destruct (lay_stop _ _ _ _ _ Hlay e ltac:(lia)) as (Hx & Hd & Hst & Hl).
    destruct fuel as [|f]; [lia|]. destruct fuel' as [|f']; [lia|].
    exists sp. rewrite <- HA in Hd. rewrite <- Hagree, <- Hs in Hst by lia.
    split; [by apply returns_stop|]. split; [done|]. split; [done|].
    rewrite validate_stop; [f_equal; lia|done..|].
    rewrite Hlen, Hl, Hs. done.
  - assert (Hlt : S e < length codeSequence) by lia.
    destruct (lay_code _ _ _ _ _ Hlay e Hlt) as (c & Hx & Hd & Hn1 & Hn2).
    pose proof (plain_not_branch c Hn2) as Hn3.
    rewrite <- HA in Hd.
    destruct fuel as [|f]; [lia|]. destruct fuel' as [|f']; [lia|].
    rewrite (returns_plain D f r sp c Hd Hn1 Hn3).
    assert (Hv : forall sp', validate_loop codeSequence (S f') D sp' r e
                 = validate_loop codeSequence f' D sp' (advance r) (S e)).
    { intros sp'. by apply validate_plain with (c := c). }
    destruct (lay_link _ _ _ _ _ Hlay e Hlt)
      as [Ha Hsg | j Hd1 Hd2 Hty Hadr Hsg | j Hd1 Hs1 Hd2 Hty Hadr Hsg
          | Hd1 Hs1 Ha Hsg | j Hd1 Hs1 Hs2 Hty Hadr Hsg].
    + (* fall through *)
      destruct (IH (S e) (advance r) sp f f') as (sp' & Hr & Hl' & Hp & Hval);
        try done; try lia.
      { simpl. lia. }
      { simpl. lia. }
      { intros i Hi. apply Hagree. lia. }
      exists sp'. split; [done|]. split; [done|].
      split; [intros i Hi; apply Hp; lia|]. by rewrite Hv.
    + (* forced jump *)
      rewrite Nat.add_1_r, <- HA in Hd1. replace (A e + 2) with (S (S (A e)))
        in Hd2 by lia. rewrite <- HA in Hd2.
      destruct f as [|f]; [lia|]. destruct f' as [|f']; [lia|].
      rewrite (returns_goto D f (advance r) sp j Hd1 Hd2).
      set (r2 := jump_from _ _ _ _).
      destruct (IH (S e) r2 sp f f') as (sp' & Hr & Hl' & Hp & Hval);
        try done; try lia.
      { simpl. lia. }
      { intros i Hi. apply Hagree. lia. }
      exists sp'. split; [done|]. split; [done|].
      split; [intros i Hi; apply Hp; lia|].
      rewrite Hv. by rewrite (validate_goto codeSequence D f' sp' (advance r) (S e) j Hd1 Hd2 Hty).
    + (* branch: take the data jump *)
      rewrite Nat.add_1_r, <- HA in Hd1. replace (A e + 2) with (S (S (A e)))
        in Hd2 by lia. rewrite <- HA in Hd2.
      assert (Hsp : sp !! nextSpanAddress (advance r)
                    = Some CODE_TAKE_DATA_JUMP).
      { simpl. rewrite Hs, Hagree by lia. done. }
      destruct f as [|f]; [lia|]. destruct f' as [|f']; [lia|].
      rewrite (returns_take D f (advance r) sp j Hd1 Hsp Hd2).
      set (r2 := jump_from _ _ _ _).
      destruct (IH (S e) r2 sp f f') as (sp' & Hr & Hl' & Hp & Hval);
        try done; try lia.
      { simpl. lia. }
      { intros i Hi. apply Hagree. lia. }
      exists sp'. split; [done|]. split; [done|].
      split; [intros i Hi; apply Hp; lia|].
      rewrite Hv.
      rewrite (validate_take codeSequence D f' sp' (advance r) (S e) j Hd1); try done.
      simpl. rewrite Hp by lia. simpl in Hsp. done.
    + (* branch: skip *)
      rewrite Nat.add_1_r, <- HA in Hd1.
      assert (Hsp : sp !! nextSpanAddress (advance r) = Some CODE_SKIP).
      { simpl. rewrite Hs, Hagree by lia. done. }
      destruct f as [|f]; [lia|]. destruct f' as [|f']; [lia|].
      rewrite (returns_skip D f (advance r) sp Hd1 Hsp).
      set (r2 := mkRegs _ _ _ _).
      destruct (IH (S e) r2 sp f f') as (sp' & Hr & Hl' & Hp & Hval);
        try done; try lia.
      { simpl. lia. }
      { simpl. lia. }
      { intros i Hi. apply Hagree. lia. }
      exists sp'. split; [done|]. split; [done|].
      split; [intros i Hi; apply Hp; lia|].
      rewrite Hv. rewrite (validate_skip codeSequence D f' sp' (advance r) (S e) Hd1); [done|].
      simpl. rewrite Hp by lia. simpl in Hsp. done.
    + (* branch: jump from the span stream, or a return *)
      rewrite Nat.add_1_r, <- HA in Hd1.
      assert (Hsp1 : sp !! nextSpanAddress (advance r)
                     = Some CODE_TAKE_TRACK_JUMP).
      { simpl. rewrite Hs, Hagree by lia. done. }
      assert (Hsp2 : sp !! S (nextSpanAddress (advance r)) = Some j).
      { simpl. rewrite Hs, Hagree by lia. done. }
      pose proof (lookup_lt_Some _ _ _ Hsp1) as Hlt1.
      pose proof (lookup_lt_Some _ _ _ Hsp2) as Hlt2.
      destruct f as [|f]; [lia|]. destruct f' as [|f']; [lia|].
      rewrite (returns_track D f (advance r) sp j Hd1 Hsp1 Hsp2 Hty).
      simpl in Hsp1, Hsp2, Hlt1, Hlt2. cbn [advance nextSpanAddress
        returnAddress maxOffset nextReadAddress].
      destruct (Nat.eqb_spec (GET_CODE_JUMP_ADDRESS j) (returnAddress r))
        as [Hret|Hret].
      * set (sp1 := <[S (nextSpanAddress r) := CODE_RETURN_NOOP]>
                      (<[nextSpanAddress r := CODE_RETURN_LAST]> sp)).
        set (r2 := mkRegs _ _ _ _).
        destruct (IH (S e) r2 sp1 f f') as (sp' & Hr & Hl' & Hp & Hval);
          try done; try lia.
        { simpl. lia. }
        { unfold sp1. by rewrite !length_insert. }
        { intros i Hi. unfold sp1.
          rewrite !list_lookup_insert_ne by lia. apply Hagree. lia. }
        exists sp'. split; [done|]. split; [done|]. split.
        { intros i Hi. rewrite Hp by lia. unfold sp1.
          rewrite !list_lookup_insert_ne by lia. done. }
        rewrite Hv.
        rewrite (validate_return_last codeSequence D f' sp' (advance r) (S e) Hd1).
        { cbn [advance nextSpanAddress returnAddress maxOffset].
          fold r2. unfold r2 in Hval |- *. rewrite Hret in Hval. done. }
        cbn [advance nextSpanAddress]. rewrite Hp by lia. unfold sp1.
        rewrite list_lookup_insert_ne by lia.
        by apply list_lookup_insert_eq.
      * destruct (Nat.eqb_spec (GET_CODE_JUMP_ADDRESS j) (maxOffset r))
          as [Hmax|Hmax].
        -- set (sp1 := <[S (nextSpanAddress r) := CODE_RETURN_NOOP]>
                         (<[nextSpanAddress r := CODE_RETURN_FF]> sp)).
           set (r2 := mkRegs _ _ _ _).
           destruct (IH (S e) r2 sp1 f f') as (sp' & Hr & Hl' & Hp & Hval);
             try done; try lia.
           { simpl. lia. }
           { unfold sp1. by rewrite !length_insert. }
           { intros i Hi. unfold sp1.
             rewrite !list_lookup_insert_ne by lia. apply Hagree. lia. }
           exists sp'. split; [done|]. split; [done|]. split.
           { intros i Hi. rewrite Hp by lia. unfold sp1.
             rewrite !list_lookup_insert_ne by lia. done. }
           rewrite Hv.
           rewrite (validate_return_ff codeSequence D f' sp' (advance r) (S e) Hd1).
           { cbn [advance nextSpanAddress returnAddress maxOffset].
             unfold r2 in Hval. rewrite Hmax in Hval. done. }
           cbn [advance nextSpanAddress]. rewrite Hp by lia. unfold sp1.
           rewrite list_lookup_insert_ne by lia.
           by apply list_lookup_insert_eq.
        -- set (r2 := jump_from _ _ _ _).
           destruct (IH (S e) r2 sp f f') as (sp' & Hr & Hl' & Hp & Hval);
             try done; try lia.
           { simpl. lia. }
           { intros i Hi. apply Hagree. lia. }
           exists sp'. split; [done|]. split; [done|].
           split; [intros i Hi; apply Hp; lia|].
           rewrite Hv.
           rewrite (validate_track codeSequence D f' sp' (advance r) (S e) j Hd1).
           { done. }
           { cbn [advance nextSpanAddress]. rewrite Hp by lia. done. }
           { cbn [advance nextSpanAddress]. rewrite Hp by lia. done. }
Qed.

End Lockstep.

Lemma drop_take_one {A} (l : list A) (i : nat) (x : A) :
  l !! i = Some x -> drop i (take (S i) l) = [x].
Proof.
  revert i. induction l as [|y l IH]; intros [|i] H; simplify_eq/=.
  - by rewrite take_0.
  - by apply IH.
Qed.

Lemma drop_take_cons {A} (l : list A) (i m : nat) (x : A) :
  l !! i = Some x -> i < m ->
  drop i (take m l) = x :: drop (S i) (take m l).
Proof.
  intros H Hm. apply drop_S. by rewrite lookup_take_lt.
Qed.

Section Played.

Variable codeSequence : list AlphaCode.
Variable data span : list AlphaCode.

(** What the validator accepts is what the decoder plays: when the loop
    started at [compareAddress] ends at [m], the replay from the same
    registers yields the codes of the original from [compareAddress] up
    to [m]. *)
Lemma replay_of_validate (fuel : nat) :
  forall r cmp m,
    validate_loop codeSequence fuel data span r cmp = Ok m ->
    cmp < m /\
    replay_loop fuel data span r = Ok (drop cmp (take m codeSequence)).
Proof.
  induction fuel as [|fuel IH]; intros r cmp m; [done|].
  cbn [validate_loop replay_loop].
  destruct (data !! nextReadAddress r) as [c|]; [|done].
  destruct (c =? CODE_TAKE_DATA_JUMP)%Z.
  { destruct (data !! S (nextReadAddress r)) as [c'|]; [|done].
    destruct (negb (is_type JUMP c')); [done|]. apply IH. }
  destruct (is_type BRANCH_POINT c).
  { cbv zeta.
    destruct (negb (nextSpanAddress r <? length span)); [done|].
    destruct (span !!! nextSpanAddress r =? CODE_STOP)%Z.
    { destruct (codeSequence !! cmp) as [x|] eqn:Hx; [|done].
      destruct (x =? CODE_STOP)%Z eqn:Hs; [|done]. cbn [negb].
      destruct (S (nextSpanAddress r) =? length span); [|done]. cbn [negb].
      intros [= <-]. split; [lia|].
      apply Z.eqb_eq in Hs as ->. by rewrite (drop_take_one _ _ _ Hx). }
    destruct (span !!! nextSpanAddress r =? CODE_SKIP)%Z; [apply IH|].
    destruct (span !!! nextSpanAddress r =? CODE_TAKE_DATA_JUMP)%Z.
    { destruct (data !! S (nextReadAddress r)) as [c'|]; [|done].
      destruct (negb (is_type JUMP c')); [done|]. apply IH. }
    destruct (span !!! nextSpanAddress r =? CODE_RETURN_FF)%Z; [apply IH|].
    destruct (span !!! nextSpanAddress r =? CODE_RETURN_LAST)%Z;
      [apply IH|].
    destruct (span !!! nextSpanAddress r =? CODE_TAKE_TRACK_JUMP)%Z;
      [|done].
    destruct (span !! S (nextSpanAddress r)) as [s|]; [|done]. apply IH. }
  destruct (codeSequence !! cmp) as [x|] eqn:Hx; [|done].
  destruct (c =? x)%Z eqn:Hc; [|done]. cbn [negb].
  intros H. apply IH in H as [Hlt ->]. cbn [mbind res_bind].
  split; [lia|]. apply Z.eqb_eq in Hc as ->.
  by rewrite (drop_take_cons _ _ _ _ Hx) by lia.
Qed.

(** A sequence the validator accepts is the one the decoder plays. *)
Lemma replay_of_validateCodeSequence (fuel : nat) :
  validateCodeSequence codeSequence fuel data span = Ok () ->
  replay fuel data span = Ok codeSequence.
Proof.
  unfold validateCodeSequence, replay.
  destruct (validate_loop _ _ _ _ _ _) as [m| | |] eqn:Hv; try done.
  cbn [mbind res_bind]. destruct (Nat.eqb_spec m (length codeSequence));
    [|done].
  intros _. apply replay_of_validate in Hv as [_ ->]. subst m.
  by rewrite drop_0, firstn_all.
Qed.

(** More rounds do not change a result the validator has reached. *)
Lemma validate_loop_mono (fuel : nat) :
  forall fuel' r cmp m,
    validate_loop codeSequence fuel data span r cmp = Ok m ->
    fuel <= fuel' ->
    validate_loop codeSequence fuel' data span r cmp = Ok m.
Proof.
  induction fuel as [|fuel IH]; intros fuel' r cmp m H Hle; [done|].
  destruct fuel' as [|fuel']; [lia|].
  cbn [validate_loop] in *. cbv zeta in *.
  repeat (case_match; try done); try (apply IH; [done|lia]).
Qed.

(** Conversely, a replay that yields the original from [compareAddress] on
    passes every comparison of the validator. *)
Lemma validate_of_replay (fuel : nat) :
  forall r cmp,
    replay_loop fuel data span r = Ok (drop cmp codeSequence) ->
    validate_loop codeSequence fuel data span r cmp
    = Ok (length codeSequence).
Proof.
  induction fuel as [|fuel IH]; intros r cmp; [done|].
  cbn [validate_loop replay_loop].
  destruct (data !! nextReadAddress r) as [c|]; [|done].
  destruct (c =? CODE_TAKE_DATA_JUMP)%Z.
  { destruct (data !! S (nextReadAddress r)) as [c'|]; [|done].
    destruct (negb (is_type JUMP c')); [done|]. apply IH. }
  destruct (is_type BRANCH_POINT c).
  { cbv zeta.
    destruct (negb (nextSpanAddress r <? length span)); [done|].
    destruct (span !!! nextSpanAddress r =? CODE_STOP)%Z.
    { destruct (S (nextSpanAddress r) =? length span); [|done].
      cbn [negb]. intros [= Hd].
      assert (Hx : codeSequence !! cmp = Some CODE_STOP).
      { rewrite <- (Nat.add_0_r cmp), <- lookup_drop, <- Hd. done. }
      assert (Hl : length (drop cmp codeSequence) = 1) by by rewrite <- Hd.
      rewrite length_drop in Hl. rewrite Hx, Z.eqb_refl. cbn [negb].
      f_equal. apply lookup_lt_Some in Hx. lia. }
    destruct (span !!! nextSpanAddress r =? CODE_SKIP)%Z; [apply IH|].
    destruct (span !!! nextSpanAddress r =? CODE_TAKE_DATA_JUMP)%Z.
    { destruct (data !! S (nextReadAddress r)) as [c'|]; [|done].
      destruct (negb (is_type JUMP c')); [done|]. apply IH. }
    destruct (span !!! nextSpanAddress r =? CODE_RETURN_FF)%Z; [apply IH|].
    destruct (span !!! nextSpanAddress r =? CODE_RETURN_LAST)%Z;
      [apply IH|].
    destruct (span !!! nextSpanAddress r =? CODE_TAKE_TRACK_JUMP)%Z;
      [|done].
    destruct (span !! S (nextSpanAddress r)) as [s|]; [|done]. apply IH. }
  destruct (replay_loop fuel data span _) as [out| | |] eqn:Hr; try done.
  cbn [mbind res_bind]. intros [= Hd].
  assert (Hx : codeSequence !! cmp = Some c).
  { rewrite <- (Nat.add_0_r cmp), <- lookup_drop, <- Hd. done. }
  rewrite Hx, Z.eqb_refl. cbn [negb]. apply IH. rewrite Hr. f_equal.
  rewrite (drop_S _ _ _ Hx) in Hd. by simplify_eq.
Qed.

(** The validator accepts two streams exactly when the decoder replays
    them to the original sequence. *)
Lemma validate_iff_replay (fuel : nat) :
  validateCodeSequence codeSequence fuel data span = Ok () <->
  replay fuel data span = Ok codeSequence.
Proof.
  split; [apply replay_of_validateCodeSequence|].
  unfold replay, validateCodeSequence. intros H.
  rewrite (validate_of_replay fuel regs_init 0) by by rewrite drop_0.
  cbn [mbind res_bind]. by rewrite Nat.eqb_refl.
Qed.

End Played.

End ReplayFacts.

(** ** The round trip *)

Module RoundTrip.
Import Zip ZipSpec TableFacts ParseFacts StreamFacts ReplayFacts JumpFacts.

Local Open Scope nat_scope.

Lemma regular_type (c : AlphaCode) (t : CODE_TYPE) :
  regular c -> tag t <> 1%Z -> tag t <> 2%Z -> tag t <> 3%Z ->
  is_type t c = false.
Proof.
  intros [H|[H|H]] H1 H2 H3; unfold is_type; rewrite H;
    apply Z.eqb_neq; intros E; rewrite <- E in *; done.
Qed.

Lemma regular_not_const (c d : AlphaCode) :
  regular c -> GET_CODE_TYPE d <> 1%Z -> GET_CODE_TYPE d <> 2%Z ->
  GET_CODE_TYPE d <> 3%Z -> c <> d.
Proof. intros [H|[H|H]] H1 H2 H3 ->; rewrite H in *; done. Qed.

Section Relabel.

Variable subsong channel : Z.
Hypothesis Hsub : (0 <= subsong < 256)%Z.
Hypothesis Hch : (0 <= channel < 256)%Z.
Variable labels : list nat.

Lemma relabel_other (c : AlphaCode) :
  is_type JUMP c = false -> relabel subsong channel labels c = c.
Proof. intros H. unfold relabel. by rewrite H. Qed.

Lemma relabel_jump (a : nat) :
  (Z.of_nat a < 8192)%Z ->
  relabel subsong channel labels (CODE_JUMP subsong channel a)
  = CODE_JUMP subsong channel (labels !!! a).
Proof.
  intros Ha. unfold relabel, is_type.
  rewrite jump_type by (done || lia). rewrite Z.eqb_refl.
  by rewrite jump_address.
Qed.

Lemma relabel_span_fmap (s : list AlphaCode) :
  Forall (fun c => is_type WRITE_DELTA c = false) s ->
  relabel_span subsong channel labels s
  = Ok (relabel subsong channel labels <$> s).
Proof.
  induction 1 as [|c s Hc Hs IH]; [done|].
  cbn [relabel_span]. rewrite IH, fmap_cons. cbn [mbind res_bind].
  assert (Hrc : relabel subsong channel labels c
                = if is_type JUMP c
                  then CODE_JUMP subsong channel
                         (labels !!! GET_CODE_JUMP_ADDRESS c)
                  else c) by reflexivity.
  rewrite Hrc.
  destruct (is_type JUMP c); [reflexivity|]. rewrite Hc. reflexivity.
Qed.

End Relabel.

Section Codes.

Variable codeSequence : list AlphaCode.
Hypothesis Hwf : well_formed codeSequence.

Let n := length codeSequence.

Lemma n_pos : 0 < n.
Proof.
  destruct Hwf as (body & Hb & _). unfold n. rewrite Hb, length_app.
  simpl. lia.
Qed.

Lemma code_regular (p : nat) :
  S p < n -> exists c, codeSequence !! p = Some c /\ regular c.
Proof.
  destruct Hwf as (body & Hb & Hreg). unfold n. rewrite Hb, length_app.
  simpl. intros Hp.
  destruct (lookup_lt_is_Some_2 body p ltac:(lia)) as [c Hc].
  exists c. split; [by apply lookup_app_l_Some|].
  rewrite Forall_forall in Hreg. apply Hreg.
  by eapply list_elem_of_lookup_2.
Qed.

Lemma code_last (p : nat) : S p = n -> codeSequence !! p = Some CODE_STOP.
Proof.
  destruct Hwf as (body & Hb & Hreg). unfold n. rewrite Hb, length_app.
  simpl. intros Hp. rewrite lookup_app_r by lia.
  replace (p - length body) with 0 by lia. done.
Qed.

Lemma regular_not_stop (c : AlphaCode) : regular c -> c <> CODE_STOP.
Proof. intros H. apply regular_not_const; [done|done..]. Qed.

End Codes.

Section Copies.

Variable index : AlphaCode -> AlphaChar.
Variable codeSequence : list AlphaCode.
Variable cm : list nat.
Variable bfm : list table.

Hypothesis Hinj : index_injective index codeSequence.
Hypothesis Hwf : well_formed codeSequence.

Let n := length codeSequence.

Hypothesis Hgood : good (alphaSequence index codeSequence) n cm bfm.

Lemma cm_facts (p : nat) :
  p < n ->
  cm !!! p <= p /\ cm !!! (cm !!! p) = cm !!! p /\
  codeSequence !! (cm !!! p) = codeSequence !! p.
Proof.
  intros Hp. destruct (good_cm Hgood p Hp) as (Hle & Hfix & Hseq).
  split; [done|]. split; [done|].
  unfold alphaSequence in Hseq. rewrite !list_lookup_fmap in Hseq.
  destruct (lookup_lt_is_Some_2 codeSequence p Hp) as [c Hc].
  destruct (lookup_lt_is_Some_2 codeSequence (cm !!! p) ltac:(unfold n in *; lia))
    as [c' Hc'].
  rewrite Hc, Hc' in *. simpl in Hseq. f_equal. apply Hinj.
  - by eapply list_elem_of_lookup_2.
  - by eapply list_elem_of_lookup_2.
  - congruence.
Qed.

Lemma cm_last (p : nat) : S p = n -> cm !!! p = p.
Proof.
  intros Hp. destruct (cm_facts p ltac:(lia)) as (Hle & _ & Hc).
  rewrite (code_last codeSequence Hwf p Hp) in Hc.
  destruct (decide (cm !!! p = p)) as [|Hne]; [done|].
  destruct (code_regular codeSequence Hwf (cm !!! p) ltac:(unfold n in *; lia)) as (c & Hc' & Hreg).
  rewrite Hc' in Hc. simplify_eq. by destruct (regular_not_stop _ Hreg).
Qed.

Lemma cm_length : length cm = n.
Proof.
  rewrite (good_cm_len Hgood). unfold alphaSequence, n. apply length_fmap.
Qed.

Lemma bfm_length : length bfm = n.
Proof.
  rewrite (good_bfm_len Hgood). unfold alphaSequence, n. apply length_fmap.
Qed.

End Copies.

Section Layout.

Variable index : AlphaCode -> AlphaChar.
Variable subsong channel : Z.
Variable codeSequence : list AlphaCode.
Variable cm : list nat.
Variable bfm : list table.
Variable labels : list nat.

Hypothesis Hsub : (0 <= subsong < 256)%Z.
Hypothesis Hch : (0 <= channel < 256)%Z.
Hypothesis Hinj : index_injective index codeSequence.
Hypothesis Hwf : well_formed codeSequence.

Let n := length codeSequence.
Let skipMap := make_skipMap cm bfm.
Let body_data := ZipSpec.body_data subsong channel codeSequence cm bfm skipMap.
Let body_span := ZipSpec.body_span subsong channel cm bfm skipMap.
Let data_upto := ZipSpec.data_upto subsong channel codeSequence cm bfm skipMap.
Let span_upto := ZipSpec.span_upto subsong channel cm bfm skipMap.
Let Dpre := data_upto (n - 1) ++ [CODE_BRANCH_POINT].
Let Spre := span_upto (n - 1) ++ [CODE_STOP].
Let D := relabel subsong channel labels <$> Dpre.
Let S0 := relabel subsong channel labels <$> Spre.
Let A := fun e : nat => labels !!! (cm !!! e).
Let sigma := fun e : nat => length (span_upto e).

Hypothesis Hgood : good (alphaSequence index codeSequence) n cm bfm.
Hypothesis Hlab : forall p, p < n -> cm !!! p = p ->
  labels !!! p = length (data_upto p).
Hypothesis HnZ : (Z.of_nat n <= 8192)%Z.
Hypothesis Hsize : (Z.of_nat (length Dpre) <= 8192)%Z.

Let n_pos := n_pos codeSequence Hwf.
Let code_regular := code_regular codeSequence Hwf.
Let code_last := code_last codeSequence Hwf.
Let cm_facts := cm_facts index codeSequence cm bfm Hinj Hgood.
Let cm_last := cm_last index codeSequence cm bfm Hinj Hwf Hgood.
Let cm_length := cm_length index codeSequence cm bfm Hgood.
Let bfm_length := bfm_length index codeSequence cm bfm Hgood.

Lemma data_upto_succ (p : nat) :
  length (data_upto (S p)) = length (data_upto p) + length (body_data p).
Proof.
  unfold data_upto, ZipSpec.data_upto. rewrite bind_seq_S, length_app. done.
Qed.

Lemma sigma_succ (e : nat) : sigma (S e) = sigma e + length (body_span e).
Proof.
  unfold sigma, span_upto, ZipSpec.span_upto.
  rewrite bind_seq_S, length_app. done.
Qed.

Lemma Dpre_at (p k : nat) (x : AlphaCode) :
  S p < n -> body_data p !! k = Some x ->
  Dpre !! (length (data_upto p) + k) = Some x.
Proof.
  intros Hp Hx. unfold Dpre.
  destruct (bind_seq_split body_data p (n - 1) ltac:(lia)) as [rest Hr].
  unfold data_upto, ZipSpec.data_upto in *. fold body_data. rewrite Hr.
  rewrite <- !app_assoc. rewrite lookup_app_r by lia.
  replace (_ + k - _) with k by lia.
  by apply lookup_app_l_Some.
Qed.

Lemma Spre_at (e k : nat) (x : AlphaCode) :
  S e < n -> body_span e !! k = Some x ->
  Spre !! (sigma e + k) = Some x.
Proof.
  intros Hp Hx. unfold Spre, sigma.
  destruct (bind_seq_split body_span e (n - 1) ltac:(lia)) as [rest Hr].
  unfold span_upto, ZipSpec.span_upto in *. fold body_span. rewrite Hr.
  rewrite <- !app_assoc. rewrite lookup_app_r by lia.
  replace (_ + k - _) with k by lia.
  by apply lookup_app_l_Some.
Qed.

Lemma label_bound (p : nat) :
  p < n -> (Z.of_nat (length (data_upto p)) < 8192)%Z.
Proof.
  intros Hp.
  assert (length (data_upto p) <= length (data_upto (n - 1))).
  { apply bind_seq_length_mono. lia. }
  unfold Dpre in Hsize. rewrite length_app in Hsize. simpl in Hsize. lia.
Qed.

Lemma D_at (a : nat) (x : AlphaCode) :
  Dpre !! a = Some x -> D !! a = Some (relabel subsong channel labels x).
Proof. intros H. unfold D. by rewrite list_lookup_fmap, H. Qed.

Lemma S0_at (a : nat) (x : AlphaCode) :
  Spre !! a = Some x -> S0 !! a = Some (relabel subsong channel labels x).
Proof. intros H. unfold S0. by rewrite list_lookup_fmap, H. Qed.

Lemma relabel_regular (c : AlphaCode) :
  regular c -> relabel subsong channel labels c = c.
Proof. intros H. apply relabel_other. by apply regular_type. Qed.

(** The jump to a literal position, once relabelled, decodes to the
    address of that position. *)
Lemma jump_to (N : nat) :
  N < n -> cm !!! N = N ->
  let j := relabel subsong channel labels (CODE_JUMP subsong channel N) in
  is_type JUMP j = true /\ GET_CODE_JUMP_ADDRESS j = labels !!! N.
Proof.
  intros HN Hfix j. unfold j.
  pose proof (label_bound N HN) as Hb. rewrite <- (Hlab N HN Hfix) in Hb.
  rewrite relabel_jump by (done || lia). split.
  - unfold is_type. rewrite jump_type by (done || lia). apply Z.eqb_refl.
  - by apply jump_address.
Qed.

Lemma D_const (a : nat) (x : AlphaCode) :
  is_type JUMP x = false -> Dpre !! a = Some x -> D !! a = Some x.
Proof. intros Hx H. rewrite (D_at a x H). by rewrite relabel_other. Qed.

Lemma S0_const (a : nat) (x : AlphaCode) :
  is_type JUMP x = false -> Spre !! a = Some x -> S0 !! a = Some x.
Proof. intros Hx H. rewrite (S0_at a x H). by rewrite relabel_other. Qed.

Lemma body_data_lit (L : nat) :
  cm !!! L = L ->
  body_data L
  = codeSequence !!! L ::
    (if (cm !!! S L =? L + 1) && (length (bfm !!! L) <? 2) then []
     else [if length (bfm !!! L) <? 2 then CODE_TAKE_DATA_JUMP
           else CODE_BRANCH_POINT;
           CODE_JUMP subsong channel (skipMap !!! L)]).
Proof.
  intros H. unfold body_data, ZipSpec.body_data. cbv zeta.
  rewrite H, Nat.eqb_refl. done.
Qed.

Lemma layout_start : A 0 = 0 /\ sigma 0 = 0.
Proof.
  destruct (cm_facts 0 n_pos) as (H0 & _ & _).
  assert (H : cm !!! 0 = 0) by lia.
  unfold A, sigma. rewrite H, (Hlab 0 n_pos H). done.
Qed.

Lemma layout_code (e : nat) :
  S e < n ->
  exists c, codeSequence !! e = Some c /\ D !! A e = Some c /\
            c <> CODE_TAKE_DATA_JUMP /\ is_type BRANCH_POINT c = false.
Proof.
  intros He. destruct (code_regular e He) as (c & Hc & Hreg).
  destruct (cm_facts e ltac:(lia)) as (Hle & Hfix & Hcs).
  exists c. split; [done|]. split; [|split].
  - unfold A. rewrite (Hlab (cm !!! e)) by (lia || done).
    rewrite <- (Nat.add_0_r (length _)).
    apply D_const; [by apply regular_type|].
    apply Dpre_at; [lia|]. rewrite (body_data_lit _ Hfix). simpl. f_equal.
    apply list_lookup_total_correct. congruence.
  - by apply regular_not_const.
  - by apply regular_type.
Qed.

Lemma layout_stop (e : nat) :
  S e = n ->
  codeSequence !! e = Some CODE_STOP /\
  D !! A e = Some CODE_BRANCH_POINT /\
  S0 !! sigma e = Some CODE_STOP /\
  length S0 = S (sigma e).
Proof.
  intros He. pose proof (cm_last e He) as Hfix.
  assert (Hn : n - 1 = e) by lia.
  split; [by apply code_last|]. split; [|split].
  - unfold A. rewrite Hfix, (Hlab e) by (lia || done).
    apply D_const; [done|]. unfold Dpre. rewrite Hn.
    rewrite lookup_app_r by lia. by rewrite Nat.sub_diag.
  - apply S0_const; [done|]. unfold Spre, sigma. rewrite Hn.
    rewrite lookup_app_r by lia. by rewrite Nat.sub_diag.
  - unfold S0, Spre, sigma. rewrite length_fmap, length_app, Hn. simpl. lia.
Qed.

Lemma layout_link (e : nat) : S e < n -> link D S0 A sigma e.
Proof.
  intros He.
  destruct (cm_facts e ltac:(lia)) as (HLe & HLfix & _).
  destruct (cm_facts (S e) ltac:(lia)) as (HNle & HNfix & _).
  pose proof (good_succ Hgood e He) as HN.
  pose proof (good_succ Hgood (cm !!! e) ltac:(lia)) as HN'.
  rewrite HLfix in HN'.
  pose proof (good_wf Hgood (cm !!! e)) as Hwt.
  assert (HAe : A e = length (data_upto (cm !!! e))).
  { unfold A. apply Hlab; [lia|done]. }
  assert (HAN : A (S e) = length (data_upto (cm !!! S e))).
  { unfold A. apply Hlab; [lia|done]. }
  assert (Hskip : skipMap !!! (cm !!! e)
                  = skip_index (bfm !!! (cm !!! e)) (cm !!! e + 1)
                      (cm !!! (cm !!! e + 1))).
  { apply make_skipMap_lookup. rewrite bfm_length. lia. }
  pose proof (body_data_lit _ HLfix) as Hbd.
  assert (Hbs : body_span e
    = if (cm !!! S e =? cm !!! e + 1) && (length (bfm !!! (cm !!! e)) <? 2)
      then []
      else if 1 <? length (bfm !!! (cm !!! e)) then
        if cm !!! S e =? skipMap !!! (cm !!! e) then [CODE_TAKE_DATA_JUMP]
        else if cm !!! S e =? cm !!! e + 1 then [CODE_SKIP]
        else [CODE_TAKE_TRACK_JUMP; CODE_JUMP subsong channel (cm !!! S e)]
      else [])
    by reflexivity.
  destruct (jump_to (cm !!! S e) ltac:(lia) HNfix) as [HjT HjA].
  fold (A (S e)) in HjA.
  pose proof (data_upto_succ (cm !!! e)) as Hds.
  pose proof (sigma_succ e) as Hss.
  assert (HLn : S (cm !!! e) < n) by lia.
  revert HN HN' Hwt HAe HAN Hskip Hbd Hbs HjT HjA Hds Hss HLfix HNfix HLn.
  generalize (cm !!! e) (cm !!! S e). intros L N.
  intros HN HN' Hwt HAe HAN Hskip Hbd Hbs HjT HjA Hds Hss HLfix HNfix HLn.
  destruct (decide (length (bfm !!! L) < 2)) as [Hsm|Hbig].
  - destruct (small_table _ N Hwt Hsm HN) as (c0 & Ht & Hc0).
    assert (HN'eq : cm !!! S L = N).
    { rewrite Ht in HN'. simpl in HN'.
      by apply list_elem_of_singleton in HN'. }
    rewrite Ht, HN'eq in Hbd. rewrite Ht in Hbs. simpl length in *.
    change (1 <? 2) with true in *. change (1 <? 1) with false in *.
    rewrite andb_true_r in *.
    destruct (decide (N = L + 1)) as [HNL|HNL].
    + apply Nat.eqb_eq in HNL as HNLb. rewrite HNLb in Hbd, Hbs.
      apply link_fall.
      * rewrite HAN, HAe, HNL. replace (L + 1) with (S L) by lia.
        rewrite Hds, Hbd. simpl. lia.
      * rewrite Hss, Hbs. simpl. lia.
    + apply Nat.eqb_neq in HNL as HNLb. rewrite HNLb in Hbd, Hbs.
      assert (Hsk : skipMap !!! L = N).
      { rewrite Hskip, Ht. apply skip_index_single; [lia|done]. }
      rewrite Hsk in Hbd.
      apply link_goto
        with (j := relabel subsong channel labels
                     (CODE_JUMP subsong channel N)).
      * rewrite HAe. apply D_const; [done|].
        apply Dpre_at; [done|]. by rewrite Hbd.
      * rewrite HAe. apply D_at. apply Dpre_at; [done|]. by rewrite Hbd.
      * done.
      * done.
      * rewrite Hss, Hbs. simpl. lia.
  - assert (Hlt2 : (length (bfm !!! L) <? 2) = false)
      by (apply Nat.ltb_ge; lia).
    assert (Hlt1 : (1 <? length (bfm !!! L)) = true)
      by (apply Nat.ltb_lt; lia).
    rewrite Hlt2, andb_false_r in Hbd. rewrite Hlt2, Hlt1, andb_false_r in Hbs.
    assert (HBP : D !! (A e + 1) = Some CODE_BRANCH_POINT).
    { rewrite HAe. apply D_const; [done|].
      apply Dpre_at; [done|]. by rewrite Hbd. }
    destruct (decide (N = skipMap !!! L)) as [HNs|HNs].
    + apply Nat.eqb_eq in HNs as HNsb. rewrite HNsb in Hbs.
      apply link_take
        with (j := relabel subsong channel labels
                     (CODE_JUMP subsong channel N)).
      * done.
      * rewrite <- (Nat.add_0_r (sigma e)). apply S0_const; [done|].
        apply Spre_at; [done|]. by rewrite Hbs.
      * rewrite HAe. apply D_at. apply Dpre_at; [done|].
        rewrite Hbd, <- HNs. done.
      * done.
      * done.
      * rewrite Hss, Hbs. simpl. lia.
    + apply Nat.eqb_neq in HNs as HNsb. rewrite HNsb in Hbs.
      destruct (decide (N = L + 1)) as [HNL|HNL].
      * apply Nat.eqb_eq in HNL as HNLb. rewrite HNLb in Hbs.
        apply link_skip.
        -- done.
        -- rewrite <- (Nat.add_0_r (sigma e)). apply S0_const; [done|].
           apply Spre_at; [done|]. by rewrite Hbs.
        -- rewrite HAN, HAe, HNL. replace (L + 1) with (S L) by lia.
           rewrite Hds, Hbd. simpl. lia.
        -- rewrite Hss, Hbs. simpl. lia.
      * apply Nat.eqb_neq in HNL as HNLb. rewrite HNLb in Hbs.
        apply link_track
          with (j := relabel subsong channel labels
                       (CODE_JUMP subsong channel N)).
        -- done.
        -- rewrite <- (Nat.add_0_r (sigma e)). apply S0_const; [done|].
           apply Spre_at; [done|]. by rewrite Hbs.
        -- replace (S (sigma e)) with (sigma e + 1) by lia.
           apply S0_at. apply Spre_at; [done|]. by rewrite Hbs.
        -- done.
        -- done.
        -- rewrite Hss, Hbs. simpl. lia.
Qed.

Lemma layout_of_streams : layout codeSequence D S0 A sigma.
Proof.
  split.
  - apply layout_start.
  - apply layout_code.
  - apply layout_link.
  - apply layout_stop.
Qed.

Lemma body_span_codes (e : nat) :
  S e < n -> Forall (fun c => is_type WRITE_DELTA c = false) (body_span e).
Proof.
  intros He. destruct (cm_facts (S e) ltac:(lia)) as (Hle & _ & _).
  assert (Hj : is_type WRITE_DELTA (CODE_JUMP subsong channel (cm !!! S e))
               = false).
  { unfold is_type. rewrite jump_type by (done || lia). done. }
  unfold body_span, ZipSpec.body_span. cbv zeta.
  repeat case_match; repeat constructor; done.
Qed.

Lemma Spre_codes : Forall (fun c => is_type WRITE_DELTA c = false) Spre.
Proof.
  unfold Spre. apply Forall_app. split; [|by repeat constructor].
  unfold span_upto, ZipSpec.span_upto. apply Forall_bind, Forall_forall.
  intros e He. apply elem_of_seq in He. apply body_span_codes. lia.
Qed.

End Layout.

Section Pipeline.

Variable index : AlphaCode -> AlphaChar.
Variable find_prior : nat -> list AlphaChar -> nat * nat.
Variable subsong channel : Z.
Variable codeSequence : list AlphaCode.

Hypothesis Hsound : sound_prior find_prior (alphaSequence index codeSequence).
Hypothesis Hinj : index_injective index codeSequence.
Hypothesis Hsub : (0 <= subsong < 256)%Z.
Hypothesis Hch : (0 <= channel < 256)%Z.
Hypothesis Hwf : well_formed codeSequence.
Hypothesis HnZ : (Z.of_nat (length codeSequence) <= 8192)%Z.
Hypothesis Hsize :
  (Z.of_nat (data_size index find_prior subsong channel codeSequence)
   <= 8192)%Z.

(** The streams of a sequence that fits the jump field replay to the
    sequence. *)
Lemma pipeline (fuel : nat) :
  2 * length codeSequence <= fuel ->
  exists data span,
    compressCodeSequence index find_prior subsong channel codeSequence fuel
    = Ok (data, span) /\
    validateCodeSequence codeSequence fuel data span = Ok ().
Proof.
  intros Hfuel.
  destruct (parse_completes index find_prior subsong channel codeSequence
              Hsound) as (st & Hparse & Hgood & Hcover).
  assert (Hlen : length (alphaSequence index codeSequence)
                 = length codeSequence) by apply length_fmap.
  rewrite Hlen in Hgood, Hcover.
  pose proof (cm_length index codeSequence _ _ Hgood) as Hcml.
  pose proof (n_pos codeSequence Hwf) as Hpos.
  set (cm := copyMap st) in *. set (bfm := branchFrequencyMap st) in *.
  destruct (emit_spans_all subsong channel codeSequence cm bfm
              (make_skipMap cm bfm)) with
    (sps := spans st) (e := 0)
    (st := mkEmit 0 (replicate (length (alphaSequence index codeSequence)) 0)
             [] [])
    as (es & Hemit & Hdone).
  { intros p Hp Hfix. rewrite Hcml in Hp.
    destruct (code_regular codeSequence Hwf p Hp) as (c & Hc & Hreg).
    rewrite (list_lookup_total_correct _ _ _ Hc).
    by apply regular_not_stop. }
  { intros p Hp. rewrite Hcml in Hp. split.
    - by apply (cm_last index codeSequence cm bfm).
    - apply list_lookup_total_correct. by apply code_last. }
  { by rewrite Hcml. }
  { split; simpl; try done.
    - by rewrite length_replicate, Hlen.
    - intros p Hp. lia. }
  { lia. }
  unfold data_size in Hsize. rewrite Hparse in Hsize. fold cm bfm in Hsize.
  rewrite Hemit in Hsize.
  destruct Hdone as [Hdata Hspan Hll Hlab].
  rewrite Hcml in Hdata, Hspan, Hlab. rewrite Hdata in Hsize.
  pose proof (layout_of_streams index subsong channel codeSequence cm bfm
                (labels es) Hsub Hch Hinj Hwf Hgood Hlab HnZ Hsize) as Hlay.
  pose proof (Spre_codes index subsong channel codeSequence cm bfm
                Hsub Hch Hinj Hwf Hgood HnZ) as Hcodes.
  destruct (lockstep _ _ _ _ _ Hlay (length codeSequence - 1) 0 regs_init
              (relabel subsong channel (labels es) <$>
               span_upto subsong channel cm bfm (make_skipMap cm bfm)
                 (length codeSequence - 1) ++ [CODE_STOP])
              fuel fuel)
    as (sp' & Hret & _ & _ & Hval); try done; try lia.
  { symmetry. apply (lay_start _ _ _ _ _ Hlay). }
  exists (relabel subsong channel (labels es) <$>
          data_upto subsong channel codeSequence cm bfm (make_skipMap cm bfm)
            (length codeSequence - 1) ++ [CODE_BRANCH_POINT]), sp'.
  split.
  - unfold compressCodeSequence. rewrite Hparse. cbn [mbind res_bind].
    fold cm bfm. rewrite Hemit. cbn [mbind res_bind].
    rewrite Hdata, Hspan, (relabel_span_fmap _ _ _ _ Hcodes).
    cbn [mbind res_bind]. rewrite Hret. done.
  - unfold validateCodeSequence. rewrite Hval. cbn [mbind res_bind].
    by rewrite Nat.eqb_refl.
Qed.

End Pipeline.

(** X26.  The round trip, for sequences that fit the 13-bit address of a
    JUMP code.  For a sequence of regular codes ended by STOP, of at most 8192
    codes and whose data stream has at most 8192 entries, with an
    injective alphabet and a query that returns true earlier matches:
    [compressCodeSequence] returns its two streams, [validateCodeSequence]
    accepts them, and the decoder replays them to exactly the original
    sequence, ending on its STOP. *)
Theorem roundtrip_within_jump_range
    (index : AlphaCode -> AlphaChar)
    (find_prior : nat -> list AlphaChar -> nat * nat)
    (subsong channel : Z) (codeSequence : list AlphaCode) (fuel : nat) :
  sound_prior find_prior (alphaSequence index codeSequence) ->
  index_injective index codeSequence ->
  (0 <= subsong < 256)%Z -> (0 <= channel < 256)%Z ->
  well_formed codeSequence ->
  (Z.of_nat (length codeSequence) <= 8192)%Z ->
  (Z.of_nat (data_size index find_prior subsong channel codeSequence)
   <= 8192)%Z ->
  2 * length codeSequence <= fuel ->
  exists data span,
    compressCodeSequence index find_prior subsong channel codeSequence fuel
    = Ok (data, span) /\
    validateCodeSequence codeSequence fuel data span = Ok () /\
    replay fuel data span = Ok codeSequence.
Proof.
  intros Hsound Hinj Hsub Hch Hwf Hn Hsize Hfuel.
  destruct (pipeline index find_prior subsong channel codeSequence
              Hsound Hinj Hsub Hch Hwf Hn Hsize fuel Hfuel)
    as (data & span & Hc & Hv).
  exists data, span. split; [done|]. split; [done|].
  by apply replay_of_validateCodeSequence.
Qed.

Lemma roundtrip_within_jump_range_witness :
  exists data span,
    compressCodeSequence Suffix.index Suffix.find_prior 0 0 motif 20
    = Ok (data, span) /\
    validateCodeSequence motif 20 data span = Ok () /\
    replay 20 data span = Ok motif.
Proof.
  apply (roundtrip_within_jump_range Suffix.index Suffix.find_prior 0 0
           motif 20).
  - apply SuffixFacts.find_prior_sound.
  - intros a b _ _ H. exact H.
  - lia.
  - lia.
  - exists (CODE_SUSTAIN <$> [1; 2; 3; 4; 5; 1; 2; 3; 4]%Z).
    split; [reflexivity|].
    repeat (apply Forall_cons_2; [right; right; reflexivity|]).
    apply Forall_nil_2.
  - vm_compute. discriminate.
  - vm_compute. discriminate.
  - vm_compute. lia.
Defined.

(** A jump to a position from 8192 on loses the high bits of its address
    when the labels are applied: [GET_CODE_JUMP_ADDRESS] keeps 13 bits of
    the address [CODE_JUMP] stored in full, so the jump to position
    [8192 + a] is given the label of position [a]. *)
Lemma relabel_cuts_address (subsong channel : Z) (labels : list nat)
    (a : nat) :
  (0 <= subsong < 256)%Z -> (0 <= channel < 256)%Z ->
  (Z.of_nat a < 8192)%Z ->
  relabel subsong channel labels
    (CODE_JUMP subsong channel (Z.to_nat 8192 + a))
  = CODE_JUMP subsong channel (labels !!! a).
Proof.
  intros Hs Hc Ha. unfold relabel, is_type.
  assert (Hty : GET_CODE_TYPE (CODE_JUMP subsong channel (Z.to_nat 8192 + a))
                = tag JUMP).
  { apply jump_type_wide; [done|done|].
    rewrite Nat2Z.inj_add, Z2Nat.id by lia.
    eapply Z.lt_trans with (8192 + 8192)%Z; [lia|done]. }
  rewrite Hty, Z.eqb_refl, jump_address_low by done.
  do 2 f_equal. rewrite Nat2Z.inj_add, Z2Nat.id by lia.
  rewrite <- (Z.mul_1_l 8192) at 1. rewrite Z.add_comm, Z.mod_add by lia.
  rewrite Z.mod_small by lia. apply Nat2Z.id.
Qed.

End RoundTrip.

(** ** Beyond the range of a jump *)

Module FarFacts.
Import Zip ZipSpec TableFacts ParseFacts StreamFacts ReplayFacts JumpFacts.
Import RoundTrip Far.

Local Open Scope nat_scope.

Section Steps.

Variable index : AlphaCode -> AlphaChar.
Variable find_prior : nat -> list AlphaChar -> nat * nat.
Variable subsong channel : Z.
Variable codeSequence : list AlphaCode.

Local Abbreviation seq := (alphaSequence index codeSequence).
Local Abbreviation parse_step :=
  (Zip.parse_step index find_prior subsong channel codeSequence).
Local Abbreviation parse_loop :=
  (Zip.parse_loop index find_prior subsong channel codeSequence).

Lemma parse_step_literal (st : ParseState) :
  snd (find_prior (ps_i st) seq) <= 3 ->
  parse_step st
  = mkParse (S (ps_i st)) (<[ps_i st := ps_i st]> (copyMap st))
      (if 0 <? ps_i st
       then bump_at (copyMap st !!! (ps_i st - 1)) (ps_i st)
              (branchFrequencyMap st)
       else branchFrequencyMap st)
      (spans st) (span_grow (currentSpan st)).
Proof.
  intros H. unfold Zip.parse_step.
  destruct (find_prior (ps_i st) seq) as [s l]. simpl in *.
  destruct (Nat.ltb_spec 3 l); [lia|done].
Qed.

Lemma parse_step_copy (st : ParseState) (s l : nat) :
  find_prior (ps_i st) seq = (s, l) -> 3 < l ->
  parse_step st
  = let '(i', cm, bfm) :=
      copy_span l s (ps_i st) (copyMap st) (branchFrequencyMap st) in
    mkParse i' cm bfm
      (push_span (currentSpan st) (spans st) ++ [mkSpan subsong channel s l])
      (mkSpan subsong channel i' 0).
Proof.
  intros H Hl. unfold Zip.parse_step. rewrite H.
  simpl. destruct (Nat.ltb_spec 3 l); [done|lia].
Qed.

Lemma parse_loop_done (k : nat) (st : ParseState) :
  length seq <= ps_i st -> parse_loop k st = st.
Proof.
  intros H. destruct k; [done|]. simpl.
  destruct (Nat.ltb_spec (ps_i st) (length seq)); [lia|done].
Qed.

Lemma parse_loop_add (a b : nat) :
  forall st, parse_loop (a + b) st = parse_loop b (parse_loop a st).
Proof.
  induction a as [|a IH]; intros st; [done|].
  simpl.
  destruct (Nat.ltb_spec (ps_i st) (length seq)) as [Hlt|Hge].
  - apply IH.
  - symmetry. by apply parse_loop_done.
Qed.

Lemma parse_loop_round (k : nat) (st : ParseState) :
  ps_i st < length seq ->
  parse_loop (S k) st = parse_loop k (parse_step st).
Proof.
  intros H. simpl.
  destruct (Nat.ltb_spec (ps_i st) (length seq)); [done|lia].
Qed.

End Steps.

Section FarParse.

Variable index : AlphaCode -> AlphaChar.
Variable find_prior : nat -> list AlphaChar -> nat * nat.
Variable subsong channel : Z.
Variable codeSequence : list AlphaCode.
Variable K : nat.

Local Abbreviation seq := (alphaSequence index codeSequence).
Local Abbreviation parse_step :=
  (Zip.parse_step index find_prior subsong channel codeSequence).
Local Abbreviation parse_loop :=
  (Zip.parse_loop index find_prior subsong channel codeSequence).

Hypothesis Hlen : length codeSequence = K + 9.
Hypothesis Hmatch : find_prior (K + 4) seq = (K, 4).
Hypothesis Hnone : forall i, i <> K + 4 -> snd (find_prior i seq) <= 3.

Lemma far_seq_length : length (alphaSequence index codeSequence) = K + 9.
Proof. unfold alphaSequence. by rewrite length_fmap. Qed.

Lemma far_literal_init :
  far_literal subsong channel K 0 (parse_init index subsong channel codeSequence).
Proof.
  unfold parse_init. rewrite far_seq_length.
  split; simpl; try done.
  - apply length_replicate.
  - apply length_replicate.
  - intros p Hp. lia.
  - intros e He. lia.
  - intros e _ He. by apply replicate_lookup_total.
Qed.

Lemma far_literal_step (j : nat) (st : ParseState) :
  far_literal subsong channel K j st -> j < K + 4 ->
  far_literal subsong channel K (S j) (parse_step st).
Proof.
  intros [Hi Hcl Hbl Hlit Hch Hrest Hsp Hcur] Hj.
  rewrite parse_step_literal by (rewrite Hi; apply Hnone; lia).
  rewrite Hi, Hcur.
  assert (Hb : forall e, e < K + 9 ->
            (if 0 <? j
             then bump_at (copyMap st !!! (j - 1)) j (branchFrequencyMap st)
             else branchFrequencyMap st) !!! e
            = if decide (S e = j) then [(j, 1)]
              else branchFrequencyMap st !!! e).
  { intros e He. destruct (Nat.ltb_spec 0 j) as [Hpos|Hz].
    - rewrite Hlit by lia. rewrite bump_at_lookup.
      destruct (decide (j - 1 = e /\ j - 1 < _)) as [[He1 _]|Hn].
      + rewrite decide_True by lia. rewrite Hrest by lia. done.
      + rewrite decide_False by lia. done.
    - rewrite decide_False by lia. done. }
  split; simpl.
  - done.
  - by rewrite length_insert.
  - destruct (0 <? j); [by rewrite bump_at_length|done].
  - intros p Hp. destruct (decide (p = j)) as [->|Hne].
    + apply list_lookup_total_insert_eq. lia.
    + rewrite list_lookup_total_insert_ne by done. apply Hlit. lia.
  - intros e He. rewrite Hb by lia.
    destruct (decide (S e = j)) as [<-|Hne]; [done|]. apply Hch. lia.
  - intros e He He'. rewrite Hb by lia.
    rewrite decide_False by lia. apply Hrest; lia.
  - done.
  - done.
Qed.

Lemma far_literal_run (k : nat) :
  forall j st,
    far_literal subsong channel K j st -> j + k <= K + 4 ->
    far_literal subsong channel K (j + k) (parse_loop k st).
Proof.
  induction k as [|k IH]; intros j st Hst Hk.
  - by rewrite Nat.add_0_r.
  - rewrite parse_loop_round
      by (rewrite (fl_i _ _ _ _ _ Hst), far_seq_length; lia).
    replace (j + S k) with (S j + k) by lia.
    apply IH; [|lia]. apply far_literal_step; [done|lia].
Qed.

Lemma far_tables_start (st : ParseState) :
  far_literal subsong channel K (K + 4) st ->
  far_tables K 0 (copyMap st) (branchFrequencyMap st).
Proof.
  intros [Hi Hcl Hbl Hlit Hch Hrest Hsp Hcur].
  split; try done.
  - intros u Hu. lia.
  - intros e He. rewrite Hch by lia. by rewrite decide_False by lia.
  - rewrite decide_True by done. apply Hrest; lia.
  - intros e He He'. apply Hrest; lia.
Qed.

Lemma far_copy_step (t : nat) (cm : list nat) (bfm : list table) :
  far_tables K t cm bfm -> t < 4 ->
  far_tables K (S t) (<[K + 4 + t := cm !!! (K + t)]> cm)
    (bump_at (<[K + 4 + t := cm !!! (K + t)]> cm !!! (K + 4 + t - 1))
             (cm !!! (K + t)) bfm).
Proof.
  intros [Hcl Hbl Hlit Hcopy Hch Hfork Hrest] Ht.
  rewrite (Hlit (K + t)) by lia.
  rewrite list_lookup_total_insert_ne by lia.
  assert (Hprev : cm !!! (K + 4 + t - 1)
                  = if decide (t = 0) then K + 3 else K + t - 1).
  { destruct (decide (t = 0)) as [->|Hne].
    - rewrite Hlit by lia. lia.
    - replace (K + 4 + t - 1) with (K + 4 + (t - 1)) by lia.
      rewrite Hcopy by lia. lia. }
  rewrite Hprev. split.
  - by rewrite length_insert.
  - by rewrite bump_at_length.
  - intros p Hp. rewrite list_lookup_total_insert_ne by lia. by apply Hlit.
  - intros u Hu. destruct (decide (u = t)) as [->|Hne].
    + apply list_lookup_total_insert_eq. lia.
    + rewrite list_lookup_total_insert_ne by lia. apply Hcopy. lia.
  - intros e He. rewrite bump_at_lookup.
    destruct (decide (t = 0)) as [->|Hne].
    + rewrite decide_False by lia. rewrite Hch by done.
      do 2 f_equal. repeat case_decide; lia.
    + destruct (decide (K + t - 1 = e /\ K + t - 1 < length bfm))
        as [[<- _]|Hn].
      * rewrite Hch by lia. rewrite decide_False by lia.
        rewrite decide_True by lia. simpl.
        replace (S (K + t - 1)) with (K + t) by lia.
        destruct (Nat.ltb_spec (K + t) (K + t)); [lia|].
        by rewrite Nat.eqb_refl.
      * rewrite Hch by done. do 2 f_equal. repeat case_decide; lia.
  - rewrite bump_at_lookup.
    destruct (decide (t = 0)) as [->|Hne].
    + rewrite decide_True by lia. rewrite Hfork.
      repeat case_decide; try lia. by rewrite Nat.add_0_r.
    + rewrite decide_False by lia. rewrite Hfork.
      repeat case_decide; try lia. done.
  - intros e He He'. rewrite bump_at_lookup.
    rewrite decide_False by (destruct (decide (t = 0)); lia).
    by apply Hrest.
Qed.

Lemma far_copy_run (count : nat) :
  forall t cm bfm,
    t + count = 4 -> far_tables K t cm bfm ->
    exists cm' bfm',
      copy_span count (K + t) (K + 4 + t) cm bfm = (K + 8, cm', bfm') /\
      far_tables K 4 cm' bfm'.
Proof.
  induction count as [|count IH]; intros t cm bfm Ht Htab.
  - assert (t = 4) as -> by lia. exists cm, bfm. split; [|done].
    simpl. do 2 f_equal. lia.
  - cbn [copy_span]. cbv zeta.
    assert (Hpos : (0 <? K + 4 + t) = true) by (apply Nat.ltb_lt; lia).
    rewrite Hpos.
    replace (S (K + t)) with (K + S t) by lia.
    replace (S (K + 4 + t)) with (K + 4 + S t) by lia.
    apply IH; [lia|]. apply far_copy_step; [done|lia].
Qed.

(** The parse of the whole sequence. *)
Lemma far_parse :
  exists st,
    parse index find_prior subsong channel codeSequence = Ok st /\
    far_parsed subsong channel K st.
Proof.
  unfold parse. rewrite far_seq_length.
  pose proof (far_literal_run (K + 4) 0 _ far_literal_init ltac:(lia))
    as Hlit.
  simpl (0 + _) in Hlit.
  pose proof (parse_loop_add index find_prior subsong channel codeSequence
                (K + 4) 5
                (parse_init index subsong channel codeSequence)) as Hsplit.
  replace (K + 4 + 5) with (K + 9) in Hsplit by lia.
  rewrite Hsplit. clear Hsplit.
  set (st1 := parse_loop (K + 4) _) in *.
  pose proof (far_tables_start st1 Hlit) as Htab.
  destruct (far_copy_run 4 0 _ _ eq_refl Htab)
    as (cm2 & bfm2 & Hcopy & Htab2).
  rewrite !Nat.add_0_r in Hcopy.
  assert (Hst2 : parse_step st1
    = mkParse (K + 8) cm2 bfm2
        [mkSpan subsong channel 0 (K + 4); mkSpan subsong channel K 4]
        (mkSpan subsong channel (K + 8) 0)).
  { rewrite (parse_step_copy _ _ _ _ _ st1 K 4)
      by (rewrite ?(fl_i _ _ _ _ _ Hlit); done || lia).
    rewrite (fl_i _ _ _ _ _ Hlit), Hcopy.
    rewrite (fl_cur _ _ _ _ _ Hlit), (fl_spans _ _ _ _ _ Hlit).
    unfold push_span. simpl span_length.
    assert (Hpos : (0 <? K + 4) = true) by (apply Nat.ltb_lt; lia).
    rewrite Hpos. done. }
  rewrite (parse_loop_round _ _ _ _ _ 4)
    by (rewrite (fl_i _ _ _ _ _ Hlit), far_seq_length; lia).
  rewrite Hst2.
  rewrite (parse_loop_round _ _ _ _ _ 3)
    by (simpl; rewrite far_seq_length; lia).
  rewrite parse_step_literal by (simpl; apply Hnone; lia).
  cbn [ps_i copyMap branchFrequencyMap spans currentSpan].
  assert (Hpos : (0 <? K + 8) = true) by (apply Nat.ltb_lt; lia).
  rewrite Hpos.
  rewrite parse_loop_done by (simpl; rewrite far_seq_length; lia).
  cbn [ps_i copyMap branchFrequencyMap spans currentSpan].
  destruct (Nat.ltb_spec (S (K + 8)) (K + 9)); [lia|].
  eexists. split; [reflexivity|].
  destruct Htab2 as [Hcl Hbl Hl Hcopy2 Hch Hfork Hrest].
  assert (Hprev : cm2 !!! (K + 8 - 1) = K + 3).
  { replace (K + 8 - 1) with (K + 4 + 3) by lia. rewrite Hcopy2 by lia.
    done. }
  rewrite Hprev.
  split; cbn [ps_i copyMap branchFrequencyMap spans currentSpan].
  - by rewrite length_insert.
  - by rewrite bump_at_length.
  - intros p Hp. rewrite list_lookup_total_insert_ne by lia. by apply Hl.
  - intros u Hu. rewrite list_lookup_total_insert_ne by lia.
    by apply Hcopy2.
  - apply list_lookup_total_insert_eq. lia.
  - intros e He. rewrite bump_at_lookup. rewrite decide_False by lia.
    rewrite Hch by done. by eexists.
  - rewrite bump_at_lookup. rewrite decide_True by lia.
    rewrite Hfork. rewrite decide_False by lia. simpl.
    destruct (Nat.ltb_spec (K + 8) K); [lia|].
    destruct (Nat.eqb_spec (K + 8) K); [lia|]. done.
  - unfold push_span, span_grow. simpl. done.
Qed.

End FarParse.

Lemma skip_index_fork (K d : nat) :
  skip_index [(K, 1); (K + 8, 1)] (K + 4) d = K.
Proof.
  unfold skip_index. cbn [foldl fst snd].
  destruct (Nat.eqb_spec K (K + 4)); [lia|].
  destruct (Nat.eqb_spec (K + 8) (K + 4)); [lia|]. done.
Qed.

Section FarStreams.

Variable subsong channel : Z.
Variable codeSequence : list AlphaCode.
Variable K : nat.
Variable st : ParseState.

Local Abbreviation cm := (copyMap st).
Local Abbreviation bfm := (branchFrequencyMap st).
Local Abbreviation skipMap := (make_skipMap (copyMap st) (branchFrequencyMap st)).
Local Abbreviation body_data :=
  (ZipSpec.body_data subsong channel codeSequence cm bfm skipMap).
Local Abbreviation body_span :=
  (ZipSpec.body_span subsong channel cm bfm skipMap).
Local Abbreviation data_upto :=
  (ZipSpec.data_upto subsong channel codeSequence cm bfm skipMap).
Local Abbreviation span_upto :=
  (ZipSpec.span_upto subsong channel cm bfm skipMap).

Hypothesis Hlen : length codeSequence = K + 9.
Hypothesis Hst : far_parsed subsong channel K st.

Lemma far_skip : skipMap !!! (K + 3) = K.
Proof.
  rewrite make_skipMap_lookup by (rewrite (fp_bfm_len _ _ _ _ Hst); lia).
  rewrite (fp_fork _ _ _ _ Hst).
  replace (K + 3 + 1) with (K + 4) by lia. apply skip_index_fork.
Qed.

Lemma far_body_lit (e : nat) :
  e < K + 3 -> body_data e = [codeSequence !!! e] /\ body_span e = [].
Proof.
  intros He. destruct (fp_chain _ _ _ _ Hst e He) as [c Hc].
  unfold ZipSpec.body_data, ZipSpec.body_span. cbv zeta.
  rewrite !(fp_lit _ _ _ _ Hst) by lia. rewrite Hc. simpl length.
  rewrite Nat.eqb_refl.
  destruct (Nat.eqb_spec (S e) (e + 1)); [|lia]. done.
Qed.

Lemma far_body_fork (e : nat) :
  e = K + 3 ->
  body_data e = [codeSequence !!! e; CODE_BRANCH_POINT;
                 CODE_JUMP subsong channel K] /\
  body_span e = [CODE_TAKE_DATA_JUMP].
Proof.
  intros ->. unfold ZipSpec.body_data, ZipSpec.body_span. cbv zeta.
  rewrite (fp_lit _ _ _ _ Hst (K + 3)) by lia.
  replace (S (K + 3)) with (K + 4 + 0) by lia.
  rewrite (fp_copy _ _ _ _ Hst 0) by lia.
  rewrite (fp_fork _ _ _ _ Hst), far_skip. simpl length.
  rewrite Nat.add_0_r, !Nat.eqb_refl.
  destruct (Nat.eqb_spec K (K + 3 + 1)); [lia|]. done.
Qed.

Lemma far_body_copy (e : nat) :
  K + 4 <= e < K + 7 -> body_data e = [] /\ body_span e = [].
Proof.
  intros He. unfold ZipSpec.body_data, ZipSpec.body_span. cbv zeta.
  replace e with (K + 4 + (e - K - 4)) by lia.
  replace (S (K + 4 + (e - K - 4))) with (K + 4 + S (e - K - 4)) by lia.
  rewrite !(fp_copy _ _ _ _ Hst) by lia.
  destruct (fp_chain _ _ _ _ Hst (K + (e - K - 4)) ltac:(lia)) as [c Hc].
  rewrite Hc. simpl length.
  destruct (Nat.eqb_spec (K + (e - K - 4)) (K + 4 + (e - K - 4))); [lia|].
  destruct (Nat.eqb_spec (K + S (e - K - 4)) (K + (e - K - 4) + 1)); [|lia].
  done.
Qed.

Lemma far_body_back (e : nat) :
  e = K + 7 ->
  body_data e = [] /\
  body_span e = [CODE_TAKE_TRACK_JUMP; CODE_JUMP subsong channel (K + 8)].
Proof.
  intros ->. unfold ZipSpec.body_data, ZipSpec.body_span. cbv zeta.
  replace (K + 7) with (K + 4 + 3) by lia.
  rewrite (fp_copy _ _ _ _ Hst 3) by lia.
  replace (S (K + 4 + 3)) with (K + 8) by lia.
  rewrite (fp_last _ _ _ _ Hst), (fp_fork _ _ _ _ Hst), far_skip.
  simpl length.
  destruct (Nat.eqb_spec (K + 3) (K + 4 + 3)); [lia|].
  destruct (Nat.eqb_spec (K + 8) (K + 3 + 1)); [lia|].
  destruct (Nat.eqb_spec (K + 8) K); [lia|]. done.
Qed.

Lemma far_data_upto (p : nat) :
  p <= K + 3 -> data_upto p = take p codeSequence.
Proof.
  induction p as [|p IH]; intros Hp; [done|].
  rewrite data_upto_S, IH by lia.
  rewrite (proj1 (far_body_lit p ltac:(lia))).
  destruct (lookup_lt_is_Some_2 codeSequence p ltac:(lia)) as [c Hc].
  rewrite (list_lookup_total_correct _ _ _ Hc).
  by rewrite (take_S_r _ _ _ Hc).
Qed.

Lemma far_span_upto (p : nat) : p <= K + 3 -> span_upto p = [].
Proof.
  induction p as [|p IH]; intros Hp; [done|].
  rewrite span_upto_S, IH by lia.
  by rewrite (proj2 (far_body_lit p ltac:(lia))).
Qed.

Lemma far_data_step (a b : nat) :
  b = S a -> data_upto b = data_upto a ++ body_data a.
Proof. intros ->. apply data_upto_S. Qed.

Lemma far_span_step (a b : nat) :
  b = S a -> span_upto b = span_upto a ++ body_span a.
Proof. intros ->. apply span_upto_S. Qed.

Lemma far_data_end :
  data_upto (K + 8)
  = take (K + 3) codeSequence
    ++ [codeSequence !!! (K + 3); CODE_BRANCH_POINT;
        CODE_JUMP subsong channel K].
Proof.
  rewrite (far_data_step (K + 7) (K + 8)) by lia.
  rewrite (far_data_step (K + 6) (K + 7)) by lia.
  rewrite (far_data_step (K + 5) (K + 6)) by lia.
  rewrite (far_data_step (K + 4) (K + 5)) by lia.
  rewrite (far_data_step (K + 3) (K + 4)) by lia.
  rewrite (proj1 (far_body_back (K + 7) eq_refl)).
  rewrite (proj1 (far_body_copy (K + 6) ltac:(lia))).
  rewrite (proj1 (far_body_copy (K + 5) ltac:(lia))).
  rewrite (proj1 (far_body_copy (K + 4) ltac:(lia))).
  rewrite (proj1 (far_body_fork (K + 3) eq_refl)).
  rewrite far_data_upto by lia. by rewrite !app_nil_r.
Qed.

Lemma far_span_end :
  span_upto (K + 8)
  = [CODE_TAKE_DATA_JUMP; CODE_TAKE_TRACK_JUMP;
     CODE_JUMP subsong channel (K + 8)].
Proof.
  rewrite (far_span_step (K + 7) (K + 8)) by lia.
  rewrite (far_span_step (K + 6) (K + 7)) by lia.
  rewrite (far_span_step (K + 5) (K + 6)) by lia.
  rewrite (far_span_step (K + 4) (K + 5)) by lia.
  rewrite (far_span_step (K + 3) (K + 4)) by lia.
  rewrite (proj2 (far_body_back (K + 7) eq_refl)).
  rewrite (proj2 (far_body_copy (K + 6) ltac:(lia))).
  rewrite (proj2 (far_body_copy (K + 5) ltac:(lia))).
  rewrite (proj2 (far_body_copy (K + 4) ltac:(lia))).
  rewrite (proj2 (far_body_fork (K + 3) eq_refl)).
  rewrite far_span_upto by lia. done.
Qed.

Lemma far_cover :
  cover cm 0
    [mkSpan subsong channel 0 (K + 4); mkSpan subsong channel K 4;
     mkSpan subsong channel (K + 8) 1]
    (K + 9).
Proof.
  cbn [cover span_start span_length]. repeat split.
  - left. split; [done|]. intros p Hp. apply (fp_lit _ _ _ _ Hst). lia.
  - right. split; [lia|]. intros p Hp.
    replace p with (K + 4 + (p - K - 4)) by lia.
    rewrite (fp_copy _ _ _ _ Hst) by lia. lia.
  - left. split; [lia|]. intros p Hp.
    replace p with (K + 8) by lia. apply (fp_last _ _ _ _ Hst).
  - lia.
Qed.

End FarStreams.

Lemma relabel_regular_all (subsong channel : Z) (labels : list nat)
    (l : list AlphaCode) :
  Forall regular l -> relabel subsong channel labels <$> l = l.
Proof.
  induction 1 as [|c l Hc _ IH]; [done|].
  rewrite fmap_cons, IH. f_equal. apply relabel_other.
  by apply regular_type.
Qed.

Section FarCompress.

Variable index : AlphaCode -> AlphaChar.
Variable find_prior : nat -> list AlphaChar -> nat * nat.
Variable subsong channel : Z.
Variable codeSequence : list AlphaCode.
Variable K : nat.

Local Abbreviation seq := (alphaSequence index codeSequence).

Hypothesis HK : Z.of_nat K = 8192%Z.
Hypothesis Hsub : (0 <= subsong < 256)%Z.
Hypothesis Hch : (0 <= channel < 256)%Z.
Hypothesis Hwf : well_formed codeSequence.
Hypothesis Hlen : length codeSequence = K + 9.
Hypothesis Hmatch : find_prior (K + 4) seq = (K, 4).
Hypothesis Hnone : forall i, i <> K + 4 -> snd (find_prior i seq) <= 3.

Lemma far_regular (p : nat) :
  p < K + 8 -> exists c, codeSequence !! p = Some c /\ regular c.
Proof. intros Hp. apply (code_regular codeSequence Hwf). lia. Qed.

Lemma far_regular_take (m : nat) :
  m <= K + 8 -> Forall regular (take m codeSequence).
Proof.
  intros Hm. apply Forall_forall. intros c Hc.
  apply list_elem_of_lookup in Hc as [i Hi].
  apply lookup_take_Some in Hi as [Hi Him].
  destruct (far_regular i ltac:(lia)) as (c' & Hc' & Hreg). congruence.
Qed.

(** What [compressCodeSequence] has before its last pass. *)
Lemma far_streams :
  exists st es,
    parse index find_prior subsong channel codeSequence = Ok st /\
    emit_spans subsong channel codeSequence (copyMap st)
      (branchFrequencyMap st)
      (make_skipMap (copyMap st) (branchFrequencyMap st)) (spans st)
      (mkEmit 0 (replicate (length seq) 0) [] []) = Ok es /\
    relabel subsong channel (labels es) <$> compressedCodeSequence es
    = far_data subsong channel K codeSequence /\
    relabel_span subsong channel (labels es) (spanSequence es)
    = Ok (far_span subsong channel).
Proof.
  destruct (far_parse index find_prior subsong channel codeSequence K
              Hlen Hmatch Hnone) as (st & Hparse & Hst).
  exists st.
  pose proof (fp_cm_len _ _ _ _ Hst) as Hcl.
  destruct (emit_spans_all subsong channel codeSequence (copyMap st)
              (branchFrequencyMap st)
              (make_skipMap (copyMap st) (branchFrequencyMap st))) with
    (sps := spans st) (e := 0)
    (st := mkEmit 0 (replicate (length seq) 0) [] [])
    as (es & Hemit & Hdone).
  { intros p Hp Hfix. rewrite Hcl in Hp.
    destruct (far_regular p ltac:(lia)) as (c & Hc & Hreg).
    rewrite (list_lookup_total_correct _ _ _ Hc).
    by apply regular_not_stop. }
  { intros p Hp. rewrite Hcl in Hp. assert (p = K + 8) as -> by lia. split.
    - apply (fp_last _ _ _ _ Hst).
    - apply list_lookup_total_correct.
      apply (code_last codeSequence Hwf). lia. }
  { rewrite Hcl, (fp_spans _ _ _ _ Hst). by eapply far_cover. }
  { split; simpl; try done.
    - rewrite length_replicate, Hcl. unfold alphaSequence.
      by rewrite length_fmap.
    - intros p Hp. lia. }
  { lia. }
  exists es. split; [done|]. split; [done|].
  destruct Hdone as [Hdata Hspan Hll Hlab].
  rewrite Hcl in Hdata, Hspan, Hlab.
  replace (K + 9 - 1) with (K + 8) in Hdata, Hspan by lia.
  rewrite (far_data_end subsong channel codeSequence K st Hlen Hst) in Hdata.
  rewrite (far_span_end subsong channel codeSequence K st Hlen Hst) in Hspan.
  assert (Hl0 : labels es !!! 0 = 0).
  { rewrite Hlab; [done|lia|]. apply (fp_lit _ _ _ _ Hst). lia. }
  assert (Hl8 : labels es !!! 8 = 8).
  { rewrite Hlab; [|lia|apply (fp_lit _ _ _ _ Hst); lia].
    rewrite (far_data_upto subsong channel codeSequence K st Hlen Hst)
      by lia.
    rewrite length_take. lia. }
  assert (HjK : relabel subsong channel (labels es)
                  (CODE_JUMP subsong channel K)
                = CODE_JUMP subsong channel 0).
  { replace K with (Z.to_nat 8192 + 0) at 1 by lia.
    rewrite relabel_cuts_address by (done || lia). by rewrite Hl0. }
  assert (HjS : relabel subsong channel (labels es)
                  (CODE_JUMP subsong channel (K + 8))
                = CODE_JUMP subsong channel 8).
  { replace (K + 8) with (Z.to_nat 8192 + 8) by lia.
    rewrite relabel_cuts_address by (done || lia). by rewrite Hl8. }
  destruct (far_regular (K + 3) ltac:(lia)) as (c3 & Hc3 & Hreg3).
  split.
  - rewrite Hdata. unfold far_data.
    replace (K + 4) with (S (K + 3)) by lia.
    rewrite (take_S_r _ _ _ Hc3).
    rewrite (list_lookup_total_correct _ _ _ Hc3).
    rewrite <- !app_assoc. rewrite !fmap_app.
    rewrite relabel_regular_all by (apply far_regular_take; lia).
    f_equal. cbn [fmap list_fmap app]. rewrite HjK.
    rewrite (relabel_other _ _ _ c3) by (by apply regular_type).
    by rewrite !relabel_other by done.
  - rewrite Hspan. rewrite relabel_span_fmap.
    + cbn [fmap list_fmap app]. rewrite HjS.
      by rewrite !relabel_other by done.
    + apply Forall_cons_2; [done|]. apply Forall_cons_2; [done|].
      apply Forall_cons_2; [|by apply Forall_cons_2].
      unfold is_type. rewrite jump_type_wide; [done|done|done|].
      apply Z.lt_trans with (8192 + 9)%Z; [lia|done].
Qed.

End FarCompress.

Section Runs.

Variable codeSequence : list AlphaCode.
Variable D : list AlphaCode.

(** A stretch of codes that are not control codes, in the last pass. *)
Lemma returns_run (m : nat) :
  forall f mo ra a nsa sp,
    (forall p, a <= p < a + m ->
       exists c, D !! p = Some c /\ regular c) ->
    returns_loop (m + f) D (mkRegs mo ra a nsa) sp
    = returns_loop f D (mkRegs mo ra (a + m) nsa) sp.
Proof.
  induction m as [|m IH]; intros f mo ra a nsa sp Hrun.
  - by rewrite Nat.add_0_r.
  - destruct (Hrun a ltac:(lia)) as (c & Hc & Hreg).
    cbn [Nat.add].
    rewrite (returns_plain D (m + f) (mkRegs mo ra a nsa) sp c Hc)
      by (by apply regular_not_const).
    unfold advance. cbn [maxOffset returnAddress nextReadAddress
                         nextSpanAddress].
    rewrite IH by (intros p Hp; apply Hrun; lia).
    do 2 f_equal. lia.
Qed.

(** The same stretch in the validator, when the original holds the same
    codes at the cursor. *)
Lemma validate_run (m : nat) :
  forall f mo ra a nsa sp cmp,
    (forall t, t < m ->
       exists c, D !! (a + t) = Some c /\
                 codeSequence !! (cmp + t) = Some c /\ regular c) ->
    validate_loop codeSequence (m + f) D sp (mkRegs mo ra a nsa) cmp
    = validate_loop codeSequence f D sp (mkRegs mo ra (a + m) nsa)
        (cmp + m).
Proof.
  induction m as [|m IH]; intros f mo ra a nsa sp cmp Hrun.
  - by rewrite !Nat.add_0_r.
  - destruct (Hrun 0 ltac:(lia)) as (c & Hc & Hx & Hreg).
    rewrite !Nat.add_0_r in *. cbn [Nat.add].
    rewrite (validate_plain codeSequence D (m + f) sp (mkRegs mo ra a nsa)
               cmp c Hc)
      by (done || by apply regular_not_const || by apply regular_type).
    unfold advance. cbn [maxOffset returnAddress nextReadAddress
                         nextSpanAddress].
    rewrite IH.
    + replace (S a + m) with (a + S m) by lia.
      by replace (S cmp + m) with (cmp + S m) by lia.
    + intros t Ht. destruct (Hrun (S t) ltac:(lia)) as (c' & H1 & H2 & H3).
      exists c'. split; [|split]; [| |done].
      * by replace (S a + t) with (a + S t) by lia.
      * by replace (S cmp + t) with (cmp + S t) by lia.
Qed.

(** A code that differs from the original at the cursor: [assert(false)]. *)
Lemma validate_mismatch (f : nat) (sp : list AlphaCode) (r : Regs)
    (cmp : nat) (c x : AlphaCode) :
  D !! nextReadAddress r = Some c -> regular c ->
  codeSequence !! cmp = Some x -> c <> x ->
  validate_loop codeSequence (S f) D sp r cmp = Abort.
Proof.
  intros Hc Hreg Hx Hne. cbn [validate_loop]. rewrite Hc.
  destruct (Z.eqb_spec c CODE_TAKE_DATA_JUMP) as [->|_].
  { by destruct (regular_not_const _ CODE_TAKE_DATA_JUMP Hreg). }
  rewrite (regular_type c BRANCH_POINT Hreg) by done.
  rewrite Hx. destruct (Z.eqb_spec c x); [done|]. done.
Qed.

End Runs.

Section FarReplay.

Variable subsong channel : Z.
Variable codeSequence : list AlphaCode.
Variable K : nat.

Local Abbreviation D := (far_data subsong channel K codeSequence).
Local Abbreviation S0 := (far_span subsong channel).

Hypothesis HK : 8 <= K.
Hypothesis Hsub : (0 <= subsong < 256)%Z.
Hypothesis Hch : (0 <= channel < 256)%Z.
Hypothesis Hwf : well_formed codeSequence.
Hypothesis Hlen : length codeSequence = K + 9.
Hypothesis Hdiff : codeSequence !! 0 <> codeSequence !! (K + 4).

Lemma far_data_code (p : nat) :
  p < K + 4 ->
  exists c, D !! p = Some c /\ codeSequence !! p = Some c /\ regular c.
Proof.
  intros Hp.
  destruct (code_regular codeSequence Hwf p ltac:(lia)) as (c & Hc & Hreg).
  exists c. split; [|done]. unfold far_data.
  apply lookup_app_l_Some. by rewrite lookup_take_lt.
Qed.

Lemma far_data_tail (k : nat) (x : AlphaCode) :
  [CODE_BRANCH_POINT; CODE_JUMP subsong channel 0; CODE_BRANCH_POINT] !! k
  = Some x ->
  D !! (K + 4 + k) = Some x.
Proof.
  intros H. unfold far_data. rewrite lookup_app_r by (rewrite length_take; lia).
  rewrite length_take. by replace (K + 4 + k - _) with k by lia.
Qed.

Lemma far_data_branch (a : nat) :
  a = K + 4 -> D !! a = Some CODE_BRANCH_POINT.
Proof.
  intros ->. replace (K + 4) with (K + 4 + 0) at 1 by lia.
  by apply far_data_tail.
Qed.

Lemma far_data_jump (a : nat) :
  a = K + 5 -> D !! a = Some (CODE_JUMP subsong channel 0).
Proof.
  intros ->. replace (K + 5) with (K + 4 + 1) by lia.
  by apply far_data_tail.
Qed.

Lemma far_jump_decode (a : nat) :
  (Z.of_nat a < 8192)%Z ->
  is_type JUMP (CODE_JUMP subsong channel a) = true /\
  GET_CODE_JUMP_ADDRESS (CODE_JUMP subsong channel a) = a.
Proof.
  intros Ha. split.
  - unfold is_type. rewrite jump_type by (done || lia). done.
  - by apply jump_address.
Qed.

(** The last pass replays the data three times and leaves the span stream
    as it is. *)
Lemma far_returns (fuel : nat) :
  3 * K + 7 <= fuel -> returns_loop fuel D regs_init S0 = Ok S0.
Proof.
  intros Hfuel.
  destruct (far_jump_decode 0 ltac:(lia)) as [Ht0 Ha0].
  destruct (far_jump_decode 8 ltac:(lia)) as [Ht8 Ha8].
  replace fuel
    with ((K + 4) + S ((K + 4) + S ((K - 4) + S (fuel - (3 * K + 7)))))
    by lia.
  unfold regs_init.
  rewrite returns_run
    by (intros p Hp; destruct (far_data_code p ltac:(lia)) as (c & ? & ? & ?);
        by exists c).
  rewrite (returns_take D _ _ _ (CODE_JUMP subsong channel 0))
    by first [ apply far_data_branch; cbn [nextReadAddress]; lia
             | apply far_data_jump; cbn [nextReadAddress]; lia
             | done ].
  unfold jump_from.
  cbn [nextReadAddress nextSpanAddress maxOffset returnAddress Nat.leb
       Nat.add].
  rewrite Ha0.
  rewrite returns_run
    by (intros p Hp; destruct (far_data_code p ltac:(lia)) as (c & ? & ? & ?);
        by exists c).
  rewrite (returns_track D _ _ _ (CODE_JUMP subsong channel 8))
    by first [ apply far_data_branch; cbn [nextReadAddress]; lia
             | done ].
  unfold jump_from.
  cbn [nextReadAddress nextSpanAddress maxOffset returnAddress Nat.add].
  rewrite Ha8.
  destruct (Nat.eqb_spec 8 (S (S (K + 4)))); [lia|].
  rewrite Nat.leb_refl.
  rewrite returns_run
    by (intros p Hp; destruct (far_data_code p ltac:(lia)) as (c & ? & ? & ?);
        by exists c).
  apply returns_stop.
  - apply far_data_branch. cbn [nextReadAddress]. lia.
  - done.
Qed.

(** The validator follows the jump to the start and meets the first code
    where the original has the code of position [K + 4]. *)
Lemma far_validate (fuel : nat) :
  K + 6 <= fuel ->
  validate_loop codeSequence fuel D S0 regs_init 0 = Abort.
Proof.
  intros Hfuel.
  destruct (far_jump_decode 0 ltac:(lia)) as [Ht0 Ha0].
  replace fuel with ((K + 4) + S (S (fuel - (K + 6)))) by lia.
  unfold regs_init.
  rewrite validate_run
    by (intros t Ht; destruct (far_data_code t ltac:(lia)) as (c & ? & ? & ?);
        by exists c).
  rewrite (validate_take codeSequence D _ _ _ _
             (CODE_JUMP subsong channel 0))
    by first [ apply far_data_branch; cbn [nextReadAddress]; lia
             | apply far_data_jump; cbn [nextReadAddress]; lia
             | done ].
  unfold jump_from.
  cbn [nextReadAddress nextSpanAddress maxOffset returnAddress Nat.leb
       Nat.add].
  rewrite Ha0.
  destruct (far_data_code 0 ltac:(lia)) as (c & Hc & Hx & Hreg).
  destruct (lookup_lt_is_Some_2 codeSequence (K + 4) ltac:(lia)) as [x Hx'].
  apply (validate_mismatch codeSequence D _ _ _ _ c x); try done.
  intros ->. apply Hdiff. by rewrite Hx, Hx'.
Qed.

End FarReplay.

Lemma jump_range_value : Z.of_nat jump_range = 8192%Z.
Proof. unfold jump_range. by apply Z2Nat.id. Qed.

(** C1 (where the code departs from it).  Take a sequence of
    [jump_range + 9] regular codes ended by STOP in which the query finds
    positions [jump_range + 4 ..] to repeat the four codes from position
    [jump_range], and nothing else, and whose code at [jump_range + 4] is
    not its first code.  [compressCodeSequence] returns the streams
    [far_data] and [far_span], in which the jump to position [jump_range]
    has become a jump to address 0; [validateCodeSequence] runs into its
    [assert(false)] on them, and however many rounds it is given the
    decoder does not replay them to the original sequence. *)
Theorem far_jump_rejected
    (index : AlphaCode -> AlphaChar)
    (find_prior : nat -> list AlphaChar -> nat * nat)
    (subsong channel : Z) (codeSequence : list AlphaCode) (fuel : nat) :
  (0 <= subsong < 256)%Z -> (0 <= channel < 256)%Z ->
  well_formed codeSequence ->
  length codeSequence = jump_range + 9 ->
  codeSequence !! 0 <> codeSequence !! (jump_range + 4) ->
  find_prior (jump_range + 4) (alphaSequence index codeSequence)
  = (jump_range, 4) ->
  (forall i, i <> jump_range + 4 ->
     snd (find_prior i (alphaSequence index codeSequence)) <= 3) ->
  3 * jump_range + 7 <= fuel ->
  let data := far_data subsong channel jump_range codeSequence in
  let span := far_span subsong channel in
  compressCodeSequence index find_prior subsong channel codeSequence fuel
  = Ok (data, span) /\
  validateCodeSequence codeSequence fuel data span = Abort /\
  forall fuel',
    validateCodeSequence codeSequence fuel' data span <> Ok () /\
    replay fuel' data span <> Ok codeSequence.
Proof.
  intros Hsub Hch Hwf Hlen Hdiff Hmatch Hnone Hfuel data span.
  pose proof jump_range_value as HK.
  assert (H8 : 8 <= jump_range) by lia.
  destruct (far_streams index find_prior subsong channel codeSequence
              jump_range HK Hsub Hch Hwf Hlen Hmatch Hnone)
    as (st & es & Hparse & Hemit & Hdata & Hspan).
  assert (Hval : validateCodeSequence codeSequence fuel data span = Abort).
  { unfold validateCodeSequence, data, span.
    rewrite (far_validate subsong channel codeSequence jump_range)
      by (assumption || lia). reflexivity. }
  split; [|split; [done|]].
  - unfold compressCodeSequence. rewrite Hparse. cbn [mbind res_bind].
    rewrite Hemit. cbn [mbind res_bind]. rewrite Hdata, Hspan.
    cbn [mbind res_bind].
    rewrite (far_returns subsong channel codeSequence jump_range)
      by (assumption || lia). reflexivity.
  - intros fuel'.
    assert (Hno : validateCodeSequence codeSequence fuel' data span
                  <> Ok ()).
    { unfold validateCodeSequence.
      destruct (validate_loop codeSequence fuel' data span regs_init 0)
        as [m| | |] eqn:Hv; [|discriminate..].
      apply (validate_loop_mono _ _ _ _ (fuel' + (jump_range + 6))) in Hv;
        [|lia].
      unfold data, span in Hv.
      rewrite (far_validate subsong channel codeSequence jump_range) in Hv
        by (assumption || lia).
      discriminate. }
    split; [exact Hno|]. intros Hr. apply validate_iff_replay in Hr.
    exact (Hno Hr).
Qed.

Lemma tone_regular (k : nat) : (Z.of_nat k < 8192)%Z -> regular (tone k).
Proof.
  intros Hk. left. unfold tone. cbv zeta.
  apply CodeFacts.type_WRITE_DELTA.
  - pose proof (Z.mod_pos_bound (Z.of_nat k) 16). lia.
  - pose proof (Z.mod_pos_bound (Z.of_nat k / 16) 32). lia.
  - split; [apply Z.div_pos; lia|].
    apply Z.div_lt_upper_bound; lia.
  - lia.
Qed.

Lemma far_input_well_formed : well_formed far_input.
Proof.
  exists ((tone <$> seq 0 jump_range)
          ++ (CODE_SUSTAIN <$> [1; 2; 3; 4; 1; 2; 3; 4]%Z)).
  split; [unfold far_input; by rewrite <- app_assoc|].
  apply Forall_app. split.
  - apply Forall_fmap, Forall_forall. intros k Hk.
    apply elem_of_seq in Hk. apply tone_regular.
    pose proof jump_range_value. lia.
  - repeat (apply Forall_cons_2; [right; right; reflexivity|]).
    apply Forall_nil_2.
Qed.

Lemma far_input_length : length far_input = jump_range + 9.
Proof.
  unfold far_input. rewrite length_app, length_fmap, length_seq. done.
Qed.

Lemma far_input_tail (k : nat) :
  far_input !! (jump_range + k)
  = ((CODE_SUSTAIN <$> [1; 2; 3; 4; 1; 2; 3; 4]%Z) ++ [CODE_STOP]) !! k.
Proof.
  unfold far_input.
  rewrite lookup_app_r by (rewrite length_fmap, length_seq; lia).
  rewrite length_fmap, length_seq.
  by replace (jump_range + k - jump_range) with k by lia.
Qed.

Lemma far_input_differs : far_input !! 0 <> far_input !! (jump_range + 4).
Proof.
  pose proof jump_range_value as HK. rewrite far_input_tail.
  unfold far_input.
  rewrite lookup_app_l by (rewrite length_fmap, length_seq; lia).
  rewrite list_lookup_fmap, lookup_seq_lt by lia.
  vm_compute. discriminate.
Qed.

Lemma far_prior_match (l : list AlphaChar) :
  far_prior (jump_range + 4) l = (jump_range, 4).
Proof. unfold far_prior. by rewrite Nat.eqb_refl. Qed.

Lemma far_prior_none (l : list AlphaChar) (i : nat) :
  i <> jump_range + 4 -> snd (far_prior i l) <= 3.
Proof.
  intros Hi. unfold far_prior.
  destruct (Nat.eqb_spec i (jump_range + 4)); [done|]. simpl. lia.
Qed.

(** The answers of [far_prior] are true earlier matches. *)
Lemma far_prior_sound :
  sound_prior far_prior (alphaSequence Suffix.index far_input).
Proof.
  intros i s l Hi Hq Hl. unfold far_prior in Hq.
  destruct (Nat.eqb_spec i (jump_range + 4)) as [->|_];
    [|simplify_eq; lia].
  simplify_eq. split; [lia|]. split.
  - unfold alphaSequence. rewrite length_fmap, far_input_length. lia.
  - intros k Hk. unfold alphaSequence.
    rewrite !list_lookup_fmap.
    replace (jump_range + 4 + k) with (jump_range + (4 + k)) by lia.
    rewrite !far_input_tail.
    destruct k as [|[|[|[|k]]]]; (done || lia).
Qed.

Lemma far_jump_rejected_witness :
  let fuel := 3 * jump_range + 7 in
  let data := far_data 0 0 jump_range far_input in
  let span := far_span 0 0 in
  compressCodeSequence Suffix.index far_prior 0 0 far_input fuel
  = Ok (data, span) /\
  validateCodeSequence far_input fuel data span = Abort /\
  forall fuel',
    validateCodeSequence far_input fuel' data span <> Ok () /\
    replay fuel' data span <> Ok far_input.
Proof.
  apply (far_jump_rejected Suffix.index far_prior 0 0 far_input
           (3 * jump_range + 7)).
  - lia.
  - lia.
  - apply far_input_well_formed.
  - apply far_input_length.
  - apply far_input_differs.
  - apply far_prior_match.
  - intros i. apply far_prior_none.
  - apply Nat.le_refl.
Defined.

End FarFacts.

(** ** Packing and unpacking code words *)

Module WordFacts.
Import Code Words CodeFacts JumpFacts.

Local Open Scope Z_scope.

(** Fields that do not overlap add up. *)
Lemma land_shiftl_low (a b n : Z) :
  0 <= n -> 0 <= b < 2 ^ n -> Z.land (Z.shiftl a n) b = 0.
Proof.
  intros Hn Hb. apply Z.bits_inj'. intros k Hk.
  rewrite Z.land_spec, Z.bits_0.
  destruct (Z.lt_ge_cases k n) as [Hlt|Hge].
  - by rewrite Z.shiftl_spec_low.
  - destruct (Z.eq_dec b 0) as [->|Hb0].
    + by rewrite Z.bits_0, andb_false_r.
    + rewrite (Z.bits_above_log2 b k), andb_false_r; [done|lia|].
      apply Z.lt_le_trans with n; [|done].
      apply Z.log2_lt_pow2; lia.
Qed.

Lemma lor_shiftl_add (a b n : Z) :
  0 <= n -> 0 <= b < 2 ^ n -> Z.lor (Z.shiftl a n) b = a * 2 ^ n + b.
Proof.
  intros Hn Hb. pose proof (land_shiftl_low a b n Hn Hb) as H0.
  rewrite <- Z.lxor_lor by done. rewrite <- Z.add_nocarry_lxor by done.
  by rewrite Z.shiftl_mul_pow2.
Qed.

Lemma lor_add_high (q b n : Z) :
  0 <= n -> 0 <= b < 2 ^ n -> Z.lor (q * 2 ^ n) b = q * 2 ^ n + b.
Proof.
  intros Hn Hb. rewrite <- (lor_shiftl_add q b n) by done.
  by rewrite Z.shiftl_mul_pow2.
Qed.

(** A WRITE_DELTA word as the sum of its fields. *)
Lemma CODE_WRITE_DELTA_sum cc cx fc fx vc vx d :
  0 <= cx < 256 -> 0 <= fx < 256 -> 0 <= vx < 256 -> 0 <= d < 256 ->
  CODE_WRITE_DELTA cc cx fc fx vc vx d
  = 2 ^ 56 + change cc * 2 ^ 48 + cx * 2 ^ 40 + change fc * 2 ^ 32
    + fx * 2 ^ 24 + change vc * 2 ^ 16 + vx * 2 ^ 8 + d.
Proof.
  intros Hcx Hfx Hvx Hd. unfold CODE_WRITE_DELTA.
  assert (Hcc : 0 <= change cc < 2) by (destruct cc; simpl; lia).
  assert (Hfc : 0 <= change fc < 2) by (destruct fc; simpl; lia).
  assert (Hvc : 0 <= change vc < 2) by (destruct vc; simpl; lia).
  rewrite !Z.shiftl_mul_pow2 by lia. change (tag WRITE_DELTA) with 1.
  rewrite (lor_add_high 1 (change cc * 2 ^ 48) 56) by lia.
  replace (1 * 2 ^ 56 + change cc * 2 ^ 48)
    with ((2 ^ 8 + change cc) * 2 ^ 48) by lia.
  rewrite (lor_add_high _ (cx * 2 ^ 40) 48) by lia.
  replace ((2 ^ 8 + change cc) * 2 ^ 48 + cx * 2 ^ 40)
    with ((2 ^ 16 + change cc * 2 ^ 8 + cx) * 2 ^ 40) by lia.
  rewrite (lor_add_high _ (change fc * 2 ^ 32) 40) by lia.
  replace ((2 ^ 16 + change cc * 2 ^ 8 + cx) * 2 ^ 40 + change fc * 2 ^ 32)
    with ((2 ^ 24 + change cc * 2 ^ 16 + cx * 2 ^ 8 + change fc) * 2 ^ 32)
    by lia.
  rewrite (lor_add_high _ (fx * 2 ^ 24) 32) by lia.
  replace ((2 ^ 24 + change cc * 2 ^ 16 + cx * 2 ^ 8 + change fc) * 2 ^ 32
           + fx * 2 ^ 24)
    with ((2 ^ 32 + change cc * 2 ^ 24 + cx * 2 ^ 16 + change fc * 2 ^ 8
           + fx) * 2 ^ 24) by lia.
  rewrite (lor_add_high _ (change vc * 2 ^ 16) 24) by lia.
  replace ((2 ^ 32 + change cc * 2 ^ 24 + cx * 2 ^ 16 + change fc * 2 ^ 8
            + fx) * 2 ^ 24 + change vc * 2 ^ 16)
    with ((2 ^ 40 + change cc * 2 ^ 32 + cx * 2 ^ 24 + change fc * 2 ^ 16
           + fx * 2 ^ 8 + change vc) * 2 ^ 16) by lia.
  rewrite (lor_add_high _ (vx * 2 ^ 8) 16) by lia.
  replace ((2 ^ 40 + change cc * 2 ^ 32 + cx * 2 ^ 24 + change fc * 2 ^ 16
            + fx * 2 ^ 8 + change vc) * 2 ^ 16 + vx * 2 ^ 8)
    with ((2 ^ 48 + change cc * 2 ^ 40 + cx * 2 ^ 32 + change fc * 2 ^ 24
           + fx * 2 ^ 16 + change vc * 2 ^ 8 + vx) * 2 ^ 8) by lia.
  rewrite (lor_add_high _ d 8) by lia. lia.
Qed.

(** The field [k] bits up in a word: [(c >> k) & 0xff]. *)
Lemma byte_field (c k : Z) :
  0 <= k -> Z.land (Z.shiftr c k) 0xff = (c / 2 ^ k) mod 256.
Proof.
  intros Hk. rewrite Z.shiftr_div_pow2 by done.
  change 0xff with (Z.ones 8). by rewrite Z.land_ones.
Qed.

Ltac field_arith :=
  repeat match goal with
  | |- context [2 ^ ?k] =>
      let v := eval vm_compute in (2 ^ k) in change (2 ^ k) with v
  end;
  Z.to_euclidean_division_equations; lia.

(** The fields of a WRITE_DELTA word, read back one by one. *)
Lemma write_delta_unpacks cc cx fc fx vc vx d :
  0 <= cx < 256 -> 0 <= fx < 256 -> 0 <= vx < 256 -> 0 <= d < 256 ->
  let c := CODE_WRITE_DELTA cc cx fc fx vc vx d in
  GET_CODE_TYPE c = tag WRITE_DELTA /\
  GET_CODE_WRITE_CC c = change cc /\ GET_CODE_WRITE_CX c = cx /\
  GET_CODE_WRITE_FC c = change fc /\ GET_CODE_WRITE_FX c = fx /\
  GET_CODE_WRITE_VC c = change vc /\ GET_CODE_WRITE_VX c = vx /\
  GET_CODE_WRITE_DURATION c = d.
Proof.
  intros Hcx Hfx Hvx Hd c.
  split; [by apply type_WRITE_DELTA|].
  assert (Hcc : 0 <= change cc < 2) by (destruct cc; simpl; lia).
  assert (Hfc : 0 <= change fc < 2) by (destruct fc; simpl; lia).
  assert (Hvc : 0 <= change vc < 2) by (destruct vc; simpl; lia).
  unfold GET_CODE_WRITE_CC, GET_CODE_WRITE_CX, GET_CODE_WRITE_FC,
    GET_CODE_WRITE_FX, GET_CODE_WRITE_VC, GET_CODE_WRITE_VX,
    GET_CODE_WRITE_DURATION.
  rewrite <- (Z.shiftr_0_r c) at 7. rewrite !byte_field by lia.
  unfold c. rewrite CODE_WRITE_DELTA_sum by done.
  generalize (change cc) (change fc) (change vc) Hcc Hfc Hvc.
  intros a b e Ha Hb He.
  repeat split; field_arith.
Qed.

(** X1.  A WRITE_DELTA word built from byte-sized fields gives every field
    back: the type, the three change flags, the three register values and
    the duration. *)
Theorem write_delta_round_trip cc cx fc fx vc vx d :
  0 <= cx < 256 -> 0 <= fx < 256 -> 0 <= vx < 256 -> 0 <= d < 256 ->
  let c := CODE_WRITE_DELTA cc cx fc fx vc vx d in
  GET_CODE_TYPE c = tag WRITE_DELTA /\
  GET_CODE_WRITE_CC c = change cc /\ GET_CODE_WRITE_CX c = cx /\
  GET_CODE_WRITE_FC c = change fc /\ GET_CODE_WRITE_FX c = fx /\
  GET_CODE_WRITE_VC c = change vc /\ GET_CODE_WRITE_VX c = vx /\
  GET_CODE_WRITE_DURATION c = d.
Proof. exact (write_delta_unpacks cc cx fc fx vc vx d). Qed.

Lemma write_delta_round_trip_witness :
  let c := CODE_WRITE_DELTA CHANGE 4 CHANGE 10 NOOP 0 1 in
  GET_CODE_TYPE c = tag WRITE_DELTA /\
  GET_CODE_WRITE_CC c = change CHANGE /\ GET_CODE_WRITE_CX c = 4 /\
  GET_CODE_WRITE_FC c = change CHANGE /\ GET_CODE_WRITE_FX c = 10 /\
  GET_CODE_WRITE_VC c = change NOOP /\ GET_CODE_WRITE_VX c = 0 /\
  GET_CODE_WRITE_DURATION c = 1.
Proof.
  apply (write_delta_round_trip CHANGE 4 CHANGE 10 NOOP 0 1); lia.
Defined.

(** A byte-sized field under a mask that covers it, or misses it. *)
Lemma land_field (x k m : Z) (keep : bool) :
  0 <= x < 256 -> 0 <= k ->
  Z.land (Z.shiftr m k) 0xff = (if keep then 0xff else 0) ->
  Z.land (Z.shiftl x k) m = if keep then Z.shiftl x k else 0.
Proof.
  intros Hx Hk Hm. apply Z.bits_inj'. intros i Hi.
  rewrite Z.land_spec.
  assert (Hout : i < k \/ k + 8 <= i -> Z.testbit (Z.shiftl x k) i = false).
  { intros [Hlt|Hge].
    - by apply Z.shiftl_spec_low.
    - rewrite Z.shiftl_spec by done.
      destruct (Z.eq_dec x 0) as [->|Hx0]; [apply Z.bits_0|].
      apply Z.bits_above_log2; [lia|].
      apply Z.lt_le_trans with 8; [|lia].
      apply Z.log2_lt_pow2; lia. }
  destruct (Z.lt_ge_cases i k) as [Hlt|Hge].
  { rewrite Hout by lia. destruct keep; [by rewrite Hout by lia|].
    by rewrite Z.bits_0. }
  destruct (Z.lt_ge_cases i (k + 8)) as [Hlt8|Hge8].
  - assert (Hbit : Z.testbit m i = keep).
    { replace i with ((i - k) + k) by lia.
      rewrite <- Z.shiftr_spec by lia.
      assert (Hff : Z.testbit 0xff (i - k) = true).
      { change 0xff with (Z.ones 8). apply Z.ones_spec_low. lia. }
      rewrite <- (andb_true_r (Z.testbit (Z.shiftr m k) (i - k))).
      rewrite <- Hff at 1. rewrite <- Z.land_spec, Hm.
      destruct keep; [done|apply Z.bits_0]. }
    rewrite Hbit. destruct keep; [apply andb_true_r|].
    by rewrite andb_false_r, Z.bits_0.
  - rewrite Hout by lia. destruct keep; [by rewrite Hout by lia|].
    by rewrite Z.bits_0.
Qed.

(** The mask applied to a WRITE_DELTA word, field by field. *)
Lemma write_delta_mask_fields cc cx fc fx vc vx d :
  0 <= cx < 256 -> 0 <= fx < 256 -> 0 <= vx < 256 -> 0 <= d < 256 ->
  GET_CODE_WRITE_DELTA_MASKED (CODE_WRITE_DELTA cc cx fc fx vc vx d)
  = abstract_code cc fc vc.
Proof.
  intros Hcx Hfx Hvx Hd.
  unfold GET_CODE_WRITE_DELTA_MASKED, CODE_WRITE_DELTA.
  rewrite <- (Z.shiftl_0_r d). rewrite !Z.land_lor_distr_l.
  assert (Hcc : 0 <= change cc < 256) by (destruct cc; simpl; lia).
  assert (Hfc : 0 <= change fc < 256) by (destruct fc; simpl; lia).
  assert (Hvc : 0 <= change vc < 256) by (destruct vc; simpl; lia).
  rewrite (land_field (tag WRITE_DELTA) 56 _ true) by (done || lia).
  rewrite (land_field (change cc) 48 _ true) by (done || lia).
  rewrite (land_field cx 40 _ false) by (done || lia).
  rewrite (land_field (change fc) 32 _ true) by (done || lia).
  rewrite (land_field fx 24 _ false) by (done || lia).
  rewrite (land_field (change vc) 16 _ true) by (done || lia).
  rewrite (land_field vx 8 _ false) by (done || lia).
  rewrite (land_field d 0 _ false) by (done || lia).
  by destruct cc, fc, vc.
Qed.

(** X2.  Masking a WRITE_DELTA word keeps its type and its three change
    flags and clears the register values and the duration: the result is
    the abstract code of the flags, one of [CODE_WRITE_DELTA_000] to
    [CODE_WRITE_DELTA_111]. *)
Theorem write_delta_masked cc cx fc fx vc vx d :
  0 <= cx < 256 -> 0 <= fx < 256 -> 0 <= vx < 256 -> 0 <= d < 256 ->
  GET_CODE_WRITE_DELTA_MASKED (CODE_WRITE_DELTA cc cx fc fx vc vx d)
  = abstract_code cc fc vc.
Proof. exact (write_delta_mask_fields cc cx fc fx vc vx d). Qed.

Lemma write_delta_masked_witness :
  GET_CODE_WRITE_DELTA_MASKED (CODE_WRITE_DELTA NOOP 0 CHANGE 10 CHANGE 8 1)
  = CODE_WRITE_DELTA_011.
Proof.
  apply (write_delta_masked NOOP 0 CHANGE 10 CHANGE 8 1); lia.
Defined.

Lemma CODE_JUMP_sum (subsong channel : Z) (address : nat) :
  0 <= subsong < 256 -> 0 <= channel < 256 ->
  Z.of_nat address < 2 ^ 40 ->
  CODE_JUMP subsong channel address
  = 4 * 2 ^ 56 + subsong * 2 ^ 48 + channel * 2 ^ 40 + Z.of_nat address.
Proof.
  intros Hs Hc Ha. rewrite CODE_JUMP_fields by done.
  change (tag JUMP) with 4. rewrite !Z.shiftl_mul_pow2 by lia.
  rewrite (lor_add_high 4 (subsong * 2 ^ 8) 16) by lia.
  replace (4 * 2 ^ 16 + subsong * 2 ^ 8)
    with ((4 * 2 ^ 8 + subsong) * 2 ^ 8) by lia.
  rewrite (lor_add_high _ channel 8) by lia.
  rewrite (lor_add_high _ (Z.of_nat address) 40) by lia. lia.
Qed.

(** X3.  A JUMP word built from a sub-song and a channel that fit a byte
    and an address below 2^40 gives back its type, sub-song and channel;
    of the address [GET_CODE_JUMP_ADDRESS] gives back the low 13 bits. *)
Theorem jump_word_round_trip (subsong channel : Z) (address : nat) :
  0 <= subsong < 256 -> 0 <= channel < 256 ->
  Z.of_nat address < 2 ^ 40 ->
  let c := CODE_JUMP subsong channel address in
  GET_CODE_TYPE c = tag JUMP /\
  GET_CODE_SUBSONG c = subsong /\
  GET_CODE_CHANNEL c = channel /\
  Z.of_nat (GET_CODE_JUMP_ADDRESS c) = Z.of_nat address mod 8192.
Proof.
  intros Hs Hc Ha c. split; [|split; [|split]].
  - apply jump_type_wide; [done|done|].
    apply Z.lt_trans with (2 ^ 40); [done|done].
  - unfold GET_CODE_SUBSONG. rewrite byte_field by lia.
    unfold c. rewrite CODE_JUMP_sum by done. pose proof (Zle_0_nat address).
    field_arith.
  - unfold GET_CODE_CHANNEL. rewrite byte_field by lia.
    unfold c. rewrite CODE_JUMP_sum by done. pose proof (Zle_0_nat address).
    field_arith.
  - unfold c. rewrite jump_address_low by done. apply Z2Nat.id.
    apply Z.mod_pos_bound. lia.
Qed.

Lemma jump_word_round_trip_witness :
  let c := CODE_JUMP 2 1 (Z.to_nat 9000) in
  GET_CODE_TYPE c = tag JUMP /\
  GET_CODE_SUBSONG c = 2 /\
  GET_CODE_CHANNEL c = 1 /\
  Z.of_nat (GET_CODE_JUMP_ADDRESS c) = Z.of_nat (Z.to_nat 9000) mod 8192.
Proof.
  apply (jump_word_round_trip 2 1 (Z.to_nat 9000)); [lia|lia|].
  vm_compute. reflexivity.
Defined.

End WordFacts.

(** ** What the emitter writes for an interval and for a track *)

Module TrackFacts.
Import Code Emitter Words Track Zip ZipSpec.
Import CodeFacts EmitterFacts WordFacts RoundTrip.

Local Open Scope Z_scope.

(** The leading code of an interval: none when the state is held, PAUSE
    when the stored volume is zero, otherwise a WRITE_DELTA of duration 1
    whose flags are not all clear and whose control flag comes with the
    other two. *)
Lemma leading_shape (next last : ChannelState) :
  wf_state next -> wf_state last ->
  (held next last = true /\ leading next last = []) \/
  (held next last = false /\ leading next last = [CODE_PAUSE 1]) \/
  (held next last = false /\
   exists cc cx fc fx vc vx,
     leading next last = [CODE_WRITE_DELTA cc cx fc fx vc vx 1] /\
     0 <= cx < 256 /\ 0 <= fx < 256 /\ 0 <= vx < 256 /\
     (cc = CHANGE -> fc = CHANGE /\ vc = CHANGE) /\
     (cc = CHANGE \/ fc = CHANGE \/ vc = CHANGE)).
Proof.
  intros (Hc & Hf & Hv) (Hc' & Hf' & Hv'). unfold is_u8 in *.
  unfold leading, held, changed.
  destruct (Z.eqb_spec (control next) (control last)) as [Ec|Ec];
  destruct (Z.eqb_spec (frequency next) (frequency last)) as [Ef|Ef];
  destruct (Z.eqb_spec (volume next) (volume last)) as [Ev|Ev];
  destruct (Z.eqb_spec (volume next) (volume last + 1)) as [Eu|Eu];
  destruct (Z.eqb_spec (volume last) (volume next + 1)) as [Ed|Ed];
  try lia;
  cbn [is_change change andb negb];
  destruct (Z.eqb_spec (volume next) 0) as [Ez|Ez];
  cbn [Z.eqb Z.ltb Z.add Z.compare Pos.compare Pos.add negb andb
       Pos.compare_cont];
  try lia;
  first [ by left
        | by (right; left)
        | right; right; split; [done|];
          do 6 eexists; split; [reflexivity|];
          repeat split; (lia || done || auto) ].
Qed.

Lemma duration_low (t d : Z) :
  0 <= d < 256 -> GET_CODE_WRITE_DURATION (Z.lor (Z.shiftl t 56) d) = d.
Proof.
  intros Hd. unfold GET_CODE_WRITE_DURATION.
  rewrite Z.land_lor_distr_l.
  rewrite (land_shiftl_low t 0xff 56) by lia.
  rewrite Z.lor_0_l. change 0xff with (Z.ones 8).
  rewrite Z.land_ones by lia. apply Z.mod_small. lia.
Qed.

Lemma total_duration_app (a b : list AlphaCode) :
  total_duration (a ++ b) = total_duration a + total_duration b.
Proof.
  induction a as [|c a IH]; simpl; [done|].
  unfold total_duration in *. simpl. rewrite IH. lia.
Qed.

Lemma total_duration_sustains (ds : list Z) :
  Forall (fun d => 1 <= d <= 16) ds ->
  total_duration (map CODE_SUSTAIN ds) = foldr Z.add 0 ds.
Proof.
  induction 1 as [|d ds Hd _ IH]; [done|].
  unfold total_duration in *. simpl. rewrite IH.
  unfold CODE_SUSTAIN. rewrite duration_low by lia. done.
Qed.

(** The frames of the codes of one interval. *)
Lemma emitted_frames (next last : ChannelState) (d : Z) :
  wf_state next -> wf_state last ->
  total_duration (emitted next d last)
  = frames d - (if held next last then 1 else 0).
Proof.
  intros Hn Hl. rewrite emitted_shape, sustains_durations.
  rewrite total_duration_app.
  rewrite total_duration_sustains by apply durations_bounded.
  rewrite durations_sum by apply residual_nonneg.
  unfold residual, frames.
  destruct (leading_shape next last Hn Hl)
    as [[-> ->]|[[-> ->]|[-> (cc & cx & fc & fx & vc & vx & -> & Hb)]]].
  - unfold total_duration. simpl. lia.
  - unfold total_duration, CODE_PAUSE. simpl foldr.
    rewrite duration_low by lia. lia.
  - destruct Hb as (Hcx & Hfx & Hvx & _).
    unfold total_duration. simpl foldr.
    destruct (write_delta_unpacks cc cx fc fx vc vx 1)
      as (_ & _ & _ & _ & _ & _ & _ & ->); lia.
Qed.

(** X4.  The codes written for an interval last as many frames as the
    interval (one frame if the duration is not positive), except when the
    interval repeats the state before it with the volume on: then no
    leading code is written and the codes last one frame less. *)
Theorem interval_frames (next last : ChannelState) (d : Z) :
  wf_state next -> wf_state last ->
  total_duration (emitted next d last)
  = frames d - (if held next last then 1 else 0).
Proof. exact (emitted_frames next last d). Qed.

Lemma interval_frames_witness :
  total_duration (emitted tone 5 tone)
  = frames 5 - (if held tone tone then 1 else 0).
Proof.
  apply (interval_frames tone tone 5); vm_compute; intuition discriminate.
Defined.

Lemma sustains_nil (fc : Z) : sustains fc = [] <-> fc <= 0.
Proof.
  unfold sustains. destruct (Z.ltb_spec 0 fc) as [Hpos|Hle]; [|done].
  split; [|lia]. intros H. apply app_eq_nil in H as [Hr Hm].
  destruct (Z.ltb_spec 0 (fc mod 16)) as [|Hz]; [done|].
  destruct (Z.to_nat (fc / 16)) eqn:Hq; [|done].
  pose proof (Z.mod_pos_bound fc 16 ltac:(lia)).
  assert (fc / 16 <= 0) by lia.
  pose proof (Z.div_mod fc 16 ltac:(lia)).
  pose proof (Z.div_pos fc 16 ltac:(lia) ltac:(lia)). lia.
Qed.

(** X5.  [encodeChannelStateCodes] only appends to [out], and returns the
    number of codes it appended.  It appends nothing exactly when the
    interval repeats the state before it with the volume on and lasts at
    most one frame. *)
Theorem encode_appends_and_counts (next last : ChannelState) (d : Z)
    (out : list AlphaCode) :
  wf_state next -> wf_state last ->
  encodeChannelStateCodes next d last out
  = (length (emitted next d last), out ++ emitted next d last) /\
  (emitted next d last = [] <-> held next last = true /\ d <= 1).
Proof.
  intros Hn Hl. split.
  - by rewrite encode_shape, emitted_shape.
  - rewrite emitted_shape.
    assert (Hs : sustains (residual d) = [] <-> d <= 1).
    { rewrite sustains_nil. unfold residual.
      destruct (Z.ltb_spec 0 d); lia. }
    destruct (leading_shape next last Hn Hl)
      as [[-> ->]|[[-> ->]|[-> (cc & cx & fc & fx & vc & vx & -> & _)]]].
    + simpl. rewrite Hs. tauto.
    + split; [done|]. by intros [? _].
    + split; [done|]. by intros [? _].
Qed.

Lemma encode_appends_and_counts_witness :
  encodeChannelStateCodes tone 1 tone [CODE_SUSTAIN 3]
  = (length (emitted tone 1 tone), [CODE_SUSTAIN 3] ++ emitted tone 1 tone)
  /\ (emitted tone 1 tone = [] <-> held tone tone = true /\ 1 <= 1).
Proof.
  apply (encode_appends_and_counts tone tone 1 [CODE_SUSTAIN 3]);
    vm_compute; intuition discriminate.
Defined.

(** X6.  Every WRITE_DELTA code the emitter writes has duration 1 and one
    of four flag patterns: volume alone, frequency alone, frequency and
    volume, or all three.  A control change is never written without the
    other two, and no WRITE_DELTA has all flags clear. *)
Theorem write_delta_patterns (next last : ChannelState) (d : Z)
    (c : AlphaCode) :
  wf_state next -> wf_state last ->
  c ∈ emitted next d last ->
  GET_CODE_TYPE c = tag WRITE_DELTA ->
  GET_CODE_WRITE_DURATION c = 1 /\
  (GET_CODE_WRITE_DELTA_MASKED c = CODE_WRITE_DELTA_001 \/
   GET_CODE_WRITE_DELTA_MASKED c = CODE_WRITE_DELTA_010 \/
   GET_CODE_WRITE_DELTA_MASKED c = CODE_WRITE_DELTA_011 \/
   GET_CODE_WRITE_DELTA_MASKED c = CODE_WRITE_DELTA_111).
Proof.
  intros Hn Hl Hin Hty.
  rewrite emitted_shape, sustains_durations in Hin.
  apply elem_of_app in Hin as [Hin|Hin].
  - destruct (leading_shape next last Hn Hl)
      as [[_ E]|[[_ E]|[_ (cc & cx & fc & fx & vc & vx & E & Hb)]]];
      rewrite E in Hin.
    + by apply elem_of_nil in Hin.
    + apply list_elem_of_singleton in Hin. subst c.
      rewrite type_PAUSE in Hty by lia. discriminate.
    + apply list_elem_of_singleton in Hin. subst c.
      destruct Hb as (Hcx & Hfx & Hvx & Hcc & Hany).
      destruct (write_delta_unpacks cc cx fc fx vc vx 1)
        as (_ & _ & _ & _ & _ & _ & _ & ->); [lia..|].
      split; [done|]. rewrite write_delta_mask_fields by lia.
      destruct cc, fc, vc; simpl; try tauto.
      * destruct Hany as [?|[?|?]]; discriminate.
      * destruct (Hcc eq_refl); discriminate.
      * destruct (Hcc eq_refl); discriminate.
      * destruct (Hcc eq_refl); discriminate.
  - apply list_elem_of_fmap in Hin as (x & -> & Hx).
    pose proof (durations_bounded (residual d)) as Hb.
    rewrite Forall_forall in Hb. specialize (Hb x Hx).
    rewrite type_SUSTAIN in Hty by lia. discriminate.
Qed.

Lemma write_delta_patterns_witness :
  GET_CODE_WRITE_DURATION (CODE_WRITE_DELTA CHANGE 4 CHANGE 10 CHANGE 8 1)
  = 1 /\
  (GET_CODE_WRITE_DELTA_MASKED (CODE_WRITE_DELTA CHANGE 4 CHANGE 10 CHANGE 8 1)
   = CODE_WRITE_DELTA_001 \/
   GET_CODE_WRITE_DELTA_MASKED (CODE_WRITE_DELTA CHANGE 4 CHANGE 10 CHANGE 8 1)
   = CODE_WRITE_DELTA_010 \/
   GET_CODE_WRITE_DELTA_MASKED (CODE_WRITE_DELTA CHANGE 4 CHANGE 10 CHANGE 8 1)
   = CODE_WRITE_DELTA_011 \/
   GET_CODE_WRITE_DELTA_MASKED (CODE_WRITE_DELTA CHANGE 4 CHANGE 10 CHANGE 8 1)
   = CODE_WRITE_DELTA_111).
Proof.
  apply (write_delta_patterns tone silent 3
           (CODE_WRITE_DELTA CHANGE 4 CHANGE 10 CHANGE 8 1)).
  - vm_compute. intuition discriminate.
  - vm_compute. intuition discriminate.
  - vm_compute. apply list_elem_of_here.
  - reflexivity.
Defined.

Lemma encode_intervals_spec (intervals : list Interval) :
  forall last out,
    encode_intervals intervals last out
    = out ++ interval_codes intervals last.
Proof.
  induction intervals as [|n rest IH]; intros last out; simpl.
  - by rewrite app_nil_r.
  - rewrite IH, encode_shape, <- emitted_shape. simpl.
    by rewrite app_assoc.
Qed.

Lemma emitted_regular (next last : ChannelState) (d : Z) :
  wf_state next -> wf_state last -> Forall regular (emitted next d last).
Proof.
  intros Hn Hl. rewrite emitted_shape, sustains_durations.
  apply Forall_app. split.
  - destruct (leading_shape next last Hn Hl)
      as [[_ ->]|[[_ ->]|[_ (cc & cx & fc & fx & vc & vx & -> & Hb)]]].
    + apply Forall_nil_2.
    + apply Forall_cons_2; [|apply Forall_nil_2].
      right. left. apply type_PAUSE. lia.
    + destruct Hb as (Hcx & Hfx & Hvx & _).
      apply Forall_cons_2; [|apply Forall_nil_2].
      left. apply type_WRITE_DELTA; lia.
  - apply Forall_fmap. eapply Forall_impl; [apply durations_bounded|].
    intros x Hx. simpl in Hx. right. right. apply type_SUSTAIN. lia.
Qed.

Lemma interval_codes_regular (intervals : list Interval) :
  forall last,
    wf_state last -> Forall (fun n => wf_state (state n)) intervals ->
    Forall regular (interval_codes intervals last).
Proof.
  induction intervals as [|n rest IH]; intros last Hl Hall; simpl.
  - constructor.
  - apply Forall_cons in Hall as [Hn Hall].
    apply Forall_app. split; [by apply emitted_regular|by apply IH].
Qed.

Lemma track_codes_shape (initialState : ChannelState)
    (intervals : list Interval) :
  wf_state initialState ->
  Forall (fun n => wf_state (state n)) intervals ->
  track_codes initialState intervals
  = interval_codes intervals initialState ++ [CODE_STOP] /\
  Forall regular (interval_codes intervals initialState).
Proof.
  intros Hi Hall. split.
  - unfold track_codes. by rewrite encode_intervals_spec.
  - by apply interval_codes_regular.
Qed.

(** X7.  The code sequence [writeTrackDataTIAZip] builds for a channel is
    a run of WRITE_DELTA, PAUSE and SUSTAIN codes closed by a single STOP:
    the form [compressCodeSequence] is given. *)
Theorem track_codes_well_formed (initialState : ChannelState)
    (intervals : list Interval) :
  wf_state initialState ->
  Forall (fun n => wf_state (state n)) intervals ->
  well_formed (track_codes initialState intervals).
Proof.
  intros Hi Hall. exists (interval_codes intervals initialState).
  by apply track_codes_shape.
Qed.

Lemma wf_tone : wf_state tone.
Proof. vm_compute. intuition discriminate. Qed.

Lemma wf_silent : wf_state silent.
Proof. vm_compute. intuition discriminate. Qed.

Lemma wf_jingle : Forall (fun n => wf_state (state n)) jingle.
Proof. repeat constructor; (apply wf_tone || apply wf_silent). Qed.

Lemma track_codes_well_formed_witness :
  well_formed (track_codes silent jingle).
Proof.
  apply (track_codes_well_formed silent jingle);
    [apply wf_silent|apply wf_jingle].
Defined.

(** X8.  A track lasts, by the durations of its codes, the frames of its
    intervals less one frame for every interval that repeats the state
    before it with the volume on. *)
Theorem track_frames (initialState : ChannelState)
    (intervals : list Interval) :
  wf_state initialState ->
  Forall (fun n => wf_state (state n)) intervals ->
  total_duration (track_codes initialState intervals)
  = interval_frames_sum intervals - held_intervals intervals initialState.
Proof.
  intros Hi Hall. unfold track_codes.
  rewrite encode_intervals_spec, app_nil_l, total_duration_app.
  change (total_duration [CODE_STOP]) with 0. rewrite Z.add_0_r.
  revert initialState Hi Hall.
  induction intervals as [|n rest IH]; intros last Hl Hall; [done|].
  apply Forall_cons in Hall as [Hn Hall].
  cbn [interval_codes interval_frames_sum held_intervals].
  rewrite total_duration_app, emitted_frames by done.
  rewrite IH by done. lia.
Qed.

Lemma track_frames_witness :
  total_duration (track_codes silent jingle)
  = interval_frames_sum jingle - held_intervals jingle silent.
Proof.
  apply (track_frames silent jingle); [apply wf_silent|apply wf_jingle].
Defined.

(** X9.  Emitter, compressor and validator together: the code sequence
    of any track of at most 8192 codes, whose data stream has at most 8192
    entries, is compressed into two streams that [validateCodeSequence]
    accepts and that replay to the track's codes. *)
Theorem track_round_trip
    (index : AlphaCode -> AlphaChar)
    (find_prior : nat -> list AlphaChar -> nat * nat)
    (subsong channel : Z) (initialState : ChannelState)
    (intervals : list Interval) (fuel : nat) :
  let codeSequence := track_codes initialState intervals in
  wf_state initialState ->
  Forall (fun n => wf_state (state n)) intervals ->
  sound_prior find_prior (alphaSequence index codeSequence) ->
  index_injective index codeSequence ->
  0 <= subsong < 256 -> 0 <= channel < 256 ->
  Z.of_nat (length codeSequence) <= 8192 ->
  Z.of_nat (data_size index find_prior subsong channel codeSequence)
  <= 8192 ->
  (2 * length codeSequence <= fuel)%nat ->
  exists data span,
    compressCodeSequence index find_prior subsong channel codeSequence fuel
    = Ok (data, span) /\
    validateCodeSequence codeSequence fuel data span = Ok () /\
    replay fuel data span = Ok codeSequence.
Proof.
  intros cs Hi Hall Hsound Hinj Hsub Hch Hn Hsize Hfuel.
  assert (Hwf : well_formed cs).
  { exists (interval_codes intervals initialState).
    by apply track_codes_shape. }
  destruct (pipeline index find_prior subsong channel cs
              Hsound Hinj Hsub Hch Hwf Hn Hsize fuel Hfuel)
    as (data & span & Hc & Hv).
  exists data, span. split; [done|]. split; [done|].
  by apply ReplayFacts.replay_of_validateCodeSequence.
Qed.

Lemma track_round_trip_witness :
  exists data span,
    compressCodeSequence Suffix.index Suffix.find_prior 0 0
      (track_codes silent jingle) 12
    = Ok (data, span) /\
    validateCodeSequence (track_codes silent jingle) 12 data span = Ok () /\
    replay 12 data span = Ok (track_codes silent jingle).
Proof.
  apply (track_round_trip Suffix.index Suffix.find_prior 0 0 silent jingle
           12).
  - apply wf_silent.
  - apply wf_jingle.
  - apply SuffixFacts.find_prior_sound.
  - intros a b _ _ H. exact H.
  - lia.
  - lia.
  - vm_compute. discriminate.
  - vm_compute. discriminate.
  - vm_compute. lia.
Defined.

End TrackFacts.

(** ** The code index: paths, prefix freedom, depth *)

Module IndexFacts.
Import Code Huffman HuffmanIndex HuffmanFacts.

Local Open Scope nat_scope.

Lemma buildIndex_loop_spec (fuel : nat) :
  forall stack index,
    stack_nodes stack < fuel ->
    buildIndex_loop fuel true stack index
    = Ok (foldl write_entry index (stack_paths stack)).
Proof.
  induction fuel as [|fuel IH]; intros stack index Hf; [lia|].
  destruct stack as [|[[c w|l r s] path] stack]; cbn [buildIndex_loop].
  - done.
  - rewrite IH by (simpl in Hf; lia). done.
  - rewrite IH by (simpl in *; lia).
    unfold stack_paths. rewrite !bind_cons. cbn [fst snd paths].
    by rewrite <- app_assoc.
Qed.

(** Under a root whose [parent] is not NULL the first leaf met ends the
    run. *)
Lemma buildIndex_loop_stray (fuel : nat) :
  forall stack index,
    stack <> [] ->
    stack_nodes stack <= fuel ->
    buildIndex_loop fuel false stack index = Undefined.
Proof.
  induction fuel as [|fuel IH]; intros stack index Hne Hf.
  - destruct stack as [|[[c w|l r s] path] stack]; [done|simpl in Hf; lia..].
  - destruct stack as [|[[c w|l r s] path] stack]; cbn [buildIndex_loop];
      [done|done|].
    apply IH; [done|]. simpl in *. lia.
Qed.

Lemma buildIndex_paths (t : HuffmanTree) :
  buildIndex t
  = if parent_null t then Ok (foldl write_entry ∅ (paths t []))
    else Undefined.
Proof.
  unfold buildIndex. destruct (parent_null t).
  - rewrite buildIndex_loop_spec by (simpl; lia).
    unfold stack_paths. rewrite bind_cons. simpl. by rewrite app_nil_r.
  - apply buildIndex_loop_stray; [done|]. simpl. lia.
Qed.

Lemma bits_of_cons (c : AlphaCode) (x : AlphaCode * list bool)
    (ps : list (AlphaCode * list bool)) :
  bits_of c (x :: ps)
  = (if decide (fst x = c) then snd x else []) ++ bits_of c ps.
Proof.
  unfold bits_of. rewrite filter_cons.
  destruct (decide (fst x = c)); done.
Qed.

Lemma bits_of_absent (c : AlphaCode) (ps : list (AlphaCode * list bool)) :
  c ∉ (fst <$> ps) -> bits_of c ps = [].
Proof.
  induction ps as [|x ps IH]; intros Hn; [done|].
  rewrite bits_of_cons. rewrite fmap_cons, not_elem_of_cons in Hn.
  destruct Hn as [Hx Hn]. rewrite decide_False by congruence.
  by apply IH.
Qed.

Lemma write_lookup (ps : list (AlphaCode * list bool)) :
  forall (index : code_index) (c : AlphaCode),
    foldl write_entry index ps !! c
    = if decide (c ∈ (fst <$> ps))
      then Some (default [] (index !! c) ++ bits_of c ps)
      else index !! c.
Proof.
  induction ps as [|[c' p] ps IH]; intros index c.
  - rewrite decide_False by (by intros ?%elem_of_nil). done.
  - cbn [foldl]. rewrite IH. unfold write_entry, writePath_into.
    rewrite bits_of_cons. cbn [fst snd]. rewrite fmap_cons. cbn [fst].
    destruct (decide (c' = c)) as [->|Hne].
    + rewrite lookup_insert_eq. cbn [default].
      rewrite (decide_True (P := c ∈ c :: _)) by apply list_elem_of_here.
      unfold id.
      destruct (decide (c ∈ (fst <$> ps))) as [Hin|Hnin].
      * by rewrite <- app_assoc.
      * rewrite bits_of_absent by done. by rewrite app_nil_r.
    + rewrite lookup_insert_ne by done. cbn [app].
      destruct (decide (c ∈ (fst <$> ps))) as [Hin|Hnin].
      * rewrite decide_True by (by apply list_elem_of_further). done.
      * rewrite decide_False; [done|].
        rewrite not_elem_of_cons. split; congruence.
Qed.

Lemma paths_codes (t : HuffmanTree) :
  forall path, fst <$> paths t path ≡ₚ leaf_codes t.
Proof.
  unfold leaf_codes.
  induction t as [c w|l IHl r IHr s]; intros path; [done|].
  cbn [paths leaves]. rewrite !fmap_app, IHl, IHr.
  apply Permutation_app_comm.
Qed.

Lemma bits_of_unique (ps : list (AlphaCode * list bool)) :
  forall c p,
    NoDup (fst <$> ps) -> (c, p) ∈ ps -> bits_of c ps = p.
Proof.
  induction ps as [|[c' p'] ps IH]; intros c p Hnd Hin.
  - by apply elem_of_nil in Hin.
  - rewrite fmap_cons in Hnd. apply NoDup_cons in Hnd as [Hc Hnd].
    rewrite bits_of_cons. cbn [fst snd] in *.
    apply elem_of_cons in Hin as [E|Hin].
    + injection E as -> ->. rewrite decide_True by done.
      rewrite bits_of_absent by done. apply app_nil_r.
    + rewrite decide_False.
      * by apply IH.
      * intros ->. apply Hc. apply list_elem_of_fmap. by exists (c, p).
Qed.

(** Every code of the index is the code of a leaf, with all the bits
    written for the leaves that carry it. *)
Lemma buildIndex_entries (t : HuffmanTree) :
  parent_null t = true ->
  exists index,
    buildIndex t = Ok index /\
    forall c,
      index !! c
      = if decide (c ∈ leaf_codes t)
        then Some (bits_of c (paths t [])) else None.
Proof.
  intros Hroot.
  exists (foldl write_entry ∅ (paths t [])). split.
  { rewrite buildIndex_paths, Hroot. done. }
  intros c. rewrite write_lookup, lookup_empty. cbn [default app].
  destruct (decide (c ∈ (fst <$> paths t []))) as [Hin|Hnin].
  - rewrite paths_codes in Hin. by rewrite decide_True.
  - rewrite paths_codes in Hnin. by rewrite decide_False.
Qed.

Lemma entry_path (t : HuffmanTree) (index : code_index) (c : AlphaCode)
    (p : list bool) :
  NoDup (leaf_codes t) ->
  buildIndex t = Ok index ->
  index !! c = Some p <-> (c, p) ∈ paths t [].
Proof.
  intros Hnd Hb.
  assert (Hroot : parent_null t = true).
  { rewrite buildIndex_paths in Hb. by destruct (parent_null t). }
  destruct (buildIndex_entries t Hroot) as (index' & Hb' & Hl).
  rewrite Hb in Hb'. injection Hb' as <-. rewrite Hl.
  assert (Hnd' : NoDup (fst <$> paths t [])) by (by rewrite paths_codes).
  destruct (decide (c ∈ leaf_codes t)) as [Hin|Hnin].
  - rewrite <- (paths_codes t []) in Hin.
    apply list_elem_of_fmap in Hin as ([c' p'] & E & Hin). cbn in E. subst c'.
    rewrite (bits_of_unique _ _ _ Hnd' Hin). split.
    + intros [= <-]. done.
    + intros Hin'. f_equal.
      rewrite <- (bits_of_unique _ _ _ Hnd' Hin').
      by rewrite (bits_of_unique _ _ _ Hnd' Hin).
  - split; [done|]. intros Hin. destruct Hnin.
    rewrite <- (paths_codes t []). apply list_elem_of_fmap. by exists (c, p).
Qed.

(** The walk along the bits written for a leaf, taken from the last to the
    first, ends at that leaf. *)
Lemma decode_paths (t : HuffmanTree) :
  forall path c p,
    (c, p) ∈ paths t path ->
    exists q,
      p = q ++ path /\
      forall bits n,
        (forall i b, rev q !! i = Some b -> bits (n + i) = b) ->
        decode t bits n = (c, n + length q).
Proof.
  induction t as [c' w|l IHl r IHr s]; intros path c p Hin.
  - cbn [paths] in Hin. apply list_elem_of_singleton in Hin.
    injection Hin as -> ->. exists []. split; [done|].
    intros bits n _. cbn. f_equal. lia.
  - cbn [paths] in Hin. apply elem_of_app in Hin as [Hin|Hin].
    + destruct (IHr _ _ _ Hin) as (q & -> & Hq).
      exists (q ++ [false]). split; [by rewrite <- app_assoc|].
      intros bits n Hb. cbn [decode].
      rewrite rev_app_distr in Hb. cbn [rev app] in Hb.
      pose proof (Hb 0 false eq_refl) as H0. rewrite Nat.add_0_r in H0.
      rewrite H0, length_app. cbn [length].
      rewrite (Hq bits (S n)); [f_equal; lia|].
      intros i b Hi. replace (S n + i) with (n + S i) by lia.
      by apply Hb.
    + destruct (IHl _ _ _ Hin) as (q & -> & Hq).
      exists (q ++ [true]). split; [by rewrite <- app_assoc|].
      intros bits n Hb. cbn [decode].
      rewrite rev_app_distr in Hb. cbn [rev app] in Hb.
      pose proof (Hb 0 true eq_refl) as H0. rewrite Nat.add_0_r in H0.
      rewrite H0, length_app. cbn [length].
      rewrite (Hq bits (S n)); [f_equal; lia|].
      intros i b Hi. replace (S n + i) with (n + S i) by lia.
      by apply Hb.
Qed.

(** X10.  On a tree whose leaves carry different codes and whose root
    has NULL in its [parent] (a single leaf, or an inner node that found
    NULL there), [buildIndex] ends with an index that has an entry for the
    codes of the leaves and no others; the bits of an entry, taken from
    the last to the first (as the exporter writes them), lead [decode]
    from the root to the leaf with that code when its calls of [readBit]
    return them, after as many calls as the entry has bits.  On a tree
    whose root has something else in its [parent], [buildIndex] has no
    defined outcome: [writePath] follows that pointer. *)
Theorem index_decodes (t : HuffmanTree) :
  NoDup (leaf_codes t) ->
  if parent_null t then
    exists index,
      buildIndex t = Ok index /\
      (forall c, is_Some (index !! c) <-> c ∈ leaf_codes t) /\
      forall c p bits n,
        index !! c = Some p ->
        (forall i, i < length p -> bits (n + i) = written p i) ->
        decode t bits n = (c, n + length p)
  else buildIndex t = Undefined.
Proof.
  intros Hnd.
  destruct (parent_null t) eqn:Hroot.
  2:{ rewrite buildIndex_paths, Hroot. done. }
  destruct (buildIndex_entries t Hroot) as (index & Hb & Hl).
  exists index. split; [done|]. split.
  - intros c. rewrite Hl. destruct (decide (c ∈ leaf_codes t)).
    + split; [done|]. intros _. by eexists.
    + split; [by intros [? ?]|done].
  - intros c p bits n Hp Hbits.
    apply (entry_path t index c p Hnd Hb) in Hp.
    destruct (decode_paths t [] c p Hp) as (q & E & Hq).
    rewrite app_nil_r in E. subst q. apply Hq.
    intros i b Hi. rewrite Hbits.
    + unfold written. by rewrite Hi.
    + apply lookup_lt_Some in Hi. by rewrite length_rev in Hi.
Qed.

Lemma two_leaves_NoDup : NoDup (leaf_codes two_leaves).
Proof.
  apply NoDup_cons_2; [|apply NoDup_singleton].
  rewrite list_elem_of_singleton. discriminate.
Qed.

Lemma two_leaves_index :
  buildIndex two_leaves
  = Ok (two_index).
Proof. reflexivity. Qed.

Lemma index_decodes_witness :
  NoDup (leaf_codes two_leaves) /\
  exists index,
    buildIndex two_leaves = Ok index /\
    (forall c, is_Some (index !! c)
               <-> c ∈ leaf_codes two_leaves) /\
    forall c p bits n,
      index !! c = Some p ->
      (forall i, i < length p -> bits (n + i) = written p i) ->
      decode two_leaves bits n = (c, n + length p).
Proof.
  split; [exact two_leaves_NoDup|].
  exact (index_decodes two_leaves two_leaves_NoDup).
Defined.

(** X11.  With different codes at the leaves, no code's bits, in the order
    they are written, begin another code's bits: when [buildIndex] ends
    with an index (the root then has NULL in its [parent]) and the bits of
    one entry, last to first, are the first bits of another entry's, the
    two entries belong to the same code. *)
Theorem index_prefix_free (t : HuffmanTree) (index : code_index)
    (c1 c2 : AlphaCode) (p1 p2 : list bool) :
  NoDup (leaf_codes t) ->
  buildIndex t = Ok index ->
  index !! c1 = Some p1 ->
  index !! c2 = Some p2 ->
  rev p1 `prefix_of` rev p2 ->
  c1 = c2.
Proof.
  intros Hnd Hb H1 H2 [k Hk].
  apply (entry_path t index c1 p1 Hnd Hb) in H1.
  apply (entry_path t index c2 p2 Hnd Hb) in H2.
  destruct (decode_paths t [] c1 p1 H1) as (q1 & E1 & Hq1).
  destruct (decode_paths t [] c2 p2 H2) as (q2 & E2 & Hq2).
  rewrite app_nil_r in E1, E2. subst q1 q2.
  assert (D2 : decode t (written p2) 0 = (c2, 0 + length p2)).
  { apply Hq2. intros i b Hi. unfold written. cbn [Nat.add].
    by rewrite Hi. }
  assert (D1 : decode t (written p2) 0 = (c1, 0 + length p1)).
  { apply Hq1. intros i b Hi. unfold written. cbn [Nat.add]. rewrite Hk.
    by rewrite (lookup_app_l_Some _ _ _ _ Hi). }
  congruence.
Qed.

Lemma index_prefix_free_witness :
  rev [false] `prefix_of` rev [false] /\ 7%Z = 7%Z.
Proof.
  assert (Hp : rev [false] `prefix_of` rev [false]) by (by exists []).
  split; [exact Hp|].
  exact (index_prefix_free two_leaves _ 7 7
           [false] [false] two_leaves_NoDup two_leaves_index
           eq_refl eq_refl Hp).
Defined.

Lemma paths_length (t : HuffmanTree) :
  forall path c p,
    (c, p) ∈ paths t path -> length p <= depth t + length path.
Proof.
  induction t as [c' w|l IHl r IHr s]; intros path c p Hin.
  - cbn [paths] in Hin. apply list_elem_of_singleton in Hin.
    injection Hin as -> ->. cbn. lia.
  - cbn [paths] in Hin. cbn [depth].
    apply elem_of_app in Hin as [Hin|Hin].
    + apply IHr in Hin. cbn [length] in Hin.
      destruct (Nat.ltb_spec (depth r) (depth l)); lia.
    + apply IHl in Hin. cbn [length] in Hin.
      destruct (Nat.ltb_spec (depth r) (depth l)); lia.
Qed.

Lemma paths_deepest (t : HuffmanTree) :
  forall path,
    exists c p, (c, p) ∈ paths t path /\ length p = depth t + length path.
Proof.
  induction t as [c' w|l IHl r IHr s]; intros path.
  - exists c', path. split; [apply list_elem_of_here|done].
  - cbn [paths depth].
    destruct (Nat.ltb_spec (depth r) (depth l)).
    + destruct (IHl (true :: path)) as (c & p & Hin & Hl).
      exists c, p. split; [apply elem_of_app; by right|].
      cbn [length] in Hl. lia.
    + destruct (IHr (false :: path)) as (c & p & Hin & Hl).
      exists c, p. split; [apply elem_of_app; by left|].
      cbn [length] in Hl. lia.
Qed.

(** X12.  With different codes at the leaves, when [buildIndex] ends with
    an index (the root then has NULL in its [parent]), the [depth] of the
    root is the length of the longest entry of the index: no entry has
    more bits, and some entry has exactly that many. *)
Theorem index_depth (t : HuffmanTree) (index : code_index) :
  NoDup (leaf_codes t) ->
  buildIndex t = Ok index ->
  (forall c p, index !! c = Some p -> length p <= depth t) /\
  exists c p, index !! c = Some p /\ length p = depth t.
Proof.
  intros Hnd Hb. split.
  - intros c p Hp. apply (entry_path t index c p Hnd Hb) in Hp.
    apply paths_length in Hp. cbn [length] in Hp. lia.
  - destruct (paths_deepest t []) as (c & p & Hin & Hl).
    exists c, p. split.
    + by apply (entry_path t index c p Hnd Hb).
    + cbn [length] in Hl. lia.
Qed.

Lemma index_depth_witness :
  (forall c p, two_index !! c = Some p
               -> length p <= depth two_leaves) /\
  exists c p, two_index !! c = Some p /\
              length p = depth two_leaves.
Proof.
  exact (index_depth two_leaves _
           two_leaves_NoDup two_leaves_index).
Defined.

End IndexFacts.
(** ** The tree [buildHuffmanTree] returns, and its index *)

Module TreeFacts.
Import Code Huffman HuffmanIndex HuffmanFacts IndexFacts.

Local Open Scope nat_scope.

(** No leaf is made exactly when the map is empty, or nothing may stay on
    the heap and nothing weighs. *)
Lemma no_leaf_iff (fm kept rest : frequencies) (limit : nat)
    (literal : AlphaCode) :
  repeated fm ≡ₚ kept ++ rest ->
  length kept = Nat.min limit (length (repeated fm)) ->
  let lw := length (once fm) + total rest in
  length (kept ++ (if 0 <? lw then [(literal, lw)] else [])) = 0
  <-> fm = [] \/ (limit = 0 /\ total fm = 0).
Proof.
  intros Hp Hl lw. rewrite length_app. split.
  - intros Hz.
    assert (Hk : kept = []) by (destruct kept; [done|simpl in Hz; lia]).
    assert (Hw : lw = 0).
    { destruct (Nat.ltb_spec 0 lw); [simpl in Hz; lia|lia]. }
    subst kept. cbn [length app] in *. unfold lw in Hw.
    assert (Ho : once fm = []) by (destruct (once fm); [done|simpl in Hw; lia]).
    destruct (decide (length (repeated fm) = 0)) as [Hz'|Hnz].
    + left. pose proof (split_once fm) as Hs. rewrite Ho in Hs.
      destruct (repeated fm); [|done].
      by apply Permutation_nil_r in Hs.
    + right. split; [lia|]. rewrite (total_split fm), (total_perm _ _ Hp), Ho.
      simpl. lia.
  - intros Hcase.
    assert (Hk : kept = [] /\ lw = 0).
    { unfold lw. destruct Hcase as [->|[-> Hz]].
      - cbn in Hp, Hl. apply Permutation_nil_l in Hp.
        symmetry in Hp. apply app_eq_nil in Hp as [-> ->]. done.
      - split; [destruct kept; [done|simpl in Hl; lia]|].
        rewrite (total_split fm), (total_perm _ _ Hp), total_app in Hz. lia. }
    destruct Hk as [-> ->]. done.
Qed.

(** X13.  Whatever the queue hands out among elements the comparison does
    not tell apart, and whatever the inner nodes find in their [parent]:
    [buildHuffmanTree] ends in the [top()] of an empty heap, whose value
    is undefined, exactly when the frequency map is empty or when [limit]
    is 0 and no code has any weight; it never runs on. *)
Theorem build_undefined_iff (pop : queue) (stray_of : nat -> bool)
    (fm : frequencies) (limit : nat) (literal : AlphaCode) :
  queue_order pop ->
  (buildHuffmanTree pop stray_of fm limit literal = Undefined
   <-> fm = [] \/ (limit = 0 /\ total fm = 0)) /\
  buildHuffmanTree pop stray_of fm limit literal <> Timeout.
Proof.
  intros Hpop.
  destruct (build_outcome pop stray_of Hpop fm limit literal)
    as (kept & rest & Hp & Hl & Hout).
  pose proof (no_leaf_iff fm kept rest limit literal Hp Hl) as Hz.
  cbv zeta in Hout, Hz.
  destruct (buildHuffmanTree pop stray_of fm limit literal) as [t| | |].
  - destruct Hout as (Hne & _). split; [|done].
    split; [done|]. intros Hc. by apply Hz in Hc.
  - split; [|done]. split; [done|]. intros Hc. apply Hz in Hc.
    rewrite Hc in Hout. discriminate.
  - split; [|done]. split; [intros _|done]. by apply Hz.
  - done.
Qed.

Lemma build_undefined_iff_witness :
  (buildHuffmanTree extract_top dirty three_codes 128 99%Z = Undefined
   <-> three_codes = [] \/ (128 = 0 /\ total three_codes = 0)) /\
  buildHuffmanTree extract_top dirty three_codes 128 99%Z <> Timeout.
Proof.
  exact (build_undefined_iff extract_top dirty three_codes 128 99%Z
           extract_top_order).
Defined.

(** X14.  Whatever the queue hands out among elements the comparison does
    not tell apart, a tree that [buildHuffmanTree] returns weighs as much
    as the whole frequency map, has at most [limit + 1] leaves, and its
    [depth] is at most [limit]. *)
Theorem build_weight (pop : queue) (stray_of : nat -> bool)
    (fm : frequencies) (limit : nat) (literal : AlphaCode)
    (t : HuffmanTree) :
  queue_order pop ->
  buildHuffmanTree pop stray_of fm limit literal = Ok t ->
  weight t = total fm /\
  length (leaves t) <= limit + 1 /\
  depth t <= limit.
Proof.
  intros Hpop Hb.
  destruct (build_outcome pop stray_of Hpop fm limit literal)
    as (kept & rest & Hp & Hl & Hout).
  rewrite Hb in Hout. cbv zeta in Hout. destruct Hout as (_ & _ & Hlv & _).
  assert (Hn : length (leaves t) <= limit + 1).
  { rewrite (Permutation_length Hlv), length_app, Hl.
    destruct (0 <? _); simpl; lia. }
  split; [|split; [done|pose proof (depth_leaves t); lia]].
  rewrite <- leaves_weight, (total_perm _ _ Hlv), total_app.
  rewrite (total_split fm), (total_perm _ _ Hp), total_app.
  destruct (Nat.ltb_spec 0 (length (once fm) + total rest)); simpl; lia.
Qed.

Lemma build_weight_witness :
  weight two_leaves = total two_codes /\
  length (leaves two_leaves) <= 128 + 1 /\
  depth two_leaves <= 128.
Proof.
  exact (build_weight extract_top clean two_codes 128 99%Z two_leaves
           extract_top_order eq_refl).
Defined.

Lemma key_unique (l : frequencies) :
  forall c a b, NoDup (fst <$> l) -> (c, a) ∈ l -> (c, b) ∈ l -> a = b.
Proof.
  induction l as [|[c' n] l IH]; intros c a b Hnd Ha Hb.
  - by apply elem_of_nil in Ha.
  - rewrite fmap_cons in Hnd. apply NoDup_cons in Hnd as [Hc Hnd].
    cbn [fst] in Hc.
    assert (Hin : forall x, (c', x) ∈ l -> False).
    { intros x Hx. apply Hc. apply list_elem_of_fmap. by exists (c', x). }
    apply elem_of_cons in Ha as [Ea|Ha], Hb as [Eb|Hb].
    + congruence.
    + injection Ea as -> ->. by destruct (Hin b).
    + injection Eb as -> ->. by destruct (Hin a).
    + by apply (IH c).
Qed.

Lemma total_elem (l : frequencies) (p : AlphaCode * nat) :
  p ∈ l -> snd p <= total l.
Proof.
  induction l as [|q l IH]; intros Hp.
  - by apply elem_of_nil in Hp.
  - apply elem_of_cons in Hp as [->|Hp]; simpl; [lia|].
    apply IH in Hp. lia.
Qed.

(** X15.  For a frequency map with different keys, none of them the
    literal and each seen at least once, whatever the queue hands out
    among elements the comparison does not tell apart: when the inner
    nodes made (fewer than [limit + 1]) all find NULL in their [parent],
    [buildHuffmanTree] and then [buildIndex] give an index in which a code
    seen exactly once has no entry, every code of the map has an entry of
    its own or else the literal has one (the exporter's fallback), every
    code seen more than once has its own entry when at most [limit] codes
    are, and no entry has more than [limit] bits. *)
Theorem build_index_covers (pop : queue) (stray_of : nat -> bool)
    (fm : frequencies) (limit : nat) (literal : AlphaCode) :
  queue_order pop ->
  (forall k, k < limit -> stray_of k = false) ->
  NoDup (fst <$> fm) ->
  literal ∉ (fst <$> fm) ->
  (forall p, p ∈ fm -> 1 <= snd p) ->
  fm <> [] ->
  exists t index,
    buildHuffmanTree pop stray_of fm limit literal = Ok t /\
    buildIndex t = Ok index /\
    (forall c, (c, 1) ∈ fm -> index !! c = None) /\
    (forall c n, (c, n) ∈ fm ->
       is_Some (index !! c) \/ is_Some (index !! literal)) /\
    (length (repeated fm) <= limit ->
     forall c n, (c, n) ∈ fm -> n <> 1 -> is_Some (index !! c)) /\
    (forall c p, index !! c = Some p -> length p <= limit).
Proof.
  intros Hpop Hclean Hnd Hlit Hpos Hne.
  pose proof (split_once fm) as Hs.
  destruct (build_outcome pop stray_of Hpop fm limit literal)
    as (kept & rest & Hp & Hl & Hout).
  pose proof (no_leaf_iff fm kept rest limit literal Hp Hl) as Hz.
  cbv zeta in Hout, Hz.
  set (lw := length (once fm) + total rest) in *.
  set (lit := if 0 <? lw then [(literal, lw)] else []) in *.
  assert (Hh : length (kept ++ lit) <= limit + 1).
  { rewrite length_app, Hl. unfold lit. destruct (0 <? lw); simpl; lia. }
  assert (Hh0 : length (kept ++ lit) <> 0).
  { intros Hc. apply Hz in Hc as [->|[-> Hc]]; [done|].
    destruct fm as [|p fm']; [done|].
    pose proof (Hpos p (list_elem_of_here _ _)) as H1.
    pose proof (total_elem (p :: fm') p (list_elem_of_here _ _)). lia. }
  assert (Hst : strays stray_of (length (kept ++ lit)) = false).
  { apply strays_spec. intros j Hj. apply Hclean. lia. }
  destruct (buildHuffmanTree pop stray_of fm limit literal) as [t| | |];
    [|congruence|done|done].
  destruct Hout as (_ & _ & Hlv & Hroot).
  assert (Hroot' : parent_null t = true).
  { rewrite Hroot. destruct (Nat.ltb_spec (length (kept ++ lit)) 2); [done|].
    rewrite Hclean by lia. done. }
  unfold lit in Hlv.
  assert (Hfm : fm ≡ₚ kept ++ rest ++ once fm).
  { rewrite app_assoc, <- Hp. done. }
  assert (Hcodes : forall c,
            c ∈ leaf_codes t <-> c ∈ (fst <$> kept) \/ (0 < lw /\ c = literal)).
  { intros c. unfold leaf_codes. rewrite Hlv, fmap_app, elem_of_app.
    destruct (Nat.ltb_spec 0 lw) as [Hz'|Hz'].
    - cbn. rewrite list_elem_of_singleton. intuition.
    - cbn. rewrite elem_of_nil. intuition lia. }
  assert (Hkept : forall c n, (c, n) ∈ kept -> (c, n) ∈ fm /\ n <> 1).
  { intros c n Hin.
    assert (Hr : (c, n) ∈ repeated fm).
    { rewrite Hp. apply elem_of_app. by left. }
    unfold repeated in Hr. apply list_elem_of_filter in Hr as [Hn Hr].
    done. }
  assert (Hnd' : NoDup (leaf_codes t)).
  { unfold leaf_codes. rewrite Hlv, fmap_app.
    rewrite Hfm, fmap_app in Hnd. apply NoDup_app in Hnd as (Hk & _ & _).
    apply NoDup_app. split; [done|]. split.
    - intros c Hc Hc'. apply list_elem_of_fmap in Hc as ([c' n] & -> & Hc).
      destruct (0 <? lw); [|by apply elem_of_nil in Hc'].
      cbn in Hc'. apply list_elem_of_singleton in Hc'. cbn in Hc'. subst c'.
      apply Hlit. apply list_elem_of_fmap. exists (literal, n).
      split; [done|]. by apply Hkept.
    - destruct (0 <? lw); [apply NoDup_singleton|apply NoDup_nil_2]. }
  destruct (buildIndex_entries t Hroot') as (index & Hb & Hix).
  exists t, index. split; [done|]. split; [done|].
  assert (Hsome : forall c, c ∈ leaf_codes t -> is_Some (index !! c)).
  { intros c Hc. rewrite Hix, decide_True by done. by eexists. }
  split; [|split; [|split]].
  - intros c Hc. rewrite Hix. apply decide_False. intros Hin.
    apply Hcodes in Hin as [Hin|[_ ->]].
    + apply list_elem_of_fmap in Hin as ([c' n] & -> & Hin).
      apply Hkept in Hin as [Hin Hn]. cbn [fst] in Hc.
      by rewrite (key_unique fm c' n 1 Hnd Hin Hc) in Hn.
    + apply Hlit. apply list_elem_of_fmap. by exists (literal, 1).
  - intros c n Hc.
    destruct (decide (c ∈ leaf_codes t)) as [Hin|Hnin]; [left; by apply Hsome|].
    right. apply Hsome, Hcodes. right. split; [|done].
    pose proof (Hpos _ Hc) as H1. cbn [snd] in H1.
    rewrite Hfm in Hc. rewrite !elem_of_app in Hc.
    destruct Hc as [Hc|[Hc|Hc]].
    + destruct Hnin. apply Hcodes. left. apply list_elem_of_fmap.
      by exists (c, n).
    + apply total_elem in Hc. cbn [snd] in Hc. unfold lw. lia.
    + unfold lw. destruct (once fm); [by apply elem_of_nil in Hc|].
      simpl. lia.
  - intros Hle c n Hc Hn.
    assert (Hrest : rest = []).
    { apply Permutation_length in Hp. rewrite length_app in Hp.
      destruct rest; [done|]. simpl in Hp. lia. }
    subst rest. rewrite app_nil_r in Hp.
    apply Hsome, Hcodes. left. apply list_elem_of_fmap. exists (c, n).
    split; [done|]. rewrite <- Hp. unfold repeated.
    apply list_elem_of_filter. done.
  - intros c p Hc. apply (entry_path t index c p Hnd' Hb) in Hc.
    apply paths_length in Hc. cbn [length] in Hc.
    pose proof (depth_leaves t) as Hd.
    assert (Hn : length (leaves t) <= limit + 1).
    { rewrite (Permutation_length Hlv), length_app, Hl.
      destruct (0 <? _); simpl; lia. }
    lia.
Qed.

Lemma two_codes_keys : NoDup (fst <$> two_codes) /\ 99%Z ∉ (fst <$> two_codes).
Proof.
  split.
  - apply NoDup_cons_2; [|apply NoDup_singleton].
    rewrite list_elem_of_singleton. discriminate.
  - cbn. rewrite !not_elem_of_cons. repeat split; try discriminate.
    apply not_elem_of_nil.
Qed.

Lemma two_codes_counts : forall p, p ∈ two_codes -> 1 <= snd p.
Proof.
  intros p Hp. unfold two_codes in Hp.
  rewrite !elem_of_cons in Hp. destruct Hp as [->|[->|Hp]]; simpl; try lia.
  by apply elem_of_nil in Hp.
Qed.

Lemma build_index_covers_witness :
  exists t index,
    buildHuffmanTree extract_top clean two_codes 128 99%Z = Ok t /\
    buildIndex t = Ok index /\
    (forall c, (c, 1) ∈ two_codes -> index !! c = None) /\
    (forall c n, (c, n) ∈ two_codes ->
       is_Some (index !! c) \/ is_Some (index !! 99%Z)) /\
    (length (repeated two_codes) <= 128 ->
     forall c n, (c, n) ∈ two_codes -> n <> 1 -> is_Some (index !! c)) /\
    (forall c p, index !! c = Some p -> length p <= 128).
Proof.
  apply (build_index_covers extract_top clean two_codes 128 99%Z).
  - exact extract_top_order.
  - reflexivity.
  - exact (proj1 two_codes_keys).
  - exact (proj2 two_codes_keys).
  - exact two_codes_counts.
  - discriminate.
Defined.

End TreeFacts.

(** ** The bit stream as the exporter uses it *)

Module BitstreamFacts.
Import Code Bits Huffman HuffmanIndex Stream BitsFacts HuffmanFacts IndexFacts.

Local Open Scope nat_scope.

Lemma bytesUsed_ceil (bs : Bitstream) :
  8 * bytesUsed bs < endPos bs + 8 /\ endPos bs <= 8 * bytesUsed bs.
Proof.
  unfold bytesUsed.
  pose proof (Nat.div_mod_eq (endPos bs) 8) as Hd.
  pose proof (Nat.mod_upper_bound (endPos bs) 8) as Hm.
  destruct (Nat.ltb_spec 0 (endPos bs mod 8)); lia.
Qed.

Lemma aligned_within (k : nat) : (8 * k) mod 64 + 8 <= 64.
Proof.
  pose proof (Nat.div_mod_eq (8 * k) 64) as Hd.
  pose proof (Nat.mod_upper_bound (8 * k) 64) as Hm.
  pose proof (Nat.div_mod_eq ((8 * k) mod 64) 8) as Hd'.
  pose proof (Nat.mod_upper_bound ((8 * k) mod 64) 8) as Hm'.
  assert (H0 : ((8 * k) mod 64) mod 8 = 0).
  { symmetry.
    apply (Nat.mod_unique _ _ (k - 8 * ((8 * k) / 64))); lia. }
  lia.
Qed.

Lemma byte_at_seek (bs : Bitstream) (i p : nat) :
  byte_at (seek i bs) p = byte_at bs p.
Proof. reflexivity. Qed.

(** The loop from a cursor at a multiple of 8. *)
Lemma dump_loop_spec (bs : Bitstream) (fuel : nat) :
  forall (k : nat) (out : list Z),
    bytesUsed bs - k < fuel ->
    k <= bytesUsed bs ->
    dump_loop fuel (seek (8 * k) bs) out
    = Ok (out ++ ((fun i => byte_at bs (8 * i)) <$> seq k (bytesUsed bs - k)),
          seek (8 * bytesUsed bs) bs).
Proof.
  pose proof (bytesUsed_ceil bs) as [Hlo Hhi].
  induction fuel as [|fuel IH]; intros k out Hf Hk; [lia|].
  cbn [dump_loop]. unfold hasBits. cbn [seek pos endPos].
  destruct (Nat.ltb_spec (8 * k) (endPos bs)) as [Hlt|Hge].
  - rewrite readByte_within by (cbn [seek pos]; apply aligned_within).
    cbn [seek pos buffer capacity endPos].
    replace (8 * k + 8) with (8 * S k) by lia.
    change (mkBitstream (buffer bs) (capacity bs) (8 * S k) (endPos bs))
      with (seek (8 * S k) bs).
    rewrite IH by lia. rewrite byte_at_seek.
    replace (bytesUsed bs - k) with (S (bytesUsed bs - S k)) by lia.
    cbn [seq fmap list_fmap]. by rewrite <- app_assoc.
  - replace k with (bytesUsed bs) by lia.
    rewrite Nat.sub_diag. cbn [seq fmap list_fmap]. by rewrite app_nil_r.
Qed.

(** X16.  The loop that lists a stream reads from position 0 in steps of 8
    and stops after [bytesUsed()] bytes, the least number of bytes that
    holds [endPos] bits; since no read of it crosses a word, every byte is
    the eight bits of the stream at its position, the first bit least
    significant. *)
Theorem dump_bytes (bs : Bitstream) :
  dump bs
  = Ok ((fun i => byte_at bs (8 * i)) <$> seq 0 (bytesUsed bs),
        seek (8 * bytesUsed bs) bs) /\
  8 * bytesUsed bs < endPos bs + 8 /\
  endPos bs <= 8 * bytesUsed bs.
Proof.
  split; [|apply bytesUsed_ceil].
  unfold dump. pose proof (bytesUsed_ceil bs) as [Hlo Hhi].
  change (seek 0 bs) with (seek (8 * 0) bs).
  assert (Hs : seek (8 * 0) (seek (8 * 0) bs) = seek (8 * 0) bs) by done.
  rewrite (dump_loop_spec bs (S (endPos bs)) 0 []) by lia.
  by rewrite Nat.sub_0_r.
Qed.

Local Open Scope Z_scope.

Lemma high_mask_bits (i : Z) :
  0 <= i < 64 ->
  Z.testbit 0xFFFFFFFF80000000 i = (31 <=? i).
Proof.
  intros Hi. change 0xFFFFFFFF80000000 with (Z.shiftl (Z.ones 33) 31).
  rewrite Z.shiftl_spec by lia.
  destruct (Z.leb_spec 31 i).
  - apply Z.ones_spec_low. lia.
  - apply Z.testbit_neg_r. lia.
Qed.

Lemma low_mask_bits (i : Z) :
  0 <= i ->
  Z.testbit (u64 (Z.lnot 0xFFFFFFFF80000000)) i = (i <? 31).
Proof.
  intros Hi. change (u64 (Z.lnot 0xFFFFFFFF80000000)) with (Z.ones 31).
  destruct (Z.ltb_spec i 31).
  - apply Z.ones_spec_low. lia.
  - apply Z.ones_spec_high. lia.
Qed.

(** X17.  On bit 31 of a word [writeBit] writes bits 31 to 63 of that word
    together, all set or all cleared: the mask [1 << 31] is an [int] and
    widens with its sign.  The call after it, on bit 32, shifts by the
    width of [int] and has no defined result (or stops at the assertion,
    when the capacity ends there). *)
Theorem writeBit_bit31 (bit : bool) (bs : Bitstream) :
  (pos bs < capacity bs)%nat -> (pos bs mod 64 = 31)%nat -> wf_stream bs ->
  exists bs',
    writeBit bit bs = Ok bs' /\
    pos bs' = S (pos bs) /\
    (forall j, stream_bit bs' j
               = if ((pos bs <=? j) && (j <? pos bs + 33))%nat then bit
                 else stream_bit bs j) /\
    forall b, writeBit b bs'
              = if (S (pos bs) <? capacity bs)%nat then Undefined else Abort.
Proof.
  intros Hcap Hs Hwf. unfold writeBit at 1.
  destruct (Nat.ltb_spec (pos bs) (capacity bs)) as [_|]; [|lia].
  rewrite Hs. change (int_mask 31) with (Ok (A := Z) 0xFFFFFFFF80000000).
  cbn [negb mbind res_bind].
  eexists. split; [reflexivity|]. split; [done|]. split.
  - intros j. unfold stream_bit, word. cbn [buffer].
    destruct (pos_split j) as [Hj Hjm]. destruct (pos_split (pos bs)) as [Hp _].
    unfold wf_stream in Hwf.
    destruct (Nat.eq_dec (j / 64)%nat (pos bs / 64)%nat) as [Ha|Ha].
    + rewrite Ha, list_lookup_total_insert_eq by lia.
      assert (Hr : ((pos bs <=? j) && (j <? pos bs + 33))%nat
                   = (31 <=? Z.of_nat (j mod 64))).
      { destruct (Nat.leb_spec (pos bs) j), (Nat.ltb_spec j (pos bs + 33)%nat),
          (Z.leb_spec 31 (Z.of_nat (j mod 64))); simpl; (done || lia). }
      rewrite Hr. destruct bit.
      * rewrite Z.lor_spec, high_mask_bits by lia.
        destruct (31 <=? Z.of_nat (j mod 64)); [apply orb_true_r|apply orb_false_r].
      * rewrite Z.land_spec, low_mask_bits, Z.ltb_antisym by lia.
        destruct (31 <=? Z.of_nat (j mod 64)); cbn [negb];
          [apply andb_false_r|apply andb_true_r].
    + rewrite list_lookup_total_insert_ne by done.
      replace ((pos bs <=? j) && (j <? pos bs + 33))%nat with false; [done|].
      symmetry.
      destruct (Nat.leb_spec (pos bs) j), (Nat.ltb_spec j (pos bs + 33)%nat);
        simpl; try done.
      exfalso. apply Ha.
      apply (Nat.div_unique _ _ _ (j - 64 * (pos bs / 64))); lia.
  - intros b. unfold writeBit. cbn [pos capacity].
    destruct (Nat.ltb_spec (S (pos bs)) (capacity bs)) as [Hlt|Hge];
      cbn [negb]; [|done].
    assert (Hm : (S (pos bs) mod 64 = 32)%nat).
    { destruct (pos_split (pos bs)) as [Hp _]. symmetry.
      apply (Nat.mod_unique _ _ (pos bs / 64)); lia. }
    rewrite Hm. change (int_mask 32) with (Undefined (A := Z)). reflexivity.
Qed.

Lemma writeBit_bit31_witness :
  exists bs',
    writeBit true at31 = Ok bs' /\
    pos bs' = 32%nat /\
    (forall j, stream_bit bs' j
               = if ((31 <=? j) && (j <? 31 + 33))%nat then true
                 else stream_bit at31 j) /\
    forall b, writeBit b bs'
              = if (32 <? 64)%nat then Undefined else Abort.
Proof.
  apply (writeBit_bit31 true at31).
  - simpl. lia.
  - reflexivity.
  - unfold wf_stream. simpl. lia.
Defined.

Local Open Scope nat_scope.

(** Bits written in a row, all masks well defined. *)
Lemma writeBit_each_spec (bits : list bool) :
  forall bs : Bitstream,
    pos bs mod 64 + length bits <= 31 ->
    pos bs + length bits <= capacity bs ->
    wf_stream bs ->
    exists bs',
      writeBit_each bits bs = Ok bs' /\
      pos bs' = pos bs + length bits /\
      capacity bs' = capacity bs /\
      endPos bs' = match bits with
                   | [] => endPos bs
                   | _ :: _ => Nat.max (endPos bs) (pos bs + length bits)
                   end /\
      forall j, stream_bit bs' j
                = if (pos bs <=? j) && (j <? pos bs + length bits)
                  then default false (bits !! (j - pos bs))
                  else stream_bit bs j.
Proof.
  induction bits as [|b bits IH]; intros bs Hs Hcap Hwf.
  - exists bs. cbn [length]. rewrite Nat.add_0_r.
    split; [done|]. split; [done|]. split; [done|]. split; [done|].
    intros j. destruct (Nat.leb_spec (pos bs) j), (Nat.ltb_spec j (pos bs));
      simpl; (done || lia).
  - cbn [writeBit_each]. cbn [length] in Hs, Hcap.
    destruct (writeBit_spec b bs) as (b1 & -> & Hp & Hc & Hl & He & Hb);
      [lia..|done|].
    cbn [mbind res_bind].
    destruct (within_word (pos bs) 1) as [_ Hm]; [lia|].
    destruct (IH b1) as (bs' & -> & Hp' & Hc' & He' & Hb').
    { rewrite Hp. replace (S (pos bs)) with (pos bs + 1) by lia.
      rewrite Hm. lia. }
    { lia. }
    { unfold wf_stream in *. lia. }
    exists bs'. cbn [length].
    split; [done|]. split; [lia|]. split; [lia|]. split.
    { rewrite He'. destruct bits; cbn [length]; lia. }
    intros j. rewrite Hb', Hb, Hp.
    destruct (Nat.leb_spec (S (pos bs)) j),
      (Nat.ltb_spec j (S (pos bs) + length bits)),
      (Nat.leb_spec (pos bs) j), (Nat.ltb_spec j (pos bs + S (length bits))),
      (Nat.eqb_spec j (pos bs)); cbn [andb]; try lia; try done.
    + replace (j - pos bs) with (S (j - S (pos bs))) by lia. done.
    + subst j. by rewrite Nat.sub_diag.
Qed.

(** X18.  The exporter writes an entry of a code index with one
    [writeBit] for each of its bits, from the last to the first.  Where
    the masks are well defined and the capacity suffices, the cursor moves
    by the length of the entry, the positions passed hold the bits of the
    entry in that order, and every other bit of the stream is as it was. *)
Theorem write_code_bits (p : list bool) (bs : Bitstream) :
  pos bs mod 64 + length p <= 31 ->
  pos bs + length p <= capacity bs ->
  wf_stream bs ->
  exists bs',
    write_code p bs = Ok bs' /\
    pos bs' = pos bs + length p /\
    (forall i, i < length p -> stream_bit bs' (pos bs + i) = written p i) /\
    forall j, ~ (pos bs <= j < pos bs + length p) ->
              stream_bit bs' j = stream_bit bs j.
Proof.
  intros Hs Hcap Hwf. unfold write_code.
  destruct (writeBit_each_spec (rev p) bs)
    as (bs' & Hw & Hp & _ & _ & Hbits); rewrite ?length_rev; [done..|].
  rewrite length_rev in Hp, Hbits.
  exists bs'. split; [done|]. split; [done|]. split.
  - intros i Hi. rewrite Hbits.
    destruct (Nat.leb_spec (pos bs) (pos bs + i)),
      (Nat.ltb_spec (pos bs + i) (pos bs + length p)); try lia.
    cbn [andb]. replace (pos bs + i - pos bs) with i by lia. done.
  - intros j Hj. rewrite Hbits.
    destruct (Nat.leb_spec (pos bs) j), (Nat.ltb_spec j (pos bs + length p));
      cbn [andb]; (done || lia).
Qed.

Lemma write_code_bits_witness :
  exists bs',
    write_code [true; false] fresh = Ok bs' /\
    pos bs' = 0 + 2 /\
    (forall i, i < 2 -> stream_bit bs' (0 + i) = written [true; false] i) /\
    forall j, ~ (0 <= j < 0 + 2) -> stream_bit bs' j = stream_bit fresh j.
Proof.
  apply (write_code_bits [true; false] fresh).
  - simpl. lia.
  - simpl. lia.
  - unfold wf_stream. simpl. lia.
Defined.

Local Open Scope Z_scope.

Lemma byte_of_lookup (bits : list bool) :
  forall s : nat,
    foldr (fun k acc =>
             Z.b2z (default false (bits !! (k - s)%nat)) + 2 * acc) 0
          (seq s (length bits))
    = byte_of bits.
Proof.
  induction bits as [|b bits IH]; intros s; [done|].
  cbn [length seq foldr byte_of]. rewrite Nat.sub_diag. cbn [lookup list_lookup default].
  fold (byte_of bits). rewrite <- (IH (S s)). do 2 f_equal.
  apply foldr_ext_elem. intros k acc Hk. apply elem_of_seq in Hk.
  replace (k - s)%nat with (S (k - S s)) by lia. done.
Qed.

(** X19.  Eight bits written with [writeBit] and read back with
    [readByte] from the same position give the byte whose least
    significant bit was written first, where the masks are well defined
    and the capacity suffices. *)
Theorem write_read_round_trip (bits : list bool) (bs : Bitstream) :
  length bits = 8%nat ->
  (pos bs mod 64 + 8 <= 31)%nat ->
  (pos bs + 8 <= capacity bs)%nat ->
  wf_stream bs ->
  exists bs',
    writeBit_each bits bs = Ok bs' /\
    pos bs' = (pos bs + 8)%nat /\
    readByte (seek (pos bs) bs') = (byte_of bits, seek (pos bs + 8) bs').
Proof.
  intros Hlen Hs Hcap Hwf.
  destruct (writeBit_each_spec bits bs)
    as (bs' & Hw & Hp & _ & _ & Hbits); rewrite ?Hlen; [done..|].
  rewrite Hlen in Hp, Hbits.
  exists bs'. split; [done|]. split; [done|].
  rewrite readByte_within by (cbn [seek pos]; lia).
  cbn [seek pos buffer capacity endPos]. f_equal.
  rewrite byte_at_seek. rewrite <- (byte_of_lookup bits 0), Hlen.
  unfold byte_at. apply foldr_ext_elem. intros k acc Hk.
  apply elem_of_seq in Hk. rewrite Hbits.
  destruct (Nat.leb_spec (pos bs) (pos bs + k)),
    (Nat.ltb_spec (pos bs + k) (pos bs + 8)); try lia.
  cbn [andb]. do 4 f_equal. lia.
Qed.

Lemma write_read_round_trip_witness :
  exists bs',
    writeBit_each [true; false; true; true; false; false; true; false] fresh
    = Ok bs' /\
    pos bs' = 8%nat /\
    readByte (seek 0 bs')
    = (byte_of [true; false; true; true; false; false; true; false],
       seek 8 bs').
Proof.
  apply (write_read_round_trip
           [true; false; true; true; false; false; true; false] fresh).
  - reflexivity.
  - simpl. lia.
  - simpl. lia.
  - unfold wf_stream. simpl. lia.
Defined.

End BitstreamFacts.

(** ** The byte format *)

Module BytesFacts.
Import Code Emitter Track Bytes WordFacts.

Local Open Scope Z_scope.

Lemma u8_small (z : Z) : 0 <= z < 256 -> u8 z = z.
Proof. intros H. unfold u8. apply Z.mod_small. lia. Qed.

Lemma take_frames_spec (n top fc : Z) :
  1 <= fc -> n = top + 1 -> 0 <= top < 256 ->
  0 <= fst (take_frames n top fc) <= top /\
  0 <= snd (take_frames n top fc) /\
  fc = snd (take_frames n top fc) + fst (take_frames n top fc) + 1 /\
  fst (take_frames n top fc) + 1 = Z.min fc n.
Proof.
  intros Hfc Hn Ht. unfold take_frames.
  destruct (Z.ltb_spec n fc); cbn [fst snd].
  - lia.
  - rewrite u8_small by lia. lia.
Qed.

Lemma frames_pos (duration : Z) : 1 <= frames duration.
Proof. unfold frames. destruct (Z.ltb_spec 0 duration); lia. Qed.

Lemma differs_range (a b : Z) : 0 <= differs a b <= 1.
Proof. unfold differs. destruct (a =? b); lia. Qed.

Lemma differs_pos (a b : Z) : 0 < differs a b <-> a <> b.
Proof. unfold differs. destruct (Z.eqb_spec a b); lia. Qed.

(** A byte with one of its low bits set is not 0. *)
Lemma u8_lor_bit (x m k : Z) :
  0 <= k < 8 -> Z.testbit m k = true -> u8 (Z.lor x m) <> 0.
Proof.
  intros Hk Hm E.
  assert (Hb : Z.testbit (u8 (Z.lor x m)) k = true).
  { unfold u8. change 256 with (2 ^ 8).
    rewrite Z.mod_pow2_bits_low by lia.
    rewrite Z.lor_spec, Hm. apply orb_true_r. }
  rewrite E, Z.bits_0 in Hb. discriminate.
Qed.

(** The packed bytes as sums of their fields. *)
Lemma freq_byte (f d t : Z) :
  0 <= f < 32 -> 0 <= d < 2 -> 0 <= t < 4 ->
  u8 (Z.lor (Z.lor (Z.shiftl f 3) (Z.shiftl d 2)) t) = f * 8 + d * 4 + t.
Proof.
  intros Hf Hd Ht.
  rewrite (Z.shiftl_mul_pow2 d 2) by lia.
  rewrite (lor_shiftl_add f (d * 2 ^ 2) 3) by lia.
  replace (f * 2 ^ 3 + d * 2 ^ 2) with ((2 * f + d) * 2 ^ 2) by lia.
  rewrite (lor_add_high (2 * f + d) t 2) by lia.
  rewrite u8_small by lia. lia.
Qed.

Lemma nibble_byte (x d t : Z) :
  0 <= x < 16 -> 0 <= d < 2 -> 0 <= t < 8 ->
  u8 (Z.lor (Z.lor (Z.shiftl x 4) (Z.shiftl d 3)) t) = x * 16 + d * 8 + t.
Proof.
  intros Hx Hd Ht.
  rewrite (Z.shiftl_mul_pow2 d 3) by lia.
  rewrite (lor_shiftl_add x (d * 2 ^ 3) 4) by lia.
  replace (x * 2 ^ 4 + d * 2 ^ 3) with ((2 * x + d) * 2 ^ 3) by lia.
  rewrite (lor_add_high (2 * x + d) t 3) by lia.
  rewrite u8_small by lia. lia.
Qed.

Lemma pair_byte (c v : Z) :
  0 <= c < 16 -> 0 <= v < 16 -> u8 (Z.shiftl c 4 + v) = c * 16 + v.
Proof.
  intros Hc Hv. rewrite Z.shiftl_mul_pow2 by lia.
  rewrite u8_small by lia. lia.
Qed.

Lemma sustain_byte (d : Z) :
  0 <= d < 32 -> u8 (Z.lor (Z.shiftl d 3) 0x04) = d * 8 + 4.
Proof.
  intros Hd. rewrite (lor_shiftl_add d 4 3) by lia.
  rewrite u8_small by lia. lia.
Qed.

Lemma land_low (x : Z) (n : Z) :
  0 <= n -> Z.land x (2 ^ n - 1) = x mod 2 ^ n.
Proof.
  intros Hn. rewrite <- Z.land_ones by done. f_equal.
  rewrite Z.ones_equiv. lia.
Qed.

(** No leading byte is 0 when the volume has four bits. *)
Lemma leading_nonzero (next last : ChannelState) (fc : Z) :
  1 <= fc -> 0 <= volume next < 16 ->
  Forall (fun b => b <> 0) (fst (leading_bytes next last fc)).
Proof.
  intros Hfc Hv. unfold leading_bytes.
  set (cc := differs (control next) (control last)).
  set (fx := differs (frequency next) (frequency last)).
  set (vc := differs (volume next) (volume last)).
  destruct (Z.eqb_spec (volume next) 0) as [Hz|Hnz]; cbn [andb].
  - destruct (cc + fx + vc =? 0) eqn:Ed; cbn [negb].
    + destruct (Z.eqb_spec (cc + fx + vc) 1); [apply Z.eqb_eq in Ed; lia|].
      destruct (Z.ltb_spec 1 (cc + fx + vc)); [apply Z.eqb_eq in Ed; lia|].
      apply Forall_nil_2.
    + pose proof (take_frames_spec 32 31 fc Hfc eq_refl ltac:(lia))
        as (Hd & _).
      destruct (take_frames 32 31 fc) as [dmod fc']. cbn [fst snd] in *.
      apply Forall_cons_2; [|apply Forall_nil_2].
      destruct (Z.ltb_spec 0 dmod); [|lia].
      rewrite Z.shiftl_mul_pow2, u8_small by lia. lia.
  - destruct (Z.eqb_spec (cc + fx + vc) 1).
    + destruct (take_frames 2 1 fc) as [dmod fc']. cbn [fst].
      apply Forall_cons_2; [|apply Forall_nil_2].
      destruct (0 <? fx); [|destruct (0 <? cc)];
        by apply (u8_lor_bit _ _ 0).
    + destruct (Z.ltb_spec 1 (cc + fx + vc)); [|apply Forall_nil_2].
      destruct (take_frames 2 1 fc) as [dmod fc']. cbn [fst].
      apply Forall_cons_2; [by apply (u8_lor_bit _ _ 1)|].
      apply Forall_cons_2; [|apply Forall_nil_2].
      unfold u8. rewrite Z.shiftl_mul_pow2 by lia.
      change (2 ^ 4) with 16. Z.to_euclidean_division_equations. lia.
Qed.

(** The sustain loop: bytes of the form [ddddd100], [dmod + 1] frames
    each, every one but the last 32 frames. *)
Lemma sustain_bytes_spec (fuel : nat) :
  forall (fc : Z) (out : list Z),
    0 <= fc -> (Z.to_nat fc <= fuel)%nat ->
    exists sus,
      sustain_bytes fuel fc out = (0, out ++ sus) /\
      Forall (fun b => Z.land b 7 = 4 /\ 0 < b < 256 /\
                       1 <= sustain_frames b <= 32) sus /\
      foldr Z.add 0 (sustain_frames <$> sus) = fc /\
      Z.of_nat (length sus) = (fc + 31) / 32.
Proof.
  induction fuel as [|fuel IH]; intros fc out Hfc Hf.
  - assert (fc = 0) as -> by lia. exists []. rewrite app_nil_r.
    repeat split; (done || apply Forall_nil_2).
  - cbn [sustain_bytes]. destruct (Z.ltb_spec 0 fc) as [Hpos|Hz].
    + pose proof (take_frames_spec 32 31 fc ltac:(lia) eq_refl ltac:(lia))
        as (Hd & Hl & Hsum & Hmin).
      destruct (take_frames 32 31 fc) as [dmod fc']. cbn [fst snd] in *.
      destruct (IH fc' (out ++ [u8 (Z.lor (Z.shiftl dmod 3) 4)]))
        as (sus & -> & Hall & Hs & Hn); [lia..|].
      exists (u8 (Z.lor (Z.shiftl dmod 3) 4) :: sus).
      split; [by rewrite <- app_assoc|].
      assert (Hfr : sustain_frames (u8 (Z.lor (Z.shiftl dmod 3) 4))
                    = dmod + 1).
      { rewrite sustain_byte by lia. unfold sustain_frames.
        rewrite Z.shiftr_div_pow2 by lia. change (2 ^ 3) with 8.
        f_equal. symmetry. apply (Z.div_unique _ _ _ 4); lia. }
      split; [|split].
      * apply Forall_cons_2; [|done]. rewrite Hfr.
        rewrite sustain_byte by lia. split; [|lia].
        change 7 with (2 ^ 3 - 1). rewrite land_low by lia.
        change (2 ^ 3) with 8. symmetry. apply (Z.mod_unique _ _ dmod); lia.
      * rewrite fmap_cons. cbn [foldr]. rewrite Hfr, Hs. lia.
      * cbn [length]. rewrite Nat2Z.inj_succ, Hn.
        Z.to_euclidean_division_equations. lia.
    + assert (fc = 0) as -> by lia. exists []. rewrite app_nil_r.
      repeat split; (done || apply Forall_nil_2).
Qed.

Lemma leading_left (next last : ChannelState) (fc : Z) :
  1 <= fc -> 0 <= snd (leading_bytes next last fc) <= fc.
Proof.
  intros Hfc. unfold leading_bytes.
  pose proof (take_frames_spec 32 31 fc Hfc eq_refl ltac:(lia)) as (? & ? & ? & _).
  pose proof (take_frames_spec 2 1 fc Hfc eq_refl ltac:(lia)) as (? & ? & ? & _).
  destruct (take_frames 32 31 fc) as [d1 f1], (take_frames 2 1 fc) as [d2 f2].
  cbn [fst snd] in *.
  repeat (destruct (_ && _) || destruct (_ =? _) || destruct (_ <? _));
    cbn [snd]; lia.
Qed.

Lemma encode_bytes (next : ChannelState) (duration : Z)
    (last : ChannelState) (out : list Z) :
  exists sus,
    encodeChannelState next duration last true out
    = (0, out ++ fst (leading_bytes next last (frames duration)) ++ sus) /\
    Forall (fun b => Z.land b 7 = 4 /\ 0 < b < 256 /\
                     1 <= sustain_frames b <= 32) sus /\
    foldr Z.add 0 (sustain_frames <$> sus)
    = snd (leading_bytes next last (frames duration)) /\
    Z.of_nat (length sus)
    = (snd (leading_bytes next last (frames duration)) + 31) / 32.
Proof.
  unfold encodeChannelState. fold (frames duration).
  pose proof (leading_left next last (frames duration) (frames_pos _)) as Hl.
  destruct (leading_bytes next last (frames duration)) as [lead fc'].
  cbn [fst snd] in *. rewrite andb_false_r.
  destruct (sustain_bytes_spec (Z.to_nat fc') fc' (out ++ lead))
    as (sus & -> & Hall & Hs & Hn); [lia..|].
  exists sus. by rewrite <- app_assoc.
Qed.

(** X20.  The bytes [writeTrackDataTIAComp] lists for a track whose
    volumes have four bits contain the byte 0, which ends a track, at the
    end and nowhere else. *)
Theorem comp_track_stop (initialState : ChannelState)
    (intervals : list Interval) (i : nat) :
  (forall n, n ∈ intervals -> 0 <= volume (state n) < 16) ->
  comp_track initialState intervals !! i = Some 0
  <-> i = length (comp_intervals intervals initialState).
Proof.
  intros Hv. unfold comp_track.
  assert (Hnz : Forall (fun b => b <> 0)
                  (comp_intervals intervals initialState)).
  { revert initialState.
    induction intervals as [|n rest IH]; intros last; [apply Forall_nil_2|].
    cbn [comp_intervals]. apply Forall_app. split.
    - destruct (encode_bytes (state n) (duration n) last [])
        as (sus & -> & Hall & _). cbn [snd app].
      apply Forall_app. split.
      + apply leading_nonzero; [apply frames_pos|].
        apply Hv, list_elem_of_here.
      + eapply Forall_impl; [exact Hall|]. cbn. lia.
    - apply IH. intros m Hm. by apply Hv, list_elem_of_further. }
  split.
  - intros Hi.
    destruct (decide (i < length (comp_intervals intervals initialState))%nat)
      as [Hlt|Hge].
    + rewrite lookup_app_l in Hi by done.
      rewrite Forall_forall in Hnz. apply list_elem_of_lookup_2 in Hi.
      by apply Hnz in Hi.
    + apply lookup_lt_Some in Hi. rewrite length_app in Hi.
      cbn [length] in Hi. lia.
  - intros ->. rewrite lookup_app_r by done.
    by rewrite Nat.sub_diag.
Qed.

Lemma jingle_volumes :
  forall n, n ∈ jingle -> 0 <= volume (state n) < 16.
Proof.
  intros n Hn. unfold jingle in Hn. rewrite !elem_of_cons in Hn.
  destruct Hn as [->|[->|[->|Hn]]]; cbn; try lia.
  by apply elem_of_nil in Hn.
Qed.

Lemma comp_track_stop_witness :
  comp_track silent jingle !! 5%nat = Some 0
  <-> 5%nat = length (comp_intervals jingle silent).
Proof.
  exact (comp_track_stop silent jingle 5 jingle_volumes).
Defined.

Lemma leading_frames (next last : ChannelState) (fc : Z) :
  1 <= fc ->
  snd (leading_bytes next last fc)
  = fc - (if (volume next =? 0) && negb (delta next last =? 0)
          then Z.min fc 32
          else if 0 <? delta next last then Z.min fc 2 else 0).
Proof.
  intros Hfc. unfold leading_bytes. fold (delta next last).
  pose proof (differs_range (control next) (control last)).
  pose proof (differs_range (frequency next) (frequency last)).
  pose proof (differs_range (volume next) (volume last)).
  assert (Hd : 0 <= delta next last) by (unfold delta; lia).
  pose proof (take_frames_spec 32 31 fc Hfc eq_refl ltac:(lia))
    as (_ & _ & ? & ?).
  pose proof (take_frames_spec 2 1 fc Hfc eq_refl ltac:(lia))
    as (_ & _ & ? & ?).
  destruct (take_frames 32 31 fc) as [d1 f1], (take_frames 2 1 fc) as [d2 f2].
  cbn [fst snd] in *.
  destruct ((volume next =? 0) && negb (delta next last =? 0));
    [cbn [snd]; lia|].
  destruct (Z.eqb_spec (delta next last) 1), (Z.ltb_spec 1 (delta next last)),
    (Z.ltb_spec 0 (delta next last)); cbn [snd]; lia.
Qed.

(** X21.  With [encodeRemainder] set, [encodeChannelState] returns 0 and
    accounts for every frame of the interval: after the leading bytes
    come sustain bytes of the form [ddddd100], each standing for
    [d + 1] frames, at most 32; their frames and the frames the leading
    bytes took (up to 32 for a pause, up to 2 for a write, none when
    nothing changed) add up to the duration, taken as 1 when it is not
    positive. *)
Theorem encode_frames (next : ChannelState) (duration : Z)
    (last : ChannelState) (out : list Z) :
  exists sus,
    encodeChannelState next duration last true out
    = (0, out ++ fst (leading_bytes next last (frames duration)) ++ sus) /\
    Forall (fun b => Z.land b 7 = 4 /\ 1 <= sustain_frames b <= 32) sus /\
    (if (volume next =? 0) && negb (delta next last =? 0)
     then Z.min (frames duration) 32
     else if 0 <? delta next last then Z.min (frames duration) 2 else 0)
    + foldr Z.add 0 (sustain_frames <$> sus)
    = frames duration.
Proof.
  destruct (encode_bytes next duration last out) as (sus & E & Hall & Hs & _).
  exists sus. split; [done|]. split.
  - eapply Forall_impl; [exact Hall|]. cbn. tauto.
  - rewrite Hs, leading_frames by apply frames_pos. lia.
Qed.

Lemma land_3 (x : Z) : Z.land x 3 = x mod 4.
Proof. apply (land_low x 2). lia. Qed.

Lemma land_7 (x : Z) : Z.land x 7 = x mod 8.
Proof. apply (land_low x 3). lia. Qed.

Lemma land_1 (x : Z) : Z.land x 1 = x mod 2.
Proof. apply (land_low x 1). lia. Qed.

Lemma land_15 (x : Z) : Z.land x 15 = x mod 16.
Proof. apply (land_low x 4). lia. Qed.

Ltac byte_fields :=
  rewrite ?land_3, ?land_7, ?land_1, ?land_15;
  rewrite ?Z.shiftr_div_pow2 by lia;
  change (2 ^ 2) with 4; change (2 ^ 3) with 8; change (2 ^ 4) with 16;
  Z.to_euclidean_division_equations; lia.

(** X22.  The bytes of a write carry what they were made of.  For a state
    within the widths of the format (4 bits of control, 5 of frequency,
    4 of volume) whose volume is not 0: when one register differs from
    [last], the single byte has the low bits of that register's kind
    ([11] frequency, [101] control, [001] volume), the register above
    them and the duration bit between; when more differ, the two bytes
    are [fffffd10] and [ccccvvvv].  The duration bit is set when two
    frames are taken, and the frames left are the others. *)
Theorem write_fields (next last : ChannelState) (fc : Z) :
  tia_state next -> volume next <> 0 -> 1 <= fc ->
  (delta next last = 1 ->
   exists rx,
     leading_bytes next last fc = ([rx], fc - Z.min fc 2) /\
     (frequency next <> frequency last ->
      Z.land rx 3 = 3 /\ Z.shiftr rx 3 = frequency next /\
      Z.land (Z.shiftr rx 2) 1 = Z.min fc 2 - 1) /\
     (control next <> control last ->
      Z.land rx 7 = 5 /\ Z.shiftr rx 4 = control next /\
      Z.land (Z.shiftr rx 3) 1 = Z.min fc 2 - 1) /\
     (volume next <> volume last ->
      Z.land rx 7 = 1 /\ Z.shiftr rx 4 = volume next /\
      Z.land (Z.shiftr rx 3) 1 = Z.min fc 2 - 1)) /\
  (1 < delta next last ->
   exists fdx cvx,
     leading_bytes next last fc = ([fdx; cvx], fc - Z.min fc 2) /\
     Z.land fdx 3 = 2 /\ Z.shiftr fdx 3 = frequency next /\
     Z.land (Z.shiftr fdx 2) 1 = Z.min fc 2 - 1 /\
     Z.shiftr cvx 4 = control next /\ Z.land cvx 15 = volume next).
Proof.
  intros (Hc & Hf & Hv) Hnz Hfc.
  pose proof (take_frames_spec 2 1 fc Hfc eq_refl ltac:(lia))
    as (Hd & _ & Hsum & Hmin).
  unfold leading_bytes. fold (delta next last).
  destruct (Z.eqb_spec (volume next) 0) as [|_]; [done|]. cbn [andb].
  destruct (take_frames 2 1 fc) as [dmod fc']. cbn [fst snd] in *.
  assert (Hfc' : fc' = fc - Z.min fc 2) by lia.
  assert (Hdm : dmod = Z.min fc 2 - 1) by lia.
  split.
  - intros H1. rewrite H1. cbn [Z.eqb Pos.eqb].
    pose proof (differs_pos (control next) (control last)) as Pc.
    pose proof (differs_pos (frequency next) (frequency last)) as Pf.
    pose proof (differs_pos (volume next) (volume last)) as Pv.
    pose proof (differs_range (control next) (control last)).
    pose proof (differs_range (frequency next) (frequency last)).
    pose proof (differs_range (volume next) (volume last)).
    unfold delta in H1.
    eexists. split; [by rewrite Hfc'|].
    destruct (Z.ltb_spec 0 (differs (frequency next) (frequency last)))
      as [Hf1|Hf0].
    + rewrite freq_byte by lia.
      split; [intros _; repeat split; byte_fields|].
      split; intros Hx; apply Pc in Hx || apply Pv in Hx; lia.
    + destruct (Z.ltb_spec 0 (differs (control next) (control last)))
        as [Hc1|Hc0].
      * rewrite nibble_byte by lia.
        split; [intros Hx; apply Pf in Hx; lia|].
        split; [intros _; repeat split; byte_fields|].
        intros Hx; apply Pv in Hx; lia.
      * rewrite nibble_byte by lia.
        split; [intros Hx; apply Pf in Hx; lia|].
        split; [intros Hx; apply Pc in Hx; lia|].
        intros _; repeat split; byte_fields.
  - intros H1.
    destruct (Z.eqb_spec (delta next last) 1); [lia|].
    destruct (Z.ltb_spec 1 (delta next last)); [|lia].
    do 2 eexists. split; [by rewrite Hfc'|].
    rewrite freq_byte, pair_byte by lia.
    repeat split; byte_fields.
Qed.

Lemma write_fields_witness :
  (delta tone silent = 1 ->
   exists rx,
     leading_bytes tone silent 16 = ([rx], 16 - Z.min 16 2) /\
     (frequency tone <> frequency silent ->
      Z.land rx 3 = 3 /\ Z.shiftr rx 3 = frequency tone /\
      Z.land (Z.shiftr rx 2) 1 = Z.min 16 2 - 1) /\
     (control tone <> control silent ->
      Z.land rx 7 = 5 /\ Z.shiftr rx 4 = control tone /\
      Z.land (Z.shiftr rx 3) 1 = Z.min 16 2 - 1) /\
     (volume tone <> volume silent ->
      Z.land rx 7 = 1 /\ Z.shiftr rx 4 = volume tone /\
      Z.land (Z.shiftr rx 3) 1 = Z.min 16 2 - 1)) /\
  (1 < delta tone silent ->
   exists fdx cvx,
     leading_bytes tone silent 16 = ([fdx; cvx], 16 - Z.min 16 2) /\
     Z.land fdx 3 = 2 /\ Z.shiftr fdx 3 = frequency tone /\
     Z.land (Z.shiftr fdx 2) 1 = Z.min 16 2 - 1 /\
     Z.shiftr cvx 4 = control tone /\ Z.land cvx 15 = volume tone).
Proof.
  apply (write_fields tone silent 16).
  - unfold tia_state. simpl. lia.
  - discriminate.
  - lia.
Defined.

End BytesFacts.

(** ** The title graphics *)

Module FontFacts.
Import Code Bytes Font BytesFacts.

Local Open Scope Z_scope.

Ltac font_cases :=
  repeat (match goal with
          | |- context [Z.leb ?a ?b] => destruct (Z.leb_spec a b)
          | |- context [Z.eqb ?a ?b] => destruct (Z.eqb_spec a b)
          end; cbn [andb orb]; try lia).

Lemma getFontIndex_range (c : Z) : 0 <= getFontIndex c <= 40.
Proof. unfold getFontIndex. font_cases. Qed.

Lemma getFontIndex_upper (c : Z) : 65 <= c <= 90 -> getFontIndex c = c - 50.
Proof. intros Hc. unfold getFontIndex. font_cases. Qed.

Lemma getFontIndex_lower (c : Z) : 97 <= c <= 122 -> getFontIndex c = c - 82.
Proof. intros Hc. unfold getFontIndex. font_cases. Qed.

Lemma FONT_DATA_shape :
  length FONT_DATA = 41%nat /\
  Forall (fun row => length row = 6%nat /\ Forall (fun x => 0 <= x < 16) row)
         FONT_DATA.
Proof.
  split; [reflexivity|].
  unfold FONT_DATA.
  repeat (apply Forall_cons_2;
          [split; [reflexivity|];
           repeat (apply Forall_cons_2; [lia|]); apply Forall_nil_2|]).
  apply Forall_nil_2.
Qed.

Lemma font_ok (ai i : Z) :
  0 <= ai <= 40 -> 0 <= i < 6 ->
  exists x, font ai i = Ok x /\ 0 <= x < 16.
Proof.
  intros Ha Hi. unfold font.
  destruct FONT_DATA_shape as [Hlen Hall].
  destruct (Z.leb_spec 0 ai); [|lia]. destruct (Z.leb_spec 0 i); [|lia].
  cbn [andb].
  destruct (lookup_lt_is_Some_2 FONT_DATA (Z.to_nat ai)) as [row Hrow];
    [lia|].
  rewrite Hrow. rewrite Forall_forall in Hall.
  destruct (Hall row (list_elem_of_lookup_2 _ _ _ Hrow)) as [Hl Hr].
  destruct (lookup_lt_is_Some_2 row (Z.to_nat i)) as [x Hx]; [lia|].
  rewrite Hx. exists x. split; [done|].
  rewrite Forall_forall in Hr. apply Hr.
  by apply list_elem_of_lookup_2 in Hx.
Qed.

Lemma glyph_bytes_spec (ai bi : Z) (rows : list Z) :
  0 <= ai <= 40 -> 0 <= bi <= 40 ->
  Forall (fun i => 0 <= i < 6) rows ->
  exists bytes,
    glyph_bytes ai bi rows = Ok bytes /\
    length bytes = length rows /\
    forall k c, bytes !! k = Some c ->
      exists i, rows !! k = Some i /\
                0 <= c < 256 /\
                font ai i = Ok (Z.shiftr c 4) /\
                font bi i = Ok (Z.land c 15).
Proof.
  intros Ha Hb. induction rows as [|i rows IH]; intros Hall.
  - exists []. split; [done|]. split; [done|]. intros k c Hk.
    by rewrite lookup_nil in Hk.
  - apply Forall_cons in Hall as [Hi Hall].
    destruct (IH Hall) as (rest & Hrest & Hlen & Hbytes).
    destruct (font_ok ai i Ha Hi) as (a & Hfa & Hra).
    destruct (font_ok bi i Hb Hi) as (b & Hfb & Hrb).
    cbn [glyph_bytes]. rewrite Hfa, Hfb, Hrest. cbn [mbind res_bind].
    eexists. split; [reflexivity|]. split; [cbn [length]; lia|].
    intros [|k] c Hk.
    + injection Hk as <-. exists i. split; [done|].
      rewrite pair_byte by lia. rewrite Hfa, Hfb.
      split; [lia|]. split; f_equal; byte_fields.
    + apply (Hbytes k c Hk).
Qed.

Lemma six_lines : Forall (fun i => 0 <= i < 6) [0; 1; 2; 3; 4; 5].
Proof. repeat (apply Forall_cons_2; [lia|]). apply Forall_nil_2. Qed.

(** X23.  [getFontIndex] gives every character an index within the 41
    lines of [FONT_DATA], and an upper-case letter the index of its
    lower-case form. *)
Theorem getFontIndex_bounds (c : Z) :
  0 <= getFontIndex c < 41 /\
  (65 <= c <= 90 -> getFontIndex c = getFontIndex (c + 32)).
Proof.
  split; [pose proof (getFontIndex_range c); lia|].
  intros Hc. rewrite getFontIndex_upper, getFontIndex_lower by lia. lia.
Qed.

(** X24.  For any two characters the six bytes of a line are defined, and
    each holds the two glyphs side by side: its upper four bits are the
    line of the first character's glyph, its lower four bits the line of
    the second's. *)
Theorem glyph_nibbles (ax bx : Z) :
  exists bytes,
    glyph_bytes (getFontIndex ax) (getFontIndex bx) [0; 1; 2; 3; 4; 5]
    = Ok bytes /\
    length bytes = 6%nat /\
    forall (i : nat) (c : Z),
      bytes !! i = Some c ->
      0 <= c < 256 /\
      font (getFontIndex ax) (Z.of_nat i) = Ok (Z.shiftr c 4) /\
      font (getFontIndex bx) (Z.of_nat i) = Ok (Z.land c 15).
Proof.
  destruct (glyph_bytes_spec (getFontIndex ax) (getFontIndex bx)
              [0; 1; 2; 3; 4; 5])
    as (bytes & E & Hlen & Hb);
    [apply getFontIndex_range..|apply six_lines|].
  exists bytes. split; [done|]. split; [done|].
  intros i c Hi. destruct (Hb i c Hi) as (r & Hr & Hc & Hfa & Hfb).
  assert (r = Z.of_nat i) as ->.
  { do 6 (destruct i as [|i]; [by injection Hr as <-|]).
    simpl in Hr. discriminate. }
  done.
Qed.

Local Open Scope nat_scope.

Section Title.

Variable value : list Z.
Hypothesis value_chars : Forall (fun c => c <> 0%Z) value.

(** Where the loop stands before it reads the character at place [q]. *)
Let at_place (q p : nat) (e : bool) : Prop :=
  (e = false /\ p = q /\ q <= length value) \/
  (e = true /\ length value < q).

Lemma next_char_spec (q p : nat) (e : bool) :
  at_place q p e ->
  exists p' e',
    next_char value p e = Ok (char_or_0 value q, p', e') /\
    at_place (S q) p' e'.
Proof.
  unfold at_place, next_char, char_at, char_or_0.
  intros [(-> & -> & Hq)|(-> & Hq)].
  - destruct (decide (q < length value)) as [Hlt|Hge].
    + destruct (lookup_lt_is_Some_2 value q Hlt) as [c Hc].
      rewrite lookup_app_l, Hc by done. cbn [mbind res_bind].
      rewrite (nth_lookup_Some _ _ _ _ Hc).
      assert (Hnz : c <> 0%Z).
      { rewrite Forall_forall in value_chars. apply value_chars.
        by apply list_elem_of_lookup_2 in Hc. }
      destruct (Z.eqb_spec c 0); [done|].
      exists (S q), false. split; [done|]. left. repeat split; lia.
    + assert (q = length value) as -> by lia.
      rewrite lookup_app_r, Nat.sub_diag by done. cbn [mbind res_bind].
      rewrite nth_overflow by done.
      exists (S (length value)), true. split; [done|]. right. split; lia.
  - rewrite nth_overflow by lia.
    exists p, true. split; [done|]. right. split; lia.
Qed.

Let lines : nat := Nat.max 6 (length value / 2 + 1).

Lemma text_loop_spec (fuel : nat) :
  forall (k p : nat) (e : bool) (out : list (nat * list Z)) (bw : nat),
    at_place (2 * k) p e ->
    k <= lines ->
    lines - k < fuel ->
    exists rows,
      text_loop fuel value p e k out bw
      = Ok (out ++ rows, lines, bw + 6 * (lines - k)) /\
      length rows = lines - k /\
      forall j, j < lines - k ->
        exists bytes,
          rows !! j = Some (k + j, bytes) /\
          glyph_bytes (getFontIndex (char_or_0 value (2 * (k + j))))
                      (getFontIndex (char_or_0 value (2 * (k + j) + 1)))
                      [0; 1; 2; 3; 4; 5]%Z
          = Ok bytes.
Proof.
  pose proof (Nat.div_mod_eq (length value) 2) as Hdiv.
  pose proof (Nat.mod_upper_bound (length value) 2 ltac:(lia)) as Hmod.
  induction fuel as [|fuel IH]; intros k p e out bw Hat Hk Hf; [lia|].
  cbn [text_loop].
  destruct ((k <? 6) || negb e) eqn:Hcond.
  - assert (Hlt : k < lines).
    { unfold lines. apply orb_true_iff in Hcond as [Hc|Hc].
      - apply Nat.ltb_lt in Hc. lia.
      - destruct e; [done|]. destruct Hat as [(_ & _ & Hq)|(? & _)]; [|done].
        lia. }
    destruct (next_char_spec (2 * k) p e Hat) as (p1 & e1 & -> & Hat1).
    cbn [mbind res_bind].
    destruct (next_char_spec (S (2 * k)) p1 e1 Hat1) as (p2 & e2 & -> & Hat2).
    cbn [mbind res_bind].
    destruct (glyph_bytes_spec
                (getFontIndex (char_or_0 value (2 * k)))
                (getFontIndex (char_or_0 value (S (2 * k))))
                [0; 1; 2; 3; 4; 5]%Z)
      as (bytes & Hg & Hlen & _); [apply getFontIndex_range..|apply six_lines|].
    rewrite Hg. cbn [mbind res_bind]. rewrite Hlen. cbn [length].
    destruct (IH (S k) p2 e2 (out ++ [(k, bytes)]) (bw + 6))
      as (rows & -> & Hrows & Hall).
    { by replace (2 * S k) with (S (S (2 * k))) by lia. }
    { lia. }
    { lia. }
    exists ((k, bytes) :: rows). split.
    { rewrite <- app_assoc. do 2 f_equal. lia. }
    split; [cbn [length]; lia|].
    intros [|j] Hj.
    + exists bytes. rewrite Nat.add_0_r. split; [done|].
      by replace (2 * k + 1) with (S (2 * k)) by lia.
    + destruct (Hall j ltac:(lia)) as (bs & Hr & Hb).
      exists bs. replace (k + S j) with (S k + j) by lia. done.
  - apply orb_false_iff in Hcond as [Hc He].
    apply Nat.ltb_ge in Hc. destruct e; [|done].
    destruct Hat as [(? & _)|(_ & Hq)]; [done|].
    assert (k = lines) as -> by (unfold lines in *; lia).
    exists []. rewrite app_nil_r, Nat.sub_diag, Nat.mul_0_r, Nat.add_0_r.
    split; [done|]. split; [done|]. intros j Hj. lia.
Qed.

End Title.

(** X25.  For a title without a 0 among its [n] characters
    [writeTextGraphics] ends without reading behind the terminator; it
    writes [max 6 (n / 2 + 1)] lines, numbered from 0, and returns six
    bytes for each; line [k] shows the characters at places [2k] and
    [2k + 1], or blanks from the end of the title on. *)
Theorem writeTextGraphics_lines (value : list Z) :
  Forall (fun c => c <> 0%Z) value ->
  exists rows,
    writeTextGraphics value
    = Ok (rows, Nat.max 6 (length value / 2 + 1),
          6 * Nat.max 6 (length value / 2 + 1)) /\
    length rows = Nat.max 6 (length value / 2 + 1) /\
    forall k, k < Nat.max 6 (length value / 2 + 1) ->
      exists bytes,
        rows !! k = Some (k, bytes) /\
        glyph_bytes (getFontIndex (char_or_0 value (2 * k)))
                    (getFontIndex (char_or_0 value (2 * k + 1)))
                    [0; 1; 2; 3; 4; 5]%Z
        = Ok bytes.
Proof.
  intros Hv. unfold writeTextGraphics.
  pose proof (Nat.div_mod_eq (length value) 2) as Hdiv.
  destruct (text_loop_spec value Hv (length value + 7) 0 0 false [] 0)
    as (rows & E & Hlen & Hall).
  { left. repeat split; lia. }
  { lia. }
  { lia. }
  rewrite Nat.sub_0_r in *. cbn [app Nat.add] in E.
  exists rows. split; [done|]. split; [done|]. exact Hall.
Qed.

Lemma title_chars : Forall (fun c => c <> 0%Z) title.
Proof. repeat (apply Forall_cons_2; [discriminate|]). apply Forall_nil_2. Qed.

Lemma writeTextGraphics_lines_witness :
  exists rows,
    writeTextGraphics title
    = Ok (rows, Nat.max 6 (length title / 2 + 1),
          6 * Nat.max 6 (length title / 2 + 1)) /\
    length rows = Nat.max 6 (length title / 2 + 1) /\
    forall k, k < Nat.max 6 (length title / 2 + 1) ->
      exists bytes,
        rows !! k = Some (k, bytes) /\
        glyph_bytes (getFontIndex (char_or_0 title (2 * k)))
                    (getFontIndex (char_or_0 title (2 * k + 1)))
                    [0; 1; 2; 3; 4; 5]%Z
        = Ok bytes.
Proof.
  exact (writeTextGraphics_lines title title_chars).
Defined.

End FontFacts.

(** ** What the branch tables count *)

Module CountFacts.
Import Code Zip ZipSpec Suffix Counts TableFacts ParseFacts.

Local Open Scope nat_scope.

Lemma count_of_absent (t : table) (k : nat) :
  k ∉ (fst <$> t) -> count_of t k = 0.
Proof.
  induction t as [|[k' c] t IH]; intros Hk; [done|].
  rewrite fmap_cons, not_elem_of_cons in Hk. destruct Hk as [Hne Hk].
  cbn [count_of]. cbn [fst] in Hne.
  destruct (Nat.eqb_spec k' k); [congruence|]. by apply IH.
Qed.

Lemma count_of_bump (k : nat) (t : table) (k' : nat) :
  StronglySorted lt (fst <$> t) ->
  count_of (bump k t) k'
  = count_of t k' + (if decide (k = k') then 1 else 0).
Proof.
  induction t as [|[k0 c] t IH]; intros Hs.
  - cbn [bump count_of]. destruct (Nat.eqb_spec k k'), (decide (k = k')); lia.
  - rewrite fmap_cons in Hs. apply StronglySorted_inv in Hs as [Hs Hall].
    cbn [fst] in Hall. cbn [bump].
    destruct (Nat.ltb_spec k k0) as [Hlt|Hge].
    + cbn [count_of].
      destruct (Nat.eqb_spec k k') as [->|Hne].
      * rewrite decide_True by done.
        destruct (Nat.eqb_spec k0 k'); [lia|].
        rewrite count_of_absent; [lia|].
        intros Hin. rewrite Forall_forall in Hall. apply Hall in Hin. lia.
      * rewrite decide_False by done. lia.
    + destruct (Nat.eqb_spec k k0) as [->|Hne]; cbn [count_of].
      * destruct (Nat.eqb_spec k0 k'), (decide (k0 = k')); lia.
      * destruct (Nat.eqb_spec k0 k') as [->|Hne'].
        -- rewrite decide_False by done. lia.
        -- by apply IH.
Qed.

Lemma transitions_S (i : nat) (cm : list nat) (L k : nat) :
  transitions (S i) cm L k
  = transitions i cm L k
    + (if decide (0 < i /\ cm !!! (i - 1) = L /\ cm !!! i = k) then 1 else 0).
Proof.
  unfold transitions. destruct i as [|i].
  - cbn. rewrite decide_False by lia. done.
  - replace (S (S i) - 1) with (S i) by lia.
    replace (S i - 1) with i by lia.
    rewrite seq_S, filter_app, length_app. cbn [Nat.add]. f_equal.
    rewrite filter_cons, filter_nil.
    destruct (decide (cm !!! i = L /\ cm !!! S i = k)) as [Hy|Hn].
    + rewrite decide_True by (split; [lia|done]). done.
    + rewrite decide_False by tauto. done.
Qed.

Lemma filter_ext_elem {A} (P Q : A -> Prop) `{!forall x, Decision (P x)}
    `{!forall x, Decision (Q x)} (l : list A) :
  (forall x, x ∈ l -> P x <-> Q x) -> filter P l = filter Q l.
Proof.
  induction l as [|x l IH]; intros Hpq; [done|].
  rewrite !filter_cons.
  pose proof (Hpq x (list_elem_of_here _ _)) as Hx.
  rewrite IH by (intros y Hy; apply Hpq; by apply list_elem_of_further).
  destruct (decide (P x)), (decide (Q x)); tauto || done.
Qed.

Lemma transitions_ext (i : nat) (cm cm' : list nat) (L k : nat) :
  (forall p, p < i -> cm' !!! p = cm !!! p) ->
  transitions i cm' L k = transitions i cm L k.
Proof.
  intros Heq. unfold transitions. f_equal.
  apply filter_ext_elem. intros p Hp. apply elem_of_seq in Hp.
  rewrite !Heq by lia. done.
Qed.

Section Counting.

Variable index : AlphaCode -> AlphaChar.
Variable find_prior : nat -> list AlphaChar -> nat * nat.
Variable subsong channel : Z.
Variable codeSequence : list AlphaCode.

Let seq := alphaSequence index codeSequence.
Let n := length seq.

(** Writing [v] at position [i] and counting the transition into it. *)
Lemma counted_step (i : nat) (cm : list nat) (bfm : list table) (v : nat) :
  good seq i cm bfm -> counted i cm bfm -> i < n ->
  counted (S i) (<[i := v]> cm)
          (if 0 <? i then bump_at (cm !!! (i - 1)) v bfm else bfm).
Proof.
  intros Hg Hc Hi L k.
  assert (Heq : forall p, p < i -> <[i := v]> cm !!! p = cm !!! p).
  { intros p Hp. apply list_lookup_total_insert_ne. lia. }
  assert (Hat : <[i := v]> cm !!! i = v).
  { apply list_lookup_total_insert_eq. rewrite (good_cm_len Hg). done. }
  rewrite transitions_S, (transitions_ext i cm _ L k Heq), <- Hc, Hat.
  destruct (Nat.ltb_spec 0 i) as [Hpos|Hz].
  - rewrite Heq by lia. rewrite bump_at_lookup.
    destruct (good_cm Hg (i - 1) ltac:(lia)) as (Hle & _).
    assert (Hlen : cm !!! (i - 1) < length bfm).
    { rewrite (good_bfm_len Hg). fold n. lia. }
    destruct (decide (cm !!! (i - 1) = L)) as [HL|HL].
    + rewrite decide_True by done.
      rewrite count_of_bump by apply (good_wf Hg). rewrite HL.
      destruct (decide (v = k)).
      * rewrite decide_True by (repeat split; (done || lia)). done.
      * rewrite decide_False by tauto. done.
    + rewrite decide_False by tauto. rewrite decide_False by tauto. lia.
  - rewrite decide_False by lia. lia.
Qed.

(** The inner loop of a back reference keeps the tables counting. *)
Lemma copy_span_counted (count : nat) :
  forall j i cm bfm,
    good seq i cm bfm -> counted i cm bfm -> j < i -> i + count <= n ->
    (forall k, k < count -> seq !! (j + k) = seq !! (i + k)) ->
    counted (i + count) (snd (fst (copy_span count j i cm bfm)))
            (snd (copy_span count j i cm bfm)).
Proof.
  induction count as [|count IH]; intros j i cm bfm Hg Hc Hj Hn Hm.
  - rewrite Nat.add_0_r. done.
  - cbn [copy_span].
    assert (Hgj := good_cm Hg j Hj). destruct Hgj as (Hle & Hfix & Hs).
    set (v := cm !!! j) in *.
    assert (Hstep : good seq (S i) (<[i := v]> cm)
              (if 0 <? i then bump_at (cm !!! (i - 1)) v bfm else bfm)).
    { apply good_step; [done|change (i < n); lia|right; split; [lia|done]|].
      change (seq !! v = seq !! i).
      rewrite Hs. specialize (Hm 0). rewrite !Nat.add_0_r in Hm.
      apply Hm. lia. }
    assert (Hprev : <[i := v]> cm !!! (i - 1) = cm !!! (i - 1) \/ i = 0).
    { destruct i; [by right|left].
      apply list_lookup_total_insert_ne. lia. }
    assert (Hb : (if 0 <? i
                  then bump_at (<[i := v]> cm !!! (i - 1)) v bfm else bfm)
                 = (if 0 <? i then bump_at (cm !!! (i - 1)) v bfm else bfm)).
    { destruct Hprev as [->| ->]; done. }
    rewrite Hb.
    replace (i + S count) with (S i + count) by lia.
    apply IH; [done| |lia|lia|].
    + apply counted_step; [done|done|lia].
    + intros k Hk. replace (S j + k) with (j + S k) by lia.
      replace (S i + k) with (i + S k) by lia. apply Hm. lia.
Qed.

Hypothesis Hsound : sound_prior find_prior seq.

Lemma parse_step_counted (st : ParseState) :
  parse_inv seq st -> ps_i st < n ->
  counted (ps_i st) (copyMap st) (branchFrequencyMap st) ->
  let st' := parse_step index find_prior subsong channel codeSequence st in
  counted (ps_i st') (copyMap st') (branchFrequencyMap st').
Proof.
  intros Hinv Hi Hc. pose proof Hinv as [Hg Hle Hcur Hcov Hlit].
  unfold parse_step. fold seq.
  destruct (find_prior (ps_i st) seq) as [s l] eqn:Hfp. cbn [span_length span_start].
  destruct (Nat.ltb_spec 3 l) as [Hl|Hl].
  - destruct (Hsound _ _ _ Hi Hfp Hl) as (Hs & Hfit & Hmatch).
    pose proof (copy_span_counted l s (ps_i st) _ _ Hg Hc Hs Hfit Hmatch)
      as Hcc.
    destruct (copy_span_good index codeSequence l s (ps_i st) _ _
                Hg Hs Hfit Hmatch) as (cm' & bfm' & E & _).
    rewrite E in *. cbn [fst snd] in Hcc. cbv zeta. cbn [ps_i copyMap branchFrequencyMap].
    exact Hcc.
  - cbv zeta. cbn [ps_i copyMap branchFrequencyMap].
    by apply counted_step.
Qed.

Lemma parse_loop_counted (k : nat) :
  forall st,
    parse_inv seq st ->
    counted (ps_i st) (copyMap st) (branchFrequencyMap st) ->
    let st' := parse_loop index find_prior subsong channel codeSequence k st in
    counted (ps_i st') (copyMap st') (branchFrequencyMap st').
Proof.
  induction k as [|k IH]; intros st Hinv Hc; cbn [parse_loop]; [done|].
  fold seq. fold n. destruct (Nat.ltb_spec (ps_i st) n) as [Hlt|]; [|done].
  apply IH.
  - by apply (parse_step_inv index find_prior subsong channel codeSequence
                Hsound).
  - by apply parse_step_counted.
Qed.

Lemma parse_counted :
  exists st,
    parse index find_prior subsong channel codeSequence = Ok st /\
    good seq n (copyMap st) (branchFrequencyMap st) /\
    counted n (copyMap st) (branchFrequencyMap st).
Proof.
  destruct (parse_completes index find_prior subsong channel codeSequence
              Hsound) as (st & Hp & Hg & _).
  exists st. split; [done|]. split; [done|].
  unfold parse in Hp. fold seq in Hp. fold n in Hp.
  set (st0 := parse_loop _ _ _ _ _ n _) in Hp.
  assert (Hinv0 : parse_inv seq
            (parse_init index subsong channel codeSequence))
    by apply parse_init_inv.
  assert (Hn : ps_i st0 = n).
  { apply parse_loop_progress; [done|done|unfold n, seq; simpl; lia]. }
  assert (Hc : counted (ps_i st0) (copyMap st0) (branchFrequencyMap st0)).
  { apply parse_loop_counted; [done|].
    intros L k. cbn [parse_init ps_i copyMap branchFrequencyMap].
    rewrite replicate_lookup_total by done. done. }
  rewrite Hn in Hp, Hc. destruct (Nat.ltb_spec n n); [lia|].
  injection Hp as <-. done.
Qed.

End Counting.

(** X27.  With a [find_prior] that returns true earlier matches, the
    greedy parse ends, and its copy map sends every position to a
    position at or before it that is its own image and holds the same
    code (the index telling the codes apart). *)
Theorem copyMap_same_code (index : AlphaCode -> AlphaChar)
    (find_prior : nat -> list AlphaChar -> nat * nat)
    (subsong channel : Z) (codeSequence : list AlphaCode) :
  sound_prior find_prior (alphaSequence index codeSequence) ->
  index_injective index codeSequence ->
  exists st,
    parse index find_prior subsong channel codeSequence = Ok st /\
    length (copyMap st) = length codeSequence /\
    forall p, p < length codeSequence ->
      copyMap st !!! p <= p /\
      copyMap st !!! (copyMap st !!! p) = copyMap st !!! p /\
      codeSequence !! (copyMap st !!! p) = codeSequence !! p.
Proof.
  intros Hsound Hinj.
  destruct (parse_counted index find_prior subsong channel codeSequence
              Hsound) as (st & Hp & Hg & _).
  assert (Hlen : length (alphaSequence index codeSequence)
                 = length codeSequence) by apply length_fmap.
  rewrite Hlen in Hg.
  exists st. split; [done|]. split.
  - apply (RoundTrip.cm_length index codeSequence _ _ Hg).
  - intros p Hp'.
    apply (RoundTrip.cm_facts index codeSequence _ _ Hinj Hg p Hp').
Qed.

Lemma copyMap_same_code_witness :
  exists st,
    parse Suffix.index Suffix.find_prior 0 0 motif = Ok st /\
    length (copyMap st) = length motif /\
    forall p, p < length motif ->
      copyMap st !!! p <= p /\
      copyMap st !!! (copyMap st !!! p) = copyMap st !!! p /\
      motif !! (copyMap st !!! p) = motif !! p.
Proof.
  apply (copyMap_same_code Suffix.index Suffix.find_prior 0 0 motif).
  - apply SuffixFacts.find_prior_sound.
  - intros a b _ _ H. exact H.
Defined.

(** X28.  With such a [find_prior], the branch tables the parse leaves
    count the transitions of the copy map exactly: the entry for
    successor [k] in the table of [L] is the number of places where a
    position mapped to [L] is followed by a position mapped to [k], and is
    absent when there are none; every table has its keys in increasing
    order and no count of 0. *)
Theorem branch_counts (index : AlphaCode -> AlphaChar)
    (find_prior : nat -> list AlphaChar -> nat * nat)
    (subsong channel : Z) (codeSequence : list AlphaCode) :
  sound_prior find_prior (alphaSequence index codeSequence) ->
  exists st,
    parse index find_prior subsong channel codeSequence = Ok st /\
    (forall L, wf_table (branchFrequencyMap st !!! L)) /\
    forall L k,
      count_of (branchFrequencyMap st !!! L) k
      = transitions (length codeSequence) (copyMap st) L k.
Proof.
  intros Hsound.
  destruct (parse_counted index find_prior subsong channel codeSequence
              Hsound) as (st & Hp & Hg & Hc).
  assert (Hlen : length (alphaSequence index codeSequence)
                 = length codeSequence) by apply length_fmap.
  rewrite Hlen in Hg, Hc.
  exists st. split; [done|]. split; [apply (good_wf Hg)|done].
Qed.

Lemma branch_counts_witness :
  exists st,
    parse Suffix.index Suffix.find_prior 0 0 motif = Ok st /\
    (forall L, wf_table (branchFrequencyMap st !!! L)) /\
    forall L k,
      count_of (branchFrequencyMap st !!! L) k
      = transitions (length motif) (copyMap st) L k.
Proof.
  apply (branch_counts Suffix.index Suffix.find_prior 0 0 motif).
  apply SuffixFacts.find_prior_sound.
Defined.

End CountFacts.

(** ** The jump table *)

Module JumpMapFacts.
Import Code Huffman JumpMap HuffmanFacts.

Local Open Scope nat_scope.

Lemma load_jumps_perm (fm : frequencies) :
  forall heap, load_jumps fm heap ≡ₚ repeated fm ++ heap.
Proof.
  unfold repeated. induction fm as [|[c n] fm IH]; intros heap; [done|].
  cbn [load_jumps snd]. rewrite filter_cons. cbn [snd].
  destruct (Nat.eqb_spec n 1) as [Hn|Hn].
  - rewrite decide_False by lia. apply IH.
  - rewrite decide_True by done. rewrite IH.
    by rewrite <- Permutation_middle.
Qed.

Section Heap.

Variable extract :
  list (AlphaCode * nat) -> option ((AlphaCode * nat) * list (AlphaCode * nat)).
Hypothesis extract_takes_one : takes_one extract.

Lemma jump_loop_spec (fuel : nat) :
  forall (heap : list (AlphaCode * nat)) (jm : jump_index),
    length heap < fuel ->
    NoDup (fst <$> heap) ->
    (forall p, p ∈ heap -> 2 <= snd p) ->
    (forall c, c ∈ (fst <$> heap) -> jm !! c = None) ->
    exists jm',
      jump_loop extract fuel heap jm = Ok jm' /\
      (forall c i, jm' !! c = Some i ->
         jm !! c = Some i \/
         (i < Nat.min 32 (length heap) /\ c ∈ (fst <$> heap))) /\
      (forall c i, jm !! c = Some i -> jm' !! c = Some i) /\
      (forall i, i < Nat.min 32 (length heap) ->
         exists c, c ∈ (fst <$> heap) /\ jm' !! c = Some i) /\
      (forall c1 c2 i,
         c1 ∈ (fst <$> heap) -> c2 ∈ (fst <$> heap) ->
         jm' !! c1 = Some i -> jm' !! c2 = Some i -> c1 = c2).
Proof.
  induction fuel as [|fuel IH]; intros heap jm Hf Hnd Hcnt Hfresh; [lia|].
  cbn [jump_loop]. pose proof (extract_takes_one heap) as Hex.
  destruct (extract heap) as [[x r]|].
  2:{ subst heap. exists jm. split; [done|]. split; [by left|].
      split; [done|]. split; [cbn; lia|].
      intros c1 c2 i Hc1. by apply elem_of_nil in Hc1. }
  assert (Hlen : length heap = S (length r)) by (by rewrite Hex).
  assert (Hkeys : forall c, c ∈ (fst <$> heap)
                            <-> c = fst x \/ c ∈ (fst <$> r)).
  { intros c. rewrite Hex, fmap_cons, elem_of_cons. done. }
  rewrite Hex, fmap_cons in Hnd. apply NoDup_cons in Hnd as [Hx Hndr].
  assert (Hcx : 2 <= snd x).
  { apply Hcnt. rewrite Hex. apply list_elem_of_here. }
  assert (Hcr : forall p, p ∈ r -> 2 <= snd p).
  { intros p Hp. apply Hcnt. rewrite Hex. by apply list_elem_of_further. }
  destruct (Nat.leb_spec (snd x) 1) as [|_]; [lia|].
  destruct (Nat.ltb_spec 31 (length r)) as [Hbig|Hsmall].
  - destruct (IH r jm) as (jm' & -> & HA & HB & HC & HD);
      [lia|done|done| |].
    { intros c Hc. apply Hfresh, Hkeys. by right. }
    assert (Hnone : jm' !! fst x = None).
    { destruct (jm' !! fst x) as [i|] eqn:E; [|done].
      apply HA in E as [E|[_ E]]; [|done].
      rewrite Hfresh in E; [done|]. apply Hkeys. by left. }
    exists jm'. split; [done|].
    replace (Nat.min 32 (length heap)) with (Nat.min 32 (length r)) by lia.
    split; [|split; [done|split]].
    + intros c i Hc. apply HA in Hc as [Hc|[Hi Hc]]; [by left|right].
      split; [done|]. apply Hkeys. by right.
    + intros i Hi. destruct (HC i Hi) as (c & Hc & E).
      exists c. split; [apply Hkeys; by right|done].
    + intros c1 c2 i H1 H2 E1 E2.
      apply Hkeys in H1 as [->|H1]; [congruence|].
      apply Hkeys in H2 as [->|H2]; [congruence|].
      by apply (HD c1 c2 i).
  - destruct (IH r (<[fst x := length r]> jm))
      as (jm' & -> & HA & HB & HC & HD); [lia|done|done| |].
    { intros c Hc. rewrite lookup_insert_ne by (intros <-; done).
      apply Hfresh, Hkeys. by right. }
    assert (Hxi : jm' !! fst x = Some (length r)).
    { apply HB. apply lookup_insert_eq. }
    assert (Hold : forall c i,
              jm' !! c = Some i -> c ∈ (fst <$> r) -> i < length r).
    { intros c i E Hc. apply HA in E as [E|[Hi _]]; [|lia].
      rewrite lookup_insert_ne in E by (intros <-; done).
      rewrite Hfresh in E; [done|]. apply Hkeys. by right. }
    exists jm'. split; [done|]. split; [|split; [|split]].
    + intros c i Hc. apply HA in Hc as [Hc|[Hi Hc]].
      * destruct (decide (c = fst x)) as [->|Hne].
        -- rewrite lookup_insert_eq in Hc. injection Hc as <-.
           right. split; [lia|]. apply Hkeys. by left.
        -- rewrite lookup_insert_ne in Hc by done. by left.
      * right. split; [lia|]. apply Hkeys. by right.
    + intros c i Hc. apply HB.
      rewrite lookup_insert_ne; [done|]. intros <-.
      rewrite Hfresh in Hc; [done|]. apply Hkeys. by left.
    + intros i Hi. destruct (decide (i = length r)) as [->|Hne].
      * exists (fst x). split; [apply Hkeys; by left|done].
      * destruct (HC i ltac:(lia)) as (c & Hc & E).
        exists c. split; [apply Hkeys; by right|done].
    + intros c1 c2 i H1 H2 E1 E2.
      apply Hkeys in H1 as [->|H1]; apply Hkeys in H2 as [->|H2].
      * done.
      * rewrite Hxi in E1. injection E1 as <-.
        pose proof (Hold _ _ E2 H2). lia.
      * rewrite Hxi in E2. injection E2 as <-.
        pose proof (Hold _ _ E1 H1). lia.
      * by apply (HD c1 c2 i).
Qed.

End Heap.

(** X29.  Whatever the order of the heap, for a frequency map with
    different keys and no count of 0 the jump table gives the jumps seen
    more than once different numbers, all below 32 and with none left out
    from 0 up: a jump has a number only if it was seen more than once,
    and the numbers are those below the lesser of 32 and the number of
    such jumps. *)
Theorem jumpMap_indices
    (extract : list (AlphaCode * nat)
               -> option ((AlphaCode * nat) * list (AlphaCode * nat)))
    (fm : frequencies) :
  takes_one extract ->
  NoDup (fst <$> fm) ->
  (forall p, p ∈ fm -> 1 <= snd p) ->
  exists jm,
    build_jumpMap extract fm = Ok jm /\
    (forall c i, jm !! c = Some i ->
       i < Nat.min 32 (length (repeated fm)) /\
       exists n, (c, n) ∈ fm /\ 2 <= n) /\
    (forall c1 c2 i, jm !! c1 = Some i -> jm !! c2 = Some i -> c1 = c2) /\
    (forall i, i < Nat.min 32 (length (repeated fm)) ->
       exists c, jm !! c = Some i).
Proof.
  intros Hex Hnd Hpos. unfold build_jumpMap.
  pose proof (load_jumps_perm fm []) as Hperm. rewrite app_nil_r in Hperm.
  set (heap := load_jumps fm []) in *.
  assert (Hin : forall p, p ∈ heap -> p ∈ fm /\ 2 <= snd p).
  { intros p Hp. rewrite Hperm in Hp. unfold repeated in Hp.
    apply list_elem_of_filter in Hp as [Hn Hp].
    split; [done|]. pose proof (Hpos p Hp). lia. }
  assert (Hndh : NoDup (fst <$> heap)).
  { rewrite Hperm. unfold repeated.
    eapply sublist_NoDup; [exact Hnd|].
    apply fmap_sublist, sublist_filter. }
  destruct (jump_loop_spec extract Hex (S (length heap)) heap ∅)
    as (jm & E & HA & _ & HC & HD); [lia|done| | |].
  { intros p Hp. by apply Hin. }
  { intros c _. apply lookup_empty. }
  assert (Hl : length heap = length (repeated fm)) by (by rewrite Hperm).
  rewrite Hl in HA, HC.
  assert (Hkey : forall c i, jm !! c = Some i -> c ∈ (fst <$> heap)).
  { intros c i Hc. apply HA in Hc as [Hc|[_ Hc]]; [|done].
    by rewrite lookup_empty in Hc. }
  exists jm. split; [done|]. split; [|split].
  - intros c i Hc. pose proof (Hkey c i Hc) as Hk.
    apply HA in Hc as [Hc|[Hi _]]; [by rewrite lookup_empty in Hc|].
    split; [done|].
    apply list_elem_of_fmap in Hk as ([c' n] & -> & Hp).
    exists n. by apply Hin in Hp.
  - intros c1 c2 i E1 E2.
    apply (HD c1 c2 i); [by apply (Hkey c1 i)|by apply (Hkey c2 i)|done..].
  - intros i Hi. destruct (HC i Hi) as (c & _ & Hc). by exists c.
Qed.

Lemma take_head_takes_one : takes_one take_head.
Proof. intros [|x r]; cbn [take_head]; reflexivity. Qed.

Lemma jumpMap_indices_witness :
  exists jm,
    build_jumpMap take_head two_codes = Ok jm /\
    (forall c i, jm !! c = Some i ->
       i < Nat.min 32 (length (repeated two_codes)) /\
       exists n, (c, n) ∈ two_codes /\ 2 <= n) /\
    (forall c1 c2 i, jm !! c1 = Some i -> jm !! c2 = Some i -> c1 = c2) /\
    (forall i, i < Nat.min 32 (length (repeated two_codes)) ->
       exists c, jm !! c = Some i).
Proof.
  apply (jumpMap_indices take_head two_codes).
  - exact take_head_takes_one.
  - exact (proj1 TreeFacts.two_codes_keys).
  - exact TreeFacts.two_codes_counts.
Defined.

End JumpMapFacts.
